(** * Colloids: trajectory linking, 2D-to-3D reconstruction, neighbour
      queries, topological pairs and bond-orientational order.

    A shallow embedding of
      - [multiscale/traj.cpp]          (module [Traj]),
      - [multiscale/reconstructor.cpp] (module [Recon]),
      - [lib/particles.cpp]            (modules [Parts], [Topo], [Boo]),
      - [mains/linkboo.cpp], [mains/boo.cpp] (module [Mains], one loop of
        [main] of the first, the output files of the second),
    with the properties of the written specification, and further
    properties read off the code, stated and proved over it.

    Numbers.  The positions, radii and ranges of the particle sets
    ([Parts]) are C++ [double]s and are modelled as IEEE binary64
    floats ([PrimFloat]), every difference, product and sum rounded to
    the nearest float, ties to even, as compiled without fused
    multiply-add or extended precision: whether a particle is a
    neighbour is decided by the rounded values, and the properties are
    stated and proved for them.  So is the normalisation of the
    bond-order descriptors ([Boo]), which divides, possibly by zero.
    In [Traj] the link distances are only compared with each other,
    and the properties of [Recon] are about which pairs reach the
    distance filter and where the detections go; there the numbers are
    exact rationals [Q], which contain every finite [double].

    Undefined behaviour.  Reading a [std::vector] past its end,
    dereferencing an end iterator and the like are undefined in C++; the
    embedding makes them an explicit outcome instead of guessing a
    value. *)

From Stdlib Require Import QArith Qround Lqa Floats String.
From stdpp Require Import base option list sorting.

Local Open Scope nat_scope.

(** ** Outcomes of a member function on an object of state [S] *)

Inductive exception : Type :=
| invalid_argument (what : string)
| logic_error (what : string).

Inductive outcome (S : Type) : Type :=
| Done (s : S)                       (* normal return, new state [s] *)
| Throws (e : exception) (s : S)     (* exception [e], object left as [s] *)
| Undefined.                         (* undefined behaviour *)
Arguments Done {S} s.
Arguments Throws {S} e s.
Arguments Undefined {S}.

(** [x < y] on numbers. *)
Definition Qltb (x y : Q) : bool := negb (Qle_bool y x).

(** ** multiscale/traj.cpp *)

Module Traj.

(** [struct Link : std::pair<size_t,size_t>] with a [distance];
    [operator<] compares the distances only. *)
Record Link : Type := mkLink { first : nat; second : nat; distance : Q }.

Definition Link_lt (a b : Link) : bool := Qltb (distance a) (distance b).

(** [std::list<Link>::sort()] is a stable sort by [operator<].  Its
    result is modelled by a stable insertion sort: an element moves in
    front of exactly those that are not strictly smaller. *)
Fixpoint insert_link (x : Link) (l : list Link) : list Link :=
  match l with
  | [] => [x]
  | y :: l' => if Link_lt y x then y :: insert_link x l' else x :: y :: l'
  end.

Definition sort (l : list Link) : list Link := foldr insert_link [] l.

(** The loop [bonds.push_back(Link(p_from[i], p_to[i], distances[i]))]
    for [i < distances.size()], the three arrays having equal sizes. *)
Fixpoint make_links (distances : list Q) (p_from p_to : list nat) : list Link :=
  match distances, p_from, p_to with
  | d :: ds, f :: fs, t :: ts => mkLink f t d :: make_links ds fs ts
  | _, _, _ => []
  end.

(** Modelled from the spec: the class [Traj] of [traj.hpp], which is
    not part of the sources: "a starting frame index plus an ascending
    sequence of positions (one per frame until termination)". *)
Record Traj : Type := mkTraj { start : nat; steps : list nat }.

(** Modelled from the spec: [Traj(start, p)], the trajectory that
    starts at frame [start] with position [p], and [Traj::push_back],
    which adds the position in the next frame ([traj.hpp]). *)
Definition Traj_new (start_frame p : nat) : Traj := mkTraj start_frame [p].
Definition Traj_push_back (tr : Traj) (p : nat) : Traj :=
  mkTraj (start tr) (steps tr ++ [p]).

(** Modelled from the spec: the two members of [TrajIndex], declared
    in [traj.hpp]: "dual mapping [tr2pos]: Traj -> sequence of
    positions and [pos2tr]: frame -> (position index -> trajectory
    id)". *)
Record TrajIndex : Type := mkTrajIndex {
  tr2pos : list Traj;          (* trajectory id -> positions *)
  pos2tr : list (list nat)     (* frame -> position -> trajectory id *)
}.

(** [TrajIndex::TrajIndex(nb_initial_positions)]: the two member
    initialisers only reserve room; the loops create one singleton
    trajectory per position and the identity map of frame 0. *)
Definition TrajIndex_new (nb_initial_positions : nat) : TrajIndex :=
  {| tr2pos := Traj_new 0 <$> seq 0 nb_initial_positions;
     pos2tr := [seq 0 nb_initial_positions] |}.

(** Modelled from the spec: the accessors [nbFrames()], [size()] and
    [getTraj(t, p)] of [traj.hpp]: the number of frames, the number of
    trajectories, and the trajectory [pos2tr[t][p]] of position [p] of
    frame [t]. *)
Definition nbFrames (ti : TrajIndex) : nat := length (pos2tr ti).
Definition size (ti : TrajIndex) : nat := length (tr2pos ti).

Definition getTraj (ti : TrajIndex) (t p : nat) : option nat :=
  pos2tr ti !! t ≫= (.!! p).

(** [std::max_element] returns the end iterator on an empty range. *)
Definition max_element (l : list nat) : option nat :=
  match l with
  | [] => None
  | x :: l' => Some (foldl Nat.max x l')
  end.

(** The locals of [add_Frame] while it links: the two bitmaps, the new
    last frame [pos2tr.back()] and the trajectories. *)
Record LinkState : Type := mkLinkState {
  from_used : list bool;
  to_used : list bool;
  cur : list nat;
  trajs : list Traj
}.

(** Body of the [if] of the linking loop. *)
Definition consume (prev : list nat) (st : LinkState) (b : Link) : option LinkState :=
  tr ← (prev !! first b : option nat);
  traj ← (trajs st !! tr : option Traj);
  Some {| from_used := <[first b := true]> (from_used st);
          to_used := <[second b := true]> (to_used st);
          cur := <[second b := tr]> (cur st);
          trajs := <[tr := Traj_push_back traj (second b)]> (trajs st) |}.

(** One iteration of the linking loop; [None] is an access out of
    range.  [&&] does not read [to_used] once [from_used] is set. *)
Definition link_step (prev : list nat) (st : LinkState) (b : Link) : option LinkState :=
  fu ← (from_used st !! first b : option bool);
  if fu : bool then Some st
  else
    tu ← (to_used st !! second b : option bool);
    if tu : bool then Some st else consume prev st b.

Fixpoint link_loop (prev : list nat) (st : LinkState) (bonds : list Link) : option LinkState :=
  match bonds with
  | [] => Some st
  | b :: bonds' => link_step prev st b ≫= λ st', link_loop prev st' bonds'
  end.

(** One iteration of the loop that starts the new trajectories; [p]
    ranges below [to_used.size()]. *)
Definition start_step (frame : nat) (st : LinkState) (p : nat) : LinkState :=
  match to_used st !! p with
  | Some false =>
      {| from_used := from_used st;
         to_used := to_used st;
         cur := <[p := length (trajs st)]> (cur st);
         trajs := trajs st ++ [Traj_new frame p] |}
  | _ => st
  end.

Definition start_loop (frame : nat) (st : LinkState) : LinkState :=
  foldl (start_step frame) st (seq 0 (length (to_used st))).

Definition msg_sizes : string :=
  "TrajIndex::add_Frame: All arguments must have the same size".
Definition msg_largest : string :=
  "TrajIndex::add_Frame: The largest particle index in the new frame is larger than the new frame size".

Definition add_Frame (ti : TrajIndex) (frame_size : nat)
    (distances : list Q) (p_from p_to : list nat) : outcome TrajIndex :=
  if negb (length distances =? length p_from) || negb (length p_from =? length p_to)
  then Throws (invalid_argument msg_sizes) ti
  else
    match max_element p_to with
    | None => Undefined                 (* [*p_to.end()] *)
    | Some m =>
        if frame_size <=? m
        then Throws (invalid_argument msg_largest) ti
        else
          let bonds := sort (make_links distances p_from p_to) in
          match last (pos2tr ti) with
          | None => Undefined           (* [back()] of an empty container *)
          | Some prev =>
              let st0 := {| from_used := replicate (length prev) false;
                            to_used := replicate frame_size false;
                            cur := replicate frame_size 0;
                            trajs := tr2pos ti |} in
              match link_loop prev st0 bonds with
              | None => Undefined
              | Some st1 =>
                  let st2 := start_loop (nbFrames ti) st1 in
                  Done {| tr2pos := trajs st2; pos2tr := pos2tr ti ++ [cur st2] |}
              end
          end
    end.

(** *** The linking rule in the words of the specification

    Links are scanned in the given order; a link is accepted iff neither
    its from-position nor its to-position was used by an earlier
    accepted link. *)
Definition used_by (acc : list Link) (b : Link) : bool :=
  existsb (λ a, (first a =? first b) || (second a =? second b)) acc.

Fixpoint greedy_from (acc : list Link) (l : list Link) : list Link :=
  match l with
  | [] => acc
  | b :: l' => greedy_from (if used_by acc b then acc else acc ++ [b]) l'
  end.

Definition greedy (l : list Link) : list Link := greedy_from [] l.

End Traj.

(** ** multiscale/reconstructor.cpp *)

Module Recon.
Import Traj.

(** Modelled from the spec: [Center2D] and [Center3D], declared
    outside the sources: "a position (2 or 3 components), a
    scale/radius r, an intensity"; [Center3D(c, z)] is the centre
    "(x, y, t, r, intensity)" at height [z]. *)
Record Center2D : Type := mkCenter2D {
  c2_x : Q; c2_y : Q; c2_r : Q; c2_intensity : Q
}.

Record Center3D : Type := mkCenter3D {
  c3_x : Q; c3_y : Q; c3_z : Q; c3_r : Q; c3_intensity : Q
}.

(** The frame index [t] (a [size_t]) converted to [double]. *)
Definition frame_z (t : nat) : Q := inject_Z (Z.of_nat t).

Definition Center3D_of (c : Center2D) (t : nat) : Center3D :=
  {| c3_x := c2_x c; c3_y := c2_y c; c3_z := frame_z t;
     c3_r := c2_r c; c3_intensity := c2_intensity c |}.

Abbreviation Frame := (list Center2D).
Abbreviation Cluster := (list Center3D).

(** Modelled from the spec: [RStarBoundingBox<2,double>] of the
    R*-tree library, which is not part of the sources: one interval
    [edges[i].first, edges[i].second] per axis. *)
Record BBox2 : Type := mkBBox2 {
  x_lo : Q; x_hi : Q; y_lo : Q; y_hi : Q
}.

Definition get_bb (c : Center2D) (tolerance : Q) : BBox2 :=
  {| x_lo := c2_x c - c2_r c * tolerance;
     x_hi := c2_x c + c2_r c * tolerance;
     y_lo := c2_y c - c2_r c * tolerance;
     y_hi := c2_y c + c2_r c * tolerance |}%Q.

(** Modelled from the spec: the R*-tree of [RStarTree/RStarTree.h],
    which is not part of the sources.  "[query_overlap(box)]: ids whose
    stored boxes intersect [box]; order is unspecified; duplicates are
    not produced."  The tree is the bag of its leaves, and a query
    visits the leaves in insertion order. *)
Abbreviation RTree := (list (nat * BBox2)).

Definition Insert (tree : RTree) (id : nat) (bb : BBox2) : RTree :=
  tree ++ [(id, bb)].

Definition overlaps (a b : BBox2) : bool :=
  Qle_bool (x_lo a) (x_hi b) && Qle_bool (x_lo b) (x_hi a) &&
  Qle_bool (y_lo a) (y_hi b) && Qle_bool (y_lo b) (y_hi a).

Definition Query_overlapping (tree : RTree) (bb : BBox2) : list nat :=
  fst <$> filter (λ leaf, overlaps (snd leaf) bb = true) tree.

(** [pow(a[0] - b[0], 2) + pow(a[1] - b[1], 2)] *)
Definition sqdist (a b : Center2D) : Q :=
  ((c2_x a - c2_x b) * (c2_x a - c2_x b) +
   (c2_y a - c2_y b) * (c2_y a - c2_y b))%Q.

(** [pow((a.r + b.r) * tolerance, 2)] *)
Definition sqreach (a b : Center2D) (tolerance : Q) : Q :=
  (((c2_r a + c2_r b) * tolerance) * ((c2_r a + c2_r b) * tolerance))%Q.

(** The loop [for p < fr.size(): tree.Insert(p, get_bb(fr[p]))]. *)
Fixpoint index_frame (tree : RTree) (p : nat) (fr : Frame) : RTree :=
  match fr with
  | [] => tree
  | c :: fr' => index_frame (Insert tree p (get_bb c 1)) (S p) fr'
  end.

(** The inner loop over the gathered ids [ngb1] for the previous
    particle [p] at [c]; the ids come from the tree built over [fr], so
    [fr[*it]] is always inside [fr]. *)
Definition links_of (fr : Frame) (tolerance : Q) (p : nat) (c : Center2D)
    (ngb1 : list nat) : list Link :=
  it ← ngb1;
  match fr !! it with
  | Some c' =>
      let dist := sqdist c c' in
      if Qltb dist (sqreach c c' tolerance) then [mkLink p it dist] else []
  | None => []
  end.

(** The three output arrays grow together, one entry per kept pair:
    they are the columns [distance], [first] and [second] of the list
    returned here. *)
Definition links_by_RStarTree (last_frame fr : Frame) (tolerance : Q) : list Link :=
  let tree := index_frame [] 0 fr in
  mjoin (imap (λ p c, links_of fr tolerance p c
                        (Query_overlapping tree (get_bb c tolerance)))
              last_frame).

(** The reference enumeration: every pair, [from]-major, with its
    squared planar distance. *)
Definition links_by_brute_force (last_frame fr : Frame) : list Link :=
  mjoin (imap (λ f cf, imap (λ t ct, mkLink f t (sqdist cf ct)) fr) last_frame).

Record Reconstructor : Type := mkReconstructor {
  clusters : list Cluster;
  trajectories : option TrajIndex;      (* a null pointer until the first frame *)
  last_frame : Frame
}.

Definition Reconstructor_new : Reconstructor :=
  {| clusters := []; trajectories := None; last_frame := [] |}.

Definition clear (r : Reconstructor) : Reconstructor := Reconstructor_new.

(** Modelled from the spec: [Reconstructor::empty()] and
    [Reconstructor::size()] of [reconstructor.h], which is not part of
    the sources.  The reconstructor is empty until a first frame has
    been pushed; its size is the number of frames pushed, which is the
    time step [t] of the frame being added. *)
Definition empty (r : Reconstructor) : bool :=
  match trajectories r with None => true | Some _ => false end.

Definition size (r : Reconstructor) : nat :=
  match trajectories r with None => 0 | Some ti => nbFrames ti end.

(** The body of the loop over the positions [p] of the new frame. *)
Definition cluster_step (ti : TrajIndex) (t old_traj : nat)
    (cls : list Cluster) (p : nat) (c : Center2D) : option (list Cluster) :=
  tr ← (getTraj ti t p : option nat);
  if tr <? old_traj then
    cl ← (cls !! tr : option Cluster);
    Some (<[tr := cl ++ [Center3D_of c t]]> cls)
  else Some (cls ++ [[Center3D_of c t]]).

Fixpoint cluster_loop (ti : TrajIndex) (t old_traj : nat)
    (cls : list Cluster) (p : nat) (fr : Frame) : option (list Cluster) :=
  match fr with
  | [] => Some cls
  | c :: fr' =>
      cluster_step ti t old_traj cls p c ≫= λ cls',
      cluster_loop ti t old_traj cls' (S p) fr'
  end.

Definition push_back (r : Reconstructor) (fr : Frame) (tolerance : Q)
    : outcome Reconstructor :=
  if empty r then
    Done {| clusters := clusters r ++ ((λ c, [Center3D_of c 0]) <$> fr);
            trajectories := Some (TrajIndex_new (length fr));
            last_frame := fr |}
  else
    match trajectories r with
    | None => Undefined                 (* [trajectories->] on a null pointer *)
    | Some ti =>
        let links := links_by_RStarTree (last_frame r) fr tolerance in
        let t := size r in
        let old_traj := Traj.size ti in
        match add_Frame ti (length fr)
                (distance <$> links) (first <$> links) (second <$> links) with
        | Done ti' =>
            match cluster_loop ti' t old_traj (clusters r) 0 fr with
            | Some cls =>
                Done {| clusters := cls; trajectories := Some ti';
                        last_frame := fr |}
            | None => Undefined
            end
        | Throws e ti' =>
            Throws e {| clusters := clusters r; trajectories := Some ti';
                        last_frame := last_frame r |}
        | Undefined => Undefined
        end
    end.

(** [reachable frames r]: [r] is the reconstructor after the frames
    [frames] have been pushed, since its construction or its last
    [clear]; a caller that catches an exception keeps the object. *)
Inductive reachable : list Frame → Reconstructor → Prop :=
| reach_new : reachable [] Reconstructor_new
| reach_clear frames r : reachable frames r → reachable [] (clear r)
| reach_push frames r fr tolerance r' :
    reachable frames r → push_back r fr tolerance = Done r' →
    reachable (frames ++ [fr]) r'
| reach_throw frames r fr tolerance e r' :
    reachable frames r → push_back r fr tolerance = Throws e r' →
    reachable frames r'.

End Recon.


(** ** IEEE binary64: the values of the floats

    The positions of module [Parts] are [double]s, and the code decides
    what is a neighbour by comparing rounded sums of rounded squares:
    the floats are the primitive binary64 floats of the Standard
    Library, whose operations are specified by [SpecFloat].  This
    module names what a float holds and what an operation computes
    before and after rounding. *)

Module Binary64.
Local Open Scope Z_scope.

(** The value of a float: not a number, an infinity with its sign, or
    a finite value counted in units of [2^-2148], the square of the
    smallest denormal, so that sums and products of floats are
    integers. *)
Inductive xval : Type :=
| XNaN
| XInf (s : bool)
| XFin (z : Z).

Definition Zof (s : bool) (m : positive) (e : Z) : Z :=
  cond_Zopp s (Zpos m * 2 ^ (e + 2148)).

Definition SFx (x : spec_float) : xval :=
  match x with
  | S754_nan => XNaN
  | S754_infinity s => XInf s
  | S754_zero _ => XFin 0
  | S754_finite s m e => XFin (Zof s m e)
  end.

Definition xv (x : float) : xval := SFx (Prim2SF x).

(** The rational a finite float holds (0 for the others). *)
Definition exact (x : float) : Q :=
  match Prim2SF x with
  | S754_finite s m e => (inject_Z (cond_Zopp s (Zpos m)) * 2 ^ e)%Q
  | _ => 0%Q
  end.

(** A float that is neither a NaN nor an infinity. *)
Definition finite (x : float) : bool :=
  (neg_infinity <? x)%float && (x <? infinity)%float.

(** [M / 2^n] rounded to the nearest integer, a tie going to the even
    one. *)
Definition rne (M n : Z) : Z :=
  let q := M / 2 ^ n in
  match 2 * (M mod 2 ^ n) ?= 2 ^ n with
  | Lt => q
  | Eq => if Z.even q then q else q + 1
  | Gt => q + 1
  end.

(** The state of [shr] after [k] single shifts of the mantissa [M]:
    the quotient, the last bit shifted out, and whether a bit before
    it was set. *)
Definition shr_state (M : Z) (k : nat) : shr_record :=
  match k with
  | O => Build_shr_record M false false
  | S k' => Build_shr_record (M / 2 ^ Z.of_nat k) (Z.odd (M / 2 ^ Z.of_nat k'))
              (negb (M mod 2 ^ Z.of_nat k' =? 0))
  end.

(** The tail of [binary_round_aux]: the mantissa [N] at exponent [e]
    after rounding is put in canonical form and checked for overflow. *)
Definition encode (s : bool) (N e : Z) : spec_float :=
  let '(mrs, e') := shr_fexp prec emax N e loc_Exact in
  match shr_m mrs with
  | Z0 => S754_zero s
  | Zpos m => if e' <=? emax - prec then S754_finite s m e' else S754_infinity s
  | Zneg _ => S754_nan
  end.

(** The mantissas and exponents [encode] is applied to. *)
Definition rounded (N e : Z) : Prop :=
  0 <= N <= 2 ^ 53 ∧ -1074 <= e ∧ (-1074 < e → 2 ^ 52 <= N).

(** Rounding a positive value [z], in units of [2^-2148], to 53
    significant bits, or to a multiple of the smallest denormal, which
    is [2^1074] units. *)
Definition rshift (z : Z) : Z := Z.max (Zdigits2 z - 53) 1074.

Definition rv (z : Z) : Z := rne z (rshift z) * 2 ^ rshift z.

(** Rounding to binary64: what is rounded to [2^1024] or more
    overflows to an infinity. *)
Definition xrnd (z : Z) : xval :=
  match z with
  | Z0 => XFin 0
  | Zpos _ => if rv z <? 2 ^ 3172 then XFin (rv z) else XInf false
  | Zneg _ => if rv (- z) <? 2 ^ 3172 then XFin (- rv (- z)) else XInf true
  end.

(** The operations on values: the exact result, rounded. *)
Definition xopp (a : xval) : xval :=
  match a with
  | XNaN => XNaN
  | XInf s => XInf (negb s)
  | XFin z => XFin (- z)
  end.

Definition xadd (a b : xval) : xval :=
  match a, b with
  | XNaN, _ | _, XNaN => XNaN
  | XInf s, XInf t => if Bool.eqb s t then XInf s else XNaN
  | XInf s, XFin _ => XInf s
  | XFin _, XInf t => XInf t
  | XFin x, XFin y => xrnd (x + y)
  end.

Definition xsub (a b : xval) : xval := xadd a (xopp b).

Definition xmul (a b : xval) : xval :=
  match a, b with
  | XNaN, _ | _, XNaN => XNaN
  | XInf s, XInf t => XInf (xorb s t)
  | XInf s, XFin z => if z =? 0 then XNaN else XInf (xorb s (z <? 0))
  | XFin z, XInf s => if z =? 0 then XNaN else XInf (xorb (z <? 0) s)
  | XFin x, XFin y => xrnd (x * y / 2 ^ 2148)
  end.

(** The order on values; a NaN compares with nothing. *)
Definition xcompare (a b : xval) : option comparison :=
  match a, b with
  | XNaN, _ | _, XNaN => None
  | XInf s, XInf t =>
      Some (match s, t with
            | true, true | false, false => Eq
            | true, false => Lt
            | false, true => Gt
            end)
  | XInf s, XFin _ => Some (if s then Lt else Gt)
  | XFin _, XInf s => Some (if s then Gt else Lt)
  | XFin x, XFin y => Some (x ?= y)
  end.

Definition xltb (a b : xval) : bool :=
  match xcompare a b with Some Lt => true | _ => false end.

Definition xleb (a b : xval) : bool :=
  match xcompare a b with Some (Lt | Eq) => true | _ => false end.

(** Values that are not below zero (a NaN is not), and values a float
    can hold. *)
Definition nonnegv (a : xval) : Prop :=
  match a with
  | XNaN => True
  | XInf s => s = false
  | XFin z => 0 <= z
  end.

Definition gridv (a : xval) : Prop :=
  match a with
  | XFin z => xrnd z = XFin z
  | _ => True
  end.

End Binary64.

(** ** lib/particles.cpp: positions, spatial queries, neighbour lists *)

Module Parts.

(** Modelled from the spec: [Coord] ([index.hpp], not part of the
    sources), the "triple of doubles" with element-wise arithmetic and
    the dot product, the three products being added from left to
    right. *)
Record Coord : Type := mkCoord { cx : float; cy : float; cz : float }.

Definition Coord_minus (a b : Coord) : Coord :=
  mkCoord (cx a - cx b)%float (cy a - cy b)%float (cz a - cz b)%float.

Definition dot (a b : Coord) : float :=
  (cx a * cx b + cy a * cy b + cz a * cz b)%float.

(** Modelled from the spec: [BoundingBox] ([index.hpp]): "three axis
    intervals", [edges[i].first] and [edges[i].second]. *)
Record BoundingBox : Type := mkBox { edges_first : Coord; edges_second : Coord }.

(** [Particles::bounds(center, r)]; [bounds(p)] is [bounds(p, 0)]. *)
Definition bounds (center : Coord) (r : float) : BoundingBox :=
  {| edges_first :=
       mkCoord (cx center - r)%float (cy center - r)%float (cz center - r)%float;
     edges_second :=
       mkCoord (cx center + r)%float (cy center + r)%float (cz center + r)%float |}.

(** Modelled from the spec: the spatial index ([index.hpp]), which
    "maps leaf ids (particle indices) to bounding boxes". *)
Abbreviation SpatialIndex := (list (nat * BoundingBox)).

(** Modelled from the spec: a leaf box lies in a query box, "a
    conjunction of interval containments". *)
Definition enclosesb (b leaf : BoundingBox) : bool :=
  (cx (edges_first b) <=? cx (edges_first leaf))%float &&
  (cx (edges_second leaf) <=? cx (edges_second b))%float &&
  (cy (edges_first b) <=? cy (edges_first leaf))%float &&
  (cy (edges_second leaf) <=? cy (edges_second b))%float &&
  (cz (edges_first b) <=? cz (edges_first leaf))%float &&
  (cz (edges_second leaf) <=? cz (edges_second b))%float.

Definition encloses (b leaf : BoundingBox) : Prop := enclosesb b leaf = true.

(** The ids a query for the leaves enclosed in [b] may return, in the
    order of insertion. *)
Definition enclosed_ids (idx : SpatialIndex) (b : BoundingBox) : list nat :=
  fst <$> filter (λ leaf, enclosesb b (snd leaf) = true) idx.

Abbreviation NgbList := (list (list nat)).

(** Modelled from the spec: [Bond] ([index.hpp]): "unordered index
    pair stored as (low, high) with low < high"; [Bond_of a b] is the
    constructor [Bond(a, b)]. *)
Record Bond : Type := mkBond { low : nat; high : nat }.

Definition Bond_of (a b : nat) : Bond := mkBond (Nat.min a b) (Nat.max a b).

#[export] Instance Bond_eq_dec : EqDecision Bond.
Proof. solve_decision. Defined.

(** Modelled from the spec: the members of [Particles], declared in
    [particles.hpp]: "ordered sequence of positions, one scalar radius
    shared by all, one BoundingBox, optional spatial index, and
    optional neighbor list". *)
Record Particles : Type := mkParticles {
  coords : list Coord;                 (* the vector of positions itself *)
  radius : float;
  bb : BoundingBox;
  index : option SpatialIndex;         (* [hasIndex()] *)
  neighboursList : option NgbList
}.

(** [size()] of the vector of positions. *)
Definition size (ps : Particles) : nat := length (coords ps).

(** Results of [const] member functions. *)
Inductive result (A : Type) : Type :=
| Ret (a : A)
| Raise (e : exception)
| Undef.
Arguments Ret {A} a.
Arguments Raise {A} e.
Arguments Undef {A}.

#[export] Instance result_ret : MRet result := λ A a, Ret a.
#[export] Instance result_bind : MBind result := λ A B f m,
  match m with
  | Ret a => f a
  | Raise e => Raise e
  | Undef => Undef
  end.

(** [this->operator[](i)]: reading past the end is undefined. *)
Definition at_ (ps : Particles) (i : nat) : result Coord :=
  match coords ps !! i with
  | Some c => Ret c
  | None => Undef
  end.

Section queries.
(** Modelled from the spec: the query of the R*-tree index
    ([RStarIndex_S::getEnclosed], not part of the sources).  Its
    contract, stated with the properties, is the one of the written
    specification: the ids of the leaves whose box lies in the query
    box, in an unspecified order, without duplicates. *)
Variable getEnclosed : SpatialIndex → BoundingBox → list nat.

(** The radius given by the default constructor [Particles()], which
    is declared in [particles.hpp]. *)
Variable default_radius : float.

Definition msg_no_index : string :=
  "Set a spatial index before doing spatial queries !".

(** Modelled from the spec: [Particles::selectEnclosed] (declared in
    [particles.hpp]): "[enclosed(box)]: ids whose positions lie in
    [box]"; "spatial query without index: fatal (logic error)". *)
Definition selectEnclosed (ps : Particles) (b : BoundingBox) : result (list nat) :=
  match index ps with
  | Some idx => Ret (getEnclosed idx b)
  | None => Raise (logic_error msg_no_index)
  end.

(** Modelled from the spec: [Particles::getDiff] (declared in
    [particles.hpp]) for the open box: the vector from [from] to the
    particle [to]. *)
Definition getDiff (ps : Particles) (from : Coord) (to : nat) : result Coord :=
  c ← at_ ps to; mret (Coord_minus c from).

(** The filtering loop shared by the two neighbour queries;
    [skip] is the [continue] of the query by index. *)
Fixpoint NormTwo (ps : Particles) (center : Coord) (rSq : float)
    (skip : nat → bool) (NormOne : list nat) : result (list nat) :=
  match NormOne with
  | [] => Ret []
  | p :: rest =>
      if skip p then NormTwo ps center rSq skip rest
      else
        diff ← getDiff ps center p;
        kept ← NormTwo ps center rSq skip rest;
        mret (if (dot diff diff <? rSq)%float then p :: kept else kept)
  end.

(** [getEuclidianNeighbours(const Coord &center, range)] *)
Definition getEuclidianNeighbours (ps : Particles) (center : Coord) (range : float)
    : result (list nat) :=
  NormOneNeighbours ← selectEnclosed ps (bounds center range);
  NormTwo ps center (range * range)%float (λ _, false) NormOneNeighbours.

(** [getEuclidianNeighbours(const size_t &center, range)] *)
Definition getEuclidianNeighbours_at (ps : Particles) (center : nat) (range : float)
    : result (list nat) :=
  c ← at_ ps center;
  NormOneNeighbours ← selectEnclosed ps (bounds c range);
  NormTwo ps c (range * range)%float (λ p, p =? center) NormOneNeighbours.

(** [Particles::push_back] *)
Definition push_back (ps : Particles) (p : Coord) : Particles :=
  {| coords := coords ps ++ [p];
     radius := radius ps;
     bb := bb ps;
     index := (λ idx, idx ++ [(size ps, bounds p 0%float)]) <$> index ps;
     neighboursList := neighboursList ps |}.

(** [Particles::makeRTreeIndex] *)
Definition makeRTreeIndex (ps : Particles) : Particles :=
  {| coords := coords ps;
     radius := radius ps;
     bb := bb ps;
     index := Some (imap (λ i p, (i, bounds p 0%float)) (coords ps));
     neighboursList := neighboursList ps |}.

(** [Particles::cut]: the loop over the positions of [this]. *)
Fixpoint cut_loop (out : Particles) (sep : float) (l : list Coord) : result Particles :=
  match l with
  | [] => Ret out
  | p :: rest =>
      ngb ← getEuclidianNeighbours out p sep;
      cut_loop (match ngb with [] => push_back out p | _ => out end) sep rest
  end.

Definition cut (ps : Particles) (sep : float) : result Particles :=
  cut_loop {| coords := []; radius := default_radius; bb := bb ps;
              index := Some []; neighboursList := None |}
           sep (coords ps).

(** [makeNgbList(const double &bondLength)]: the loop over [p < size()]. *)
Fixpoint ngb_loop (ps : Particles) (sep : float) (p n : nat) : result NgbList :=
  match n with
  | 0 => Ret []
  | S n' =>
      l ← getEuclidianNeighbours_at ps p sep;
      rest ← ngb_loop ps sep (S p) n';
      mret (l :: rest)
  end.

Definition with_ngb (ps : Particles) (ngb : NgbList) : Particles :=
  {| coords := coords ps; radius := radius ps; bb := bb ps;
     index := index ps; neighboursList := Some ngb |}.

Definition makeNgbList (ps : Particles) (bondLength : float) : result Particles :=
  let sep := (2 * bondLength * radius ps)%float in
  ngb ← ngb_loop ps sep 0 (size ps);
  mret (with_ngb ps ngb).

(** [ngb[i].insert(ngb[i].end(), j)] *)
Definition append_ngb (ngb : NgbList) (i j : nat) : result NgbList :=
  match ngb !! i with
  | Some l => Ret (<[i := l ++ [j]]> ngb)
  | None => Undef
  end.

(** [makeNgbList(const BondSet &bonds)]: the loop over the bonds of the
    set, in its iteration order. *)
Fixpoint bonds_loop (ngb : NgbList) (bonds : list Bond) : result NgbList :=
  match bonds with
  | [] => Ret ngb
  | b :: rest =>
      ngb1 ← append_ngb ngb (low b) (high b);
      ngb2 ← append_ngb ngb1 (high b) (low b);
      bonds_loop ngb2 rest
  end.

Definition makeNgbList_bonds (ps : Particles) (bonds : list Bond) : result Particles :=
  ngb ← bonds_loop (replicate (size ps) []) bonds;
  mret (with_ngb ps ngb).

(** Element-wise product of two [Coord]s ([std::valarray]). *)
Definition Coord_times (a v : Coord) : Coord :=
  mkCoord (cx a * cx v)%float (cy a * cy v)%float (cz a * cz v)%float.

(** [Particles::removeShortRange]: the loop over [p < size()], [c]
    being the position [p] of [this]. *)
Fixpoint short_range_loop (ps out : Particles) (sep : float) (p : nat)
    (l : list Coord) : result Particles :=
  match l with
  | [] => Ret out
  | c :: rest =>
      ngb ← getEuclidianNeighbours_at ps p sep;
      short_range_loop ps (match ngb with [] => push_back out c | _ => out end)
                       sep (S p) rest
  end.

(** [Particles::removeShortRange]: the copy starts from the default
    constructor and gets no index. *)
Definition removeShortRange (ps : Particles) (sep : float) : result Particles :=
  match index ps with
  | None => Raise (logic_error msg_no_index)
  | Some _ =>
      short_range_loop ps
        {| coords := []; radius := default_radius; bb := bb ps;
           index := None; neighboursList := None |}
        sep 0 (coords ps)
  end.

(** [Particles::operator*=(const Coord &v)]: the upper edges of the box
    and every position are scaled; the index is not touched. *)
Definition times_Coord (ps : Particles) (v : Coord) : Particles :=
  {| coords := (λ p, Coord_times p v) <$> coords ps;
     radius := radius ps;
     bb := mkBox (edges_first (bb ps)) (Coord_times (edges_second (bb ps)) v);
     index := index ps;
     neighboursList := neighboursList ps |}.

(** [Particles::operator*=(const double &mul)] *)
Definition times (ps : Particles) (mul : float) : Particles :=
  let ps' := times_Coord ps (mkCoord mul mul mul) in
  {| coords := coords ps';
     radius := (radius ps' * mul)%float;
     bb := bb ps';
     index := index ps';
     neighboursList := neighboursList ps' |}.

(** [std::max(a, b)] is [a < b ? b : a] and [std::min(a, b)] is
    [b < a ? b : a]. *)
Definition fmax (a b : float) : float := if (a <? b)%float then b else a.
Definition fmin (a b : float) : float := if (b <? a)%float then b else a.

Definition Coord_max (u p : Coord) : Coord :=
  mkCoord (fmax (cx u) (cx p)) (fmax (cy u) (cy p)) (fmax (cz u) (cz p)).
Definition Coord_min (l p : Coord) : Coord :=
  mkCoord (fmin (cx l) (cx p)) (fmin (cy l) (cy p)) (fmin (cz l) (cz p)).

(** [(a <= b).min()]: the comparison holds on every axis. *)
Definition Coord_leb (a b : Coord) : bool :=
  (cx a <=? cx b)%float && (cy a <=? cy b)%float && (cz a <=? cz b)%float.

(** The last loop of [selectInside_noindex], [p] counting the
    positions. *)
Fixpoint inside_loop (upper lower : Coord) (p : nat) (l : list Coord) : list nat :=
  match l with
  | [] => []
  | c :: rest =>
      if Coord_leb c upper && Coord_leb lower c
      then p :: inside_loop upper lower (S p) rest
      else inside_loop upper lower (S p) rest
  end.

(** [Particles::selectInside_noindex(margin, noZ)]: [upper] starts
    from [Coord(0.0, 3)] and [lower] from [front()]; the margin is
    applied to the first [3 - noZ] axes. *)
Definition selectInside_noindex (ps : Particles) (margin : float) (noZ : bool)
    : result (list nat) :=
  match coords ps with
  | [] => Undef                         (* [front()] of an empty vector *)
  | c0 :: _ =>
      let upper := foldl Coord_max (mkCoord 0 0 0)%float (coords ps) in
      let lower := foldl Coord_min c0 (coords ps) in
      let upper' := mkCoord (cx upper - margin)%float (cy upper - margin)%float
                            (if noZ then cz upper else cz upper - margin)%float in
      let lower' := mkCoord (cx lower + margin)%float (cy lower + margin)%float
                            (if noZ then cz lower else cz lower + margin)%float in
      Ret (inside_loop upper' lower' 0 (coords ps))
  end.

(** [std::multimap<double, size_t>::insert]: the pairs are kept in
    ascending order of their key, a new pair going after those of the
    same key. *)
Fixpoint multimap_insert (x : float * nat) (m : list (float * nat))
    : list (float * nat) :=
  match m with
  | [] => [x]
  | y :: m' =>
      if (fst x <? fst y)%float then x :: y :: m' else y :: multimap_insert x m'
  end.

(** The loop of [getEuclidianNeighboursBySqDist]. *)
Fixpoint BySqDist_loop (ps : Particles) (center : Coord) (rSq : float)
    (NormOne : list nat) (acc : list (float * nat)) : result (list (float * nat)) :=
  match NormOne with
  | [] => Ret acc
  | p :: rest =>
      diff ← getDiff ps center p;
      let distSq := dot diff diff in
      BySqDist_loop ps center rSq rest
        (if (distSq <? rSq)%float then multimap_insert (distSq, p) acc else acc)
  end.

Definition getEuclidianNeighboursBySqDist (ps : Particles) (center : Coord)
    (range : float) : result (list (float * nat)) :=
  NormOneNeighbours ← selectEnclosed ps (bounds center range);
  BySqDist_loop ps center (range * range)%float NormOneNeighbours [].

(** The [double] nearest to 1.1. *)
Definition growth : float := 0x1.199999999999ap+0%float.

(** [getNearestNeighbour]: the loop [while(ngb.empty()) rg *= 1.1]
    run for at most [fuel] enlargements; [None] when the fuel is spent
    with [ngb] still empty. *)
Fixpoint seek_range (ps : Particles) (center : Coord) (rg : float) (fuel : nat)
    : option (result (float * list nat)) :=
  match getEuclidianNeighbours ps center rg with
  | Ret [] =>
      match fuel with
      | 0 => None
      | S fuel' => seek_range ps center (rg * growth)%float fuel'
      end
  | Ret ngb => Some (Ret (rg, ngb))
  | Raise e => Some (Raise e)
  | Undef => Some Undef
  end.

(** The scan for the smallest squared distance among [ngb]. *)
Fixpoint nearest_loop (ps : Particles) (center : Coord) (ngb : list nat)
    (mindist : float) (nN : nat) : result nat :=
  match ngb with
  | [] => Ret nN
  | p :: rest =>
      diff ← getDiff ps center p;
      let dist := dot diff diff in
      if (dist <? mindist)%float then nearest_loop ps center rest dist p
      else nearest_loop ps center rest mindist nN
  end.

Definition getNearestNeighbour (ps : Particles) (center : Coord) (range : float)
    (fuel : nat) : option (result nat) :=
  match seek_range ps center range fuel with
  | None => None
  | Some (Ret (rg, ngb)) =>
      Some (match ngb with
            | [p] => Ret p
            | _ => nearest_loop ps center ngb (rg * rg)%float (size ps)
            end)
  | Some (Raise e) => Some (Raise e)
  | Some Undef => Some Undef
  end.

End queries.

End Parts.



(** ** lib/particles.cpp: topological pairs *)

Module Topo.
Import Parts.

(** [std::set_intersection] on two ascending ranges: the two-cursor
    merge that outputs an element met in both. *)
Fixpoint set_intersection (a : list nat) : list nat → list nat :=
  match a with
  | [] => λ _, []
  | x :: a' =>
      fix scan (b : list nat) : list nat :=
        match b with
        | [] => []
        | y :: b' =>
            if x <? y then set_intersection a' b
            else if y <? x then scan b'
            else x :: set_intersection a' b'
        end
  end.

(** [std::lower_bound(first, last, value)] on an ascending range: the
    range from the first element not below [value]. *)
Fixpoint lower_bound (l : list nat) (value : nat) : list nat :=
  match l with
  | [] => []
  | x :: l' => if x <? value then lower_bound l' value else l
  end.

(** [BondSet] is a [std::set<Bond>]; [ret.insert(ret.end(), b)] adds
    [b] unless it is there already. *)
Definition BondSet_insert (ret : list Bond) (b : Bond) : list Bond :=
  if decide (b ∈ ret) then ret else ret ++ [b].

(** The loop of [is_ring] over the members [cs] of [common]; [None] is
    a read past the end of the neighbour list. *)
Fixpoint is_ring_loop (ngb : NgbList) (common cs : list nat) : option bool :=
  match cs with
  | [] => Some true
  | c :: cs' =>
      l ← (ngb !! c : option (list nat));
      if negb (length (set_intersection l common) =? 2) then Some false
      else is_ring_loop ngb common cs'
  end.

Definition is_ring (ngb : NgbList) (common : list nat) : option bool :=
  is_ring_loop ngb common common.

(** The inner loop of [get1551pairs] for particle [p], over the
    neighbours [qs] from [lower_bound(ngb[p], p + 1)] on. *)
Fixpoint pairs_of (ngb : NgbList) (p : nat) (lp : list nat)
    (qs : list nat) (ret : list Bond) : option (list Bond) :=
  match qs with
  | [] => Some ret
  | q :: qs' =>
      lq ← (ngb !! q : option (list nat));
      let common := set_intersection lp lq in
      if negb (length common =? 5) then pairs_of ngb p lp qs' ret
      else
        ring ← is_ring ngb common;
        if negb ring then pairs_of ngb p lp qs' ret
        else pairs_of ngb p lp qs' (BondSet_insert ret (Bond_of p q))
  end.

(** The outer loop, [p] running over the rows still to visit. *)
Fixpoint pairs_loop (ngb : NgbList) (p : nat) (rows : list (list nat))
    (ret : list Bond) : option (list Bond) :=
  match rows with
  | [] => Some ret
  | lp :: rows' =>
      pairs_of ngb p lp (lower_bound lp (p + 1)) ret ≫=
      pairs_loop ngb (S p) rows'
  end.

Definition get1551pairs (ngb : NgbList) : option (list Bond) :=
  pairs_loop ngb 0 ngb [].

(** *** Second shell, 2331 pairs, SP5c clusters, bonds of a neighbour list *)

(** [std::list<size_t>::sort()]: the elements in ascending order. *)
Fixpoint insert_sorted (x : nat) (l : list nat) : list nat :=
  match l with
  | [] => [x]
  | y :: l' => if y <? x then y :: insert_sorted x l' else x :: y :: l'
  end.

Definition list_sort (l : list nat) : list nat := foldr insert_sorted [] l.

(** [std::list<size_t>::unique()]: of every run of equal consecutive
    elements only the first is kept. *)
Fixpoint unique (l : list nat) : list nat :=
  match l with
  | [] => []
  | x :: l' =>
      match l' with
      | [] => [x]
      | y :: _ => if x =? y then unique l' else x :: unique l'
      end
  end.

(** [std::set_difference] on two ascending ranges. *)
Fixpoint set_difference (a : list nat) : list nat → list nat :=
  match a with
  | [] => λ _, []
  | x :: a' =>
      fix scan (b : list nat) : list nat :=
        match b with
        | [] => a
        | y :: b' =>
            if x <? y then x :: set_difference a' b
            else if y <? x then scan b'
            else set_difference a' b'
        end
  end.

(** The loop [for c in ngb[p]: copy(ngb[c], back_inserter(second_ngb))];
    [None] is a read past the end of the neighbour list. *)
Fixpoint shell_loop (ngb : NgbList) (cs : list nat) (second_ngb : list nat)
    : option (list nat) :=
  match cs with
  | [] => Some second_ngb
  | c :: cs' =>
      lc ← (ngb !! c : option (list nat));
      shell_loop ngb cs' (second_ngb ++ lc)
  end.

(** The first and second shell of a particle whose neighbours are
    [lp], sorted and without repeats. *)
Definition second_shell (ngb : NgbList) (lp : list nat) : option (list nat) :=
  second_ngb ← shell_loop ngb lp [];
  Some (unique (list_sort second_ngb)).

(** [Particles::getSecondShell]: the loop over [p]. *)
Fixpoint shell_bonds_loop (ngb : NgbList) (p : nat) (rows : list (list nat))
    (ret : list Bond) : option (list Bond) :=
  match rows with
  | [] => Some ret
  | lp :: rows' =>
      second_ngb ← second_shell ngb lp;
      shell_bonds_loop ngb (S p) rows'
        (foldl (λ ret q, BondSet_insert ret (Bond_of p q)) ret
               (lower_bound second_ngb (p + 1)))
  end.

Definition getSecondShell (ngb : NgbList) : option (list Bond) :=
  shell_bonds_loop ngb 0 ngb [].

(** The inner loop of [get2331pairs] for particle [p], over the
    members [qs] of the second shell from [lower_bound(.., p + 1)] on. *)
Fixpoint pairs2331_of (ngb : NgbList) (p : nat) (lp : list nat)
    (qs : list nat) (ret : list Bond) : option (list Bond) :=
  match qs with
  | [] => Some ret
  | q :: qs' =>
      lq ← (ngb !! q : option (list nat));
      let common := set_intersection lp lq in
      if negb (length common =? 3) then pairs2331_of ngb p lp qs' ret
      else
        ring ← is_ring ngb common;
        if negb ring then pairs2331_of ngb p lp qs' ret
        else pairs2331_of ngb p lp qs' (BondSet_insert ret (Bond_of p q))
  end.

Fixpoint pairs2331_loop (ngb : NgbList) (p : nat) (rows : list (list nat))
    (ret : list Bond) : option (list Bond) :=
  match rows with
  | [] => Some ret
  | lp :: rows' =>
      second_ngb ← second_shell ngb lp;
      let not_first_ngb := set_difference second_ngb lp in
      pairs2331_of ngb p lp (lower_bound not_first_ngb (p + 1)) ret ≫=
      pairs2331_loop ngb (S p) rows'
  end.

Definition get2331pairs (ngb : NgbList) : option (list Bond) :=
  pairs2331_loop ngb 0 ngb [].

(** The inner loop of [getSP5c] for particle [p]. *)
Fixpoint sp5c_of (ngb : NgbList) (p : nat) (lp : list nat) (qs : list nat)
    (SP5c : list (list nat)) : option (list (list nat)) :=
  match qs with
  | [] => Some SP5c
  | q :: qs' =>
      lq ← (ngb !! q : option (list nat));
      let common := [p; q] ++ set_intersection lp lq in
      sp5c_of ngb p lp qs'
        (if length common =? 7 then SP5c ++ [common] else SP5c)
  end.

Fixpoint sp5c_loop (ngb : NgbList) (p : nat) (rows : list (list nat))
    (SP5c : list (list nat)) : option (list (list nat)) :=
  match rows with
  | [] => Some SP5c
  | lp :: rows' =>
      sp5c_of ngb p lp (lower_bound lp (p + 1)) SP5c ≫=
      sp5c_loop ngb (S p) rows'
  end.

(** [Particles::getSP5c(SP5c)]: the clusters are added to those
    [SP5c] holds already. *)
Definition getSP5c (ngb : NgbList) (SP5c : list (list nat))
    : option (list (list nat)) :=
  sp5c_loop ngb 0 ngb SP5c.

(** [Colloids::ngb2bonds(ngbList)] *)
Fixpoint ngb2bonds_loop (p : nat) (rows : list (list nat)) (bonds : list Bond)
    : list Bond :=
  match rows with
  | [] => bonds
  | lp :: rows' =>
      ngb2bonds_loop (S p) rows'
        (foldl (λ bonds q, BondSet_insert bonds (Bond_of p q)) bonds
               (lower_bound lp (p + 1)))
  end.

Definition ngb2bonds (ngbList : NgbList) : list Bond :=
  ngb2bonds_loop 0 ngbList [].

(** *** The 1551 pairs in the words of the specification *)

(** The common neighbours of two particles, in the order of the first
    list. *)
Definition common_neighbours (lp lq : list nat) : list nat :=
  filter (λ c, c ∈ lq) lp.

(** [S] forms a ring iff every [c] in [S] has exactly two members of
    [S] in its neighbour list. *)
Definition forms_ring (ngb : NgbList) (S : list nat) : Prop :=
  ∀ c, c ∈ S → ∃ lc, ngb !! c = Some lc ∧ length (filter (λ x, x ∈ S) lc) = 2.

Definition is_1551 (ngb : NgbList) (p q : nat) : Prop :=
  ∃ lp lq, ngb !! p = Some lp ∧ ngb !! q = Some lq ∧
           p < q ∧ q ∈ lp ∧
           length (common_neighbours lp lq) = 5 ∧
           forms_ring ngb (common_neighbours lp lq).

End Topo.


(** ** lib/particles.cpp and boo_data.hpp: bond-orientational order *)

Module Boo.
Import Parts Topo.

(** [std::complex<double>], real and imaginary part. *)
Definition complex : Type := float * float.

Definition c_zero : complex := (0, 0)%float.

Definition c_add (a b : complex) : complex :=
  (fst a + fst b, snd a + snd b)%float.

(** The quotient of two [std::complex<double>].  How the finite cases
    round, and what a numerator that is not zero gives over [0 + 0i],
    is left to the implementation of the division; the formula of the
    quotient is used here, and the properties below evaluate it at
    [(0 + 0i) / (0 + 0i)] only, where every implementation yields a
    NaN in both parts. *)
Definition c_div (a b : complex) : complex :=
  let den := (fst b * fst b + snd b * snd b)%float in
  ((fst a * fst b + snd a * snd b) / den,
   (snd a * fst b - fst a * snd b) / den)%float.

(** [BooData]: a [std::valarray] of 36 complex coefficients. *)
Abbreviation BooData := (list complex).

(** The default constructor: 36 times [0 + 0i]. *)
Definition BooData_zero : BooData := replicate 36 c_zero.

(** [operator+=] and [operator/=] of [std::valarray]. *)
Definition BooData_add (a b : BooData) : BooData := zip_with c_add a b.
Definition BooData_div (a : BooData) (x : complex) : BooData :=
  (λ c, c_div c x) <$> a.

(** A count ([size_t]) converted to [double]. *)
Definition to_double (n : nat) : float :=
  PrimFloat.of_uint63 (Uint63.of_Z (Z.of_nat n)).

Section boo.
(** [sphHarm_OneBond(center, neighbour)]: the spherical harmonics of
    the bond, computed by a constructor of [BooData] that is defined
    outside the sources. *)
Variable sphHarm_OneBond : nat → nat → BooData.

(** [Particles::getBOO(center)] *)
Definition getBOO (ngb : NgbList) (center : nat) : option BooData :=
  ngbList ← (ngb !! center : option (list nat));
  let nb := length ngbList in
  if 0 <? nb then
    let boo := foldl (λ boo p, BooData_add boo (sphHarm_OneBond center p))
                     BooData_zero ngbList in
    Some (BooData_div boo (to_double nb, 0%float))
  else Some BooData_zero.

(** [std::vector::resize]: the elements already there are kept. *)
Definition resize (n : nat) (BOO : list BooData) : list BooData :=
  take n BOO ++ replicate (n - length BOO) BooData_zero.

(** [BOO[i] += spharm; nbs[i]++] *)
Definition accumulate (acc : list BooData * list nat) (i : nat) (spharm : BooData)
    : option (list BooData * list nat) :=
  b ← (acc.1 !! i : option BooData);
  n ← (acc.2 !! i : option nat);
  Some (<[i := BooData_add b spharm]> acc.1, <[i := S n]> acc.2).

(** The inner loop of [getBOOs] over the neighbours [qs] of [p]. *)
Fixpoint bonds_of (p : nat) (qs : list nat) (acc : list BooData * list nat)
    : option (list BooData * list nat) :=
  match qs with
  | [] => Some acc
  | q :: qs' =>
      let spharm := sphHarm_OneBond p q in
      acc1 ← accumulate acc p spharm;
      acc2 ← accumulate acc1 q spharm;
      bonds_of p qs' acc2
  end.

Fixpoint bonds_loop (p : nat) (rows : list (list nat))
    (acc : list BooData * list nat) : option (list BooData * list nat) :=
  match rows with
  | [] => Some acc
  | lp :: rows' =>
      bonds_of p (lower_bound lp (p + 1)) acc ≫= bonds_loop (S p) rows'
  end.

(** [Particles::getBOOs(BOO)] for [size()] particles: the symmetric
    traversal of the bonds, then [BOO[p] /= complex<double>(nbs[p], 0)]
    for every [p]. *)
Definition getBOOs (size : nat) (ngb : NgbList) (BOO : list BooData)
    : option (list BooData) :=
  acc ← bonds_loop 0 ngb (resize size BOO, replicate size 0);
  Some (zip_with (λ b n, BooData_div b (to_double n, 0%float)) acc.1 acc.2).

(** [Particles::getSurfBOOs(BOO)]: the same traversal, each bond
    also counted for the common neighbours of its ends; the
    normalisation is guarded by [if(nbs[p]!=0)]. *)
Fixpoint surf_bonds_of (ngb : NgbList) (p : nat) (lp : list nat) (qs : list nat)
    (acc : list BooData * list nat) : option (list BooData * list nat) :=
  match qs with
  | [] => Some acc
  | q :: qs' =>
      let spharm := sphHarm_OneBond p q in
      acc1 ← accumulate acc p spharm;
      acc2 ← accumulate acc1 q spharm;
      lq ← (ngb !! q : option (list nat));
      acc3 ← foldl (λ a c, a ≫= λ a', accumulate a' c spharm) (Some acc2)
                   (set_intersection lp lq);
      surf_bonds_of ngb p lp qs' acc3
  end.

Fixpoint surf_bonds_loop (ngb : NgbList) (p : nat) (rows : list (list nat))
    (acc : list BooData * list nat) : option (list BooData * list nat) :=
  match rows with
  | [] => Some acc
  | lp :: rows' =>
      surf_bonds_of ngb p lp (lower_bound lp (p + 1)) acc ≫=
      surf_bonds_loop ngb (S p) rows'
  end.

Definition getSurfBOOs (size : nat) (ngb : NgbList) (BOO : list BooData)
    : option (list BooData) :=
  acc ← surf_bonds_loop ngb 0 ngb (resize size BOO, replicate size 0);
  Some (zip_with (λ b n, if n =? 0 then b
                         else BooData_div b (to_double n, 0%float))
                 acc.1 acc.2).

(** [Particles::getBOOs(selection, BOO)]: [BOO] is resized, then
    [BOO[selection[p]] = getBOO(selection[p])] for every [p]. *)
Definition select_step (ngb : NgbList) (acc : option (list BooData)) (p : nat)
    : option (list BooData) :=
  BOO ← acc;
  b ← getBOO ngb p;
  _ ← (BOO !! p : option BooData);
  Some (<[p := b]> BOO).

Definition getBOOs_selection (size : nat) (ngb : NgbList) (selection : list nat)
    (BOO : list BooData) : option (list BooData) :=
  foldl (select_step ngb) (Some (resize size BOO)) selection.

End boo.

End Boo.

(** ** mains: the programs [linkboo] and [boo] *)

Module Mains.

(** *** mains/linkboo.cpp: the bond length from the radial distribution *)

(** [std::max_element] and [std::min_element] on a range that starts
    at position [p] with the value [v]: the position of the first
    largest, respectively first smallest, element. *)
Fixpoint max_from (best : nat * Q) (p : nat) (l : list Q) : nat * Q :=
  match l with
  | [] => best
  | x :: l' => max_from (if Qltb (snd best) x then (p, x) else best) (S p) l'
  end.

Fixpoint min_from (best : nat * Q) (p : nat) (l : list Q) : nat * Q :=
  match l with
  | [] => best
  | x :: l' => min_from (if Qltb x (snd best) then (p, x) else best) (S p) l'
  end.

(** [first_peak - total_g.begin()] *)
Definition first_peak (total_g : list Q) : option nat :=
  match total_g with
  | [] => None
  | x :: l => Some (fst (max_from (0, x) 1 l))
  end.

(** [distance(total_g.begin(), min_element(first_peak, total_g.end()))] *)
Definition first_min_after (peak : nat) (total_g : list Q) : option nat :=
  match drop peak total_g with
  | [] => None
  | x :: l => Some (fst (min_from (peak, x) (S peak) l))
  end.

(** The loop [do { first_peak = ..; first_min = ..; }
    while(total_g[first_min]==0.0)], run for at most [fuel] further
    rounds; [None] when the fuel is spent or a read is out of range. *)
Fixpoint first_minimum (total_g : list Q) (fuel : nat) : option nat :=
  peak ← first_peak total_g;
  first_min ← first_min_after peak total_g;
  v ← total_g !! first_min;
  if Qeq_bool v 0 then
    match fuel with
    | 0 => None
    | S fuel' => first_minimum total_g fuel'
    end
  else Some first_min.

(** [bondLength = first_min/200.0*15.0] *)
Definition bondLength (first_min : nat) : Q :=
  inject_Z (Z.of_nat first_min) / 200 * 15.

(** *** mains/boo.cpp: the three files of rotational invariants *)

(** An [std::ofstream] on a file opened with [ios::trunc]: whether the
    file is still open behind the stream, and the lines the file has
    received.  A write through a stream that was closed fails and
    reaches no file. *)
Record ofstream : Type := mkOfstream { is_open : bool; lines : list string }.

Definition ofstream_new : ofstream := mkOfstream true [].

(** [out << s << endl] and [out << s << "\n"] *)
Definition put_line (out : ofstream) (s : string) : ofstream :=
  if is_open out then mkOfstream true (lines out ++ [s]) else out.

Definition close (out : ofstream) : ofstream := mkOfstream false (lines out).

Definition tab : Ascii.ascii := Ascii.ascii_of_nat 9.

(** ["#Q4\tQ6\tW4\tW6"] *)
Definition header : string :=
  String.append "#Q4" (String tab (String.append "Q6" (String tab
    (String.append "W4" (String tab "W6"))))).

Section export.
(** [cloud_exporter], the line of invariants of a descriptor; it calls
    [BooData::getInvarients], which is defined outside the sources. *)
Variable cloud_exporter : Boo.BooData → string.

(** [transform(first, last, ostream_iterator<string>(out, "\n"),
    cloud_exporter())] *)
Definition export_cloud (out : ofstream) (qlm : list Boo.BooData) : ofstream :=
  foldl (λ out boo, put_line out (cloud_exporter boo)) out qlm.

(** The end of [main]: the files [.cloud], [_space.cloud] and
    [_surf.cloud], each opened with success.  The third header goes
    through [cloud_cgFile], as the source has it. *)
Definition export_clouds (qlm qlm_cg qlm_sf : list Boo.BooData)
    : ofstream * ofstream * ofstream :=
  let cloudFile := ofstream_new in
  let cloudFile := put_line cloudFile header in
  let cloudFile := export_cloud cloudFile qlm in
  let cloudFile := close cloudFile in
  let cloud_cgFile := ofstream_new in
  let cloud_cgFile := put_line cloud_cgFile header in
  let cloud_cgFile := export_cloud cloud_cgFile qlm_cg in
  let cloud_cgFile := close cloud_cgFile in
  let cloud_sfFile := ofstream_new in
  let cloud_cgFile := put_line cloud_cgFile header in
  let cloud_sfFile := export_cloud cloud_sfFile qlm_sf in
  let cloud_sfFile := close cloud_sfFile in
  (cloudFile, cloud_cgFile, cloud_sfFile).

End export.

End Mains.



(** * Properties *)

(** ** Numbers and lists *)

Lemma Qltb_lt x y : Qltb x y = true ↔ (x < y)%Q.
Proof.
  unfold Qltb. rewrite negb_true_iff, <- not_true_iff_false, Qle_bool_iff.
  split; [apply Qnot_le_lt | apply Qlt_not_le].
Qed.

Lemma Qltb_ge x y : Qltb x y = false ↔ (y <= x)%Q.
Proof.
  unfold Qltb. rewrite negb_false_iff, Qle_bool_iff. done.
Qed.




Lemma filter_ext_in {A} (P Q : A → Prop)
    `{!∀ x, Decision (P x), !∀ x, Decision (Q x)} (l : list A) :
  (∀ x, x ∈ l → (P x ↔ Q x)) → filter P l = filter Q l.
Proof.
  induction l as [|a l IH]; intros Hext; [done|].
  rewrite !filter_cons, IH by (intros x Hx; apply Hext; by right).
  destruct (decide (P a)) as [Hp|Hp], (decide (Q a)) as [Hq|Hq]; try done.
  - destruct Hq. apply Hext; [left|done].
  - destruct Hp. apply Hext; [left|done].
Qed.

Lemma sorted_lt_NoDup (l : list nat) : StronglySorted lt l → NoDup l.
Proof.
  induction 1 as [|x l Hl IH Hx]; constructor; [|done].
  intros Hin. rewrite Forall_forall in Hx. apply Hx in Hin. lia.
Qed.

Lemma sorted_lt_unique (l1 l2 : list nat) :
  StronglySorted lt l1 → StronglySorted lt l2 →
  (∀ x, x ∈ l1 ↔ x ∈ l2) → l1 = l2.
Proof.
  intros H1 H2 Hiff. apply (StronglySorted_unique_strong lt); [|done..|].
  - intros x1 x2 _ _ Ha Hb. lia.
  - apply NoDup_Permutation; [by apply sorted_lt_NoDup..|done].
Qed.

Lemma sorted_lt_seq a n : StronglySorted lt (seq a n).
Proof.
  revert a. induction n as [|n IH]; intros a; simpl; constructor; [apply IH|].
  apply Forall_forall. intros x Hx. apply elem_of_seq in Hx. lia.
Qed.

(** ** Trajectory index *)

Module TrajFacts.
Import Traj.

(** Scenario 5 of the specification: previous frame [A, B], new frame
    [A', B', C'] and four candidate links. *)
Example add_Frame_scenario :
  add_Frame (TrajIndex_new 2) 3 [1#10; 1#20; 1#5; 3#10]%Q [0; 0; 1; 1] [0; 1; 1; 0]
  = Done {| tr2pos := [mkTraj 0 [0; 1]; mkTraj 0 [1; 0]; mkTraj 1 [2]];
            pos2tr := [[0; 1]; [1; 0; 2]] |}.
Proof. vm_compute. reflexivity. Qed.


Definition dist_le (a b : Link) : Prop := (distance a <= distance b)%Q.

Lemma Link_lt_false a b : Link_lt a b = false ↔ dist_le b a.
Proof. apply Qltb_ge. Qed.

Lemma Link_lt_true a b : Link_lt a b = true ↔ (distance a < distance b)%Q.
Proof. apply Qltb_lt. Qed.

Lemma insert_link_perm x l : insert_link x l ≡ₚ x :: l.
Proof.
  induction l as [|y l IH]; simpl; [done|].
  destruct (Link_lt y x); [|done].
  rewrite IH. apply Permutation_swap.
Qed.

Lemma sort_perm l : sort l ≡ₚ l.
Proof.
  induction l as [|x l IH]; simpl; [done|].
  rewrite insert_link_perm. by f_equiv.
Qed.

Lemma elem_of_sort x l : x ∈ sort l ↔ x ∈ l.
Proof. by rewrite sort_perm. Qed.

Lemma insert_link_sorted x l :
  StronglySorted dist_le l → StronglySorted dist_le (insert_link x l).
Proof.
  induction 1 as [|y l Hl IH Hy]; simpl.
  - repeat constructor.
  - destruct (Link_lt y x) eqn:E.
    + constructor; [done|].
      rewrite insert_link_perm. constructor; [|done].
      apply Link_lt_true in E. unfold dist_le. by apply Qlt_le_weak.
    + apply Link_lt_false in E.
      constructor; [by constructor|].
      constructor; [done|].
      eapply Forall_impl; [exact Hy|].
      intros z Hz. unfold dist_le in *. by eapply Qle_trans.
Qed.

Lemma sort_sorted l : StronglySorted dist_le (sort l).
Proof.
  induction l as [|x l IH]; simpl; [constructor|].
  by apply insert_link_sorted.
Qed.

#[local] Instance Qeq_decision (x y : Q) : Decision (x == y)%Q := Qeq_dec x y.

(** Stability: links of equal distance keep the order of the arrays.
    With [sort_perm] and [sort_sorted] this determines the sorted list,
    whatever stable algorithm computes it. *)
Lemma insert_link_stable d x l :
  filter (λ a, distance a == d)%Q (insert_link x l) =
  filter (λ a, distance a == d)%Q (x :: l).
Proof.
  induction l as [|y l IH]; simpl; [done|].
  destruct (Link_lt y x) eqn:E; [|done].
  apply Link_lt_true in E.
  rewrite (filter_cons _ y), IH, (filter_cons _ x (y :: l)), !(filter_cons _ x l),
    (filter_cons _ y l).
  destruct (decide (distance y == d)%Q) as [Hy|Hy]; [|done].
  destruct (decide (distance x == d)%Q) as [Hx|Hx]; [|done].
  rewrite Hy, Hx in E. by apply Qlt_irrefl in E.
Qed.

Lemma sort_stable d l :
  filter (λ a, distance a == d)%Q (sort l) = filter (λ a, distance a == d)%Q l.
Proof.
  induction l as [|x l IH]; simpl; [done|].
  rewrite insert_link_stable, !filter_cons, IH. done.
Qed.

(** The first link of the sorted list is a shortest candidate. *)
Lemma sort_head_shortest l h l' :
  sort l = h :: l' → h ∈ l ∧ ∀ y, y ∈ l → dist_le h y.
Proof.
  intros E. split.
  - apply elem_of_sort. rewrite E. left.
  - intros y Hy. apply elem_of_sort in Hy.
    pose proof (sort_sorted l) as Hs. rewrite E in Hs, Hy.
    apply StronglySorted_inv in Hs as [_ Hall].
    apply elem_of_cons in Hy as [->|Hy].
    + unfold dist_le. apply Qle_refl.
    + rewrite Forall_forall in Hall. by apply Hall.
Qed.

Lemma used_by_false acc b :
  used_by acc b = false ↔
  ∀ a, a ∈ acc → first a ≠ first b ∧ second a ≠ second b.
Proof.
  unfold used_by. rewrite <- not_true_iff_false, existsb_exists.
  split.
  - intros H a Ha. split; intros E; apply H; exists a;
      (split; [by apply list_elem_of_In|]);
      apply orb_true_iff; [left|right]; by apply Nat.eqb_eq.
  - intros H (a & Ha & E). apply list_elem_of_In, H in Ha as [H1 H2].
    apply orb_true_iff in E as [E|E]; apply Nat.eqb_eq in E; done.
Qed.

Lemma used_by_true acc b :
  used_by acc b = true ↔
  ∃ a, a ∈ acc ∧ (first a = first b ∨ second a = second b).
Proof.
  unfold used_by. rewrite existsb_exists. split.
  - intros (a & Ha & E). exists a. split; [by apply list_elem_of_In|].
    apply orb_true_iff in E as [E|E]; apply Nat.eqb_eq in E; auto.
  - intros (a & Ha & E). exists a. split; [by apply list_elem_of_In|].
    apply orb_true_iff. destruct E as [E|E]; [left|right]; by apply Nat.eqb_eq.
Qed.

Lemma greedy_from_incl acc l a : a ∈ acc → a ∈ greedy_from acc l.
Proof.
  revert acc. induction l as [|b l IH]; intros acc Ha; simpl; [done|].
  apply IH. destruct (used_by acc b); [done|].
  apply elem_of_app. by left.
Qed.

(** Nothing is used before the first link, so it is always accepted. *)
Lemma greedy_head b l : b ∈ greedy (b :: l).
Proof.
  unfold greedy. simpl. apply greedy_from_incl. left.
Qed.

(** *** The linking loop accepts exactly the greedy links *)

Section linking.
Variable prev : list nat.
Variable T0 : list Traj.
Variable n : nat.

Definition in_range (b : Link) : Prop :=
  first b < length prev ∧ second b < n.

(** Positions appended to trajectory [tr] by the links [acc]. *)
Definition appended (acc : list Link) (tr : nat) : list nat :=
  second <$> filter (λ a, prev !! first a = Some tr) acc.

Definition extended (acc : list Link) : list Traj :=
  imap (λ tr traj, mkTraj (start traj) (steps traj ++ appended acc tr)) T0.

Record link_inv (acc : list Link) (st : LinkState) : Prop := {
  inv_from_len : length (from_used st) = length prev;
  inv_to_len : length (to_used st) = n;
  inv_cur_len : length (cur st) = n;
  inv_from : ∀ f, from_used st !! f = Some true ↔ ∃ a, a ∈ acc ∧ first a = f;
  inv_to : ∀ t, to_used st !! t = Some true ↔ ∃ a, a ∈ acc ∧ second a = t;
  inv_cur : ∀ a, a ∈ acc → cur st !! second a = prev !! first a;
  inv_cur_other : ∀ t, to_used st !! t = Some false → cur st !! t = Some 0;
  inv_trajs : trajs st = extended acc;
  inv_range : Forall in_range acc;
  inv_first : NoDup (first <$> acc);
  inv_second : NoDup (second <$> acc)
}.

Definition st0 : LinkState :=
  {| from_used := replicate (length prev) false;
     to_used := replicate n false;
     cur := replicate n 0;
     trajs := T0 |}.

Lemma extended_nil : extended [] = T0.
Proof.
  unfold extended. apply list_eq. intros i.
  rewrite list_lookup_imap. destruct (T0 !! i) as [[s p]|]; simpl; [|done].
  unfold appended. simpl. by rewrite app_nil_r.
Qed.

Lemma link_inv_init : link_inv [] st0.
Proof.
  split; simpl.
  - apply length_replicate.
  - apply length_replicate.
  - apply length_replicate.
  - intros f. split.
    + intros H. apply lookup_replicate in H as [? _]. done.
    + intros (a & Ha & _). by apply elem_of_nil in Ha.
  - intros t. split.
    + intros H. apply lookup_replicate in H as [? _]. done.
    + intros (a & Ha & _). by apply elem_of_nil in Ha.
  - intros a Ha. by apply elem_of_nil in Ha.
  - intros t H. apply lookup_replicate in H as [_ H].
    by apply lookup_replicate_2.
  - by rewrite extended_nil.
  - constructor.
  - constructor.
  - constructor.
Qed.

Lemma appended_snoc acc b tr :
  appended (acc ++ [b]) tr =
  appended acc tr ++ (if decide (prev !! first b = Some tr) then [second b] else []).
Proof.
  unfold appended. rewrite filter_app, fmap_app. f_equal.
  rewrite filter_cons, filter_nil. by destruct (decide _).
Qed.

Lemma extended_snoc acc b tr traj :
  prev !! first b = Some tr →
  extended acc !! tr = Some traj →
  <[tr := Traj_push_back traj (second b)]> (extended acc) = extended (acc ++ [b]).
Proof.
  intros Hp Ht. apply list_eq. intros i.
  unfold extended in *. rewrite list_lookup_imap in Ht.
  destruct (decide (i = tr)) as [->|Hne].
  - rewrite list_lookup_insert_eq by (by eapply lookup_lt_Some; rewrite list_lookup_imap, Ht).
    rewrite list_lookup_imap.
    destruct (T0 !! tr) as [t0|]; simpl in *; [|done].
    injection Ht as <-. unfold Traj_push_back. simpl.
    rewrite appended_snoc, decide_True by done. by rewrite app_assoc.
  - rewrite list_lookup_insert_ne by done.
    rewrite !list_lookup_imap.
    destruct (T0 !! i) as [t0|]; simpl; [|done].
    rewrite appended_snoc, decide_False, app_nil_r; [done|].
    rewrite Hp. intros [=]. done.
Qed.

Hypothesis prev_ok : Forall (λ tr, tr < length T0) prev.

Lemma link_step_inv acc st b :
  link_inv acc st → in_range b →
  ∃ st', link_step prev st b = Some st' ∧
         link_inv (if used_by acc b then acc else acc ++ [b]) st'.
Proof.
  intros I [Hf Ht]. unfold link_step.
  destruct (lookup_lt_is_Some_2 (from_used st) (first b)) as [fu Hfu];
    [by rewrite (inv_from_len _ _ I)|].
  rewrite Hfu. simpl. destruct fu.
  { exists st. split; [done|].
    apply (inv_from _ _ I) in Hfu as (a & Ha & E).
    replace (used_by acc b) with true; [done|].
    symmetry. apply used_by_true. eauto. }
  destruct (lookup_lt_is_Some_2 (to_used st) (second b)) as [tu Htu];
    [by rewrite (inv_to_len _ _ I)|].
  rewrite Htu. simpl. destruct tu.
  { exists st. split; [done|].
    apply (inv_to _ _ I) in Htu as (a & Ha & E).
    replace (used_by acc b) with true; [done|].
    symmetry. apply used_by_true. eauto. }
  assert (Hfresh : ∀ a, a ∈ acc → first a ≠ first b ∧ second a ≠ second b).
  { intros a Ha. split; intros E.
    - assert (from_used st !! first b = Some true) as H
        by (apply (inv_from _ _ I); eauto). congruence.
    - assert (to_used st !! second b = Some true) as H
        by (apply (inv_to _ _ I); eauto). congruence. }
  replace (used_by acc b) with false by (symmetry; by apply used_by_false).
  destruct (lookup_lt_is_Some_2 prev (first b) Hf) as [tr Htr].
  assert (tr < length T0) as Hlt.
  { rewrite Forall_forall in prev_ok. apply prev_ok.
    by eapply list_elem_of_lookup_2. }
  destruct (lookup_lt_is_Some_2 (trajs st) tr) as [traj Htraj].
  { rewrite (inv_trajs _ _ I). unfold extended. by rewrite length_imap. }
  unfold consume. rewrite Htr. simpl. rewrite Htraj. simpl.
  eexists. split; [done|].
  split; simpl.
  - rewrite length_insert. apply I.
  - rewrite length_insert. apply I.
  - rewrite length_insert. apply I.
  - intros f. destruct (decide (f = first b)) as [->|Hne].
    + rewrite list_lookup_insert_eq by (by rewrite (inv_from_len _ _ I)).
      split; [|done]. intros _. exists b. split; [|done].
      apply elem_of_app. right. left.
    + rewrite list_lookup_insert_ne by done. rewrite (inv_from _ _ I).
      split; intros (a & Ha & E); exists a; (split; [|done]).
      * apply elem_of_app. by left.
      * apply elem_of_app in Ha as [Ha|Ha]; [done|].
        apply list_elem_of_singleton in Ha as ->. done.
  - intros t. destruct (decide (t = second b)) as [->|Hne].
    + rewrite list_lookup_insert_eq by (by rewrite (inv_to_len _ _ I)).
      split; [|done]. intros _. exists b. split; [|done].
      apply elem_of_app. right. left.
    + rewrite list_lookup_insert_ne by done. rewrite (inv_to _ _ I).
      split; intros (a & Ha & E); exists a; (split; [|done]).
      * apply elem_of_app. by left.
      * apply elem_of_app in Ha as [Ha|Ha]; [done|].
        apply list_elem_of_singleton in Ha as ->. done.
  - intros a Ha. apply elem_of_app in Ha as [Ha|Ha].
    + rewrite list_lookup_insert_ne by (apply Hfresh in Ha as [_ ?]; done).
      by apply (inv_cur _ _ I).
    + apply list_elem_of_singleton in Ha as ->.
      rewrite list_lookup_insert_eq by (by rewrite (inv_cur_len _ _ I)). done.
  - intros t Hu. destruct (decide (t = second b)) as [->|Hne].
    + rewrite list_lookup_insert_eq in Hu by (by rewrite (inv_to_len _ _ I)). done.
    + rewrite list_lookup_insert_ne in Hu by done.
      rewrite list_lookup_insert_ne by done.
      by apply (inv_cur_other _ _ I).
  - rewrite (inv_trajs _ _ I) in Htraj |- *. by apply extended_snoc.
  - apply Forall_app. split; [apply I|]. by repeat constructor.
  - rewrite fmap_app. apply NoDup_app. split; [apply I|]. split.
    + intros f Hin Hb. apply list_elem_of_singleton in Hb as ->.
      apply list_elem_of_fmap in Hin as (a & E & Ha).
      apply Hfresh in Ha as [? _]. done.
    + apply NoDup_singleton.
  - rewrite fmap_app. apply NoDup_app. split; [apply I|]. split.
    + intros t Hin Hb. apply list_elem_of_singleton in Hb as ->.
      apply list_elem_of_fmap in Hin as (a & E & Ha).
      apply Hfresh in Ha as [_ ?]. done.
    + apply NoDup_singleton.
Qed.

Lemma link_loop_inv bonds : ∀ acc st,
  link_inv acc st → Forall in_range bonds →
  ∃ st', link_loop prev st bonds = Some st' ∧
         link_inv (greedy_from acc bonds) st'.
Proof.
  induction bonds as [|b bonds IH]; intros acc st I Hr; simpl.
  - by exists st.
  - apply Forall_cons in Hr as [Hb Hr].
    destruct (link_step_inv acc st b I Hb) as (st' & -> & I'). simpl.
    by apply IH.
Qed.

End linking.

(** *** The loop that starts the new trajectories *)

Lemma start_steps_spec frame st k :
  k ≤ length (to_used st) → length (cur st) = length (to_used st) →
  let st' := foldl (start_step frame) st (seq 0 k) in
  let fr := filter (λ p, to_used st !! p = Some false) (seq 0 k) in
  from_used st' = from_used st ∧ to_used st' = to_used st ∧
  length (cur st') = length (cur st) ∧
  trajs st' = trajs st ++ (Traj_new frame <$> fr) ∧
  (∀ i p, fr !! i = Some p → cur st' !! p = Some (length (trajs st) + i)) ∧
  (∀ p, p ∉ fr → cur st' !! p = cur st !! p).
Proof.
  intros Hk Hlen. cbv zeta. induction k as [|k IH].
  { simpl. rewrite app_nil_r. repeat split; try done. }
  destruct IH as (Hf & Ht & Hc & Htr & Hnew & Hold); [lia|].
  rewrite seq_S, foldl_app, filter_app. simpl.
  set (stk := foldl (start_step frame) st (seq 0 k)) in *.
  set (frk := filter (λ p, to_used st !! p = Some false) (seq 0 k)) in *.
  assert (Hfrk : ∀ p, p ∈ frk → p < k).
  { intros p Hp. apply list_elem_of_filter in Hp as [_ Hp].
    apply elem_of_seq in Hp. lia. }
  unfold start_step at 1 2 3 4 5 6. rewrite Ht.
  rewrite filter_cons, filter_nil.
  destruct (lookup_lt_is_Some_2 (to_used st) k) as [u Hu]; [lia|].
  rewrite Hu. destruct u; simpl.
  - rewrite app_nil_r. done.
  - repeat split; try done.
    + by rewrite length_insert.
    + rewrite Htr, fmap_app, app_assoc. done.
    + intros i p Hip. apply lookup_app_Some in Hip as [Hip|[Hge Hip]].
      * rewrite list_lookup_insert_ne; [by apply Hnew|].
        apply list_elem_of_lookup_2, Hfrk in Hip. lia.
      * apply list_lookup_singleton_Some in Hip as [Hi <-].
        rewrite list_lookup_insert_eq by lia.
        rewrite Htr, length_app, length_fmap. f_equal. lia.
    + intros p Hp. apply not_elem_of_app in Hp as [Hp1 Hp2].
      rewrite list_lookup_insert_ne; [by apply Hold|].
      intros ->. apply Hp2. left.
Qed.

(** Positions of the new frame left unlinked, in ascending order. *)
Definition unlinked (used : list bool) : list nat :=
  filter (λ p, used !! p = Some false) (seq 0 (length used)).

Lemma start_loop_spec frame st :
  length (cur st) = length (to_used st) →
  let st' := start_loop frame st in
  to_used st' = to_used st ∧
  length (cur st') = length (cur st) ∧
  trajs st' = trajs st ++ (Traj_new frame <$> unlinked (to_used st)) ∧
  (∀ i p, unlinked (to_used st) !! i = Some p →
          cur st' !! p = Some (length (trajs st) + i)) ∧
  (∀ p, to_used st !! p = Some true → cur st' !! p = cur st !! p).
Proof.
  intros Hlen.
  destruct (start_steps_spec frame st (length (to_used st)))
    as (_ & Ht & Hc & Htr & Hnew & Hold); [done..|].
  repeat split; try done.
  intros p Hp. apply Hold. intros Hin.
  apply list_elem_of_filter in Hin as [Hin _]. congruence.
Qed.

Lemma elem_of_unlinked used p : p ∈ unlinked used ↔ used !! p = Some false.
Proof.
  unfold unlinked. rewrite list_elem_of_filter, elem_of_seq. split; [tauto|].
  intros H. split; [done|]. apply lookup_lt_Some in H. lia.
Qed.

(** *** Validation *)

Lemma foldl_max_spec l x :
  let m := foldl Nat.max x l in
  (m = x ∨ m ∈ l) ∧ x ≤ m ∧ Forall (λ y, y ≤ m) l.
Proof.
  revert x. induction l as [|y l IH]; intros x; simpl.
  { repeat split; [by left|done|constructor]. }
  destruct (IH (Nat.max x y)) as (H1 & H2 & H3).
  repeat split.
  - destruct H1 as [H1|H1].
    + rewrite H1. destruct (Nat.max_spec x y) as [[_ ->]|[_ ->]].
      * right. left.
      * by left.
    + right. by right.
  - lia.
  - constructor; [lia|done].
Qed.

Lemma max_element_spec l m :
  max_element l = Some m ↔ m ∈ l ∧ Forall (λ y, y ≤ m) l.
Proof.
  destruct l as [|x l]; simpl.
  { split; [done|]. intros [H _]. by apply elem_of_nil in H. }
  pose proof (foldl_max_spec l x) as (H1 & H2 & H3). simpl in *.
  split.
  - intros [= <-]. split.
    + destruct H1 as [->|H1]; [left|by right].
    + by constructor.
  - intros [Hin Hall]. f_equal.
    apply Forall_cons in Hall as [Hx Hall].
    apply Nat.le_antisymm.
    + destruct H1 as [->|H1]; [done|].
      rewrite Forall_forall in Hall. by apply Hall.
    + apply elem_of_cons in Hin as [->|Hin]; [done|].
      rewrite Forall_forall in H3. by apply H3.
Qed.

Lemma max_element_None l : max_element l = None ↔ l = [].
Proof. by destruct l. Qed.

Lemma make_links_range (P Q' : nat → Prop) ds fs ts :
  Forall P fs → Forall Q' ts →
  Forall (λ b, P (first b) ∧ Q' (second b)) (make_links ds fs ts).
Proof.
  intros Hf. revert ds ts. induction Hf as [|f fs Hf Hfs IH]; intros ds ts Ht.
  { destruct ds; simpl; [constructor|]. constructor. }
  destruct ds as [|d ds]; simpl; [constructor|].
  destruct Ht as [|t ts Ht Hts]; [constructor|].
  constructor; [done|]. by apply IH.
Qed.

(** *** [add_Frame] on a valid call *)

(** What the loops of [add_Frame] rely on: arrays of equal, non-zero
    length, [to] indices inside the new frame, [from] indices inside the
    previous frame [prev], whose trajectory ids exist. *)
Record valid_call (ti : TrajIndex) (frame_size : nat)
    (distances : list Q) (p_from p_to : list nat) (prev : list nat) : Prop := {
  vc_sizes1 : length distances = length p_from;
  vc_sizes2 : length p_from = length p_to;
  vc_nonempty : p_to ≠ [];
  vc_to : Forall (λ t, t < frame_size) p_to;
  vc_prev : last (pos2tr ti) = Some prev;
  vc_from : Forall (λ f, f < length prev) p_from;
  vc_trajs : Forall (λ tr, tr < length (tr2pos ti)) prev
}.

Lemma add_Frame_done ti frame_size distances p_from p_to prev :
  valid_call ti frame_size distances p_from p_to prev →
  ∃ st1,
    link_inv prev (tr2pos ti) frame_size
             (greedy (sort (make_links distances p_from p_to))) st1 ∧
    add_Frame ti frame_size distances p_from p_to =
      Done {| tr2pos := trajs (start_loop (nbFrames ti) st1);
              pos2tr := pos2tr ti ++ [cur (start_loop (nbFrames ti) st1)] |}.
Proof.
  intros V. unfold add_Frame.
  rewrite (vc_sizes1 _ _ _ _ _ _ V), (vc_sizes2 _ _ _ _ _ _ V), !Nat.eqb_refl.
  simpl.
  destruct (max_element p_to) as [m|] eqn:Hm.
  2:{ apply max_element_None in Hm. by destruct (vc_nonempty _ _ _ _ _ _ V). }
  apply max_element_spec in Hm as [Hm _].
  pose proof (vc_to _ _ _ _ _ _ V) as Hto.
  rewrite Forall_forall in Hto. apply Hto in Hm.
  replace (frame_size <=? m) with false by (symmetry; apply Nat.leb_gt; lia).
  rewrite (vc_prev _ _ _ _ _ _ V).
  destruct (link_loop_inv prev (tr2pos ti) frame_size (vc_trajs _ _ _ _ _ _ V)
              (sort (make_links distances p_from p_to)) []
              (st0 prev (tr2pos ti) frame_size)) as (st1 & Hl & I).
  - apply link_inv_init.
  - rewrite sort_perm.
    apply (make_links_range (λ f, f < length prev) (λ t, t < frame_size));
      [apply V | rewrite Forall_forall; apply Hto].
  - exists st1. split; [exact I|].
    unfold st0 in Hl. by rewrite Hl.
Qed.

Lemma getTraj_new_frame ti T c t :
  getTraj {| tr2pos := T; pos2tr := pos2tr ti ++ [c] |} (nbFrames ti) t = c !! t.
Proof.
  unfold getTraj, nbFrames. simpl.
  rewrite lookup_app_r, Nat.sub_diag by done. done.
Qed.


Lemma Link_eq_dec (a b : Link) : {a = b} + {a ≠ b}.
Proof.
  decide equality; [|apply Nat.eq_dec..].
  decide equality; [apply Pos.eq_dec | apply Z.eq_dec].
Qed.

Lemma make_links_nonempty ds fs ts :
  length ds = length fs → length fs = length ts → ts ≠ [] →
  make_links ds fs ts ≠ [].
Proof. destruct ds, fs, ts; simpl; intros; done. Qed.

Lemma sort_nonempty l : l ≠ [] → sort l ≠ [].
Proof.
  intros H E. apply H. apply Permutation_nil_r. rewrite <- E.
  symmetry. apply sort_perm.
Qed.

(** C1. On a valid call [add_Frame] returns, and the links it consumes
    are exactly those accepted by scanning the candidates sorted by
    ascending distance and taking a link iff neither its from-position
    nor its to-position was used by an earlier accepted link: position
    [t] of an accepted link [(f, t)] joins, in the new frame, the
    trajectory that owned [f]; every existing trajectory is extended by
    exactly the to-positions of the accepted links leaving it; a
    position no accepted link reaches starts a new trajectory; and a
    shortest candidate is always accepted (the shortest one when it is
    unique). *)
Theorem add_Frame_greedy ti frame_size distances p_from p_to prev :
  valid_call ti frame_size distances p_from p_to prev →
  let candidates := make_links distances p_from p_to in
  let accepted := greedy (sort candidates) in
  ∃ ti', add_Frame ti frame_size distances p_from p_to = Done ti' ∧
    sort candidates ≡ₚ candidates ∧
    StronglySorted dist_le (sort candidates) ∧
    (∀ a, a ∈ accepted →
       ∃ tr, prev !! first a = Some tr ∧
             getTraj ti' (nbFrames ti) (second a) = Some tr) ∧
    (∀ tr traj, tr2pos ti !! tr = Some traj →
       tr2pos ti' !! tr =
         Some (mkTraj (start traj) (steps traj ++ appended prev accepted tr))) ∧
    (∀ t, t < frame_size → (∀ a, a ∈ accepted → second a ≠ t) →
       ∃ tr, getTraj ti' (nbFrames ti) t = Some tr ∧ size ti ≤ tr) ∧
    (∃ h, head (sort candidates) = Some h ∧ h ∈ accepted ∧
          ∀ c, c ∈ candidates → dist_le h c) ∧
    (∀ b, b ∈ candidates →
       (∀ c, c ∈ candidates → c ≠ b → (distance b < distance c)%Q) →
       b ∈ accepted).
Proof.
  intros V candidates accepted.
  destruct (add_Frame_done _ _ _ _ _ _ V) as (st1 & I & ->).
  fold candidates accepted in I.
  destruct (start_loop_spec (nbFrames ti) st1)
    as (Hu & Hlen & Htr & Hnew & Hold).
  { by rewrite (inv_cur_len _ _ _ _ _ I), (inv_to_len _ _ _ _ _ I). }
  set (st2 := start_loop (nbFrames ti) st1) in *.
  assert (Hhead : ∃ h l, sort candidates = h :: l).
  { destruct (sort candidates) as [|h l] eqn:E; [|eauto].
    exfalso. revert E. apply sort_nonempty, make_links_nonempty; apply V. }
  destruct Hhead as (h & l & Hh).
  destruct (sort_head_shortest _ _ _ Hh) as [Hhin Hhmin].
  assert (Hhacc : h ∈ accepted).
  { unfold accepted. rewrite Hh. apply greedy_head. }
  eexists. split; [done|].
  split; [apply sort_perm|].
  split; [apply sort_sorted|].
  split; [|split; [|split; [|split]]].
  - intros a Ha.
    assert (in_range prev frame_size a) as [Hf _].
    { pose proof (inv_range _ _ _ _ _ I) as Hr.
      rewrite Forall_forall in Hr. by apply Hr. }
    destruct (lookup_lt_is_Some_2 prev (first a) Hf) as [tr Hp].
    exists tr. split; [done|].
    rewrite getTraj_new_frame, Hold.
    + by rewrite (inv_cur _ _ _ _ _ I).
    + apply (inv_to _ _ _ _ _ I). eauto.
  - intros tr traj Ht. simpl. rewrite Htr, (inv_trajs _ _ _ _ _ I).
    rewrite lookup_app_l.
    + unfold extended. rewrite list_lookup_imap, Ht. done.
    + unfold extended. rewrite length_imap. by eapply lookup_lt_Some.
  - intros t Ht Hno.
    assert (to_used st1 !! t = Some false) as Hf.
    { destruct (lookup_lt_is_Some_2 (to_used st1) t) as [[] Hb];
        [by rewrite (inv_to_len _ _ _ _ _ I)| |done].
      apply (inv_to _ _ _ _ _ I) in Hb as (a & Ha & E).
      by destruct (Hno a Ha). }
    apply elem_of_unlinked, list_elem_of_lookup_1 in Hf as [i Hi].
    exists (length (trajs st1) + i). split.
    + rewrite getTraj_new_frame. by apply Hnew.
    + rewrite (inv_trajs _ _ _ _ _ I). unfold extended, size.
      rewrite length_imap. lia.
  - exists h. rewrite Hh. done.
  - intros b Hb Hmin.
    destruct (Link_eq_dec h b) as [<-|Hne]; [done|].
    specialize (Hmin h Hhin Hne). specialize (Hhmin b Hb).
    unfold dist_le in Hhmin. exfalso. by apply (Qlt_not_le _ _ Hmin).
Qed.


(** *** The new frame of the index

    [add_Frame] described through the map [C] of the frame it adds:
    positions of [C] that carry an old trajectory id were linked, the
    others carry the ids of the trajectories they start. *)

(** Positions of the frame [C] that belong to trajectory [tr]. *)
Definition at_traj (C : list nat) (tr : nat) : list nat :=
  filter (λ p, C !! p = Some tr) (seq 0 (length C)).

Lemma elem_of_at_traj C tr p : p ∈ at_traj C tr ↔ C !! p = Some tr.
Proof.
  unfold at_traj. rewrite list_elem_of_filter, elem_of_seq. split; [tauto|].
  intros H. split; [done|]. apply lookup_lt_Some in H. lia.
Qed.

Lemma NoDup_at_traj C tr : NoDup (at_traj C tr).
Proof. apply NoDup_filter, NoDup_seq. Qed.

Lemma NoDup_all_equal {A} (l : list A) :
  NoDup l → (∀ x y, x ∈ l → y ∈ l → x = y) → length l ≤ 1.
Proof.
  intros Hnd Heq. destruct l as [|x [|y l]]; simpl; [lia..|].
  exfalso. apply NoDup_cons in Hnd as [Hx _]. apply Hx.
  rewrite (Heq x y); [left|left|right; left].
Qed.

Lemma at_traj_length C tr : NoDup C → length (at_traj C tr) ≤ 1.
Proof.
  intros Hnd. apply NoDup_all_equal; [apply NoDup_at_traj|].
  intros p q Hp Hq. apply elem_of_at_traj in Hp, Hq.
  by eapply NoDup_lookup.
Qed.

Lemma Permutation_short {A} (l k : list A) : l ≡ₚ k → length k ≤ 1 → l = k.
Proof.
  intros Hp Hk. destruct k as [|x [|y k]]; simpl in Hk; [| |lia].
  - by apply Permutation_nil_r.
  - by apply Permutation_singleton_r.
Qed.

(** Positions of the frame [C] whose trajectory id is not below [old]:
    their trajectory starts in this frame. *)
Definition starts_traj (old : nat) (C : list nat) (q : nat) : Prop :=
  ∃ tr, C !! q = Some tr ∧ old ≤ tr.

#[export] Instance starts_traj_dec old C q : Decision (starts_traj old C q).
Proof.
  unfold starts_traj. destruct (C !! q) as [tr|].
  - destruct (decide (old ≤ tr)); [left; eauto|right].
    intros (tr' & [= <-] & ?). done.
  - right. intros (tr' & [=] & _).
Defined.

Definition new_positions (old : nat) (C : list nat) : list nat :=
  filter (starts_traj old C) (seq 0 (length C)).

Section new_frame.
Variables (prev : list nat) (T0 : list Traj) (n frame : nat).
Variables (acc : list Link) (st1 : LinkState).
Hypothesis I : link_inv prev T0 n acc st1.
Hypothesis prev_ok : Forall (λ tr, tr < length T0) prev.

Let st2 := start_loop frame st1.
Let C := cur st2.
Let news := unlinked (to_used st1).

Lemma new_frame_length : length C = n.
Proof.
  destruct (start_loop_spec frame st1) as (_ & Hlen & _).
  { by rewrite (inv_cur_len _ _ _ _ _ I), (inv_to_len _ _ _ _ _ I). }
  unfold C, st2. rewrite Hlen. apply I.
Qed.

Lemma new_frame_trajs :
  trajs st2 = extended prev T0 acc ++ (Traj_new frame <$> news).
Proof.
  destruct (start_loop_spec frame st1) as (_ & _ & Htr & _).
  { by rewrite (inv_cur_len _ _ _ _ _ I), (inv_to_len _ _ _ _ _ I). }
  unfold st2. rewrite Htr. by rewrite (inv_trajs _ _ _ _ _ I).
Qed.

Lemma new_frame_linked a :
  a ∈ acc → ∃ tr, prev !! first a = Some tr ∧ C !! second a = Some tr ∧ tr < length T0.
Proof.
  intros Ha.
  destruct (start_loop_spec frame st1) as (_ & _ & _ & _ & Hold).
  { by rewrite (inv_cur_len _ _ _ _ _ I), (inv_to_len _ _ _ _ _ I). }
  assert (in_range prev n a) as [Hf _].
  { pose proof (inv_range _ _ _ _ _ I) as Hr.
    rewrite Forall_forall in Hr. by apply Hr. }
  destruct (lookup_lt_is_Some_2 prev (first a) Hf) as [tr Hp].
  exists tr. split; [done|]. split.
  - unfold C, st2. rewrite Hold.
    + by rewrite (inv_cur _ _ _ _ _ I).
    + apply (inv_to _ _ _ _ _ I). eauto.
  - rewrite Forall_forall in prev_ok. apply prev_ok.
    by eapply list_elem_of_lookup_2.
Qed.

Lemma new_frame_fresh i p :
  news !! i = Some p → C !! p = Some (length T0 + i).
Proof.
  intros Hi.
  destruct (start_loop_spec frame st1) as (_ & _ & _ & Hnew & _).
  { by rewrite (inv_cur_len _ _ _ _ _ I), (inv_to_len _ _ _ _ _ I). }
  unfold C, st2. rewrite (Hnew i p Hi). f_equal. f_equal.
  rewrite (inv_trajs _ _ _ _ _ I). unfold extended. by rewrite length_imap.
Qed.

(** Every position of the new frame is of exactly one of the two kinds. *)
Lemma new_frame_cases p :
  p < n →
  (∃ a, a ∈ acc ∧ second a = p) ∨ (∃ i, news !! i = Some p).
Proof.
  intros Hp.
  destruct (lookup_lt_is_Some_2 (to_used st1) p) as [[] Hb];
    [by rewrite (inv_to_len _ _ _ _ _ I)| |].
  - left. by apply (inv_to _ _ _ _ _ I).
  - right. by apply list_elem_of_lookup_1, elem_of_unlinked.
Qed.

Lemma new_frame_old p tr :
  C !! p = Some tr → tr < length T0 →
  ∃ a, a ∈ acc ∧ second a = p ∧ prev !! first a = Some tr.
Proof.
  intros Hc Hlt.
  assert (p < n) as Hp by (rewrite <- new_frame_length; by eapply lookup_lt_Some).
  destruct (new_frame_cases p Hp) as [(a & Ha & <-)|(i & Hi)].
  - exists a. split; [done|]. split; [done|].
    destruct (new_frame_linked a Ha) as (tr' & H1 & H2 & _). congruence.
  - apply new_frame_fresh in Hi. rewrite Hi in Hc. injection Hc as <-. lia.
Qed.

Lemma new_frame_fresh_iff i p :
  news !! i = Some p ↔ C !! p = Some (length T0 + i).
Proof.
  split; [apply new_frame_fresh|].
  intros Hc.
  assert (p < n) as Hp by (rewrite <- new_frame_length; by eapply lookup_lt_Some).
  destruct (new_frame_cases p Hp) as [(a & Ha & <-)|(j & Hj)].
  - destruct (new_frame_linked a Ha) as (tr' & _ & H2 & Hlt).
    rewrite H2 in Hc. injection Hc as ->. lia.
  - pose proof (new_frame_fresh j p Hj) as Hc'.
    rewrite Hc' in Hc. injection Hc as Hc.
    by replace i with j by lia.
Qed.

Lemma new_frame_news : news = new_positions (length T0) C.
Proof.
  unfold news, unlinked, new_positions.
  rewrite new_frame_length, (inv_to_len _ _ _ _ _ I).
  apply filter_ext_in. intros p Hp. apply elem_of_seq in Hp. split.
  - intros Hu. apply elem_of_unlinked, list_elem_of_lookup_1 in Hu as [i Hi].
    exists (length T0 + i). split; [by apply new_frame_fresh|lia].
  - intros (tr & Hc & Hle). apply elem_of_unlinked.
    apply (list_elem_of_lookup_2 _ (tr - length T0)), new_frame_fresh_iff.
    rewrite Hc. f_equal. lia.
Qed.

Hypothesis prev_nodup : NoDup prev.

Lemma new_frame_nodup : NoDup C.
Proof.
  apply NoDup_alt. intros p q tr Hp Hq.
  assert (p < n) as Hpn by (rewrite <- new_frame_length; by eapply lookup_lt_Some).
  assert (q < n) as Hqn by (rewrite <- new_frame_length; by eapply lookup_lt_Some).
  destruct (decide (tr < length T0)) as [Hlt|Hge].
  - destruct (new_frame_old p tr Hp Hlt) as (a & Ha & <- & Hpa).
    destruct (new_frame_old q tr Hq Hlt) as (b & Hb & <- & Hpb).
    assert (first a = first b) as Hf by (by eapply NoDup_lookup).
    apply list_elem_of_lookup_1 in Ha as [i Hi], Hb as [j Hj].
    assert (i = j) as ->.
    { eapply NoDup_lookup; [apply (inv_first _ _ _ _ _ I)|..].
      - rewrite list_lookup_fmap, Hi. done.
      - rewrite list_lookup_fmap, Hj. simpl. by rewrite Hf. }
    congruence.
  - replace tr with (length T0 + (tr - length T0)) in Hp, Hq by lia.
    apply new_frame_fresh_iff in Hp, Hq. congruence.
Qed.

Lemma appended_at_traj tr : tr < length T0 → appended prev acc tr = at_traj C tr.
Proof.
  intros Hlt. apply Permutation_short; [|by apply at_traj_length, new_frame_nodup].
  apply NoDup_Permutation.
  - unfold appended. eapply sublist_NoDup; [apply (inv_second _ _ _ _ _ I)|].
    apply fmap_sublist, sublist_filter.
  - apply NoDup_at_traj.
  - intros p. rewrite elem_of_at_traj. unfold appended.
    rewrite list_elem_of_fmap. split.
    + intros (a & -> & Ha). apply list_elem_of_filter in Ha as [Hp Ha].
      destruct (new_frame_linked a Ha) as (tr' & H1 & H2 & _). congruence.
    + intros Hc. destruct (new_frame_old p tr Hc Hlt) as (a & Ha & <- & Hpa).
      exists a. split; [done|]. by apply list_elem_of_filter.
Qed.

Lemma extended_at_traj :
  extended prev T0 acc =
  imap (λ tr traj, mkTraj (start traj) (steps traj ++ at_traj C tr)) T0.
Proof.
  unfold extended. apply list_eq. intros tr. rewrite !list_lookup_imap.
  destruct (T0 !! tr) as [traj|] eqn:E; simpl; [|done].
  rewrite appended_at_traj; [done|]. by eapply lookup_lt_Some.
Qed.

End new_frame.


Lemma add_Frame_frame ti frame_size distances p_from p_to prev :
  valid_call ti frame_size distances p_from p_to prev → NoDup prev →
  ∃ C,
    add_Frame ti frame_size distances p_from p_to =
      Done {| tr2pos :=
                imap (λ tr traj, mkTraj (start traj) (steps traj ++ at_traj C tr))
                     (tr2pos ti)
                ++ (Traj_new (nbFrames ti) <$> new_positions (size ti) C);
              pos2tr := pos2tr ti ++ [C] |} ∧
    length C = frame_size ∧ NoDup C ∧
    (∀ p tr, C !! p = Some tr → tr < size ti → tr ∈ prev) ∧
    (∀ i p, new_positions (size ti) C !! i = Some p ↔ C !! p = Some (size ti + i)).
Proof.
  intros V Hnd.
  destruct (add_Frame_done _ _ _ _ _ _ V) as (st1 & I & ->).
  pose proof (vc_trajs _ _ _ _ _ _ V) as Hok.
  exists (cur (start_loop (nbFrames ti) st1)).
  pose proof (new_frame_news _ _ _ (nbFrames ti) _ _ I Hok) as Hnews.
  fold (size ti) in Hnews.
  split; [|split; [|split; [|split]]].
  - f_equal. f_equal.
    rewrite (new_frame_trajs _ _ _ (nbFrames ti) _ _ I), Hnews.
    by rewrite (extended_at_traj _ _ _ (nbFrames ti) _ _ I Hok Hnd).
  - apply (new_frame_length _ _ _ (nbFrames ti) _ _ I).
  - by apply (new_frame_nodup _ _ _ (nbFrames ti) _ _ I Hok).
  - intros p tr Hc Hlt.
    destruct (new_frame_old _ _ _ (nbFrames ti) _ _ I Hok p tr Hc Hlt) as (a & _ & _ & Hp).
    by eapply list_elem_of_lookup_2.
  - intros i p. rewrite <- Hnews.
    apply (new_frame_fresh_iff _ _ _ (nbFrames ti) _ _ I Hok).
Qed.

(** *** A normal return implies a valid call *)

Lemma consume_from_length prev st b st' :
  consume prev st b = Some st' → length (from_used st') = length (from_used st).
Proof.
  unfold consume. intros H.
  destruct (prev !! first b) as [tr|]; simpl in H; [|done].
  destruct (trajs st !! tr) as [traj|]; simpl in H; [|done].
  injection H as <-. simpl. apply length_insert.
Qed.

Lemma link_step_Some prev st b st' :
  link_step prev st b = Some st' →
  first b < length (from_used st) ∧ length (from_used st') = length (from_used st).
Proof.
  unfold link_step. intros H.
  destruct (from_used st !! first b) as [fu|] eqn:E; simpl in H; [|done].
  split; [by eapply lookup_lt_Some|].
  destruct fu; [by injection H as <-|].
  destruct (to_used st !! second b) as [tu|]; simpl in H; [|done].
  destruct tu; [by injection H as <-|].
  by eapply consume_from_length.
Qed.

Lemma link_loop_Some prev bonds : ∀ st st',
  link_loop prev st bonds = Some st' →
  Forall (λ b, first b < length (from_used st)) bonds.
Proof.
  induction bonds as [|b bonds IH]; intros st st' H; simpl in H; [constructor|].
  destruct (link_step prev st b) as [st1|] eqn:E; simpl in H; [|done].
  apply link_step_Some in E as [Hb Hlen].
  constructor; [done|]. rewrite <- Hlen. by eapply IH.
Qed.

Lemma make_links_first ds fs ts :
  length ds = length fs → length fs = length ts →
  first <$> make_links ds fs ts = fs.
Proof.
  revert fs ts. induction ds as [|d ds IH]; intros [|f fs] [|t ts]; simpl; try done.
  intros H1 H2. f_equal. apply IH; lia.
Qed.

Lemma add_Frame_Done_valid ti frame_size distances p_from p_to ti' prev :
  add_Frame ti frame_size distances p_from p_to = Done ti' →
  last (pos2tr ti) = Some prev →
  Forall (λ tr, tr < length (tr2pos ti)) prev →
  valid_call ti frame_size distances p_from p_to prev.
Proof.
  unfold add_Frame. intros H Hlast Hok.
  destruct (length distances =? length p_from) eqn:E1; simpl in H; [|done].
  destruct (length p_from =? length p_to) eqn:E2; simpl in H; [|done].
  apply Nat.eqb_eq in E1, E2.
  destruct (max_element p_to) as [m|] eqn:Hm; [|done].
  destruct (frame_size <=? m) eqn:E3; [done|]. apply Nat.leb_gt in E3.
  rewrite Hlast in H.
  destruct (link_loop prev _ _) as [st1|] eqn:Hl; [|done].
  apply link_loop_Some in Hl. simpl in Hl. rewrite length_replicate in Hl.
  apply max_element_spec in Hm as [Hin Hmax].
  split; try done.
  - intros ->. by apply elem_of_nil in Hin.
  - eapply Forall_impl; [exact Hmax|]. simpl. lia.
  - rewrite <- (make_links_first distances p_from p_to E1 E2).
    apply Forall_fmap. rewrite <- (sort_perm (make_links distances p_from p_to)).
    exact Hl.
Qed.

(** *** Well-formed indices

    [prev] is the last frame of the index: its trajectory ids are
    pairwise different, and each of them names a trajectory that
    reaches the last frame. *)
Record wf (ti : TrajIndex) (prev : list nat) : Prop := {
  wf_last : last (pos2tr ti) = Some prev;
  wf_nodup : NoDup prev;
  wf_live : ∀ tr, tr ∈ prev →
    ∃ traj, tr2pos ti !! tr = Some traj ∧
            start traj + length (steps traj) = nbFrames ti
}.

Lemma wf_bound ti prev : wf ti prev → Forall (λ tr, tr < length (tr2pos ti)) prev.
Proof.
  intros W. apply Forall_forall. intros tr Htr.
  destruct (wf_live _ _ W tr Htr) as (traj & H & _). by eapply lookup_lt_Some.
Qed.

Lemma wf_new n : wf (TrajIndex_new n) (seq 0 n).
Proof.
  split; simpl; [done|apply NoDup_seq|].
  intros tr Htr. apply elem_of_seq in Htr.
  exists (Traj_new 0 tr). split; [|done].
  rewrite list_lookup_fmap, lookup_seq_lt by lia. done.
Qed.


Lemma at_traj_singleton C p tr : NoDup C → C !! p = Some tr → at_traj C tr = [p].
Proof.
  intros Hnd Hp. pose proof (at_traj_length C tr Hnd) as Hlen.
  apply elem_of_at_traj in Hp.
  destruct (at_traj C tr) as [|q [|q' l]]; simpl in Hlen; [|..|lia].
  - by apply elem_of_nil in Hp.
  - by apply list_elem_of_singleton in Hp as ->.
Qed.

(** A well-formed index stays well-formed when [add_Frame] returns,
    and the frame it gained describes the whole change. *)
Lemma add_Frame_wf ti prev frame_size distances p_from p_to ti' :
  wf ti prev →
  add_Frame ti frame_size distances p_from p_to = Done ti' →
  ∃ C,
    ti' = {| tr2pos :=
               imap (λ tr traj, mkTraj (start traj) (steps traj ++ at_traj C tr))
                    (tr2pos ti)
               ++ (Traj_new (nbFrames ti) <$> new_positions (size ti) C);
             pos2tr := pos2tr ti ++ [C] |} ∧
    length C = frame_size ∧ wf ti' C ∧
    (∀ p tr, C !! p = Some tr → tr < size ti → tr ∈ prev) ∧
    (∀ i p, new_positions (size ti) C !! i = Some p ↔ C !! p = Some (size ti + i)).
Proof.
  intros W H.
  pose proof (add_Frame_Done_valid _ _ _ _ _ _ _ H (wf_last _ _ W) (wf_bound _ _ W)) as V.
  destruct (add_Frame_frame _ _ _ _ _ _ V (wf_nodup _ _ W))
    as (C & E & Hlen & Hnd & Hold & Hnew).
  rewrite E in H. injection H as <-.
  exists C. split; [done|]. split; [done|]. split; [|done].
  split; simpl.
  - apply last_snoc.
  - done.
  - intros tr Htr. apply list_elem_of_lookup_1 in Htr as [p Hp].
    unfold nbFrames. simpl. rewrite length_app. simpl.
    destruct (decide (tr < size ti)) as [Hlt|Hge].
    + destruct (wf_live _ _ W tr (Hold p tr Hp Hlt)) as (traj & Ht & Hlive).
      eexists. split.
      * rewrite lookup_app_l by (rewrite length_imap; apply Hlt).
        rewrite list_lookup_imap, Ht. done.
      * simpl. rewrite length_app, (at_traj_singleton C p tr Hnd Hp). simpl.
        unfold nbFrames in Hlive. lia.
    + replace tr with (size ti + (tr - size ti)) in Hp |- * by lia.
      apply Hnew in Hp.
      exists (Traj_new (nbFrames ti) p). split; [|done].
      rewrite lookup_app_r by (rewrite length_imap; unfold size; lia).
      rewrite length_imap. unfold size.
      replace (length (tr2pos ti) + (tr - length (tr2pos ti)) - length (tr2pos ti))
        with (tr - length (tr2pos ti)) by lia.
      rewrite list_lookup_fmap. unfold size in Hp. by rewrite Hp.
Qed.

(** *** Failures of [add_Frame] *)

Lemma add_Frame_nil ti frame_size : add_Frame ti frame_size [] [] [] = Undefined.
Proof. reflexivity. Qed.

(** The two checks throw, in this order, and nothing else does; the
    index is untouched when they do. *)
Lemma add_Frame_throws ti frame_size distances p_from p_to e ti' :
  add_Frame ti frame_size distances p_from p_to = Throws e ti' ↔
  ti' = ti ∧
  ((e = invalid_argument msg_sizes ∧
    ¬ (length distances = length p_from ∧ length p_from = length p_to)) ∨
   (e = invalid_argument msg_largest ∧
    length distances = length p_from ∧ length p_from = length p_to ∧
    ∃ m, max_element p_to = Some m ∧ frame_size ≤ m)).
Proof.
  unfold add_Frame.
  destruct (length distances =? length p_from) eqn:E1; simpl.
  2:{ apply Nat.eqb_neq in E1. split.
      - intros [= <- <-]. split; [done|]. left. split; [done|]. tauto.
      - intros [-> [[-> _]|[_ [? _]]]]; done. }
  destruct (length p_from =? length p_to) eqn:E2; simpl.
  2:{ apply Nat.eqb_neq in E2. split.
      - intros [= <- <-]. split; [done|]. left. split; [done|]. tauto.
      - intros [-> [[-> _]|[_ [_ [? _]]]]]; done. }
  apply Nat.eqb_eq in E1, E2.
  destruct (max_element p_to) as [m|] eqn:Hm.
  2:{ split; [done|]. intros [_ [[_ H]|(_ & _ & _ & m & ? & _)]]; [tauto|done]. }
  destruct (frame_size <=? m) eqn:E3.
  - apply Nat.leb_le in E3. split.
    + intros [= <- <-]. split; [done|]. right. eauto 6.
    + intros [-> [[_ H]|[-> _]]]; [tauto|done].
  - apply Nat.leb_gt in E3.
    destruct (last (pos2tr ti)) as [prev|].
    2:{ split; [done|]. intros [_ [[_ H]|(_ & _ & _ & m' & [= <-] & ?)]]; [tauto|lia]. }
    destruct (link_loop _ _ _).
    + split; [done|]. intros [_ [[_ H]|(_ & _ & _ & m' & [= <-] & ?)]]; [tauto|lia].
    + split; [done|]. intros [_ [[_ H]|(_ & _ & _ & m' & [= <-] & ?)]]; [tauto|lia].
Qed.


Lemma add_Frame_greedy_witness :
  ∃ ti', add_Frame (TrajIndex_new 2) 3 [1#10; 1#20; 1#5; 3#10]%Q
                   [0; 0; 1; 1] [0; 1; 1; 0] = Done ti' ∧
         tr2pos ti' !! 0 = Some (mkTraj 0 [0; 1]) ∧
         tr2pos ti' !! 1 = Some (mkTraj 0 [1; 0]).
Proof.
  assert (valid_call (TrajIndex_new 2) 3 [1#10; 1#20; 1#5; 3#10]%Q
                     [0; 0; 1; 1] [0; 1; 1; 0] [0; 1]) as V
    by (split; simpl; try done; repeat constructor; lia).
  destruct (add_Frame_greedy _ _ _ _ _ _ V)
    as (ti' & H & _ & _ & _ & Htr & _).
  exists ti'. split; [exact H|]. split.
  - exact (Htr 0 (mkTraj 0 [0]) eq_refl).
  - exact (Htr 1 (mkTraj 0 [1]) eq_refl).
Defined.

(** C4 (at the failing input).  With a previous frame of two positions,
    a new frame of three and no candidate link at all, the three arrays
    have equal length and no [to] index reaches the frame size, yet
    [add_Frame] does not complete: it dereferences the end iterator
    returned by [std::max_element]. *)
Theorem add_Frame_no_candidate :
  length ([] : list Q) = length ([] : list nat) ∧
  Forall (λ t, t < 3) ([] : list nat) ∧
  add_Frame (TrajIndex_new 2) 3 [] [] [] = Undefined.
Proof. repeat split. constructor. Qed.

End TrajFacts.

(** ** Reconstructor *)

Module ReconFacts.
Import Recon Traj TrajFacts.

(** *** The loop that files the new frame into the clusters *)

(** The cluster [cl] follows the trajectory [traj] through [frames]:
    one centre per frame spanned, in frame order, each the detection
    at the position the trajectory has in that frame. *)
Definition follows (frames : list Frame) (traj : Traj) (cl : Cluster) : Prop :=
  length cl = length (steps traj) ∧
  ∀ k p, steps traj !! k = Some p →
    ∃ fr c, frames !! (start traj + k) = Some fr ∧ fr !! p = Some c ∧
            cl !! k = Some (Center3D_of c (start traj + k)).

Lemma follows_heights frames traj cl :
  follows frames traj cl →
  c3_z <$> cl = frame_z <$> seq (start traj) (length (steps traj)).
Proof.
  intros [Hlen Hf]. apply list_eq. intros k.
  rewrite !list_lookup_fmap.
  destruct (steps traj !! k) as [p|] eqn:E.
  - destruct (Hf k p E) as (fr & c & _ & _ & ->).
    rewrite lookup_seq_lt by (by eapply lookup_lt_Some). done.
  - apply lookup_ge_None in E.
    rewrite (proj2 (lookup_ge_None cl k)) by lia.
    rewrite lookup_seq_ge by lia. done.
Qed.

Section cluster_loop.
Variables (ti' : TrajIndex) (t old : nat) (C : list nat) (frame : Frame).
Hypothesis frame_C : ∀ q, getTraj ti' t q = C !! q.
Hypothesis frame_len : length C = length frame.

(** The centres pushed to cluster [j] for the positions [p .. p+n-1]. *)
Definition hits (j p n : nat) : list Center3D :=
  omap (λ q, (λ c, Center3D_of c t) <$> frame !! q)
       (filter (λ q, C !! q = Some j) (seq p n)).

Lemma cluster_loop_spec (fr : Frame) : ∀ p cls,
  drop p frame = fr → old ≤ length cls →
  ∃ cls', cluster_loop ti' t old cls p fr = Some cls' ∧
    length cls' =
      length cls + length (filter (starts_traj old C) (seq p (length fr))) ∧
    (∀ j cl, j < old → cls !! j = Some cl →
       cls' !! j = Some (cl ++ hits j p (length fr))) ∧
    (∀ j cl, old ≤ j → cls !! j = Some cl → cls' !! j = Some cl) ∧
    (∀ i q, filter (starts_traj old C) (seq p (length fr)) !! i = Some q →
       ∃ c, frame !! q = Some c ∧
            cls' !! (length cls + i) = Some [Center3D_of c t]).
Proof.
  induction fr as [|c fr IH]; intros p cls Hdrop Hold; simpl.
  { exists cls. split; [done|]. split; [lia|]. split; [|split].
    - intros j cl _ Hj. unfold hits. simpl. by rewrite app_nil_r.
    - done.
    - intros i q Hi. done. }
  assert (frame !! p = Some c) as Hc.
  { rewrite <- (Nat.add_0_r p), <- lookup_drop, Hdrop. done. }
  assert (drop (S p) frame = fr) as Hdrop'.
  { replace (S p) with (p + 1) by lia.
    rewrite <- drop_drop, Hdrop. done. }
  destruct (lookup_lt_is_Some_2 C p) as [tr Htr].
  { rewrite frame_len. by eapply lookup_lt_Some. }
  unfold cluster_step. rewrite frame_C, Htr. simpl.
  rewrite (filter_cons (starts_traj old C)).
  destruct (tr <? old) eqn:E.
  - apply Nat.ltb_lt in E.
    destruct (lookup_lt_is_Some_2 cls tr) as [cl0 Hcl0]; [lia|].
    rewrite Hcl0. simpl.
    destruct (IH (S p) (<[tr := cl0 ++ [Center3D_of c t]]> cls))
      as (cls' & -> & Hlen & Hhit & Hkeep & Hnew);
      [done|by rewrite length_insert|].
    rewrite length_insert in Hlen, Hnew.
    destruct (decide (starts_traj old C p)) as [(tr' & Htr' & ?)|_].
    { rewrite Htr in Htr'. injection Htr' as <-. lia. }
    exists cls'. split; [done|]. split; [done|]. split; [|split; [|done]].
    + intros j cl Hj Hjl. unfold hits.
      change (seq p (S (length fr))) with (p :: seq (S p) (length fr)).
      rewrite filter_cons.
      destruct (decide (j = tr)) as [->|Hne].
      * rewrite decide_True by done. simpl. rewrite Hc. simpl.
        rewrite (Hhit tr (cl0 ++ [Center3D_of c t]) Hj).
        -- replace cl with cl0 by congruence.
           by rewrite <- app_assoc.
        -- rewrite list_lookup_insert_eq; [done|]. by eapply lookup_lt_Some.
      * rewrite decide_False by (rewrite Htr; intros [=]; done).
        apply Hhit; [done|]. by rewrite list_lookup_insert_ne.
    + intros j cl Hj Hjl. apply Hkeep; [done|].
      rewrite list_lookup_insert_ne; [done|lia].
  - apply Nat.ltb_ge in E. simpl.
    destruct (IH (S p) (cls ++ [[Center3D_of c t]]))
      as (cls' & -> & Hlen & Hhit & Hkeep & Hnew);
      [done|rewrite length_app; lia|].
    rewrite length_app in Hlen, Hnew. simpl in Hlen, Hnew.
    destruct (decide (starts_traj old C p)) as [_|Hn].
    2:{ destruct Hn. by exists tr. }
    exists cls'. split; [done|]. split; [simpl; lia|]. split; [|split].
    + intros j cl Hj Hjl. unfold hits.
      change (seq p (S (length fr))) with (p :: seq (S p) (length fr)).
      rewrite filter_cons.
      rewrite decide_False by (rewrite Htr; intros [=]; lia).
      apply Hhit; [done|]. rewrite lookup_app_l; [done|].
      by eapply lookup_lt_Some.
    + intros j cl Hj Hjl. apply Hkeep; [done|].
      rewrite lookup_app_l; [done|]. by eapply lookup_lt_Some.
    + intros [|i] q Hi; simpl in Hi.
      * injection Hi as <-. exists c. split; [done|].
        rewrite Nat.add_0_r. apply Hkeep; [done|].
        rewrite lookup_app_r, Nat.sub_diag by lia. done.
      * destruct (Hnew i q Hi) as (c' & Hc' & Hcl). exists c'. split; [done|].
        by replace (length cls + S i) with (length cls + 1 + i) by lia.
Qed.

End cluster_loop.

(** *** The invariant of [push_back] *)

Record recon_inv (frames : list Frame) (r : Reconstructor)
    (ti : TrajIndex) (prev : list nat) : Prop := {
  ri_traj : trajectories r = Some ti;
  ri_wf : wf ti prev;
  ri_frames : nbFrames ti = length frames;
  ri_frame : length prev = length (last_frame r);
  ri_size : length (clusters r) = size ti;
  ri_follows : ∀ tr traj cl,
    tr2pos ti !! tr = Some traj → clusters r !! tr = Some cl →
    follows frames traj cl
}.

Lemma push_back_first r fr tolerance :
  trajectories r = None → clusters r = [] →
  ∃ r', push_back r fr tolerance = Done r' ∧
        recon_inv [fr] r' (TrajIndex_new (length fr)) (seq 0 (length fr)).
Proof.
  intros Hnone Hcl. unfold push_back, empty. rewrite Hnone, Hcl.
  eexists. split; [done|]. split; simpl.
  - done.
  - apply wf_new.
  - done.
  - apply length_seq.
  - unfold size. simpl. by rewrite !length_fmap, length_seq.
  - intros tr traj cl Ht Hc.
    rewrite list_lookup_fmap in Ht. rewrite list_lookup_fmap in Hc.
    apply fmap_Some in Hc as (c & Hc & ->).
    rewrite lookup_seq_lt in Ht by (by eapply lookup_lt_Some).
    injection Ht as <-. split; [done|].
    intros k p Hk. apply list_lookup_singleton_Some in Hk as [-> <-].
    exists fr, c. done.
Qed.

Lemma follows_more frames fr traj cl :
  follows frames traj cl → follows (frames ++ [fr]) traj cl.
Proof.
  intros [Hlen Hf]. split; [done|]. intros k p Hk.
  destruct (Hf k p Hk) as (fr' & c & H1 & H2 & H3).
  exists fr', c. split; [|done]. by apply lookup_app_l_Some.
Qed.

Lemma push_back_next frames r ti prev fr tolerance r' :
  recon_inv frames r ti prev → push_back r fr tolerance = Done r' →
  ∃ ti' C, recon_inv (frames ++ [fr]) r' ti' C.
Proof.
  intros Inv H. unfold push_back, empty, Recon.size in H.
  rewrite (ri_traj _ _ _ _ Inv) in H.
  destruct (add_Frame ti _ _ _ _) as [ti'| |] eqn:Ha; [|done..].
  destruct (cluster_loop ti' _ _ _ _ _) as [cls|] eqn:Hc; [|done].
  injection H as <-.
  destruct (add_Frame_wf _ _ _ _ _ _ _ (ri_wf _ _ _ _ Inv) Ha)
    as (C & E & Hlen & W' & Hold & Hnews).
  assert (frame_C : ∀ q, getTraj ti' (nbFrames ti) q = C !! q)
    by (intros q; rewrite E; apply getTraj_new_frame).
  destruct (cluster_loop_spec ti' (nbFrames ti) (size ti) C fr frame_C Hlen
              fr 0 (clusters r))
    as (cls' & Hc' & Hclen & Hhit & _ & Hnew).
  { done. }
  { by rewrite (ri_size _ _ _ _ Inv). }
  rewrite Hc in Hc'. injection Hc' as <-. clear frame_C Hc. subst ti'.
  rewrite <- Hlen in Hclen, Hnew, Hhit.
  fold (new_positions (size ti) C) in Hclen, Hnew.
  pose proof (ri_frames _ _ _ _ Inv) as Hnf.
  eexists _, C. split; simpl; [reflexivity|exact W'|..|exact Hlen| |].
  - unfold nbFrames in *. simpl. rewrite !length_app. simpl. lia.
  - unfold size. simpl. rewrite length_app, length_imap, length_fmap.
    rewrite Hclen, (ri_size _ _ _ _ Inv). done.
  - intros tr traj' cl' Ht Hcl. simpl in Ht.
    destruct (decide (tr < size ti)) as [Hlt|Hge].
    + rewrite lookup_app_l in Ht by (by rewrite length_imap).
      rewrite list_lookup_imap in Ht.
      destruct (tr2pos ti !! tr) as [traj|] eqn:Etr; simpl in Ht; [|done].
      injection Ht as <-.
      destruct (lookup_lt_is_Some_2 (clusters r) tr) as [cl Ecl];
        [by rewrite (ri_size _ _ _ _ Inv)|].
      rewrite (Hhit tr cl Hlt Ecl) in Hcl. injection Hcl as <-.
      destruct (ri_follows _ _ _ _ Inv tr traj cl Etr Ecl) as [Hfl Hf].
      unfold hits. fold (at_traj C tr).
      destruct (at_traj C tr) as [|p l] eqn:Eat.
      { simpl. rewrite !app_nil_r.
        apply follows_more. by split. }
      assert (C !! p = Some tr) as Hp
        by (apply elem_of_at_traj; rewrite Eat; left).
      rewrite (at_traj_singleton C p tr (wf_nodup _ _ W') Hp) in Eat.
      injection Eat as <-.
      destruct (wf_live _ _ (ri_wf _ _ _ _ Inv) tr (Hold p tr Hp Hlt))
        as (traj0 & Ht0 & Hlive).
      rewrite Etr in Ht0. injection Ht0 as <-.
      destruct (lookup_lt_is_Some_2 fr p) as [c Hcp].
      { rewrite <- Hlen. by eapply lookup_lt_Some. }
      simpl. rewrite Hcp. simpl.
      split; [simpl; rewrite !length_app; simpl; lia|].
      intros k q Hk. simpl in Hk |- *.
      apply lookup_app_Some in Hk as [Hk|[Hk1 Hk2]].
      * destruct (Hf k q Hk) as (fr' & c' & H1 & H2 & H3).
        exists fr', c'. split; [by apply lookup_app_l_Some|]. split; [done|].
        by apply lookup_app_l_Some.
      * apply list_lookup_singleton_Some in Hk2 as [Hk2 <-].
        assert (k = length (steps traj)) as -> by lia.
        exists fr, c. rewrite Hlive, Hnf. split.
        -- rewrite lookup_app_r, Nat.sub_diag by lia. done.
        -- split; [done|].
           rewrite lookup_app_r, Hfl, Nat.sub_diag by lia. done.
    + rewrite lookup_app_r in Ht by (rewrite length_imap; unfold size in Hge; lia).
      rewrite length_imap in Ht. rewrite list_lookup_fmap in Ht.
      apply fmap_Some in Ht as (p & Hp & ->).
      destruct (Hnew _ _ Hp) as (c & Hcp & Hcl').
      rewrite (ri_size _ _ _ _ Inv) in Hcl'. unfold size in Hcl', Hge.
      replace (length (tr2pos ti) + (tr - length (tr2pos ti))) with tr in Hcl' by lia.
      rewrite Hcl in Hcl'. injection Hcl' as ->.
      split; [done|]. intros k q Hk. simpl in Hk |- *.
      apply list_lookup_singleton_Some in Hk as [-> <-].
      exists fr, c. rewrite Nat.add_0_r, Hnf. split; [|done].
      rewrite lookup_app_r, Nat.sub_diag by lia. done.
Qed.

Lemma push_back_throws frames r ti prev fr tolerance e r' :
  recon_inv frames r ti prev → push_back r fr tolerance = Throws e r' →
  recon_inv frames r' ti prev.
Proof.
  intros Inv H. unfold push_back, empty, Recon.size in H.
  rewrite (ri_traj _ _ _ _ Inv) in H.
  destruct (add_Frame ti _ _ _ _) as [ti'|e' ti'|] eqn:Ha; [|..|done].
  - by destruct (cluster_loop ti' _ _ _ _ _).
  - injection H as <- <-. apply add_Frame_throws in Ha as [-> _].
    split; simpl; [reflexivity|apply Inv..].
Qed.

Lemma reachable_inv frames r :
  reachable frames r →
  (trajectories r = None ∧ clusters r = [] ∧ frames = []) ∨
  ∃ ti prev, recon_inv frames r ti prev.
Proof.
  induction 1 as [|frames r _ _|frames r fr tol r' _ IH H|frames r fr tol e r' _ IH H].
  - by left.
  - by left.
  - right. destruct IH as [(Hn & Hc & ->)|(ti & prev & Inv)].
    + destruct (push_back_first r fr tol Hn Hc) as (r'' & H' & Inv').
      rewrite H in H'. injection H' as <-. eauto.
    + by eapply push_back_next.
  - right. destruct IH as [(Hn & Hc & ->)|(ti & prev & Inv)].
    + destruct (push_back_first r fr tol Hn Hc) as (r'' & H' & _). congruence.
    + exists ti, prev. by eapply push_back_throws.
Qed.

(** C10.  After any sequence of [push_back] calls there are as many
    clusters as trajectories, and cluster number [tr] follows
    trajectory [tr]: it holds exactly one centre for each frame the
    trajectory spans, in increasing frame order, namely the detection
    at the position of the trajectory in that frame. *)
Theorem clusters_follow_trajectories frames r :
  reachable frames r →
  match trajectories r with
  | None => clusters r = []
  | Some ti =>
      length (clusters r) = size ti ∧
      ∀ tr traj, tr2pos ti !! tr = Some traj →
        ∃ cl, clusters r !! tr = Some cl ∧
              follows frames traj cl ∧
              c3_z <$> cl = frame_z <$> seq (start traj) (length (steps traj))
  end.
Proof.
  intros Hr.
  destruct (reachable_inv frames r Hr) as [(-> & Hc & _)|(ti & prev & Inv)]; [done|].
  rewrite (ri_traj _ _ _ _ Inv). split; [apply Inv|].
  intros tr traj Ht.
  destruct (lookup_lt_is_Some_2 (clusters r) tr) as [cl Hcl].
  { rewrite (ri_size _ _ _ _ Inv). by eapply lookup_lt_Some. }
  exists cl. split; [done|].
  pose proof (ri_follows _ _ _ _ Inv tr traj cl Ht Hcl) as Hf.
  split; [done|]. by eapply follows_heights.
Qed.


(** *** Candidate links: the tree search against the enumeration *)


Lemma index_frame_spec fr : ∀ tree p,
  index_frame tree p fr = tree ++ imap (λ i c, (p + i, get_bb c 1)) fr.
Proof.
  induction fr as [|c fr IH]; intros tree p; simpl.
  { by rewrite app_nil_r. }
  rewrite IH. unfold Insert. rewrite <- app_assoc. simpl.
  rewrite Nat.add_0_r. do 2 f_equal.
  apply imap_ext. intros i c' _. simpl. f_equal. lia.
Qed.




Lemma elem_of_links_by_RStarTree last_frame fr tolerance l :
  l ∈ links_by_RStarTree last_frame fr tolerance ↔
  ∃ p c t c', last_frame !! p = Some c ∧ fr !! t = Some c' ∧
              l = mkLink p t (sqdist c c') ∧
              overlaps (get_bb c' 1) (get_bb c tolerance) = true ∧
              (sqdist c c' < sqreach c c' tolerance)%Q.
Proof.
  unfold links_by_RStarTree. rewrite index_frame_spec, list_elem_of_join. simpl.
  split.
  - intros (row & Hl & Hrow).
    apply elem_of_lookup_imap in Hrow as (p & c & -> & Hp).
    unfold links_of in Hl. apply list_elem_of_bind in Hl as (t & Hl & Ht).
    unfold Query_overlapping in Ht.
    apply list_elem_of_fmap in Ht as ([t' b] & -> & Ht).
    apply list_elem_of_filter in Ht as [Hov Ht]. simpl in *.
    apply elem_of_lookup_imap in Ht as (i & c' & [= -> ->] & Hi).
    rewrite Hi in Hl.
    destruct (Qltb (sqdist c c') (sqreach c c' tolerance)) eqn:E;
      [|by apply elem_of_nil in Hl].
    apply list_elem_of_singleton in Hl as ->. apply Qltb_lt in E.
    exists p, c, i, c'. done.
  - intros (p & c & t & c' & Hp & Ht & -> & Hov & Hd).
    eexists. split;
      [|by apply (elem_of_lookup_imap_2
                    (λ p c, links_of fr tolerance p c
                       (Query_overlapping (imap (λ i c0, (i, get_bb c0 1)) fr)
                                          (get_bb c tolerance))) _ _ _ Hp)].
    unfold links_of. apply list_elem_of_bind. exists t. split.
    + rewrite Ht. apply Qltb_lt in Hd. rewrite Hd. left.
    + unfold Query_overlapping. apply list_elem_of_fmap.
      exists (t, get_bb c' 1). split; [done|].
      apply list_elem_of_filter. split; [done|].
      by apply (elem_of_lookup_imap_2 (λ i c0, (i, get_bb c0 1))).
Qed.


(** *** Concrete frames *)

(** Two blobs, the same two blobs slightly moved and swapped together
    with a third one, and a blob far from everything. *)
Definition frame_a : Frame :=
  [mkCenter2D 0 0 1 1; mkCenter2D 10 0 1 1].
Definition frame_b : Frame :=
  [mkCenter2D 10 (1#2) 1 1; mkCenter2D 0 (1#2) 1 1; mkCenter2D 20 0 1 1].
Definition frame_far : Frame := [mkCenter2D 100 100 1 1].

Definition recon_a : Reconstructor :=
  {| clusters := [[mkCenter3D 0 0 0 1 1]; [mkCenter3D 10 0 0 1 1]];
     trajectories := Some (TrajIndex_new 2);
     last_frame := frame_a |}.

Definition recon_ab : Reconstructor :=
  {| clusters := [[mkCenter3D 0 0 0 1 1; mkCenter3D 0 (1#2) 1 1 1];
                  [mkCenter3D 10 0 0 1 1; mkCenter3D 10 (1#2) 1 1 1];
                  [mkCenter3D 20 0 1 1 1]];
     trajectories :=
       Some {| tr2pos := [mkTraj 0 [0; 1]; mkTraj 0 [1; 0]; mkTraj 1 [2]];
               pos2tr := [[0; 1]; [1; 0; 2]] |};
     last_frame := frame_b |}.

Example push_back_a : push_back Reconstructor_new frame_a 1 = Done recon_a.
Proof. vm_compute. reflexivity. Qed.

Example push_back_ab : push_back recon_a frame_b 1 = Done recon_ab.
Proof. vm_compute. reflexivity. Qed.

Lemma reachable_a : reachable [frame_a] recon_a.
Proof. apply (reach_push [] _ _ _ _ reach_new push_back_a). Qed.

Lemma clusters_follow_trajectories_witness :
  length (clusters recon_ab) = 3 ∧
  ∀ tr traj,
    [mkTraj 0 [0; 1]; mkTraj 0 [1; 0]; mkTraj 1 [2]] !! tr = Some traj →
    ∃ cl, clusters recon_ab !! tr = Some cl ∧
          follows [frame_a; frame_b] traj cl ∧
          c3_z <$> cl = frame_z <$> seq (start traj) (length (steps traj)).
Proof.
  apply (clusters_follow_trajectories [frame_a; frame_b] recon_ab).
  apply (reach_push [frame_a] recon_a frame_b 1);
    [apply (reach_push [] Reconstructor_new frame_a 1); [apply reach_new|]|].
  - vm_compute. reflexivity.
  - vm_compute. reflexivity.
Defined.

(** C9.  [add_Frame] reads [*std::max_element(p_to.begin(), p_to.end())]
    unguarded: with arrays of equal length it is defined only if they
    are not empty, and it never returns normally on an empty [to].
    [push_back] hands it three empty arrays whenever no pair of the two
    frames survives the overlap test, which does happen. *)
Theorem add_Frame_requires_candidates :
  (∀ ti frame_size distances p_from p_to,
     length distances = length p_from → length p_from = length p_to →
     p_to = [] →
     add_Frame ti frame_size distances p_from p_to = Undefined) ∧
  (∀ ti frame_size distances p_from p_to ti',
     add_Frame ti frame_size distances p_from p_to = Done ti' → p_to ≠ []) ∧
  (∀ r ti fr tolerance,
     trajectories r = Some ti →
     links_by_RStarTree (last_frame r) fr tolerance = [] →
     push_back r fr tolerance = Undefined) ∧
  (reachable [frame_a] recon_a ∧
   links_by_RStarTree (last_frame recon_a) frame_far 1 = [] ∧
   push_back recon_a frame_far 1 = Undefined).
Proof.
  split; [|split; [|split]].
  - intros ti n ds fs ts H1 H2 ->.
    destruct fs; [|done]. destruct ds; [|done]. apply add_Frame_nil.
  - intros ti n ds fs ts ti' H ->. unfold add_Frame in H.
    destruct (negb _ || negb _); [done|]. done.
  - intros r ti fr tol Ht Hl. unfold push_back, empty. rewrite Ht, Hl.
    change (add_Frame ti (length fr) (distance <$> []) (first <$> []) (second <$> []))
      with (add_Frame ti (length fr) [] [] []).
    by rewrite add_Frame_nil.
  - split; [apply reachable_a|]. split; vm_compute; reflexivity.
Qed.

(** C3 (at the failing input).  A previous blob of radius 1 at the
    origin, a new blob of radius 1 at distance 7/2 and a tolerance of 2:
    the squared distance 49/4 is below the squared reach 16, so the
    filtered enumeration of all pairs keeps the pair, but the boxes
    [-2, 2] and [5/2, 9/2] do not meet and the tree search returns
    nothing. *)
Theorem links_by_RStarTree_misses :
  let p := mkCenter2D 0 0 1 1 in
  let t := mkCenter2D (7#2) 0 1 1 in
  (sqdist p t < sqreach p t 2)%Q ∧
  links_by_RStarTree [p] [t] 2 = [] ∧
  filter (λ l, Qltb (distance l) (sqreach p t 2) = true)
         (links_by_brute_force [p] [t]) = [mkLink 0 0 (49#4)].
Proof.
  split; [reflexivity|]. split; vm_compute; reflexivity.
Qed.

End ReconFacts.


(** ** Binary64 arithmetic

    What the operations of the floats compute, derived from their
    specification in [SpecFloat]: the exact result rounded to the
    nearest float, ties to even, by a rounding that is monotone. *)

Module B64Facts.
Import Binary64.
Local Open Scope Z_scope.

Lemma digits2_pos_size m : digits2_pos m = Pos.size m.
Proof. induction m; simpl; congruence. Qed.

Lemma digits2_log2 m : Zpos (digits2_pos m) = Z.log2 (Zpos m) + 1.
Proof. rewrite digits2_pos_size. destruct m; simpl; lia. Qed.

Lemma digits2_bounds m :
  2 ^ (Zpos (digits2_pos m) - 1) <= Zpos m < 2 ^ Zpos (digits2_pos m).
Proof.
  rewrite digits2_log2.
  replace (Z.log2 (Z.pos m) + 1 - 1) with (Z.log2 (Z.pos m)) by lia.
  apply (Z.log2_spec (Zpos m)). lia.
Qed.

Lemma Zdigits2_bounds z : 0 < z → 2 ^ (Zdigits2 z - 1) <= z < 2 ^ Zdigits2 z.
Proof. destruct z; try lia. intros _. apply digits2_bounds. Qed.

Lemma Zdigits2_unique z d : 0 < d → 2 ^ (d - 1) <= z < 2 ^ d → Zdigits2 z = d.
Proof.
  intros Hd Hz. assert (0 < z) by (pose proof (Z.pow_pos_nonneg 2 (d - 1)); lia).
  destruct z as [|m|]; try lia. simpl. rewrite digits2_log2.
  rewrite (Z.log2_unique (Zpos m) (d - 1)); [lia|lia|].
  replace (Z.succ (d - 1)) with d by lia. done.
Qed.

Lemma Zdigits2_pos z : 0 < z → 0 < Zdigits2 z.
Proof. destruct z; simpl; lia. Qed.

Lemma Zdigits2_shift z j : 0 < z → 0 <= j → Zdigits2 (z * 2 ^ j) = Zdigits2 z + j.
Proof.
  intros Hz Hj. pose proof (Zdigits2_bounds z Hz) as [H1 H2].
  pose proof (Zdigits2_pos z Hz).
  apply Zdigits2_unique; [lia|].
  replace (Zdigits2 z + j - 1) with (Zdigits2 z - 1 + j) by lia.
  rewrite !Z.pow_add_r by lia.
  pose proof (Z.pow_pos_nonneg 2 j). nia.
Qed.


(** *** The right shift with its rounding bits *)

Lemma shr_1_spec m r s :
  0 <= m →
  shr_1 (Build_shr_record m r s) = Build_shr_record (m / 2) (Z.odd m) (r || s).
Proof.
  intros Hm. rewrite <- Z.div2_div.
  destruct m as [|[p|p|]|]; try lia; done.
Qed.

Lemma shr_step M k : 0 <= M → shr_1 (shr_state M k) = shr_state M (S k).
Proof.
  intros HM.
  assert (Hp : ∀ j, 0 < 2 ^ Z.of_nat j) by (intros; apply Z.pow_pos_nonneg; lia).
  assert (Hs : ∀ j, 2 ^ Z.of_nat (S j) = 2 ^ Z.of_nat j * 2).
  { intros j. rewrite Nat2Z.inj_succ, Z.pow_succ_r by lia. lia. }
  destruct k as [|k]; simpl shr_state.
  - rewrite shr_1_spec by done. f_equal.
    + f_equal. rewrite Z.pow_0_r, Z.div_1_r. done.
    + rewrite Z.pow_0_r, Z.mod_1_r. done.
  - rewrite shr_1_spec by (apply Z.div_pos; [done|apply Hp]). f_equal.
    + rewrite (Hs (S k)), Z.div_div; [done|pose proof (Hp (S k)); lia|lia].
    + rewrite (Hs k).
      rewrite Z.rem_mul_r by (pose proof (Hp k); lia).
      rewrite <- Z.bit0_mod, Z.bit0_odd.
      pose proof (Z.mod_pos_bound M (2 ^ Z.of_nat k) (Hp k)).
      pose proof (Hp k).
      destruct (Z.odd (M / 2 ^ Z.of_nat k)); simpl.
      * symmetry. apply negb_true_iff, Z.eqb_neq. lia.
      * f_equal. apply eq_iff_eq_true. rewrite !Z.eqb_eq. lia.
Qed.

Lemma shr_iter M p : ∀ k,
  0 <= M → SpecFloat.iter_pos shr_1 p (shr_state M k) = shr_state M (k + Pos.to_nat p).
Proof.
  induction p as [p IH|p IH|]; intros k HM; simpl SpecFloat.iter_pos.
  - rewrite shr_step, !IH by done. f_equal. lia.
  - rewrite !IH by done. f_equal. lia.
  - rewrite shr_step by done. f_equal. lia.
Qed.

Lemma rne_step M k :
  0 <= M →
  round_nearest_even (shr_m (shr_state M k)) (loc_of_shr_record (shr_state M k))
  = rne M (Z.of_nat k).
Proof.
  intros HM. unfold rne.
  assert (Hp : ∀ j, 0 < 2 ^ Z.of_nat j) by (intros; apply Z.pow_pos_nonneg; lia).
  destruct k as [|k].
  - simpl shr_state. simpl loc_of_shr_record. simpl shr_m.
    change (Z.of_nat 0) with 0. rewrite Z.pow_0_r, Z.mod_1_r, Z.div_1_r. done.
  - simpl shr_state. simpl shr_m.
    assert (Hs : 2 ^ Z.of_nat (S k) = 2 ^ Z.of_nat k * 2).
    { rewrite Nat2Z.inj_succ, Z.pow_succ_r by lia. lia. }
    assert (Hrem : M mod 2 ^ Z.of_nat (S k)
                   = M mod 2 ^ Z.of_nat k
                     + 2 ^ Z.of_nat k * Z.b2z (Z.odd (M / 2 ^ Z.of_nat k))).
    { rewrite Hs at 1. rewrite Z.rem_mul_r by (pose proof (Hp k); lia).
      by rewrite <- Z.bit0_mod, Z.bit0_odd. }
    pose proof (Z.mod_pos_bound M (2 ^ Z.of_nat k) (Hp k)) as Hlow.
    pose proof (Hp k) as Hk.
    rewrite Hrem.
    destruct (Z.odd (M / 2 ^ Z.of_nat k)); simpl Z.b2z;
      destruct (Z.eqb_spec (M mod 2 ^ Z.of_nat k) 0) as [E|E]; simpl;
      match goal with |- context [?a ?= ?b] => destruct (Z.compare_spec a b) end;
      try (exfalso; lia); done.
Qed.

Lemma shr_spec M e n :
  0 <= M → 0 <= n →
  shr (Build_shr_record M false false) e n
  = (shr_state M (Z.to_nat n), e + n).
Proof.
  intros HM Hn. unfold shr. destruct n as [|p|p]; try lia.
  - simpl. f_equal. lia.
  - change (Build_shr_record M false false) with (shr_state M 0).
    rewrite (shr_iter M p 0%nat) by done. by rewrite Z2Nat.inj_pos.
Qed.


(** *** Rounding to the nearest integer, ties to even *)

Lemma pow2_pos a : 0 <= a → 0 < 2 ^ a.
Proof. intros. apply Z.pow_pos_nonneg; lia. Qed.

Lemma pow2_le a b : a <= b → 2 ^ a <= 2 ^ b.
Proof. intros. apply Z.pow_le_mono_r; lia. Qed.

Lemma pow2_lt a b : 0 <= b → a < b → 2 ^ a < 2 ^ b.
Proof. intros. apply Z.pow_lt_mono_r; lia. Qed.

Lemma pow2_lt_inv a b : 0 <= a → 2 ^ a < 2 ^ b → a < b.
Proof.
  intros Ha H. destruct (Z.lt_ge_cases a b) as [|Hge]; [done|].
  pose proof (pow2_le b a Hge). lia.
Qed.

Lemma mul_pow2_lt N a u t :
  0 <= N < 2 ^ a → 0 <= a → 0 <= u → a + u <= t → N * 2 ^ u < 2 ^ t.
Proof.
  intros HN Ha Hu Ht. pose proof (pow2_le (a + u) t Ht) as H.
  rewrite Z.pow_add_r in H by done. pose proof (pow2_pos u Hu). nia.
Qed.

Lemma mul_pow2_ge N a u t :
  2 ^ a <= N → 0 <= a → 0 <= u → t <= a + u → 2 ^ t <= N * 2 ^ u.
Proof.
  intros HN Ha Hu Ht. pose proof (pow2_le t (a + u) Ht) as H.
  rewrite Z.pow_add_r in H by done. pose proof (pow2_pos u Hu). nia.
Qed.

Lemma rne_cases M n :
  0 <= n →
  (rne M n = M / 2 ^ n ∧ 2 * (M mod 2 ^ n) <= 2 ^ n) ∨
  (rne M n = M / 2 ^ n + 1 ∧ 2 ^ n <= 2 * (M mod 2 ^ n)).
Proof.
  intros Hn. unfold rne.
  destruct (Z.compare_spec (2 * (M mod 2 ^ n)) (2 ^ n)) as [H|H|H].
  - destruct (Z.even (M / 2 ^ n)); [left|right]; split; lia.
  - left. split; lia.
  - right. split; lia.
Qed.

Lemma rne_mono M1 M2 n : 0 <= n → M1 <= M2 → rne M1 n <= rne M2 n.
Proof.
  intros Hn HM. pose proof (pow2_pos n Hn) as Hp.
  pose proof (Z.div_mod M1 (2 ^ n) ltac:(lia)) as E1.
  pose proof (Z.div_mod M2 (2 ^ n) ltac:(lia)) as E2.
  pose proof (Z.mod_pos_bound M1 (2 ^ n) Hp) as B1.
  pose proof (Z.mod_pos_bound M2 (2 ^ n) Hp) as B2.
  pose proof (Z.div_le_mono M1 M2 (2 ^ n) Hp HM) as Hq.
  destruct (Z.eq_dec (M1 / 2 ^ n) (M2 / 2 ^ n)) as [Eq|Ne].
  - unfold rne. rewrite <- Eq in *.
    assert (M1 mod 2 ^ n <= M2 mod 2 ^ n) by nia.
    destruct (Z.compare_spec (2 * (M1 mod 2 ^ n)) (2 ^ n)),
             (Z.compare_spec (2 * (M2 mod 2 ^ n)) (2 ^ n));
      destruct (Z.even (M1 / 2 ^ n)); lia.
  - destruct (rne_cases M1 n Hn) as [[-> _]|[-> _]],
             (rne_cases M2 n Hn) as [[-> _]|[-> _]]; lia.
Qed.

Lemma rne_exact M n : 0 <= n → rne (M * 2 ^ n) n = M.
Proof.
  intros Hn. pose proof (pow2_pos n Hn). unfold rne.
  rewrite Z.mod_mul, Z.div_mul by lia.
  destruct (Z.compare_spec (2 * 0) (2 ^ n)); lia.
Qed.

Lemma rne_scale M n j : 0 <= n → 0 <= j → rne (M * 2 ^ j) (n + j) = rne M n.
Proof.
  intros Hn Hj. pose proof (pow2_pos n Hn). pose proof (pow2_pos j Hj).
  unfold rne. rewrite Z.pow_add_r by done.
  rewrite (Z.mul_comm (2 ^ n) (2 ^ j)).
  rewrite (Z.mul_comm M (2 ^ j)).
  rewrite Z.div_mul_cancel_l by lia.
  rewrite Z.mul_mod_distr_l by lia.
  replace (2 * (2 ^ j * (M mod 2 ^ n)) ?= 2 ^ j * 2 ^ n)
    with (2 * (M mod 2 ^ n) ?= 2 ^ n); [done|].
  destruct (Z.compare_spec (2 * (M mod 2 ^ n)) (2 ^ n));
    symmetry; [apply Z.compare_eq_iff|apply Z.compare_lt_iff|apply Z.compare_gt_iff]; nia.
Qed.

Lemma rne_shift_exact M n j : 0 <= n → n <= j → rne (M * 2 ^ j) n = M * 2 ^ (j - n).
Proof.
  intros Hn Hj. replace j with (j - n + n) at 1 by lia.
  rewrite Z.pow_add_r, Z.mul_assoc by lia. by apply rne_exact.
Qed.

Lemma rne_upper M n t : 0 <= n → 0 <= t → 0 <= M < 2 ^ (n + t) → 0 <= rne M n <= 2 ^ t.
Proof.
  intros Hn Ht HM. pose proof (pow2_pos n Hn) as Hp.
  assert (0 <= M / 2 ^ n < 2 ^ t).
  { split; [apply Z.div_pos; lia|]. apply Z.div_lt_upper_bound; [done|].
    rewrite <- Z.pow_add_r by done. lia. }
  destruct (rne_cases M n Hn) as [[-> _]|[-> _]]; lia.
Qed.

Lemma rne_lower M n t : 0 <= n → 0 <= t → 2 ^ (n + t) <= M → 2 ^ t <= rne M n.
Proof.
  intros Hn Ht HM. pose proof (pow2_pos n Hn) as Hp.
  assert (2 ^ t <= M / 2 ^ n).
  { apply Z.div_le_lower_bound; [done|]. rewrite <- Z.pow_add_r by done. lia. }
  destruct (rne_cases M n Hn) as [[-> _]|[-> _]]; lia.
Qed.


(** *** [binary_round_aux] on an exact input *)

Lemma fexp_eq e : fexp prec emax e = Z.max (e - 53) (-1074).
Proof. done. Qed.

Lemma binary_round_aux_encode s M E :
  0 <= M → 0 <= fexp prec emax (Zdigits2 M + E) - E →
  binary_round_aux prec emax s M E loc_Exact
  = encode s (rne M (fexp prec emax (Zdigits2 M + E) - E))
             (fexp prec emax (Zdigits2 M + E)).
Proof.
  intros HM Hn. unfold binary_round_aux, encode.
  unfold shr_fexp at 1. simpl shr_record_of_loc.
  rewrite shr_spec by done. rewrite rne_step by done.
  rewrite Z2Nat.id by done.
  replace (E + (fexp prec emax (Zdigits2 M + E) - E))
    with (fexp prec emax (Zdigits2 M + E)) by lia.
  done.
Qed.

Lemma encode_value s N e :
  rounded N e →
  SFx (encode s N e)
  = if N * 2 ^ (e + 2148) <? 2 ^ 3172
    then XFin (cond_Zopp s (N * 2 ^ (e + 2148))) else XInf s.
Proof.
  intros (HN & He & Hn). unfold encode, shr_fexp. simpl shr_record_of_loc.
  assert (Hu : 0 <= e + 2148) by lia.
  pose proof (pow2_pos _ Hu) as Hpu.
  destruct (Z.eq_dec N 0) as [->|N0].
  { rewrite fexp_eq. simpl Zdigits2.
    assert (Z.max (0 + e - 53) (-1074) - e <= 0) as Hle by lia.
    unfold shr. destruct (Z.max (0 + e - 53) (-1074) - e); try lia; simpl;
      destruct s; done. }
  destruct (Z.eq_dec N (2 ^ 53)) as [->|N53].
  { assert (Zdigits2 (2 ^ 53) = 54) as ->.
    { apply Zdigits2_unique; [lia|]. split; [lia|]. apply pow2_lt; lia. }
    rewrite fexp_eq. replace (Z.max (54 + e - 53) (-1074) - e) with 1 by lia.
    rewrite shr_spec by lia. simpl Z.to_nat. simpl shr_state. simpl shr_m.
    change (Z.of_nat 1) with 1. rewrite Z.pow_1_r.
    assert (2 ^ 53 / 2 = 2 ^ 52) as ->.
    { change 53 with (52 + 1). rewrite Z.pow_add_r, Z.pow_1_r by lia.
      apply Z.div_mul. lia. }
    pose proof (pow2_pos 52 ltac:(lia)) as H52.
    destruct (2 ^ 52) as [|m|] eqn:Em; try lia.
    assert (Z.pos m * 2 ^ (e + 1 + 2148) = 2 ^ 53 * 2 ^ (e + 2148)) as Hval.
    { rewrite <- Em. change 53 with (52 + 1).
      replace (e + 1 + 2148) with (1 + (e + 2148)) by lia.
      rewrite !Z.pow_add_r by lia. lia. }
    change (emax - prec) with 971.
    destruct (Z.leb_spec (e + 1) 971) as [Hle|Hgt]; simpl SFx.
    - rewrite (proj2 (Z.ltb_lt _ _)).
      + unfold Zof. by rewrite Hval.
      + rewrite <- Z.pow_add_r by lia. apply pow2_lt; lia.
    - rewrite (proj2 (Z.ltb_ge _ _)); [done|].
      rewrite <- Z.pow_add_r by lia. apply pow2_le; lia. }
  assert (0 < N < 2 ^ 53) as HN' by lia.
  assert (Zdigits2 N <= 53) as Hd53.
  { pose proof (Zdigits2_bounds N ltac:(lia)) as [Hlo _].
    assert (2 ^ (Zdigits2 N - 1) < 2 ^ 53) by lia.
    apply pow2_lt_inv in H; [lia|]. pose proof (Zdigits2_pos N); lia. }
  assert (Z.max (Zdigits2 N + e - 53) (-1074) - e = 0) as Hsh.
  { destruct (Z.eq_dec e (-1074)) as [->|]; [lia|].
    assert (Zdigits2 N = 53); [|lia].
    apply Zdigits2_unique; [lia|]. split; [apply Hn; lia|lia]. }
  rewrite fexp_eq, Hsh. simpl shr. simpl shr_m.
  destruct N as [|m|]; try lia.
  change (emax - prec) with 971.
  destruct (Z.leb_spec e 971) as [Hle|Hgt]; simpl SFx.
  - rewrite (proj2 (Z.ltb_lt _ _)); [done|].
    apply (mul_pow2_lt _ 53); lia.
  - rewrite (proj2 (Z.ltb_ge _ _)); [done|].
    apply (mul_pow2_ge _ 52); [apply Hn|..]; lia.
Qed.

Lemma rne_rounded M E :
  0 < M → 0 <= fexp prec emax (Zdigits2 M + E) - E →
  rounded (rne M (fexp prec emax (Zdigits2 M + E) - E))
          (fexp prec emax (Zdigits2 M + E)).
Proof.
  intros HM Hn. rewrite fexp_eq in *.
  pose proof (Zdigits2_bounds M HM) as [Hlo Hhi].
  pose proof (Zdigits2_pos M HM) as Hd.
  set (d := Zdigits2 M) in *. set (n := Z.max (d + E - 53) (-1074) - E) in *.
  assert (d <= n + 53) by lia.
  split; [|split; [lia|]].
  - apply rne_upper; [lia..|]. split; [lia|].
    pose proof (pow2_le d (n + 53) ltac:(lia)). lia.
  - intros Hgt. assert (n = d - 53) as Hnd by lia.
    apply rne_lower; [lia..|]. replace (n + 52) with (d - 1) by lia. done.
Qed.

Lemma rshift_scale M E :
  0 < M → -2148 <= E →
  rshift (M * 2 ^ (E + 2148)) = fexp prec emax (Zdigits2 M + E) + 2148.
Proof.
  intros HM HE. unfold rshift. rewrite Zdigits2_shift, fexp_eq by lia. lia.
Qed.

Lemma binary_round_aux_value s M E :
  0 < M → -2148 <= E → E <= fexp prec emax (Zdigits2 M + E) →
  SFx (binary_round_aux prec emax s M E loc_Exact)
  = xrnd (cond_Zopp s (M * 2 ^ (E + 2148))).
Proof.
  intros HM HE Hn.
  rewrite binary_round_aux_encode by lia.
  rewrite encode_value by (apply rne_rounded; lia).
  assert (Hrv : rv (M * 2 ^ (E + 2148))
          = rne M (fexp prec emax (Zdigits2 M + E) - E)
            * 2 ^ (fexp prec emax (Zdigits2 M + E) + 2148)).
  { unfold rv. rewrite rshift_scale by done. f_equal.
    replace (fexp prec emax (Zdigits2 M + E) + 2148)
      with (fexp prec emax (Zdigits2 M + E) - E + (E + 2148)) by lia.
    apply rne_scale; lia. }
  pose proof (pow2_pos (E + 2148) ltac:(lia)).
  assert (0 < M * 2 ^ (E + 2148)) as Hpos by nia.
  destruct (M * 2 ^ (E + 2148)) as [|z|z] eqn:Ez; try lia.
  destruct s; cbn [cond_Zopp].
  - change (- Z.pos z) with (Z.neg z). unfold xrnd.
    change (- Z.neg z) with (Z.pos z). by rewrite Hrv.
  - unfold xrnd. by rewrite Hrv.
Qed.


(** *** [binary_round] and [binary_normalize] *)

Lemma iter_xO m d : Zpos (Pos.iter xO m d) = Zpos m * 2 ^ Zpos d.
Proof.
  induction d as [|d IH] using Pos.peano_ind.
  - simpl Pos.iter. rewrite Z.pow_1_r. lia.
  - rewrite Pos.iter_succ, Pos2Z.inj_succ, Z.pow_succ_r by lia.
    rewrite Pos2Z.inj_xO, IH. lia.
Qed.

Lemma shl_align_fst m e e' :
  e' <= e → Zpos (fst (shl_align m e e')) = Zpos m * 2 ^ (e - e').
Proof.
  intros Hle. unfold shl_align.
  destruct (e' - e) as [|d|d] eqn:Ed; try lia; simpl fst.
  - replace (e - e') with 0 by lia. rewrite Z.pow_0_r. lia.
  - rewrite iter_xO. f_equal. f_equal. lia.
Qed.

Lemma binary_round_value s m E :
  -2148 <= E →
  SFx (binary_round prec emax s m E)
  = xrnd (cond_Zopp s (Zpos m * 2 ^ (E + 2148))).
Proof.
  intros HE. unfold binary_round.
  set (e' := fexp prec emax (Z.pos (digits2_pos m) + E)).
  assert (-1074 <= e') by (unfold e'; rewrite fexp_eq; lia).
  unfold shl_align. destruct (e' - E) as [|d|d] eqn:Ed.
  - rewrite binary_round_aux_value; [done|lia|done|].
    simpl Zdigits2. fold e'. lia.
  - rewrite binary_round_aux_value; [done|lia|done|].
    simpl Zdigits2. fold e'. lia.
  - rewrite binary_round_aux_value; [|lia|lia|].
    + f_equal. f_equal. rewrite iter_xO.
      replace (E + 2148) with (Z.pos d + (e' + 2148)) by lia.
      rewrite (Z.pow_add_r 2 (Z.pos d) (e' + 2148)) by lia. ring.
    + rewrite iter_xO, Zdigits2_shift by lia. simpl Zdigits2.
      replace (Z.pos (digits2_pos m) + Z.pos d + e')
        with (Z.pos (digits2_pos m) + E) by lia.
      fold e'. lia.
Qed.

Lemma binary_normalize_value z E sz :
  -2148 <= E →
  SFx (binary_normalize prec emax z E sz) = xrnd (z * 2 ^ (E + 2148)).
Proof.
  intros HE. pose proof (pow2_pos (E + 2148) ltac:(lia)) as Hp.
  destruct z as [|m|m]; simpl binary_normalize.
  - done.
  - by rewrite binary_round_value.
  - rewrite binary_round_value by done. f_equal. simpl cond_Zopp. lia.
Qed.

(** *** Floats in canonical form *)

Lemma bounded_canonical m e :
  bounded prec emax m e = true →
  e = Z.max (Zpos (digits2_pos m) + e - 53) (-1074) ∧ e <= 971.
Proof.
  unfold bounded, canonical_mantissa. rewrite andb_true_iff, fexp_eq.
  rewrite Z.eqb_eq, Z.leb_le. change (emax - prec) with 971. lia.
Qed.

Lemma bounded_opp_irrel m e s :
  valid_binary (S754_finite s m e) = bounded prec emax m e.
Proof. done. Qed.

Lemma Zof_pos m e : -2148 <= e → 0 < Zpos m * 2 ^ (e + 2148).
Proof. intros. pose proof (pow2_pos (e + 2148) ltac:(lia)). nia. Qed.

Lemma rv_grid m e :
  bounded prec emax m e = true →
  rv (Zpos m * 2 ^ (e + 2148)) = Zpos m * 2 ^ (e + 2148)
  ∧ Zpos m * 2 ^ (e + 2148) < 2 ^ 3172.
Proof.
  intros [Hc He]%bounded_canonical.
  assert (Hsh : rshift (Zpos m * 2 ^ (e + 2148)) = e + 2148).
  { rewrite rshift_scale, fexp_eq by lia. simpl Zdigits2. lia. }
  split.
  - unfold rv. rewrite Hsh. rewrite rne_exact by lia. done.
  - pose proof (digits2_bounds m) as [_ Hhi].
    apply (mul_pow2_lt _ (Zpos (digits2_pos m))); lia.
Qed.

Lemma xrnd_grid s m e :
  bounded prec emax m e = true → xrnd (Zof s m e) = XFin (Zof s m e).
Proof.
  intros Hb. destruct (rv_grid m e Hb) as [Hrv Hlt].
  apply bounded_canonical in Hb as [Hc He].
  pose proof (Zof_pos m e ltac:(lia)) as Hpos.
  unfold Zof. destruct (Z.pos m * 2 ^ (e + 2148)) as [|z|z] eqn:Ez; try lia.
  destruct s; cbn [cond_Zopp].
  - change (- Z.pos z) with (Z.neg z). unfold xrnd.
    change (- Z.neg z) with (Z.pos z).
    rewrite Hrv, (proj2 (Z.ltb_lt _ _)) by done. done.
  - unfold xrnd. rewrite Hrv, (proj2 (Z.ltb_lt _ _)) by done. done.
Qed.

Lemma xrnd_0 : xrnd 0 = XFin 0.
Proof. done. Qed.

Lemma xrnd_opp z : xrnd (- z) = xopp (xrnd z).
Proof.
  destruct z as [|p|p]; [done|..].
  - change (- Z.pos p) with (Z.neg p). unfold xrnd.
    change (- Z.neg p) with (Z.pos p).
    destruct (rv (Z.pos p) <? 2 ^ 3172); done.
  - change (- Z.neg p) with (Z.pos p). unfold xrnd.
    change (- Z.neg p) with (Z.pos p).
    destruct (rv (Z.pos p) <? 2 ^ 3172); simpl; [|done].
    f_equal. lia.
Qed.


(** *** The operations of [SpecFloat] on values *)

Lemma Zof_sign s m e :
  -2148 <= e → (Zof s m e =? 0) = false ∧ (Zof s m e <? 0) = s.
Proof.
  intros He. pose proof (Zof_pos m e He). unfold Zof.
  destruct s; simpl cond_Zopp; split;
    first [apply Z.eqb_neq | apply Z.ltb_lt | apply Z.ltb_ge]; lia.
Qed.

Lemma Zof_opp s m e : Zof (negb s) m e = - Zof s m e.
Proof. unfold Zof. destruct s; simpl; lia. Qed.

Lemma Zof_mul sx mx ex sy my ey :
  -1074 <= ex → -1074 <= ey →
  Zof sx mx ex * Zof sy my ey / 2 ^ 2148
  = cond_Zopp (xorb sx sy) (Zpos (mx * my) * 2 ^ (ex + ey + 2148)).
Proof.
  intros Hx Hy.
  assert (Zof sx mx ex * Zof sy my ey
          = cond_Zopp (xorb sx sy) (Zpos (mx * my) * 2 ^ (ex + ey + 2148))
            * 2 ^ 2148) as ->.
  { assert (2 ^ (ex + 2148) = 2 ^ (ex + 1074) * 2 ^ 1074) as Ha
      by (rewrite <- Z.pow_add_r by lia; f_equal; lia).
    assert (2 ^ (ey + 2148) = 2 ^ (ey + 1074) * 2 ^ 1074) as Hb
      by (rewrite <- Z.pow_add_r by lia; f_equal; lia).
    assert (2 ^ (ex + ey + 2148) = 2 ^ (ex + 1074) * 2 ^ (ey + 1074)) as Hc
      by (rewrite <- Z.pow_add_r by lia; f_equal; lia).
    assert (2 ^ 2148 = 2 ^ 1074 * 2 ^ 1074) as Hd
      by (rewrite <- Z.pow_add_r by lia; done).
    unfold Zof. rewrite Pos2Z.inj_mul, Ha, Hb, Hc, Hd.
    generalize (2 ^ (ex + 1074)) (2 ^ (ey + 1074)) (2 ^ 1074). intros.
    destruct sx, sy; cbn [cond_Zopp xorb]; ring. }
  apply Z.div_mul. pose proof (pow2_pos 2148 ltac:(lia)). lia.
Qed.

Lemma digits2_mul mx my :
  Zpos (digits2_pos mx) + Zpos (digits2_pos my) - 1
  <= Zpos (digits2_pos (mx * my)).
Proof.
  pose proof (digits2_bounds mx) as [Hx _].
  pose proof (digits2_bounds my) as [Hy _].
  pose proof (digits2_bounds (mx * my)) as [_ Hxy].
  rewrite Pos2Z.inj_mul in Hxy.
  assert (2 ^ (Z.pos (digits2_pos mx) - 1 + (Z.pos (digits2_pos my) - 1))
          < 2 ^ Z.pos (digits2_pos (mx * my))) as H.
  { rewrite Z.pow_add_r by lia.
    pose proof (pow2_pos (Z.pos (digits2_pos mx) - 1) ltac:(lia)).
    pose proof (pow2_pos (Z.pos (digits2_pos my) - 1) ltac:(lia)). nia. }
  apply pow2_lt_inv in H; lia.
Qed.

Lemma xrnd_mul_0_l y : xrnd (0 * y / 2 ^ 2148) = XFin 0.
Proof. by rewrite Z.mul_0_l, Z.div_0_l by (pose proof (pow2_pos 2148); lia). Qed.

Lemma xrnd_mul_0_r x : xrnd (x * 0 / 2 ^ 2148) = XFin 0.
Proof. by rewrite Z.mul_0_r, Z.div_0_l by (pose proof (pow2_pos 2148); lia). Qed.

Lemma SFmul_value x y :
  valid_binary x = true → valid_binary y = true →
  SFx (SFmul prec emax x y) = xmul (SFx x) (SFx y).
Proof.
  intros Hx Hy.
  destruct x as [sx|sx| |sx mx ex], y as [sy|sy| |sy my ey];
    simpl SFmul; simpl SFx; simpl xmul;
    rewrite ?xrnd_mul_0_l, ?xrnd_mul_0_r; try done.
  - apply bounded_canonical in Hy as [Hc He].
    destruct (Zof_sign sy my ey ltac:(lia)) as [-> ->]. done.
  - apply bounded_canonical in Hx as [Hc He].
    destruct (Zof_sign sx mx ex ltac:(lia)) as [-> ->]. done.
  - apply bounded_canonical in Hx as [Hcx Hex].
    apply bounded_canonical in Hy as [Hcy Hey].
    rewrite Zof_mul by lia.
    apply binary_round_aux_value; [lia|lia|].
    rewrite fexp_eq. simpl Zdigits2. pose proof (digits2_mul mx my).
    lia.
Qed.

Lemma Zof_align s m e ez :
  -1074 <= ez → ez <= e →
  cond_Zopp s (Zpos (fst (shl_align m e ez))) * 2 ^ (ez + 2148) = Zof s m e.
Proof.
  intros Hz Hle. rewrite shl_align_fst by done. unfold Zof.
  replace (e + 2148) with ((e - ez) + (ez + 2148)) by lia.
  rewrite (Z.pow_add_r 2 (e - ez) (ez + 2148)) by lia.
  destruct s; cbn [cond_Zopp]; ring.
Qed.

Lemma SFadd_value x y :
  valid_binary x = true → valid_binary y = true →
  SFx (SFadd prec emax x y) = xadd (SFx x) (SFx y).
Proof.
  intros Hx Hy.
  destruct x as [sx|sx| |sx mx ex], y as [sy|sy| |sy my ey];
    simpl SFadd; simpl SFx; simpl xadd; try done.
  - destruct sx, sy; done.
  - by rewrite Z.add_0_l, xrnd_grid.
  - destruct sx, sy; done.
  - by rewrite Z.add_0_r, xrnd_grid.
  - apply bounded_canonical in Hx as [Hcx Hex].
    apply bounded_canonical in Hy as [Hcy Hey].
    rewrite binary_normalize_value by lia. f_equal.
    rewrite Z.mul_add_distr_r, !Zof_align by lia. done.
Qed.

Lemma SFsub_value x y :
  valid_binary x = true → valid_binary y = true →
  SFx (SFsub prec emax x y) = xsub (SFx x) (SFx y).
Proof.
  intros Hx Hy. unfold xsub.
  destruct x as [sx|sx| |sx mx ex], y as [sy|sy| |sy my ey];
    simpl SFsub; simpl SFx; simpl xopp; simpl xadd; try done.
  - destruct sx, sy; done.
  - rewrite Z.add_0_l, xrnd_opp, xrnd_grid by done. simpl. by rewrite Zof_opp.
  - destruct sx, sy; done.
  - change (- 0) with 0. by rewrite Z.add_0_r, xrnd_grid.
  - apply bounded_canonical in Hx as [Hcx Hex].
    apply bounded_canonical in Hy as [Hcy Hey].
    rewrite binary_normalize_value by lia. f_equal.
    rewrite Z.mul_sub_distr_r, !Zof_align by lia. lia.
Qed.


(** *** The order *)

Lemma canonical_lt m1 e1 m2 e2 :
  bounded prec emax m1 e1 = true → bounded prec emax m2 e2 = true →
  e1 < e2 → Zpos m1 * 2 ^ (e1 + 2148) < Zpos m2 * 2 ^ (e2 + 2148).
Proof.
  intros [Hc1 He1]%bounded_canonical [Hc2 He2]%bounded_canonical Hlt.
  pose proof (digits2_bounds m1) as [_ Hhi].
  pose proof (digits2_bounds m2) as [Hlo _].
  assert (Zpos (digits2_pos m2) = 53) as Hd2 by lia. rewrite Hd2 in Hlo.
  assert (Zpos m1 * 2 ^ (e1 + 2148) < 2 ^ (e2 + 2148 + 52)).
  { apply (mul_pow2_lt _ (Zpos (digits2_pos m1))); lia. }
  assert (2 ^ (e2 + 2148 + 52) <= Zpos m2 * 2 ^ (e2 + 2148)).
  { apply (mul_pow2_ge _ 52); [done|lia..]. }
  lia.
Qed.

Lemma SFcompare_value x y :
  valid_binary x = true → valid_binary y = true →
  SFcompare x y = xcompare (SFx x) (SFx y).
Proof.
  intros Hx Hy.
  destruct x as [sx|sx| |sx mx ex], y as [sy|sy| |sy my ey];
    cbn [SFcompare SFx xcompare]; try done.
  - apply bounded_canonical in Hy as [Hc He].
    pose proof (Zof_pos my ey ltac:(lia)). unfold Zof.
    destruct sy; simpl cond_Zopp; f_equal; symmetry;
      [apply Z.compare_gt_iff|apply Z.compare_lt_iff]; lia.
  - apply bounded_canonical in Hx as [Hc He].
    pose proof (Zof_pos mx ex ltac:(lia)). unfold Zof.
    destruct sx; simpl cond_Zopp; f_equal; symmetry;
      [apply Z.compare_lt_iff|apply Z.compare_gt_iff]; lia.
  - pose proof Hx as [Hcx Hex]%bounded_canonical.
    pose proof Hy as [Hcy Hey]%bounded_canonical.
    pose proof (Zof_pos mx ex ltac:(lia)) as Hpx.
    pose proof (Zof_pos my ey ltac:(lia)) as Hpy.
    pose proof (pow2_pos (ex + 2148) ltac:(lia)) as Hp.
    f_equal. unfold Zof.
    destruct sx, sy; cbn [cond_Zopp].
    + rewrite Z.compare_opp.
      destruct (Z.compare_spec ex ey) as [->|Hlt|Hgt].
      * rewrite <- Zmult_compare_compat_r by lia.
        rewrite (Z.compare_antisym (Zpos mx) (Zpos my)). done.
      * symmetry. apply Z.compare_gt_iff. by apply canonical_lt.
      * symmetry. apply Z.compare_lt_iff. by apply canonical_lt.
    + symmetry. apply Z.compare_lt_iff. lia.
    + symmetry. apply Z.compare_gt_iff. lia.
    + destruct (Z.compare_spec ex ey) as [->|Hlt|Hgt].
      * rewrite <- Zmult_compare_compat_r by lia. done.
      * symmetry. apply Z.compare_lt_iff. by apply canonical_lt.
      * symmetry. apply Z.compare_gt_iff. by apply canonical_lt.
Qed.

(** *** Primitive floats *)

Lemma xv_add x y : xv (x + y) = xadd (xv x) (xv y).
Proof. unfold xv. rewrite add_spec. apply SFadd_value; apply Prim2SF_valid. Qed.

Lemma xv_sub x y : xv (x - y) = xsub (xv x) (xv y).
Proof. unfold xv. rewrite sub_spec. apply SFsub_value; apply Prim2SF_valid. Qed.

Lemma xv_mul x y : xv (x * y) = xmul (xv x) (xv y).
Proof. unfold xv. rewrite mul_spec. apply SFmul_value; apply Prim2SF_valid. Qed.

Lemma ltb_xv x y : (x <? y)%float = xltb (xv x) (xv y).
Proof.
  rewrite ltb_spec. unfold SFltb, xltb, xv.
  by rewrite SFcompare_value by apply Prim2SF_valid.
Qed.

Lemma leb_xv x y : (x <=? y)%float = xleb (xv x) (xv y).
Proof.
  rewrite leb_spec. unfold SFleb, xleb, xv.
  by rewrite SFcompare_value by apply Prim2SF_valid.
Qed.

Lemma xrnd_xv x a : xv x = XFin a → xrnd a = XFin a.
Proof.
  unfold xv. pose proof (Prim2SF_valid x) as Hv.
  destruct (Prim2SF x) as [s|s| |s m e]; simpl; intros [= <-]; [done|].
  by apply xrnd_grid.
Qed.


(** *** Rounding is monotone *)

Lemma xleb_fin a b : xleb (XFin a) (XFin b) = true ↔ a <= b.
Proof.
  unfold xleb. cbn [xcompare]. destruct (Z.compare_spec a b); split; (done || lia).
Qed.

Lemma xltb_fin a b : xltb (XFin a) (XFin b) = true ↔ a < b.
Proof.
  unfold xltb. cbn [xcompare]. destruct (Z.compare_spec a b); split; (done || lia).
Qed.

Lemma Zdigits2_mono z1 z2 : 0 < z1 <= z2 → Zdigits2 z1 <= Zdigits2 z2.
Proof.
  intros Hz. pose proof (Zdigits2_bounds z1 ltac:(lia)) as [H1 _].
  pose proof (Zdigits2_bounds z2 ltac:(lia)) as [_ H2].
  pose proof (Zdigits2_pos z1 ltac:(lia)).
  assert (2 ^ (Zdigits2 z1 - 1) < 2 ^ Zdigits2 z2) as Hlt by lia.
  apply pow2_lt_inv in Hlt; lia.
Qed.

Lemma rv_nonneg z : 0 < z → 0 <= rv z.
Proof.
  intros Hz. unfold rv.
  assert (0 <= rshift z) by (unfold rshift; lia).
  pose proof (pow2_pos (rshift z) ltac:(lia)).
  pose proof (Z.div_pos z (2 ^ rshift z) ltac:(lia) ltac:(lia)).
  destruct (rne_cases z (rshift z) ltac:(lia)) as [[-> _]|[-> _]]; nia.
Qed.

Lemma rv_mono z1 z2 : 0 < z1 <= z2 → rv z1 <= rv z2.
Proof.
  intros Hz. unfold rv.
  pose proof (Zdigits2_mono z1 z2 Hz) as Hd.
  pose proof (Zdigits2_bounds z1 ltac:(lia)) as [_ Hhi].
  pose proof (Zdigits2_bounds z2 ltac:(lia)) as [Hlo _].
  pose proof (Zdigits2_pos z1 ltac:(lia)).
  set (n1 := rshift z1). set (n2 := rshift z2).
  assert (1074 <= n1 <= n2) as Hn by (unfold n1, n2, rshift; lia).
  destruct (Z.eq_dec n1 n2) as [->|Hne].
  - pose proof (rne_mono z1 z2 n2 ltac:(lia) ltac:(lia)).
    pose proof (pow2_pos n2 ltac:(lia)). nia.
  - assert (n2 = Zdigits2 z2 - 53) as Hn2 by (unfold n1, n2, rshift in *; lia).
    assert (Zdigits2 z1 <= n1 + 53) as Hn1 by (unfold n1, rshift; lia).
    assert (0 <= rne z1 n1 <= 2 ^ 53) as Hr1.
    { apply rne_upper; [lia..|]. split; [lia|].
      pose proof (pow2_le (Zdigits2 z1) (n1 + 53) Hn1). lia. }
    assert (2 ^ 52 <= rne z2 n2) as Hr2.
    { apply rne_lower; [lia..|]. replace (n2 + 52) with (Zdigits2 z2 - 1) by lia. done. }
    assert (rne z1 n1 * 2 ^ n1 <= 2 ^ (n2 + 52)).
    { pose proof (pow2_le (53 + n1) (n2 + 52) ltac:(lia)) as Hp.
      rewrite Z.pow_add_r in Hp by lia.
      pose proof (pow2_pos n1 ltac:(lia)). nia. }
    assert (2 ^ (n2 + 52) <= rne z2 n2 * 2 ^ n2).
    { apply (mul_pow2_ge _ 52); [done|lia..]. }
    lia.
Qed.

Lemma xrnd_mono z1 z2 : z1 <= z2 → xleb (xrnd z1) (xrnd z2) = true.
Proof.
  intros Hz.
  destruct z1 as [|p1|p1], z2 as [|p2|p2]; try lia; unfold xrnd;
    try change (- Z.neg p1) with (Z.pos p1);
    try change (- Z.neg p2) with (Z.pos p2).
  - done.
  - pose proof (rv_nonneg (Z.pos p2) ltac:(lia)).
    destruct (rv (Z.pos p2) <? 2 ^ 3172); [by apply xleb_fin|done].
  - pose proof (rv_mono (Z.pos p1) (Z.pos p2) ltac:(lia)).
    destruct (Z.ltb_spec (rv (Z.pos p1)) (2 ^ 3172)),
             (Z.ltb_spec (rv (Z.pos p2)) (2 ^ 3172)); try done; try lia.
    by apply xleb_fin.
  - pose proof (rv_nonneg (Z.pos p1) ltac:(lia)).
    destruct (rv (Z.pos p1) <? 2 ^ 3172); [apply xleb_fin; lia|done].
  - pose proof (rv_nonneg (Z.pos p1) ltac:(lia)).
    pose proof (rv_nonneg (Z.pos p2) ltac:(lia)).
    destruct (rv (Z.pos p1) <? 2 ^ 3172), (rv (Z.pos p2) <? 2 ^ 3172);
      try done. apply xleb_fin. lia.
  - pose proof (rv_mono (Z.pos p2) (Z.pos p1) ltac:(lia)).
    destruct (Z.ltb_spec (rv (Z.pos p1)) (2 ^ 3172)),
             (Z.ltb_spec (rv (Z.pos p2)) (2 ^ 3172)); try done; try lia.
    apply xleb_fin. lia.
Qed.

Lemma xrnd_le_grid z a : xrnd a = XFin a → z <= a → xleb (xrnd z) (XFin a) = true.
Proof. intros <- Hz. by apply xrnd_mono. Qed.

Lemma xrnd_ge_grid z a : xrnd a = XFin a → a <= z → xleb (XFin a) (xrnd z) = true.
Proof. intros <- Hz. by apply xrnd_mono. Qed.

Lemma xrnd_nonneg z : 0 <= z → nonnegv (xrnd z).
Proof.
  intros Hz. pose proof (xrnd_ge_grid z 0 eq_refl Hz) as H.
  destruct (xrnd z) as [|[]|v]; simpl; try done. by apply xleb_fin.
Qed.

Lemma xrnd_nonpos z : z <= 0 → nonnegv (xopp (xrnd z)).
Proof. intros Hz. rewrite <- xrnd_opp. apply xrnd_nonneg. lia. Qed.

Lemma gridv_xv x : gridv (xv x).
Proof. destruct (xv x) eqn:E; simpl; try done. by apply (xrnd_xv x). Qed.

Lemma gridv_opp a : gridv a → gridv (xopp a).
Proof. destruct a; simpl; try done. intros H. by rewrite xrnd_opp, H. Qed.


(** *** The order on values *)

Ltac xord :=
  unfold xleb, xltb; cbn [xcompare];
  repeat match goal with
         | s : bool |- _ => destruct s
         | |- context [?a ?= ?b] => destruct (Z.compare_spec a b)
         | H : context [?a ?= ?b] |- _ => destruct (Z.compare_spec a b)
         end;
  try done; try lia.

Lemma xltb_leb a b : xltb a b = true → xleb a b = true.
Proof. destruct a, b; xord. Qed.

Lemma xleb_trans a b c : xleb a b = true → xleb b c = true → xleb a c = true.
Proof. destruct a, b, c; xord. Qed.

Lemma xltb_leb_trans a b c : xltb a b = true → xleb b c = true → xltb a c = true.
Proof. destruct a, b, c; xord. Qed.

Lemma xleb_ltb_trans a b c : xleb a b = true → xltb b c = true → xltb a c = true.
Proof. destruct a, b, c; xord. Qed.

Lemma xltb_trans a b c : xltb a b = true → xltb b c = true → xltb a c = true.
Proof. destruct a, b, c; xord. Qed.

Lemma xltb_irrefl a : xltb a a = false.
Proof. destruct a; xord. Qed.

Lemma xleb_not_ltb a b : xleb a b = true → xltb b a = false.
Proof. destruct a, b; xord. Qed.

Lemma xltb_false a b : xltb a b = false → a ≠ XNaN → b ≠ XNaN → xleb b a = true.
Proof. destruct a, b; xord. Qed.

Lemma xleb_antisym a b : xleb a b = true → xleb b a = true → a = b.
Proof. destruct a, b; xord. intros. f_equal. lia. Qed.

Lemma xltb_not_nan a b : xltb a b = true → a ≠ XNaN ∧ b ≠ XNaN.
Proof. destruct a, b; xord. Qed.

Lemma xleb_not_nan a b : xleb a b = true → a ≠ XNaN ∧ b ≠ XNaN.
Proof. destruct a, b; xord. Qed.

Lemma xleb_refl a : a ≠ XNaN → xleb a a = true.
Proof. destruct a; xord. Qed.

Lemma xltb_nonneg_0 a : nonnegv a → xltb a (XFin 0) = false.
Proof. destruct a; simpl; intros; subst; xord. Qed.

(** *** Sums and squares *)

Lemma xadd_fin_inv a b d :
  xadd a b = XFin d → ∃ x y, a = XFin x ∧ b = XFin y ∧ xrnd (x + y) = XFin d.
Proof.
  destruct a as [|s|x], b as [|t|y]; simpl; try done.
  - by destruct (Bool.eqb s t).
  - eauto.
Qed.

Lemma xsub_fin_inv a b d :
  xsub a b = XFin d → ∃ x y, a = XFin x ∧ b = XFin y ∧ xrnd (x - y) = XFin d.
Proof.
  intros (x & y & -> & Hb & H)%xadd_fin_inv.
  destruct b as [| |y']; try done. simpl in Hb. injection Hb as <-.
  exists x, y'. by rewrite <- Z.add_opp_r.
Qed.

Lemma xsub_swap a b : xsub b a = xopp (xsub a b).
Proof.
  unfold xsub. destruct a as [|s|x], b as [|t|y]; cbn [xadd xopp];
    rewrite ?negb_involutive; try done.
  - by destruct s, t.
  - rewrite <- xrnd_opp. f_equal. lia.
Qed.

Lemma xmul_opp_opp a : xmul (xopp a) (xopp a) = xmul a a.
Proof.
  destruct a as [|s|x]; simpl; [done|by destruct s|].
  f_equal. f_equal. lia.
Qed.

Lemma div_unit_nonneg z : 0 <= z → 0 <= z / 2 ^ 2148.
Proof. intros. apply Z.div_pos; [done|]. apply pow2_pos. lia. Qed.

Lemma xmul_self_nonneg a : nonnegv (xmul a a).
Proof.
  destruct a as [|s|x]; simpl; [done|by destruct s|].
  apply xrnd_nonneg, div_unit_nonneg. nia.
Qed.

Lemma xadd_nonneg a b : nonnegv a → nonnegv b → nonnegv (xadd a b).
Proof.
  destruct a as [|s|x], b as [|t|y]; simpl; try done.
  - intros -> ->. done.
  - intros. apply xrnd_nonneg. lia.
Qed.

Lemma xadd_ge_l a b :
  nonnegv b → gridv a → xadd a b ≠ XNaN → xleb a (xadd a b) = true.
Proof.
  destruct a as [|s|x], b as [|t|y]; simpl; try done.
  - intros -> _. destruct s; done.
  - intros _ _ _. destruct s; done.
  - intros -> _ _. done.
  - intros Hy Hx _. apply xrnd_ge_grid; [done|lia].
Qed.

Lemma xadd_ge_r a b :
  nonnegv a → gridv b → xadd a b ≠ XNaN → xleb b (xadd a b) = true.
Proof.
  destruct a as [|s|x], b as [|t|y]; simpl; try done.
  - intros -> _. destruct t; done.
  - intros -> _ _. done.
  - intros _ _ _. destruct t; done.
  - intros Hx Hy _. apply xrnd_ge_grid; [done|lia].
Qed.

Lemma xsq_lt d r :
  xltb (xmul d d) (xmul r r) = true →
  ∃ x, d = XFin x ∧ ((∃ s, r = XInf s) ∨ ∃ y, r = XFin y ∧ x * x < y * y).
Proof.
  destruct d as [|s|x]; [done| |].
  { cbn [xmul]. by destruct s, (xmul r r) as [|[]|]. }
  destruct r as [|t|y]; [by destruct (xmul (XFin x) (XFin x)) as [|[]|]| |];
    intros H.
  - exists x. split; [done|]. left. eauto.
  - exists x. split; [done|]. right. exists y. split; [done|].
    destruct (Z.lt_ge_cases (x * x) (y * y)) as [|Hge]; [done|].
    simpl in H.
    pose proof (pow2_pos 2148 ltac:(lia)) as Hp.
    pose proof (Z.div_le_mono _ _ _ Hp Hge) as Hdiv.
    apply xrnd_mono, xleb_not_ltb in Hdiv. congruence.
Qed.

(** A point whose squared offset from a centre is below the square of
    a range that is not negative lies within that range of the centre,
    on the line of floats. *)
Lemma axis_box p c r :
  gridv p → gridv r → xleb (XFin 0) r = true →
  xltb (xmul (xsub p c) (xsub p c)) (xmul r r) = true →
  xleb (xsub c r) (xsub p (XFin 0)) = true ∧
  xleb (xadd p (XFin 0)) (xadd c r) = true.
Proof.
  intros Hp Hr H0 (d & Hd & Hcase)%xsq_lt.
  apply xsub_fin_inv in Hd as (x & y & -> & -> & Hd).
  simpl in Hp.
  assert (xsub (XFin x) (XFin 0) = XFin x) as ->
    by (unfold xsub; simpl; by rewrite Z.add_0_r).
  assert (xadd (XFin x) (XFin 0) = XFin x) as ->
    by (simpl; by rewrite Z.add_0_r).
  destruct Hcase as [[s ->]|(ρ & -> & Hlt)].
  { destruct s; [done|]. done. }
  apply xleb_fin in H0. simpl in Hr.
  assert (xrnd (- ρ) = XFin (- ρ)) as Hr' by (by rewrite xrnd_opp, Hr).
  unfold xsub. simpl. rewrite <- Hp. split.
  - destruct (Z.le_gt_cases (y + - ρ) x) as [|Hgt]; [by apply xrnd_mono|].
    pose proof (xrnd_le_grid (x - y) (- ρ) Hr' ltac:(lia)) as Hle.
    rewrite Hd in Hle. apply xleb_fin in Hle. nia.
  - destruct (Z.le_gt_cases x (y + ρ)) as [|Hgt]; [by apply xrnd_mono|].
    pose proof (xrnd_ge_grid (x - y) ρ Hr ltac:(lia)) as Hle.
    rewrite Hd in Hle. apply xleb_fin in Hle. nia.
Qed.


(** *** The same facts on the floats *)

Lemma xv_zero : xv 0 = XFin 0.
Proof. reflexivity. Qed.

Lemma nonneg_mul_self d : nonnegv (xv (d * d)).
Proof. rewrite xv_mul. apply xmul_self_nonneg. Qed.

Lemma nonneg_add x y : nonnegv (xv x) → nonnegv (xv y) → nonnegv (xv (x + y)).
Proof. rewrite xv_add. apply xadd_nonneg. Qed.

Lemma add_lt_parts x y z :
  nonnegv (xv x) → nonnegv (xv y) →
  (x + y <? z)%float = true → (x <? z)%float = true ∧ (y <? z)%float = true.
Proof.
  intros Hx Hy. rewrite !ltb_xv. intros H.
  pose proof (xltb_not_nan _ _ H) as [Hn _]. rewrite xv_add in *.
  split; (eapply xleb_ltb_trans; [|exact H]).
  - apply xadd_ge_l; [done|apply gridv_xv|done].
  - apply xadd_ge_r; [done|apply gridv_xv|done].
Qed.

Lemma ltb_nonneg_0 x z : nonnegv (xv x) → xv z = XFin 0 → (x <? z)%float = false.
Proof. intros Hx Hz. rewrite ltb_xv, Hz. by apply xltb_nonneg_0. Qed.

Lemma ltb_nan_r x r : xv r = XNaN → (x <? r * r)%float = false.
Proof.
  intros Hr. rewrite ltb_xv, xv_mul, Hr. simpl. by destruct (xv x) as [|[]|].
Qed.

Lemma float_cases r :
  (0 <=? r)%float = true ∨ (r <? 0)%float = true ∨ xv r = XNaN.
Proof.
  rewrite leb_xv, ltb_xv, xv_zero. destruct (xv r) as [|[]|z]; auto.
  destruct (Z.le_gt_cases 0 z).
  - left. by apply xleb_fin.
  - right. left. by apply xltb_fin.
Qed.

Lemma float_nonneg_cases r :
  (r <? 0)%float = false → (0 <=? r)%float = true ∨ xv r = XNaN.
Proof. destruct (float_cases r) as [|[|]]; auto. congruence. Qed.

Lemma sq_sub_swap a b : xv ((a - b) * (a - b)) = xv ((b - a) * (b - a)).
Proof.
  rewrite !xv_mul, !xv_sub, (xsub_swap (xv b) (xv a)). by rewrite xmul_opp_opp.
Qed.

(** A coordinate whose squared offset from [c] is below [r * r], for a
    range [r] that is not negative, lies between [c - r] and [c + r]
    as the code computes them. *)
Lemma axis_enclosed p c r :
  (0 <=? r)%float = true → ((p - c) * (p - c) <? r * r)%float = true →
  (c - r <=? p - 0)%float = true ∧ (p + 0 <=? c + r)%float = true.
Proof.
  rewrite !leb_xv, !ltb_xv, !xv_mul, !xv_sub, !xv_add, xv_zero.
  apply axis_box; apply gridv_xv.
Qed.

(** For a negative range the interval [c - r], [c + r] holds at most
    the value of [c] itself. *)
Lemma axis_collapsed p q r :
  (r <? 0)%float = true → ((q - p) * (q - p) <? r * r)%float = true →
  (p - r <=? q - 0)%float = true → (q + 0 <=? p + r)%float = true →
  (q - r <=? p - 0)%float = true ∧ (p + 0 <=? q + r)%float = true.
Proof.
  rewrite !leb_xv, !ltb_xv, !xv_mul, !xv_sub, !xv_add, xv_zero.
  pose proof (gridv_xv p) as Hp. pose proof (gridv_xv q) as Hq.
  pose proof (gridv_xv r) as Hr.
  destruct (xv p) as [| |x], (xv q) as [| |y];
    try (intros _ (d & Hd%xsub_fin_inv & _)%xsq_lt;
         by destruct Hd as (? & ? & ? & ? & _)).
  simpl in Hp, Hq. intros H0 _.
  assert (xsub (XFin x) (XFin 0) = XFin x) as ->
    by (unfold xsub; simpl; by rewrite Z.add_0_r).
  assert (xsub (XFin y) (XFin 0) = XFin y) as ->
    by (unfold xsub; simpl; by rewrite Z.add_0_r).
  assert (xadd (XFin x) (XFin 0) = XFin x) as ->
    by (simpl; by rewrite Z.add_0_r).
  assert (xadd (XFin y) (XFin 0) = XFin y) as ->
    by (simpl; by rewrite Z.add_0_r).
  destruct (xv r) as [|s|ρ]; [done|by destruct s|].
  apply xltb_fin in H0. unfold xsub. cbn [xadd xopp]. intros H1 H2.
  assert (x = y) as ->.
  { pose proof (xrnd_ge_grid (x + - ρ) x Hp ltac:(lia)) as H3.
    pose proof (xrnd_le_grid (x + ρ) x Hp ltac:(lia)) as H4.
    pose proof (xleb_trans _ _ _ H3 H1) as H5%xleb_fin.
    pose proof (xleb_trans _ _ _ H2 H4) as H6%xleb_fin. lia. }
  done.
Qed.


(** For a negative range a value that is in the interval and passes
    the test is the value of [c]. *)
Lemma axis_pinned p q r :
  (r <? 0)%float = true → ((q - p) * (q - p) <? r * r)%float = true →
  (p - r <=? q - 0)%float = true → (q + 0 <=? p + r)%float = true →
  (p <=? q)%float = true ∧ (q <=? p)%float = true.
Proof.
  rewrite !leb_xv, !ltb_xv, !xv_mul, !xv_sub, !xv_add, xv_zero.
  pose proof (gridv_xv p) as Hp. pose proof (gridv_xv q) as Hq.
  destruct (xv p) as [| |x], (xv q) as [| |y];
    try (intros _ (d & Hd%xsub_fin_inv & _)%xsq_lt;
         by destruct Hd as (? & ? & ? & ? & _)).
  simpl in Hp, Hq. intros H0 _.
  assert (xsub (XFin y) (XFin 0) = XFin y) as ->
    by (unfold xsub; simpl; by rewrite Z.add_0_r).
  assert (xadd (XFin y) (XFin 0) = XFin y) as ->
    by (simpl; by rewrite Z.add_0_r).
  destruct (xv r) as [|s|ρ]; [done|by destruct s|].
  apply xltb_fin in H0. unfold xsub. cbn [xadd xopp]. intros H1 H2.
  assert (x = y) as ->.
  { pose proof (xrnd_ge_grid (x + - ρ) x Hp ltac:(lia)) as H3.
    pose proof (xrnd_le_grid (x + ρ) x Hp ltac:(lia)) as H4.
    pose proof (xleb_trans _ _ _ H3 H1) as H5%xleb_fin.
    pose proof (xleb_trans _ _ _ H2 H4) as H6%xleb_fin. lia. }
  split; by apply xleb_fin.
Qed.

(** A negative value multiplied by a factor of 1 or more stays
    negative. *)
Lemma mul_negative r g :
  (r <? 0)%float = true → (1 <=? g)%float = true → (r * g <? 0)%float = true.
Proof.
  rewrite !ltb_xv, leb_xv, xv_mul, xv_zero.
  change (xv 1) with (XFin (2 ^ 2148)).
  pose proof (gridv_xv r) as Hr.
  destruct (xv r) as [|[]|z]; try done; destruct (xv g) as [|[]|y]; try done.
  - intros _ Hy%xleb_fin. simpl.
    assert (0 < 2 ^ 2148) by (by apply Z.pow_pos_nonneg).
    destruct (Z.eqb_spec y 0) as [|_]; [lia|].
    destruct (Z.ltb_spec y 0); [lia|done].
  - intros Hz%xltb_fin _. simpl.
    destruct (Z.eqb_spec z 0) as [|_]; [lia|].
    destruct (Z.ltb_spec z 0); [done|lia].
  - intros Hz%xltb_fin Hy%xleb_fin. simpl in Hr. cbn [xmul].
    assert (0 < 2 ^ 2148) as Hu by (by apply Z.pow_pos_nonneg).
    assert (z * y / 2 ^ 2148 <= z) as Hle.
    { apply Z.div_le_upper_bound; [done|]. nia. }
    apply (xleb_ltb_trans _ (XFin z)); [by apply xrnd_le_grid|].
    by apply xltb_fin.
Qed.


(** *** The order on the floats *)

Lemma ltb_leb x y : (x <? y)%float = true → (x <=? y)%float = true.
Proof. rewrite ltb_xv, leb_xv. apply xltb_leb. Qed.

Lemma leb_trans x y z :
  (x <=? y)%float = true → (y <=? z)%float = true → (x <=? z)%float = true.
Proof. rewrite !leb_xv. apply xleb_trans. Qed.

Lemma ltb_trans x y z :
  (x <? y)%float = true → (y <? z)%float = true → (x <? z)%float = true.
Proof. rewrite !ltb_xv. apply xltb_trans. Qed.

Lemma ltb_leb_trans x y z :
  (x <? y)%float = true → (y <=? z)%float = true → (x <? z)%float = true.
Proof. rewrite !ltb_xv, leb_xv. apply xltb_leb_trans. Qed.

Lemma leb_ltb_trans x y z :
  (x <=? y)%float = true → (y <? z)%float = true → (x <? z)%float = true.
Proof. rewrite !ltb_xv, leb_xv. apply xleb_ltb_trans. Qed.

Lemma leb_not_ltb x y : (x <=? y)%float = true → (y <? x)%float = false.
Proof. rewrite ltb_xv, leb_xv. apply xleb_not_ltb. Qed.

Lemma ltb_ge x y :
  (x <? y)%float = false → xv x ≠ XNaN → xv y ≠ XNaN → (y <=? x)%float = true.
Proof. rewrite ltb_xv, leb_xv. apply xltb_false. Qed.

Lemma ltb_valid x y : (x <? y)%float = true → xv x ≠ XNaN ∧ xv y ≠ XNaN.
Proof. rewrite ltb_xv. apply xltb_not_nan. Qed.

Lemma leb_valid x y : (x <=? y)%float = true → xv x ≠ XNaN ∧ xv y ≠ XNaN.
Proof. rewrite leb_xv. apply xleb_not_nan. Qed.

Lemma leb_refl x : xv x ≠ XNaN → (x <=? x)%float = true.
Proof. rewrite leb_xv. apply xleb_refl. Qed.

Lemma finite_xv x : finite x = true → ∃ z, xv x = XFin z.
Proof.
  unfold finite. rewrite andb_true_iff, !ltb_xv.
  change (xv neg_infinity) with (XInf true). change (xv infinity) with (XInf false).
  destruct (xv x) as [|[]|z]; intros [H1 H2]; try done. eauto.
Qed.

(** Adding a value that is not negative does not decrease a float, and
    subtracting one does not increase it. *)
Lemma add_nonneg_ge x y :
  finite x = true → (0 <=? y)%float = true → (x <=? x + y)%float = true.
Proof.
  intros [z Hz]%finite_xv. rewrite !leb_xv, xv_add, xv_zero. intros Hy.
  pose proof (gridv_xv x) as Hg. rewrite Hz in *. simpl in Hg.
  destruct (xv y) as [|[]|w]; try done. apply xleb_fin in Hy.
  apply xrnd_ge_grid; [done|lia].
Qed.

Lemma add_nonpos_le x y :
  finite x = true → (y <=? 0)%float = true → (x + y <=? x)%float = true.
Proof.
  intros [z Hz]%finite_xv. rewrite !leb_xv, xv_add, xv_zero. intros Hy.
  pose proof (gridv_xv x) as Hg. rewrite Hz in *. simpl in Hg.
  destruct (xv y) as [|[]|w]; try done. apply xleb_fin in Hy.
  apply xrnd_le_grid; [done|lia].
Qed.

Lemma sub_nonpos_ge x y :
  finite x = true → (y <=? 0)%float = true → (x <=? x - y)%float = true.
Proof.
  intros [z Hz]%finite_xv. rewrite !leb_xv, xv_sub, xv_zero. intros Hy.
  pose proof (gridv_xv x) as Hg. rewrite Hz in *. simpl in Hg.
  destruct (xv y) as [|[]|w]; try done. apply xleb_fin in Hy.
  unfold xsub. simpl. apply xrnd_ge_grid; [done|lia].
Qed.

End B64Facts.

(** ** Particles: spatial queries and neighbour lists *)

Module PartsFacts.
Import Parts Binary64 B64Facts.

(** [dot(diff, diff)] for the particle at [p] seen from [c], as the
    code computes it: every difference, product and sum rounded. *)
Definition sqdist (p c : Coord) : float :=
  dot (Coord_minus p c) (Coord_minus p c).

(** The test of the neighbour queries, [dot(diff, diff) < range * range]. *)
Definition closer (range : float) (p c : Coord) : bool :=
  (sqdist p c <? range * range)%float.

(** The point box of [p] lies in the box [bounds(c, range)]. *)
Definition boxed (range : float) (p c : Coord) : bool :=
  enclosesb (bounds c range) (bounds p 0).

(** What a query around [c] does with a particle at [p]. *)
Definition found (range : float) (p c : Coord) : bool :=
  boxed range p c && closer range p c.

(** The squared distance of the specification, computed without any
    rounding on the values the floats hold. *)
Definition exact_sqdist (p c : Coord) : Q :=
  ((exact (cx p) - exact (cx c)) ^ 2 + (exact (cy p) - exact (cy c)) ^ 2
   + (exact (cz p) - exact (cz c)) ^ 2)%Q.

Lemma closer_sym range p q : closer range p q = closer range q p.
Proof.
  unfold closer, sqdist, dot, Coord_minus. simpl. rewrite !ltb_xv. f_equal.
  rewrite !xv_add.
  by rewrite (sq_sub_swap (cx p)), (sq_sub_swap (cy p)), (sq_sub_swap (cz p)).
Qed.

Lemma closer_axes range p c :
  closer range p c = true →
  ((cx p - cx c) * (cx p - cx c) <? range * range)%float = true ∧
  ((cy p - cy c) * (cy p - cy c) <? range * range)%float = true ∧
  ((cz p - cz c) * (cz p - cz c) <? range * range)%float = true.
Proof.
  unfold closer, sqdist, dot, Coord_minus. simpl. intros H.
  apply add_lt_parts in H as [H Hz];
    [|apply nonneg_add; apply nonneg_mul_self|apply nonneg_mul_self].
  apply add_lt_parts in H as [Hx Hy]; [done|apply nonneg_mul_self..].
Qed.

(** The box of half-width [range] around [c] holds every particle
    that passes the test, when [range] is not negative: the search in
    the index loses nothing. *)
Lemma closer_boxed range p c :
  (0 <=? range)%float = true → closer range p c = true → boxed range p c = true.
Proof.
  intros Hr (Hx & Hy & Hz)%closer_axes.
  destruct (axis_enclosed _ _ _ Hr Hx) as [Hx1 Hx2].
  destruct (axis_enclosed _ _ _ Hr Hy) as [Hy1 Hy2].
  destruct (axis_enclosed _ _ _ Hr Hz) as [Hz1 Hz2].
  unfold boxed, enclosesb, bounds. simpl.
  by rewrite Hx1, Hx2, Hy1, Hy2, Hz1, Hz2.
Qed.

Lemma closer_nan range p c : xv range = XNaN → closer range p c = false.
Proof. intros H. unfold closer. by apply ltb_nan_r. Qed.

Lemma found_nonneg range p c :
  (range <? 0)%float = false → found range p c = closer range p c.
Proof.
  intros [Hr|Hr]%float_nonneg_cases; unfold found.
  - destruct (closer range p c) eqn:E; [|by rewrite andb_false_r].
    by rewrite closer_boxed.
  - by rewrite closer_nan, andb_false_r.
Qed.

Lemma found_dir range p q : found range p q = true → found range q p = true.
Proof.
  unfold found. rewrite !andb_true_iff. intros [Hb Hc].
  split; [|by rewrite closer_sym].
  destruct (float_cases range) as [Hr|[Hr|Hr]].
  - apply closer_boxed; [done|]. by rewrite closer_sym.
  - apply closer_axes in Hc as (Hx & Hy & Hz).
    revert Hb. unfold boxed, enclosesb, bounds. simpl.
    rewrite !andb_true_iff. intros [[[[[Hx1 Hx2] Hy1] Hy2] Hz1] Hz2].
    destruct (axis_collapsed _ _ _ Hr Hx Hx1 Hx2) as [-> ->].
    destruct (axis_collapsed _ _ _ Hr Hy Hy1 Hy2) as [-> ->].
    destruct (axis_collapsed _ _ _ Hr Hz Hz1 Hz2) as [-> ->].
    done.
  - by rewrite closer_nan in Hc.
Qed.

Lemma found_sym range p q : found range p q = found range q p.
Proof.
  apply eq_iff_eq_true. split; apply found_dir.
Qed.

(** The invariant of an indexed particle set: the leaves of the index
    are the positions, each with its own number and its point box. *)
Definition index_ok (ps : Particles) : Prop :=
  ∃ idx, index ps = Some idx ∧ idx ≡ₚ imap (λ i p, (i, bounds p 0)) (coords ps).

Lemma makeRTreeIndex_ok ps : index_ok (makeRTreeIndex ps).
Proof. eexists. split; [done|]. done. Qed.

Lemma push_back_ok ps p : index_ok ps → index_ok (push_back ps p).
Proof.
  intros (idx & Hi & Hp). unfold push_back, index_ok. simpl. rewrite Hi. simpl.
  eexists. split; [done|].
  rewrite imap_app. simpl. rewrite Nat.add_0_r. by rewrite Hp.
Qed.

Lemma elem_of_leaves (l : list Coord) i b :
  (i, b) ∈ imap (λ i p, (i, bounds p 0)) l ↔ ∃ p, l !! i = Some p ∧ b = bounds p 0.
Proof.
  rewrite list_elem_of_lookup. split.
  - intros (k & Hk). rewrite list_lookup_imap in Hk.
    destruct (l !! k) as [p|] eqn:E; simpl in Hk; [|done].
    injection Hk as <- <-. eauto.
  - intros (p & Hp & ->). exists i. by rewrite list_lookup_imap, Hp.
Qed.

Lemma leaves_ids (l : list Coord) :
  fst <$> imap (λ i p, (i, bounds p 0)) l = seq 0 (length l).
Proof.
  apply list_eq. intros i. rewrite list_lookup_fmap, list_lookup_imap.
  destruct (l !! i) as [p|] eqn:E; simpl.
  - rewrite lookup_seq_lt; [done|]. by eapply lookup_lt_Some.
  - symmetry. apply lookup_seq_ge. by apply lookup_ge_None.
Qed.


(** [j] is in [ngb[i]]. *)
Definition nb (ngb : NgbList) (i j : nat) : Prop :=
  ∃ l, ngb !! i = Some l ∧ j ∈ l.

(** *** [cut] in the words of the specification

    First come, first served: a point is kept iff no point kept before
    it is near it, [near q p] telling whether the kept point [q] is
    near the new point [p]. *)
Fixpoint first_served (near : Coord → Coord → bool) (kept : list Coord)
    (l : list Coord) : list Coord :=
  match l with
  | [] => kept
  | p :: rest =>
      first_served near
        (if existsb (λ q, near q p) kept then kept else kept ++ [p]) rest
  end.

Lemma first_served_ext near near' l : ∀ kept,
  (∀ q p, near q p = near' q p) →
  first_served near kept l = first_served near' kept l.
Proof.
  induction l as [|x l IH]; intros kept Hext; simpl; [done|].
  rewrite (IH _ Hext). f_equal.
  assert (existsb (λ q, near q x) kept = existsb (λ q, near' q x) kept) as ->; [|done].
  induction kept as [|q kept IHk]; simpl; [done|]. by rewrite Hext, IHk.
Qed.

Lemma first_served_apart near l : ∀ kept,
  (∀ i j q p, i < j → kept !! i = Some q → kept !! j = Some p → near q p = false) →
  ∀ i j q p, i < j →
    first_served near kept l !! i = Some q →
    first_served near kept l !! j = Some p → near q p = false.
Proof.
  induction l as [|x l IH]; intros kept Hk; simpl; [done|].
  apply IH. destruct (existsb _ kept) eqn:E; [done|].
  assert (Hx : ∀ q, q ∈ kept → near q x = false).
  { intros q Hq. apply not_true_iff_false. intros Hw.
    apply not_true_iff_false in E. apply E.
    apply existsb_exists. exists q. split; [by apply list_elem_of_In|done]. }
  intros i j q p Hlt Hi Hj.
  apply lookup_app_Some in Hi as [Hi|[Hi1 Hi2]];
    apply lookup_app_Some in Hj as [Hj|[Hj1 Hj2]].
  - by eapply Hk.
  - apply list_lookup_singleton_Some in Hj2 as [_ <-].
    apply Hx. by eapply list_elem_of_lookup_2.
  - apply lookup_lt_Some in Hj. lia.
  - apply list_lookup_singleton_Some in Hi2 as [Hi2 _].
    apply list_lookup_singleton_Some in Hj2 as [Hj2 _]. lia.
Qed.

Lemma append_ngb_spec ngb i j :
  i < length ngb →
  ∃ ngb', append_ngb ngb i j = Ret ngb' ∧ length ngb' = length ngb ∧
          ∀ a b, nb ngb' a b ↔ nb ngb a b ∨ (a = i ∧ b = j).
Proof.
  intros Hi. unfold append_ngb.
  destruct (lookup_lt_is_Some_2 ngb i Hi) as [l Hl]. rewrite Hl.
  eexists. split; [done|]. split; [apply length_insert|].
  intros a b. unfold nb. destruct (decide (a = i)) as [->|Hne].
  - rewrite list_lookup_insert_eq by done. split.
    + intros (l' & [= <-] & Hb). apply elem_of_app in Hb as [Hb|Hb].
      * left. eauto.
      * apply list_elem_of_singleton in Hb. by right.
    + intros [(l' & Hl' & Hb)|[_ ->]]; eexists; (split; [done|]).
      * rewrite Hl in Hl'. injection Hl' as <-. apply elem_of_app. by left.
      * apply elem_of_app. right. left.
  - rewrite list_lookup_insert_ne by done. split; [by left|].
    intros [H|[? _]]; done.
Qed.

Lemma bonds_loop_spec bonds : ∀ ngb,
  Forall (λ b, low b < length ngb ∧ high b < length ngb) bonds →
  (∀ i j, nb ngb i j ↔ nb ngb j i) →
  ∃ ngb', bonds_loop ngb bonds = Ret ngb' ∧ length ngb' = length ngb ∧
          ∀ i j, nb ngb' i j ↔ nb ngb' j i.
Proof.
  induction bonds as [|b bonds IH]; intros ngb Hr Hs; simpl.
  { by exists ngb. }
  apply Forall_cons in Hr as [[Hlo Hhi] Hr].
  destruct (append_ngb_spec ngb (low b) (high b) Hlo) as (ngb1 & -> & Hl1 & H1).
  simpl.
  destruct (append_ngb_spec ngb1 (high b) (low b)) as (ngb2 & -> & Hl2 & H2);
    [by rewrite Hl1|].
  simpl.
  destruct (IH ngb2) as (ngb' & -> & Hl' & Hs').
  - rewrite Hl2, Hl1. done.
  - intros i j. rewrite !H2, !H1, (Hs i j). tauto.
  - exists ngb'. split; [done|]. split; [|done]. by rewrite Hl', Hl2, Hl1.
Qed.

Section queries.
Variable getEnclosed : SpatialIndex → BoundingBox → list nat.
Hypothesis getEnclosed_spec : ∀ idx b, getEnclosed idx b ≡ₚ enclosed_ids idx b.

Lemma selectEnclosed_spec ps b :
  index_ok ps →
  ∃ l, selectEnclosed getEnclosed ps b = Ret l ∧ NoDup l ∧
       ∀ i, i ∈ l ↔ ∃ p, coords ps !! i = Some p ∧ encloses b (bounds p 0).
Proof.
  intros (idx & Hi & Hp). unfold selectEnclosed. rewrite Hi.
  eexists. split; [done|].
  split.
  - rewrite getEnclosed_spec. unfold enclosed_ids.
    eapply sublist_NoDup; [|apply fmap_sublist, sublist_filter].
    rewrite Hp, leaves_ids. apply NoDup_seq.
  - intros i. rewrite getEnclosed_spec. unfold enclosed_ids.
    rewrite list_elem_of_fmap. split.
    + intros ([i' b'] & -> & H). apply list_elem_of_filter in H as [He H].
      rewrite Hp in H. apply elem_of_leaves in H as (p & Hl & ->).
      exists p. done.
    + intros (p & Hl & He). exists (i, bounds p 0). split; [done|].
      apply list_elem_of_filter. split; [done|].
      rewrite Hp. apply elem_of_leaves. eauto.
Qed.

Lemma NormTwo_spec ps center rSq skip NormOne :
  (∀ i, i ∈ NormOne → is_Some (coords ps !! i)) →
  ∃ l, NormTwo ps center rSq skip NormOne = Ret l ∧
       l `sublist_of` NormOne ∧
       ∀ i, i ∈ l ↔ i ∈ NormOne ∧ skip i = false ∧
                   ∃ p, coords ps !! i = Some p ∧
                        (sqdist p center <? rSq)%float = true.
Proof.
  induction NormOne as [|q rest IH]; intros Hin; simpl.
  { exists []. split; [done|]. split; [done|]. intros i. split.
    - intros H. by apply elem_of_nil in H.
    - intros [H _]. by apply elem_of_nil in H. }
  destruct IH as (kept & Hk & Hsub & Hiff).
  { intros i Hi. apply Hin. by right. }
  destruct (skip q) eqn:Es.
  { exists kept. split; [done|]. split; [by apply sublist_cons|].
    intros i. rewrite Hiff, elem_of_cons. split; [tauto|].
    intros ([->|H] & Hs & Hp); [congruence|done]. }
  destruct (Hin q) as [p Hp]; [left|].
  unfold getDiff, at_. rewrite Hp. simpl. rewrite Hk. simpl.
  fold (sqdist p center).
  destruct (sqdist p center <? rSq)%float eqn:E.
  - eexists. split; [done|]. split; [by apply sublist_skip|].
    intros i. rewrite !elem_of_cons, Hiff. split.
    + intros [->|H]; [|tauto]. split; [by left|]. eauto.
    + intros ([->|H] & Hs & Hq); [by left|right; done].
  - eexists. split; [done|]. split; [by apply sublist_cons|].
    intros i. rewrite Hiff, elem_of_cons. split; [tauto|].
    intros ([->|H] & Hs & Hq); [|done].
    destruct Hq as (p' & Hp' & Hlt).
    rewrite Hp in Hp'. injection Hp' as <-. congruence.
Qed.

(** Both queries, for every range, negative ones included. *)
Lemma neighbours_spec ps c range skip :
  index_ok ps →
  ∃ l, (NormOne ← selectEnclosed getEnclosed ps (bounds c range);
        NormTwo ps c (range * range) skip NormOne) = Ret l ∧
       NoDup l ∧
       ∀ i, i ∈ l ↔ skip i = false ∧
                   ∃ p, coords ps !! i = Some p ∧ found range p c = true.
Proof.
  intros Hok.
  destruct (selectEnclosed_spec ps (bounds c range) Hok) as (l1 & -> & Hnd & H1).
  simpl.
  destruct (NormTwo_spec ps c (range * range) skip l1) as (l & -> & Hsub & H2).
  { intros i Hi. apply H1 in Hi as (p & -> & _). eauto. }
  exists l. split; [done|]. split; [by eapply sublist_NoDup|].
  intros i. rewrite H2, H1. unfold found, boxed, closer, encloses. split.
  - intros ((p & Hp & He) & Hs & (p' & Hp' & Hd)).
    split; [done|]. exists p'. split; [done|].
    rewrite Hp in Hp'. injection Hp' as <-. by rewrite He, Hd.
  - intros (Hs & (p & Hp & [He Hd]%andb_true_iff)). eauto 10.
Qed.

(** C5, as the code computes it.  On a particle set whose index holds
    the current positions, the Euclidean query around a point returns,
    once each, the particles whose point box lies in [bounds(center,
    range)] and that pass the test [dot(diff, diff) < range * range],
    every operation rounded to binary64; for a range that is not
    negative these are exactly the particles that pass the test.  The
    query around a particle returns exactly those among the other
    particles, never the particle itself. *)
Theorem neighbours_within_range ps c range :
  index_ok ps →
  (∃ l, getEuclidianNeighbours getEnclosed ps c range = Ret l ∧ NoDup l ∧
        (∀ i, i ∈ l ↔ ∃ p, coords ps !! i = Some p ∧ found range p c = true) ∧
        ((range <? 0)%float = false →
         ∀ i, i ∈ l ↔ ∃ p, coords ps !! i = Some p ∧ closer range p c = true)) ∧
  (∀ center c0, coords ps !! center = Some c0 →
     ∃ l, getEuclidianNeighbours_at getEnclosed ps center range = Ret l ∧
          NoDup l ∧ (center ∉ l) ∧
          (∀ i, i ∈ l ↔
                i ≠ center ∧
                ∃ p, coords ps !! i = Some p ∧ found range p c0 = true) ∧
          ((range <? 0)%float = false →
           ∀ i, i ∈ l ↔
                i ≠ center ∧
                ∃ p, coords ps !! i = Some p ∧ closer range p c0 = true)).
Proof.
  intros Hok. split.
  - destruct (neighbours_spec ps c range (λ _, false) Hok) as (l & Hl & Hnd & Hiff).
    exists l. split; [exact Hl|]. split; [done|]. split.
    + intros i. rewrite Hiff. split; [by intros [_ ?]|done].
    + intros Hr i. rewrite Hiff. split.
      * intros (_ & p & Hp & Hf). exists p. by rewrite <- found_nonneg.
      * intros (p & Hp & Hf). split; [done|]. exists p. by rewrite found_nonneg.
  - intros center c0 Hc.
    destruct (neighbours_spec ps c0 range (λ p, p =? center) Hok)
      as (l & Hl & Hnd & Hiff).
    exists l. unfold getEuclidianNeighbours_at, at_. rewrite Hc. simpl.
    split; [exact Hl|]. split; [done|]. split; [|split].
    + intros Hin. apply Hiff in Hin as [Hs _].
      by rewrite Nat.eqb_refl in Hs.
    + intros i. by rewrite Hiff, Nat.eqb_neq.
    + intros Hr i. rewrite Hiff, Nat.eqb_neq. split.
      * intros (Hne & p & Hp & Hf). split; [done|]. exists p.
        by rewrite <- found_nonneg.
      * intros (Hne & p & Hp & Hf). split; [done|]. exists p.
        by rewrite found_nonneg.
Qed.

Lemma ngb_loop_spec ps sep n : ∀ p,
  index_ok ps → p + n ≤ size ps →
  ∃ ngb, ngb_loop getEnclosed ps sep p n = Ret ngb ∧ length ngb = n ∧
    ∀ k j, nb ngb k j ↔
      k < n ∧ j ≠ p + k ∧
      ∃ c q, coords ps !! (p + k) = Some c ∧ coords ps !! j = Some q ∧
             found sep q c = true.
Proof.
  induction n as [|n IH]; intros p Hok Hp; simpl.
  { exists []. split; [done|]. split; [done|]. intros k j. split.
    - intros (l & Hl & _). done.
    - intros [? _]. lia. }
  destruct (lookup_lt_is_Some_2 (coords ps) p) as [c Hc]; [unfold size in Hp; lia|].
  destruct (neighbours_spec ps c sep (λ q, q =? p) Hok) as (l & Hl & _ & Hiff).
  unfold getEuclidianNeighbours_at, at_. rewrite Hc. simpl. rewrite Hl. simpl.
  destruct (IH (S p) Hok) as (ngb & -> & Hlen & Hnb); [lia|]. simpl.
  eexists. split; [done|]. split; [simpl; lia|].
  intros k j. destruct k as [|k].
  - unfold nb. simpl. rewrite Nat.add_0_r. split.
    + intros (l' & [= <-] & Hj). apply Hiff in Hj as (Hs & q & Hq & Hw).
      apply Nat.eqb_neq in Hs. split; [lia|]. split; [done|]. eauto.
    + intros (_ & Hne & c' & q & Hc' & Hq & Hw). exists l. split; [done|].
      rewrite Hc in Hc'. injection Hc' as <-.
      apply Hiff. split; [by apply Nat.eqb_neq|]. eauto.
  - replace (p + S k) with (S p + k) by lia.
    change (nb (l :: ngb) (S k) j) with (nb ngb k j).
    rewrite Hnb. split; intros (? & ?); (split; [lia|done]).
Qed.

(** C6.  Built from the Euclidean queries on a set whose index holds
    the current positions, or from a set of bonds between existing
    particles, the neighbour list has one entry per particle and is
    symmetric: [j] is in [ngb[i]] iff [i] is in [ngb[j]].  This holds
    in binary64 for every bond length and radius: the rounded test is
    itself symmetric, and the search in the index loses no pair in
    either direction. *)
Theorem neighbour_list_symmetric ps bondLength bonds :
  (index_ok ps →
   ∃ ngb, makeNgbList getEnclosed ps bondLength = Ret (with_ngb ps ngb) ∧
          length ngb = size ps ∧ ∀ i j, nb ngb i j ↔ nb ngb j i) ∧
  (Forall (λ b, low b < size ps ∧ high b < size ps) bonds →
   ∃ ngb, makeNgbList_bonds ps bonds = Ret (with_ngb ps ngb) ∧
          length ngb = size ps ∧ ∀ i j, nb ngb i j ↔ nb ngb j i).
Proof.
  split; [intros Hok|intros Hb].
  - unfold makeNgbList.
    destruct (ngb_loop_spec ps (2 * bondLength * radius ps) (size ps) 0 Hok)
      as (ngb & -> & Hlen & Hnb); [lia|].
    exists ngb. split; [done|]. split; [done|].
    assert (Hdir : ∀ i j, nb ngb i j → nb ngb j i).
    { intros i j. rewrite !Hnb. simpl.
      intros (Hi & Hne & c & q & Hc & Hq & Hw).
      split; [by eapply lookup_lt_Some|]. split; [done|].
      exists q, c. split; [done|]. split; [done|]. by rewrite found_sym. }
    intros i j. split; apply Hdir.
  - unfold makeNgbList_bonds.
    destruct (bonds_loop_spec bonds (replicate (size ps) []))
      as (ngb & -> & Hlen & Hs).
    + by rewrite length_replicate.
    + intros i j. unfold nb. split; intros (l & Hl & Hin);
        apply lookup_replicate in Hl as [-> _]; by apply elem_of_nil in Hin.
    + exists ngb. split; [done|]. split; [|done].
      by rewrite Hlen, length_replicate.
Qed.

Lemma cut_loop_spec sep l : ∀ out,
  index_ok out →
  ∃ out', cut_loop getEnclosed out sep l = Ret out' ∧
          coords out' = first_served (found sep) (coords out) l ∧
          index out' ≠ None ∧ bb out' = bb out.
Proof.
  induction l as [|p l IH]; intros out Hok; simpl.
  { exists out. split; [done|]. split; [done|]. split; [|done].
    destruct Hok as (idx & -> & _). done. }
  destruct (neighbours_spec out p sep (λ _, false) Hok) as (ngb & Hn & _ & Hiff).
  unfold getEuclidianNeighbours. rewrite Hn. simpl.
  assert (Hempty : ngb = [] ↔ existsb (λ q, found sep q p) (coords out) = false).
  { rewrite <- not_true_iff_false, existsb_exists. split.
    - intros -> (q & Hq & Hw). apply list_elem_of_In in Hq.
      apply list_elem_of_lookup_1 in Hq as [i Hi].
      assert (i ∈ []) as Hin by (apply Hiff; eauto).
      by apply elem_of_nil in Hin.
    - intros Hno. destruct ngb as [|i ngb]; [done|]. exfalso. apply Hno.
      destruct (proj1 (Hiff i)) as (_ & q & Hq & Hw); [left|].
      exists q. split; [|done].
      apply list_elem_of_In. by eapply list_elem_of_lookup_2. }
  destruct ngb as [|i ngb].
  - rewrite (proj1 Hempty eq_refl).
    destruct (IH (push_back out p)) as (out' & -> & Hc & Hi & Hbb);
      [by apply push_back_ok|].
    exists out'. done.
  - destruct (existsb _ (coords out)) eqn:E.
    + destruct (IH out Hok) as (out' & -> & Hc & Hi & Hbb). exists out'. done.
    + discriminate (proj2 Hempty eq_refl).
Qed.

Variable default_radius : float.

(** C8, as the code computes it.  [cut(sep)] always returns; it keeps
    exactly the points that, taken in input order, have no previously
    kept point found by the query around them.  For a [sep] that is
    not negative that is: no previously kept point passing the test
    [dot(diff, diff) < sep * sep] in binary64; and for any two
    different points it returns that test fails. *)
Theorem cut_first_served ps sep :
  ∃ out, cut getEnclosed default_radius ps sep = Ret out ∧
         coords out = first_served (found sep) [] (coords ps) ∧
         ((sep <? 0)%float = false →
          coords out = first_served (closer sep) [] (coords ps) ∧
          ∀ i j p q, i ≠ j →
            coords out !! i = Some p → coords out !! j = Some q →
            closer sep p q = false).
Proof.
  unfold cut.
  destruct (cut_loop_spec sep (coords ps)
              {| coords := []; radius := default_radius; bb := bb ps;
                 index := Some []; neighboursList := None |})
    as (out & Hcut & Hc & _).
  { exists []. done. }
  exists out. split; [exact Hcut|]. split; [exact Hc|].
  intros Hs.
  assert (Hc' : coords out = first_served (closer sep) [] (coords ps)).
  { rewrite Hc. apply first_served_ext. intros q p. by apply found_nonneg. }
  split; [exact Hc'|].
  assert (Hlt : ∀ i j q p, i < j →
            coords out !! i = Some q → coords out !! j = Some p →
            closer sep q p = false).
  { rewrite Hc'. apply first_served_apart. intros i j q p _ Hi. done. }
  intros i j p q Hne Hi Hj.
  destruct (Nat.lt_total i j) as [Hlt'|[->|Hgt]]; [|done|].
  - by eapply Hlt.
  - rewrite closer_sym. by eapply Hlt.
Qed.

End queries.

(** *** Concrete particle sets *)

Definition particles_of (l : list Coord) : Particles :=
  {| coords := l; radius := 1; bb := bounds (mkCoord 0 0 0) 10;
     index := None; neighboursList := None |}.

(** Two particles at the same place and a third at distance 3. *)
Definition twins : Particles :=
  makeRTreeIndex (particles_of [mkCoord 0 0 0; mkCoord 0 0 0; mkCoord 3 0 0]).

(** Two particles at distance 1. *)
Definition pair : Particles :=
  makeRTreeIndex (particles_of [mkCoord 0 0 0; mkCoord 1 0 0]).

(** The [double]s nearest to 0.28 and 0.96.  Their exact values are
    0.28 + 2.6e-17 and 0.96 - 3.6e-17: the point (0.28, 0.96, 0) as the
    machine holds it lies inside the unit sphere, at squared distance
    1 - 5.3e-17 from the origin, yet the rounded sum of the rounded
    squares is 1. *)
Definition c028 : float := 0x1.1eb851eb851ecp-2.
Definition c096 : float := 0x1.eb851eb851eb8p-1.

Definition near_unit : Particles :=
  makeRTreeIndex (particles_of [mkCoord 0 0 0; mkCoord c028 c096 0]).

Example twins_query : getEuclidianNeighbours_at enclosed_ids twins 0 3 = Ret [1].
Proof. vm_compute. reflexivity. Qed.

Example twins_point_query :
  getEuclidianNeighbours enclosed_ids twins (mkCoord 0 0 0) 3 = Ret [0; 1].
Proof. vm_compute. reflexivity. Qed.

Example cut_example :
  coords <$> (match cut enclosed_ids 1
                      (particles_of [mkCoord 0 0 0; mkCoord 1 0 0;
                                     mkCoord 5 0 0; mkCoord 5 1 0]) 2 with
              | Ret out => Some out | _ => None end)
  = Some [mkCoord 0 0 0; mkCoord 5 0 0].
Proof. vm_compute. reflexivity. Qed.

Lemma neighbours_within_range_witness :
  (∃ l, getEuclidianNeighbours enclosed_ids twins (mkCoord 0 0 0) 3 = Ret l ∧
        NoDup l ∧
        (∀ i, i ∈ l ↔
              ∃ p, coords twins !! i = Some p ∧ found 3 p (mkCoord 0 0 0) = true) ∧
        ((3 <? 0)%float = false →
         ∀ i, i ∈ l ↔
              ∃ p, coords twins !! i = Some p ∧ closer 3 p (mkCoord 0 0 0) = true)) ∧
  (∀ center c0, coords twins !! center = Some c0 →
     ∃ l, getEuclidianNeighbours_at enclosed_ids twins center 3 = Ret l ∧
          NoDup l ∧ (center ∉ l) ∧
          (∀ i, i ∈ l ↔
                i ≠ center ∧
                ∃ p, coords twins !! i = Some p ∧ found 3 p c0 = true) ∧
          ((3 <? 0)%float = false →
           ∀ i, i ∈ l ↔
                i ≠ center ∧
                ∃ p, coords twins !! i = Some p ∧ closer 3 p c0 = true)).
Proof.
  apply (neighbours_within_range enclosed_ids).
  - intros idx b. reflexivity.
  - apply makeRTreeIndex_ok.
Defined.

(** Two particles indexed at (0,0,0) and (4,0,0), then scaled by one
    half: the index still holds the point (4,0,0) for the second. *)
Definition halved : Particles :=
  times (makeRTreeIndex (particles_of [mkCoord 0 0 0; mkCoord 4 0 0])) 0.5.

(** C5 as stated fails in three ways.  By rounding: the particle at
    (0.28, 0.96, 0) is at exact squared distance below [1²] from the
    origin, where another particle sits, but the query of range 1
    around the origin, by point or by index, does not return it: the
    rounded sum of squares is 1, not below 1.  On a set that has a
    spatial index built before [operator*=]: the second particle of
    [halved] is at (2, 0, 0), the query of range 1 around that very
    point does not return it, and returns nothing.  And for a negative
    range, whose query box is empty or collapses to the centre: with
    range -2 the particle at distance 1 is not returned, though
    [1 < (-2)²]; with range [-2^-400] around (1, 1, 1) the particle
    sitting there is returned, at a distance that is not below the
    range. *)
Lemma neighbours_not_by_exact_distance :
  ((exact_sqdist (mkCoord c028 c096 0) (mkCoord 0 0 0) < exact 1 ^ 2)%Q ∧
   getEuclidianNeighbours enclosed_ids near_unit (mkCoord 0 0 0) 1 = Ret [0] ∧
   getEuclidianNeighbours_at enclosed_ids near_unit 0 1 = Ret []) ∧
  (index halved ≠ None ∧ coords halved !! 1 = Some (mkCoord 2 0 0) ∧
   (exact_sqdist (mkCoord 2 0 0) (mkCoord 2 0 0) < exact 1 ^ 2)%Q ∧
   getEuclidianNeighbours enclosed_ids halved (mkCoord 2 0 0) 1 = Ret []) ∧
  ((exact_sqdist (mkCoord 1 0 0) (mkCoord 0 0 0) < exact (-2) ^ 2)%Q ∧
   getEuclidianNeighbours enclosed_ids pair (mkCoord 0 0 0) (-2) = Ret [] ∧
   (exact (-0x1p-400) < 0)%Q ∧
   getEuclidianNeighbours enclosed_ids
     (makeRTreeIndex (particles_of [mkCoord 1 1 1])) (mkCoord 1 1 1) (-0x1p-400)
   = Ret [0]).
Proof.
  split; [|split].
  - split; [reflexivity|]. split; vm_compute; reflexivity.
  - split; [done|]. split; [vm_compute; reflexivity|].
    split; [reflexivity|]. vm_compute. reflexivity.
  - split; [reflexivity|]. split; [vm_compute; reflexivity|].
    split; [reflexivity|]. vm_compute. reflexivity.
Qed.

(** C6 as stated fails on a set whose index was built before
    [operator*=]: all values are exact, particle 0 is a neighbour of
    particle 1 and particle 1 is not a neighbour of particle 0.  And a
    bond to a particle that is not there builds no list at all. *)
Lemma neighbour_list_stale_index :
  (index halved ≠ None ∧
   makeNgbList enclosed_ids halved 3 = Ret (with_ngb halved [[]; [0]]) ∧
   nb [[]; [0]] 1 0 ∧ ¬ nb [[]; [0]] 0 1) ∧
  makeNgbList_bonds pair [mkBond 0 2] = Undef.
Proof.
  split; [|vm_compute; reflexivity].
  split; [done|]. split; [vm_compute; reflexivity|]. split.
  - exists [0]. split; [done|]. left.
  - intros (l & [= <-] & H). by apply elem_of_nil in H.
Qed.

Lemma neighbour_list_symmetric_witness :
  (∃ ngb, makeNgbList enclosed_ids twins 2 = Ret (with_ngb twins ngb) ∧
          length ngb = size twins ∧ ∀ i j, nb ngb i j ↔ nb ngb j i) ∧
  (∃ ngb, makeNgbList_bonds twins [mkBond 0 1; mkBond 1 2] = Ret (with_ngb twins ngb) ∧
          length ngb = size twins ∧ ∀ i j, nb ngb i j ↔ nb ngb j i).
Proof.
  destruct (neighbour_list_symmetric enclosed_ids (λ idx b, reflexivity _)
              twins 2 [mkBond 0 1; mkBond 1 2]) as [H1 H2].
  split.
  - apply H1, makeRTreeIndex_ok.
  - apply H2. repeat constructor.
Defined.

Lemma cut_first_served_witness :
  ∃ out, cut enclosed_ids 1 (particles_of [mkCoord 0 0 0; mkCoord 1 0 0;
                                           mkCoord 5 0 0; mkCoord 5 1 0]) 2 = Ret out ∧
         coords out = [mkCoord 0 0 0; mkCoord 5 0 0] ∧
         ((2 <? 0)%float = false →
          coords out = [mkCoord 0 0 0; mkCoord 5 0 0] ∧
          ∀ i j p q, i ≠ j →
            coords out !! i = Some p → coords out !! j = Some q →
            closer 2 p q = false).
Proof.
  apply (cut_first_served enclosed_ids).
  intros idx b. reflexivity.
Defined.

(** C8 as stated fails by rounding: [cut(1)] keeps both the origin and
    the point (0.28, 0.96, 0), which are at exact squared distance
    below [1²]. *)
Lemma cut_rounding :
  (exact_sqdist (mkCoord c028 c096 0) (mkCoord 0 0 0) < exact 1 ^ 2)%Q ∧
  coords <$> (match cut enclosed_ids 1
                      (particles_of [mkCoord 0 0 0; mkCoord c028 c096 0]) 1 with
              | Ret out => Some out | _ => None end)
  = Some [mkCoord 0 0 0; mkCoord c028 c096 0].
Proof. split; [reflexivity|]. vm_compute. reflexivity. Qed.

End PartsFacts.

(** ** Topological pairs *)

Module TopoFacts.
Import Parts Topo.

(** The pentagonal bipyramid: the bonded pair 0-1 and its ring 2..6. *)
Definition bipyramid : NgbList :=
  [[1; 2; 3; 4; 5; 6]; [0; 2; 3; 4; 5; 6];
   [0; 1; 3; 6]; [0; 1; 2; 4]; [0; 1; 3; 5]; [0; 1; 4; 6]; [0; 1; 2; 5]].

Example bipyramid_pairs : get1551pairs bipyramid = Some [mkBond 0 1].
Proof. vm_compute. reflexivity. Qed.

Lemma set_intersection_nil_r a : set_intersection a [] = [].
Proof. by destruct a. Qed.

Lemma set_intersection_cons x a y b :
  set_intersection (x :: a) (y :: b) =
  if x <? y then set_intersection a (y :: b)
  else if y <? x then set_intersection (x :: a) b
  else x :: set_intersection a b.
Proof. reflexivity. Qed.

(** On ascending lists the merge computes the common elements, in
    order. *)
Lemma set_intersection_spec a : ∀ b,
  StronglySorted lt a → StronglySorted lt b →
  set_intersection a b = common_neighbours a b.
Proof.
  unfold common_neighbours.
  induction a as [|x a IHa]; intros b Ha Hb; [done|].
  apply StronglySorted_inv in Ha as [Ha Hx]. rewrite Forall_forall in Hx.
  induction b as [|y b IHb].
  { rewrite set_intersection_nil_r. symmetry.
    rewrite (filter_ext_in _ (λ _, False)).
    - induction (x :: a) as [|z l IH]; [done|].
      rewrite filter_cons. by destruct (decide False).
    - intros z _. split; [|done]. intros H. by apply elem_of_nil in H. }
  pose proof Hb as Hb0.
  apply StronglySorted_inv in Hb as [Hb Hy]. rewrite Forall_forall in Hy.
  rewrite set_intersection_cons.
  destruct (x <? y) eqn:E1; [|destruct (y <? x) eqn:E2].
  - apply Nat.ltb_lt in E1. rewrite (IHa (y :: b) Ha Hb0).
    rewrite (filter_cons _ x), decide_False; [done|].
    intros Hin. apply elem_of_cons in Hin as [->|Hin]; [lia|].
    apply Hy in Hin. lia.
  - apply Nat.ltb_lt in E2. rewrite (IHb Hb).
    apply filter_ext_in. intros z Hz. rewrite elem_of_cons.
    split; [by right|]. intros [->|H]; [|done].
    apply elem_of_cons in Hz as [->|Hz]; [lia|]. apply Hx in Hz. lia.
  - apply Nat.ltb_ge in E1, E2. assert (x = y) as <- by lia.
    rewrite (filter_cons _ x), decide_True by left.
    f_equal. rewrite (IHa b Ha Hb).
    apply filter_ext_in. intros z Hz. rewrite elem_of_cons.
    split; [by right|]. intros [->|H]; [|done]. apply Hx in Hz. lia.
Qed.

Lemma common_neighbours_sorted a b :
  StronglySorted lt a → StronglySorted lt (common_neighbours a b).
Proof.
  unfold common_neighbours. induction 1 as [|x l Hl IH Hx]; [constructor|].
  rewrite filter_cons. destruct (decide (x ∈ b)); [|done].
  constructor; [done|].
  apply Forall_forall. intros z Hz. apply list_elem_of_filter in Hz as [_ Hz].
  rewrite Forall_forall in Hx. by apply Hx.
Qed.

Lemma elem_of_lower_bound l v q :
  StronglySorted lt l → q ∈ lower_bound l v ↔ q ∈ l ∧ v ≤ q.
Proof.
  induction 1 as [|x l Hl IH Hx]; simpl.
  { split; [intros H|intros [H _]]; by apply elem_of_nil in H. }
  rewrite Forall_forall in Hx.
  destruct (x <? v) eqn:E.
  - apply Nat.ltb_lt in E. rewrite IH, elem_of_cons. split; [tauto|].
    intros [[->|H] Hv]; [lia|done].
  - apply Nat.ltb_ge in E. split; [|tauto].
    intros H. split; [done|].
    apply elem_of_cons in H as [->|H]; [done|]. apply Hx in H. lia.
Qed.

(** A neighbour list as the specification has it: every row strictly
    ascending, and every entry the number of a row. *)
Definition sorted_ngb (ngb : NgbList) : Prop :=
  ∀ i l, ngb !! i = Some l →
    StronglySorted lt l ∧ Forall (λ j, j < length ngb) l.


Lemma elem_of_BondSet_insert ret b b' :
  b' ∈ BondSet_insert ret b ↔ b' ∈ ret ∨ b' = b.
Proof.
  unfold BondSet_insert. destruct (decide (b ∈ ret)) as [Hin|Hin].
  - split; [by left|]. intros [H| ->]; done.
  - rewrite elem_of_app, list_elem_of_singleton. done.
Qed.

Lemma NoDup_BondSet_insert ret b : NoDup ret → NoDup (BondSet_insert ret b).
Proof.
  intros Hnd. unfold BondSet_insert. destruct (decide (b ∈ ret)) as [Hin|Hin]; [done|].
  apply NoDup_app. split; [done|]. split; [|apply NoDup_singleton].
  intros x Hx Hb. apply list_elem_of_singleton in Hb as ->. done.
Qed.

Lemma Bond_of_ordered p q : p < q → Bond_of p q = mkBond p q.
Proof. intros H. unfold Bond_of. f_equal; lia. Qed.

Section rings.
Variable ngb : NgbList.
Hypothesis ngb_sorted : sorted_ngb ngb.

Lemma is_ring_loop_spec common cs :
  StronglySorted lt common → Forall (λ c, c < length ngb) cs →
  ∃ r, is_ring_loop ngb common cs = Some r ∧
       (r = true ↔
        ∀ c, c ∈ cs →
          ∃ lc, ngb !! c = Some lc ∧ length (filter (λ x, x ∈ common) lc) = 2).
Proof.
  intros Hc. induction 1 as [|c cs Hlt Hcs IH]; simpl.
  { exists true. split; [done|]. split; [|done].
    intros _ c Hin. by apply elem_of_nil in Hin. }
  destruct (lookup_lt_is_Some_2 ngb c Hlt) as [lc Hlc]. rewrite Hlc. simpl.
  destruct (ngb_sorted c lc Hlc) as [Hs _].
  rewrite (set_intersection_spec lc common Hs Hc). unfold common_neighbours.
  destruct (length (filter (λ x, x ∈ common) lc) =? 2) eqn:E; simpl.
  - apply Nat.eqb_eq in E. destruct IH as (r & -> & Hr).
    exists r. split; [done|]. rewrite Hr. split.
    + intros H c' Hin. apply elem_of_cons in Hin as [->|Hin]; [eauto|by apply H].
    + intros H c' Hin. apply H. by right.
  - apply Nat.eqb_neq in E. exists false. split; [done|]. split; [done|].
    intros H. destruct (H c) as (lc' & Hlc' & Hlen); [left|].
    rewrite Hlc in Hlc'. injection Hlc' as <-. done.
Qed.

Lemma is_ring_spec common :
  StronglySorted lt common → Forall (λ c, c < length ngb) common →
  ∃ r, is_ring ngb common = Some r ∧ (r = true ↔ forms_ring ngb common).
Proof. intros Hs Hr. by apply is_ring_loop_spec. Qed.

Lemma pairs_of_spec p lp :
  ngb !! p = Some lp →
  ∀ qs ret, Forall (λ q, q ∈ lp ∧ p < q) qs → NoDup ret →
  ∃ ret', pairs_of ngb p lp qs ret = Some ret' ∧ NoDup ret' ∧
    ∀ b, b ∈ ret' ↔ b ∈ ret ∨ ∃ q, q ∈ qs ∧ b = mkBond p q ∧ is_1551 ngb p q.
Proof.
  intros Hlp. destruct (ngb_sorted p lp Hlp) as [Hsp Hrp].
  rewrite Forall_forall in Hrp.
  induction qs as [|q qs IH]; intros ret Hqs Hnd; simpl.
  { exists ret. split; [done|]. split; [done|]. intros b. split; [by left|].
    intros [H|(q & Hq & _)]; [done|]. by apply elem_of_nil in Hq. }
  apply Forall_cons in Hqs as [[Hq Hpq] Hqs].
  destruct (lookup_lt_is_Some_2 ngb q (Hrp q Hq)) as [lq Hlq]. rewrite Hlq. simpl.
  destruct (ngb_sorted q lq Hlq) as [Hsq _].
  rewrite (set_intersection_spec lp lq Hsp Hsq).
  assert (Hkeep : ¬ is_1551 ngb p q →
    ∃ ret', pairs_of ngb p lp qs ret = Some ret' ∧ NoDup ret' ∧
      ∀ b, b ∈ ret' ↔
           b ∈ ret ∨ ∃ q', q' ∈ q :: qs ∧ b = mkBond p q' ∧ is_1551 ngb p q').
  { intros Hno. destruct (IH ret Hqs Hnd) as (ret' & -> & Hnd' & Hiff).
    exists ret'. split; [done|]. split; [done|]. intros b. rewrite Hiff.
    split; intros [H|(q' & Hq' & Hb & H1)]; try (by left).
    - right. exists q'. split; [by right|done].
    - apply elem_of_cons in Hq' as [->|Hq']; [done|]. right. eauto. }
  destruct (length (common_neighbours lp lq) =? 5) eqn:E5; simpl.
  2:{ apply Nat.eqb_neq in E5. apply Hkeep.
      intros (lp' & lq' & Hlp' & Hlq' & _ & _ & Hlen & _).
      rewrite Hlp in Hlp'. rewrite Hlq in Hlq'.
      injection Hlp' as <-. injection Hlq' as <-. done. }
  apply Nat.eqb_eq in E5.
  destruct (is_ring_spec (common_neighbours lp lq)) as (r & -> & Hr).
  { by apply common_neighbours_sorted. }
  { apply Forall_forall. intros c Hc.
    apply list_elem_of_filter in Hc as [_ Hc]. by apply Hrp. }
  simpl. destruct r; simpl.
  2:{ apply Hkeep.
      intros (lp' & lq' & Hlp' & Hlq' & _ & _ & _ & Hring).
      rewrite Hlp in Hlp'. rewrite Hlq in Hlq'.
      injection Hlp' as <-. injection Hlq' as <-.
      apply Hr in Hring. done. }
  assert (is_1551 ngb p q) as H1551.
  { exists lp, lq. repeat split; try done. by apply Hr. }
  destruct (IH (BondSet_insert ret (Bond_of p q)) Hqs)
    as (ret' & -> & Hnd' & Hiff); [by apply NoDup_BondSet_insert|].
  exists ret'. split; [done|]. split; [done|]. intros b.
  rewrite Hiff, elem_of_BondSet_insert, Bond_of_ordered by done.
  split.
  - intros [[H| ->]|(q' & Hq' & Hb & H1)].
    + by left.
    + right. exists q. split; [left|done].
    + right. exists q'. split; [by right|done].
  - intros [H|(q' & Hq' & Hb & H1)]; [by left; left|].
    apply elem_of_cons in Hq' as [->|Hq']; [by left; right|].
    right. eauto.
Qed.

Lemma pairs_loop_spec rows : ∀ p ret,
  (∀ k, rows !! k = ngb !! (p + k)) → NoDup ret →
  ∃ ret', pairs_loop ngb p rows ret = Some ret' ∧ NoDup ret' ∧
    ∀ b, b ∈ ret' ↔
         b ∈ ret ∨ ∃ p' q, p ≤ p' ∧ b = mkBond p' q ∧ is_1551 ngb p' q.
Proof.
  induction rows as [|lp rows IH]; intros p ret Hrows Hnd; simpl.
  { exists ret. split; [done|]. split; [done|]. intros b. split; [by left|].
    intros [H|(p' & q & Hp' & _ & (lp & _ & Hlp & _))]; [done|].
    specialize (Hrows (p' - p)). replace (p + (p' - p)) with p' in Hrows by lia.
    rewrite Hlp in Hrows. done. }
  assert (ngb !! p = Some lp) as Hlp.
  { specialize (Hrows 0). rewrite Nat.add_0_r in Hrows. done. }
  destruct (ngb_sorted p lp Hlp) as [Hsp _].
  destruct (pairs_of_spec p lp Hlp (lower_bound lp (p + 1)) ret)
    as (ret1 & -> & Hnd1 & H1); [|done|].
  { apply Forall_forall. intros q Hq.
    apply (elem_of_lower_bound _ _ _ Hsp) in Hq as [Hq Hle]. split; [done|lia]. }
  simpl.
  destruct (IH (S p) ret1) as (ret' & -> & Hnd' & H2); [|done|].
  { intros k. specialize (Hrows (S k)). simpl in Hrows.
    by replace (S p + k) with (p + S k) by lia. }
  exists ret'. split; [done|]. split; [done|]. intros b. rewrite H2, H1.
  split.
  - intros [[H|(q & Hq & Hb & H15)]|(p' & q & Hp' & Hb & H15)].
    + by left.
    + right. exists p, q. done.
    + right. exists p', q. split; [lia|done].
  - intros [H|(p' & q & Hp' & Hb & H15)]; [by left; left|].
    destruct (decide (p' = p)) as [->|Hne].
    + left. right. exists q. split; [|done].
      destruct H15 as (lp' & lq & Hlp' & _ & Hpq & Hq & _).
      rewrite Hlp in Hlp'. injection Hlp' as <-.
      apply (elem_of_lower_bound _ _ _ Hsp). split; [done|lia].
    + right. exists p', q. split; [lia|done].
Qed.

(** C7.  On a sorted neighbour list [get1551pairs] returns, once each,
    exactly the bonds [(p, q)] with [p < q], [q] a neighbour of [p],
    whose common neighbours are five and form a ring. *)
Theorem get1551pairs_spec :
  ∃ ret, get1551pairs ngb = Some ret ∧ NoDup ret ∧
         ∀ p q, mkBond p q ∈ ret ↔ is_1551 ngb p q.
Proof.
  unfold get1551pairs.
  destruct (pairs_loop_spec ngb 0 []) as (ret & -> & Hnd & Hiff);
    [done|constructor|].
  exists ret. split; [done|]. split; [done|]. intros p q. rewrite Hiff. split.
  - intros [H|(p' & q' & _ & [= <- <-] & H)]; [by apply elem_of_nil in H|done].
  - intros H. right. exists p, q. split; [lia|done].
Qed.

End rings.


Lemma get1551pairs_spec_witness :
  ∃ ret, get1551pairs bipyramid = Some ret ∧ NoDup ret ∧
         ∀ p q, mkBond p q ∈ ret ↔ is_1551 bipyramid p q.
Proof.
  apply get1551pairs_spec.
  intros i l H.
  do 7 (destruct i as [|i];
        [injection H as <-; split; repeat (constructor; simpl); lia|]).
  done.
Defined.

End TopoFacts.

(** ** Bond-orientational order *)

Module BooFacts.
Import Parts Boo.

(** Two bonded particles and an isolated one. *)
Definition lonely : NgbList := [[1]; [0]; []].

Definition all_nan : BooData := replicate 36 (nan, nan).

Lemma all_nan_not_zero : all_nan ≠ BooData_zero.
Proof.
  intros H. apply (f_equal (λ d, is_nan <$> (fst <$> head d))) in H.
  vm_compute in H. discriminate.
Qed.

(** A particle without neighbours keeps the zero descriptor in
    [getBOO]: the division is guarded by [nb > 0]. *)
Lemma getBOO_no_neighbour sph ngb center :
  ngb !! center = Some [] → getBOO sph ngb center = Some BooData_zero.
Proof. intros H. unfold getBOO. rewrite H. done. Qed.

(** The defect in general: a particle that is in nobody's list, its
    own list being empty, ends with the zero descriptor divided by
    [0 + 0i]. *)
Section isolated.
Variable sph : nat → nat → BooData.
Variable i : nat.

Definition untouched (acc : list BooData * list nat) : Prop :=
  acc.1 !! i = Some BooData_zero ∧ acc.2 !! i = Some 0.

Lemma accumulate_other acc j s acc' :
  accumulate acc j s = Some acc' → j ≠ i → untouched acc → untouched acc'.
Proof.
  unfold accumulate, untouched. intros H Hne [H1 H2].
  destruct (acc.1 !! j) as [b|]; simpl in H; [|done].
  destruct (acc.2 !! j) as [n|]; simpl in H; [|done].
  injection H as <-. simpl.
  by rewrite !list_lookup_insert_ne.
Qed.

Lemma bonds_of_untouched p qs : ∀ acc acc',
  bonds_of sph p qs acc = Some acc' →
  (qs = [] ∨ p ≠ i) → i ∉ qs → untouched acc → untouched acc'.
Proof.
  induction qs as [|q qs IH]; intros acc acc' H Hp Hi Hu; simpl in H.
  { by injection H as <-. }
  destruct Hp as [|Hp]; [done|].
  apply not_elem_of_cons in Hi as [Hq Hi].
  destruct (accumulate acc p _) as [acc1|] eqn:E1; simpl in H; [|done].
  destruct (accumulate acc1 q _) as [acc2|] eqn:E2; simpl in H; [|done].
  eapply IH; [exact H|by right|done|].
  eapply accumulate_other; [exact E2|done|].
  eapply accumulate_other; [exact E1|done|done].
Qed.

Lemma lower_bound_sub l v q : q ∈ Topo.lower_bound l v → q ∈ l.
Proof.
  induction l as [|x l IH]; simpl; [done|].
  destruct (x <? v); [|done]. intros H. right. by apply IH.
Qed.

Lemma bonds_loop_untouched (ngb rows : list (list nat)) : ∀ p acc acc',
  (∀ k, rows !! k = ngb !! (p + k)) →
  ngb !! i = Some [] → (∀ p (l : list nat), ngb !! p = Some l → i ∉ l) →
  bonds_loop sph p rows acc = Some acc' → untouched acc → untouched acc'.
Proof.
  induction rows as [|lp rows IH]; intros p acc acc' Hrows Hi Hno H Hu; simpl in H.
  { by injection H as <-. }
  assert (ngb !! p = Some lp) as Hlp.
  { specialize (Hrows 0). rewrite Nat.add_0_r in Hrows. done. }
  destruct (bonds_of sph p _ acc) as [acc1|] eqn:E; simpl in H; [|done].
  eapply (IH (S p)); [|done|done|exact H|].
  { intros k. specialize (Hrows (S k)). simpl in Hrows.
    by replace (S p + k) with (p + S k) by lia. }
  eapply bonds_of_untouched; [exact E| | |done].
  - destruct (decide (p = i)) as [->|Hne]; [|by right].
    left. rewrite Hi in Hlp. by injection Hlp as <-.
  - intros Hin. apply lower_bound_sub in Hin. by apply (Hno p lp).
Qed.

Lemma getBOOs_no_neighbour size (ngb : list (list nat)) BOO :
  i < size → ngb !! i = Some [] → (∀ p (l : list nat), ngb !! p = Some l → i ∉ l) →
  getBOOs sph size ngb [] = Some BOO → BOO !! i = Some all_nan.
Proof.
  intros Hlt Hi Hno H. unfold getBOOs in H.
  destruct (bonds_loop sph 0 ngb _) as [acc|] eqn:E; simpl in H; [|done].
  injection H as <-.
  destruct (bonds_loop_untouched ngb ngb 0 _ acc (λ k, eq_refl) Hi Hno E) as [H1 H2].
  { split; simpl.
    - unfold resize. simpl. rewrite take_nil. simpl.
      rewrite Nat.sub_0_r. by apply lookup_replicate_2.
    - by apply lookup_replicate_2. }
  rewrite lookup_zip_with, H1. simpl. rewrite H2. simpl. done.
Qed.

End isolated.

(** C2 (at the failing input).  For the isolated particle 2, whatever
    the spherical harmonics of the bonds are, [getBOO] returns the zero
    descriptor and so does the guarded [getSurfBOOs], but [getBOOs]
    divides the zero descriptor by [complex<double>(0, 0)]: all 36
    coefficients are NaN. *)
Theorem getBOOs_isolated_particle sph :
  getBOO sph lonely 2 = Some BooData_zero ∧
  getSurfBOOs sph 3 lonely [] ≫= (.!! 2) = Some BooData_zero ∧
  getBOOs sph 3 lonely [] ≫= (.!! 2) = Some all_nan ∧
  all_nan ≠ BooData_zero.
Proof.
  split; [reflexivity|]. split; [vm_compute; reflexivity|].
  split; [vm_compute; reflexivity|]. apply all_nan_not_zero.
Qed.

End BooFacts.

(** * Further properties of the code *)

(** ** Trajectory index: validation, history, duality of the two maps *)

Module TrajInvariants.
Import Traj TrajFacts.

(** The indices a program can hold: built by the constructor and
    extended by calls of [add_Frame] that returned. *)
Inductive built : TrajIndex → Prop :=
| built_new n : built (TrajIndex_new n)
| built_add ti frame_size distances p_from p_to ti' :
    built ti →
    add_Frame ti frame_size distances p_from p_to = Done ti' →
    built ti'.

(** The invariant of such an index. *)
Record dual (ti : TrajIndex) : Prop := {
  dual_wf : ∃ prev, wf ti prev;
  dual_span : ∀ tr traj, tr2pos ti !! tr = Some traj →
    start traj + length (steps traj) ≤ nbFrames ti;
  dual_maps : ∀ t p tr,
    getTraj ti t p = Some tr ↔
    ∃ traj, tr2pos ti !! tr = Some traj ∧ start traj ≤ t ∧
            steps traj !! (t - start traj) = Some p
}.

Lemma dual_new n : dual (TrajIndex_new n).
Proof.
  split.
  - exists (seq 0 n). apply wf_new.
  - intros tr traj H. simpl in H. rewrite list_lookup_fmap in H.
    apply fmap_Some in H as (p & _ & ->). unfold nbFrames. simpl. lia.
  - intros t p tr. unfold getTraj. simpl. split.
    + destruct t as [|t]; simpl; [|done]. intros H.
      apply lookup_seq in H as [-> Hp]. simpl.
      exists (Traj_new 0 p). rewrite list_lookup_fmap, lookup_seq_lt by done.
      done.
    + intros (traj & H & _ & Hs). rewrite list_lookup_fmap in H.
      apply fmap_Some in H as (q & Hq & ->). simpl in Hs.
      apply lookup_seq in Hq as [-> Hq]. simpl in Hs. rewrite Nat.sub_0_r in Hs.
      apply list_lookup_singleton_Some in Hs as [-> <-]. simpl.
      by apply lookup_seq_lt.
Qed.

(** The trajectories after a call that returned, [C] being the frame
    gained. *)
Lemma lookup_tr2pos_new ti C tr traj' :
  (∀ i p, new_positions (size ti) C !! i = Some p ↔ C !! p = Some (size ti + i)) →
  (imap (λ tr traj, mkTraj (start traj) (steps traj ++ at_traj C tr)) (tr2pos ti)
   ++ (Traj_new (nbFrames ti) <$> new_positions (size ti) C)) !! tr = Some traj' ↔
  (∃ traj, tr2pos ti !! tr = Some traj ∧
           traj' = mkTraj (start traj) (steps traj ++ at_traj C tr)) ∨
  (size ti ≤ tr ∧ ∃ p, C !! p = Some tr ∧ traj' = Traj_new (nbFrames ti) p).
Proof.
  intros Hnew. destruct (decide (tr < size ti)) as [Hlt|Hge].
  - rewrite lookup_app_l by (by rewrite length_imap).
    rewrite list_lookup_imap. split.
    + destruct (tr2pos ti !! tr) as [traj|]; simpl; [|done].
      intros [= <-]. left. eauto.
    + intros [(traj & -> & ->)|[? _]]; [done|lia].
  - rewrite lookup_app_r by (rewrite length_imap; unfold size in Hge; lia).
    rewrite length_imap, list_lookup_fmap. fold (size ti). split.
    + intros H. apply fmap_Some in H as (p & Hp & ->). right.
      split; [lia|]. exists p. split; [|done].
      apply Hnew in Hp. by replace (size ti + (tr - size ti)) with tr in Hp by lia.
    + intros [(traj & Ht & _)|(_ & p & Hp & ->)].
      * apply lookup_lt_Some in Ht. unfold size in Hge. lia.
      * replace tr with (size ti + (tr - size ti)) in Hp by lia.
        apply Hnew in Hp. by rewrite Hp.
Qed.

Lemma dual_add ti frame_size distances p_from p_to ti' :
  dual ti → add_Frame ti frame_size distances p_from p_to = Done ti' → dual ti'.
Proof.
  intros [[prev W] Hspan Hmaps] H.
  destruct (add_Frame_wf _ _ _ _ _ _ _ W H) as (C & -> & Hlen & W' & Hold & Hnew).
  pose proof (wf_nodup _ _ W') as Hnd.
  assert (Hext : ∀ tr traj p, tr2pos ti !! tr = Some traj → C !! p = Some tr →
            at_traj C tr = [p] ∧ start traj + length (steps traj) = nbFrames ti).
  { intros tr traj p Ht Hp. split; [by apply at_traj_singleton|].
    destruct (wf_live _ _ W tr) as (traj0 & Ht0 & Hlive).
    - apply (Hold p); [done|]. by eapply lookup_lt_Some.
    - rewrite Ht in Ht0. by injection Ht0 as <-. }
  split.
  - by exists C.
  - intros tr traj'. simpl. rewrite (lookup_tr2pos_new ti C tr traj' Hnew).
    unfold nbFrames. simpl. rewrite length_app. simpl. fold (nbFrames ti).
    intros [(traj & Ht & ->)|(_ & p & _ & ->)]; simpl; [|lia].
    rewrite length_app. pose proof (Hspan tr traj Ht).
    destruct (at_traj C tr) as [|p l] eqn:E; simpl; [lia|].
    assert (C !! p = Some tr) as Hp by (apply elem_of_at_traj; rewrite E; left).
    destruct (Hext tr traj p Ht Hp) as [E' Hlive].
    rewrite E' in E. injection E as <-. simpl. lia.
  - intros t p tr.
    assert (Hget : getTraj {| tr2pos := imap (λ tr traj,
                       mkTraj (start traj) (steps traj ++ at_traj C tr)) (tr2pos ti)
                     ++ (Traj_new (nbFrames ti) <$> new_positions (size ti) C);
                   pos2tr := pos2tr ti ++ [C] |} t p =
                   if decide (t < nbFrames ti) then getTraj ti t p
                   else if decide (t = nbFrames ti) then C !! p else None).
    { unfold getTraj, nbFrames. simpl.
      destruct (decide (t < length (pos2tr ti))) as [Hlt|Hge].
      - by rewrite lookup_app_l.
      - rewrite lookup_app_r by lia.
        destruct (decide (t = length (pos2tr ti))) as [->|Hne].
        + by rewrite Nat.sub_diag.
        + destruct (t - length (pos2tr ti)) as [|k] eqn:Ek; [lia|done]. }
    rewrite Hget. clear Hget. simpl.
    setoid_rewrite (lookup_tr2pos_new ti C tr _ Hnew).
    destruct (decide (t < nbFrames ti)) as [Hlt|Hge].
    + rewrite Hmaps. split.
      * intros (traj & Ht & Hs & Hp). eexists. split; [left; eauto|].
        simpl. split; [done|]. by apply lookup_app_l_Some.
      * intros (traj' & [(traj & Ht & ->)|(_ & q & _ & ->)] & Hs & Hp);
          simpl in *; [|lia].
        exists traj. split; [done|]. split; [done|].
        apply lookup_app_Some in Hp as [Hp|[Hp1 Hp2]]; [done|].
        apply list_elem_of_lookup_2, elem_of_at_traj in Hp2.
        destruct (Hext tr traj _ Ht Hp2) as [_ Hlive]. lia.
    + destruct (decide (t = nbFrames ti)) as [->|Hne].
      * split.
        -- intros Hp. destruct (decide (tr < size ti)) as [Hlt|Hge'].
           ++ destruct (lookup_lt_is_Some_2 (tr2pos ti) tr Hlt) as [traj Ht].
              destruct (Hext tr traj p Ht Hp) as [E Hlive].
              eexists. split; [left; eauto|]. simpl. split; [lia|].
              rewrite E, lookup_app_r by lia.
              replace (nbFrames ti - start traj - length (steps traj)) with 0 by lia.
              done.
           ++ eexists. split; [right; split; [lia|eauto]|]. simpl.
              split; [done|]. by rewrite Nat.sub_diag.
        -- intros (traj' & [(traj & Ht & ->)|(_ & q & Hq & ->)] & Hs & Hp);
             simpl in *.
           ++ pose proof (Hspan tr traj Ht).
              apply lookup_app_Some in Hp as [Hp|[_ Hp]].
              { apply lookup_lt_Some in Hp. lia. }
              by apply list_elem_of_lookup_2, elem_of_at_traj in Hp.
           ++ rewrite Nat.sub_diag in Hp. simpl in Hp. by injection Hp as <-.
      * split; [done|].
        intros (traj' & [(traj & Ht & ->)|(_ & q & Hq & ->)] & Hs & Hp);
          simpl in *.
        -- pose proof (Hspan tr traj Ht).
           apply lookup_lt_Some in Hp. rewrite length_app in Hp.
           destruct (at_traj C tr) as [|q l] eqn:E; simpl in Hp; [lia|].
           assert (C !! q = Some tr) as Hq by (apply elem_of_at_traj; rewrite E; left).
           destruct (Hext tr traj q Ht Hq) as [E' Hlive].
           rewrite E' in E. injection E as <-. simpl in Hp. lia.
        -- apply lookup_lt_Some in Hp. simpl in Hp. lia.
Qed.

Lemma built_dual ti : built ti → dual ti.
Proof.
  induction 1 as [n|ti fs ds pf pt ti' _ IH H]; [apply dual_new|].
  by eapply dual_add.
Qed.

(** *** Validation *)

(** X1.  [add_Frame] rejects arrays of different sizes first, then a [to]
    index that is not below the frame size; it throws for no other
    reason and leaves the index as it was. *)
Theorem add_Frame_rejects ti frame_size distances p_from p_to :
  (length distances ≠ length p_from ∨ length p_from ≠ length p_to →
   add_Frame ti frame_size distances p_from p_to
   = Throws (invalid_argument msg_sizes) ti) ∧
  (length distances = length p_from → length p_from = length p_to →
   (∃ t, t ∈ p_to ∧ frame_size ≤ t) →
   add_Frame ti frame_size distances p_from p_to
   = Throws (invalid_argument msg_largest) ti) ∧
  (∀ e ti', add_Frame ti frame_size distances p_from p_to = Throws e ti' →
     ti' = ti ∧
     (length distances ≠ length p_from ∨ length p_from ≠ length p_to ∨
      ∃ t, t ∈ p_to ∧ frame_size ≤ t)).
Proof.
  split; [|split].
  - intros Hne. unfold add_Frame.
    destruct (length distances =? length p_from) eqn:E1; [|done].
    destruct (length p_from =? length p_to) eqn:E2; [|done].
    apply Nat.eqb_eq in E1, E2. destruct Hne; done.
  - intros H1 H2 (t & Ht & Hle). unfold add_Frame.
    rewrite H1, H2, Nat.eqb_refl. simpl.
    destruct (max_element p_to) as [m|] eqn:Hm.
    + apply max_element_spec in Hm as [_ Hall].
      rewrite Forall_forall in Hall. apply Hall in Ht.
      replace (frame_size <=? m) with true by (symmetry; apply Nat.leb_le; lia).
      done.
    + apply max_element_None in Hm. subst. by apply elem_of_nil in Ht.
  - intros e ti' H. unfold add_Frame in H.
    destruct (length distances =? length p_from) eqn:E1; simpl in H.
    2:{ injection H as <- <-. apply Nat.eqb_neq in E1. auto. }
    destruct (length p_from =? length p_to) eqn:E2; simpl in H.
    2:{ injection H as <- <-. apply Nat.eqb_neq in E2. auto. }
    destruct (max_element p_to) as [m|] eqn:Hm; [|done].
    destruct (frame_size <=? m) eqn:E3.
    + injection H as <- <-. split; [done|]. right. right.
      apply max_element_spec in Hm as [Hm _]. apply Nat.leb_le in E3. eauto.
    + destruct (last (pos2tr ti)); [|done]. by destruct (link_loop _ _ _).
Qed.

(** *** The two maps are inverse of each other *)

(** X2.  In every index built by the constructor and [add_Frame], position
    [p] of frame [t] belongs to trajectory [tr] exactly when trajectory
    [tr] spans frame [t] and is at position [p] there. *)
Theorem TrajIndex_maps_inverse ti t p tr :
  built ti →
  getTraj ti t p = Some tr ↔
  ∃ traj, tr2pos ti !! tr = Some traj ∧ start traj ≤ t ∧
          steps traj !! (t - start traj) = Some p.
Proof. intros B. apply (dual_maps _ (built_dual ti B)). Qed.

(** *** The history is never rewritten *)

(** X3.  A call of [add_Frame] that returns adds one frame of [frame_size]
    positions and leaves the earlier frames alone; a trajectory keeps
    its number and its start, gains at most one position, and gains none
    once it has missed a frame; the trajectories it creates start in the
    new frame. *)
Theorem add_Frame_history ti frame_size distances p_from p_to ti' :
  built ti →
  add_Frame ti frame_size distances p_from p_to = Done ti' →
  (∃ C, pos2tr ti' = pos2tr ti ++ [C] ∧ length C = frame_size ∧ NoDup C) ∧
  (∀ tr traj, tr2pos ti !! tr = Some traj →
     ∃ traj', tr2pos ti' !! tr = Some traj' ∧ start traj' = start traj ∧
              steps traj `prefix_of` steps traj' ∧
              length (steps traj') ≤ S (length (steps traj)) ∧
              (start traj + length (steps traj) < nbFrames ti → traj' = traj)) ∧
  (∀ tr traj', size ti ≤ tr → tr2pos ti' !! tr = Some traj' →
     start traj' = nbFrames ti ∧ length (steps traj') = 1).
Proof.
  intros B H. destruct (built_dual ti B) as [[prev W] Hspan _].
  destruct (add_Frame_wf _ _ _ _ _ _ _ W H) as (C & -> & Hlen & W' & Hold & Hnew).
  pose proof (wf_nodup _ _ W') as Hnd. simpl.
  split; [by exists C|]. split.
  - intros tr traj Ht. eexists. split.
    { apply lookup_tr2pos_new; [done|]. left. eauto. }
    simpl. split; [done|]. split; [by apply prefix_app_r|].
    rewrite length_app. pose proof (at_traj_length C tr Hnd). split; [lia|].
    intros Hdead. destruct (at_traj C tr) as [|p l] eqn:E.
    { rewrite app_nil_r. by destruct traj. }
    assert (C !! p = Some tr) as Hp by (apply elem_of_at_traj; rewrite E; left).
    destruct (wf_live _ _ W tr) as (traj0 & Ht0 & Hlive).
    { apply (Hold p); [done|]. by eapply lookup_lt_Some. }
    rewrite Ht in Ht0. injection Ht0 as <-. lia.
  - intros tr traj' Hge Ht.
    apply lookup_tr2pos_new in Ht as [(traj & Ht & _)|(_ & p & _ & ->)]; [|done..].
    apply lookup_lt_Some in Ht. unfold size in Hge. lia.
Qed.

(** *** The links made form a maximal matching by distance *)

Lemma greedy_from_elem l : ∀ acc a,
  a ∈ greedy_from acc l → a ∈ acc ∨ a ∈ l.
Proof.
  induction l as [|b l IH]; intros acc a Ha; simpl in Ha; [by left|].
  apply IH in Ha as [Ha|Ha]; [|right; by right].
  destruct (used_by acc b); [by left|].
  apply elem_of_app in Ha as [Ha|Ha]; [by left|].
  apply list_elem_of_singleton in Ha as ->. right. left.
Qed.

Lemma greedy_from_blocked l : ∀ acc,
  StronglySorted dist_le l →
  (∀ a b, a ∈ acc → b ∈ l → dist_le a b) →
  ∀ c, c ∈ l →
    ∃ a, a ∈ greedy_from acc l ∧
         (first a = first c ∨ second a = second c) ∧ dist_le a c.
Proof.
  induction l as [|b l IH]; intros acc Hs Hacc c Hc; [by apply elem_of_nil in Hc|].
  apply StronglySorted_inv in Hs as [Hs Hb]. rewrite Forall_forall in Hb.
  simpl. apply elem_of_cons in Hc as [->|Hc].
  - destruct (used_by acc b) eqn:E.
    + apply used_by_true in E as (a & Ha & Hconf).
      exists a. split; [by apply greedy_from_incl|]. split; [done|].
      apply Hacc; [done|left].
    + exists b. split.
      * apply greedy_from_incl, elem_of_app. right. left.
      * split; [by left|]. unfold dist_le. apply Qle_refl.
  - apply IH; [done| |done].
    intros a b' Ha Hb'. destruct (used_by acc b).
    + apply Hacc; [done|by right].
    + apply elem_of_app in Ha as [Ha|Ha].
      * apply Hacc; [done|by right].
      * apply list_elem_of_singleton in Ha as ->. by apply Hb.
Qed.

(** X4.  On a valid call, every candidate link meets a link that was made,
    is at most as long and shares one of its two ends (the candidate
    itself when it was made); and no trajectory is given two positions
    of the new frame. *)
Theorem add_Frame_maximal_matching ti frame_size distances p_from p_to prev :
  valid_call ti frame_size distances p_from p_to prev → NoDup prev →
  ∃ ti', add_Frame ti frame_size distances p_from p_to = Done ti' ∧
    (∀ c, c ∈ make_links distances p_from p_to →
       ∃ a, a ∈ make_links distances p_from p_to ∧
            (first a = first c ∨ second a = second c) ∧ dist_le a c ∧
            ∃ tr, prev !! first a = Some tr ∧
                  getTraj ti' (nbFrames ti) (second a) = Some tr) ∧
    (∀ p p' tr, getTraj ti' (nbFrames ti) p = Some tr →
                getTraj ti' (nbFrames ti) p' = Some tr → p = p').
Proof.
  intros V Hnd.
  destruct (add_Frame_frame _ _ _ _ _ _ V Hnd) as (C & HC & _ & HndC & _).
  destruct (add_Frame_done _ _ _ _ _ _ V) as (st1 & I & E).
  rewrite E in HC. injection HC as _ HC. apply app_inj_tail in HC as [_ HC].
  rewrite E. eexists. split; [done|].
  destruct (start_loop_spec (nbFrames ti) st1) as (_ & _ & _ & _ & Hold).
  { by rewrite (inv_cur_len _ _ _ _ _ I), (inv_to_len _ _ _ _ _ I). }
  split.
  - intros c Hc. apply elem_of_sort in Hc.
    destruct (greedy_from_blocked (sort (make_links distances p_from p_to)) []
                (sort_sorted _)) with (c := c)
      as (a & Ha & Hconf & Hle); [|done|].
    { intros a b Ha. by apply elem_of_nil in Ha. }
    fold (greedy (sort (make_links distances p_from p_to))) in Ha.
    exists a. split.
    { apply greedy_from_elem in Ha as [Ha|Ha]; [by apply elem_of_nil in Ha|].
      exact (proj1 (elem_of_sort _ _) Ha). }
    split; [done|]. split; [done|].
    assert (in_range prev frame_size a) as [Hf _].
    { pose proof (inv_range _ _ _ _ _ I) as Hr.
      rewrite Forall_forall in Hr. by apply Hr. }
    destruct (lookup_lt_is_Some_2 prev (first a) Hf) as [tr Hp].
    exists tr. split; [done|].
    rewrite getTraj_new_frame, Hold.
    + by rewrite (inv_cur _ _ _ _ _ I).
    + apply (inv_to _ _ _ _ _ I). eauto.
  - intros p p' tr. rewrite !getTraj_new_frame, HC. intros H1 H2.
    by eapply NoDup_lookup.
Qed.

Lemma TrajIndex_maps_inverse_witness :
  getTraj (TrajIndex_new 2) 0 1 = Some 1 ↔
  ∃ traj, tr2pos (TrajIndex_new 2) !! 1 = Some traj ∧ start traj ≤ 0 ∧
          steps traj !! (0 - start traj) = Some 1.
Proof. apply TrajIndex_maps_inverse, built_new. Defined.

Lemma add_Frame_history_witness :
  ∃ C, [[0; 1]; [1; 0; 2]] = [[0; 1]] ++ [C] ∧ length C = 3 ∧ NoDup C.
Proof.
  exact (proj1 (add_Frame_history (TrajIndex_new 2) 3
                  [1#10; 1#20; 1#5; 3#10]%Q [0; 0; 1; 1] [0; 1; 1; 0] _
                  (built_new 2) add_Frame_scenario)).
Defined.

Lemma add_Frame_maximal_matching_witness :
  ∃ ti', add_Frame (TrajIndex_new 2) 3 [1#10; 1#20; 1#5; 3#10]%Q
                   [0; 0; 1; 1] [0; 1; 1; 0] = Done ti' ∧
    (∀ c, c ∈ make_links [1#10; 1#20; 1#5; 3#10]%Q [0; 0; 1; 1] [0; 1; 1; 0] →
       ∃ a, a ∈ make_links [1#10; 1#20; 1#5; 3#10]%Q [0; 0; 1; 1] [0; 1; 1; 0] ∧
            (first a = first c ∨ second a = second c) ∧ dist_le a c ∧
            ∃ tr, [0; 1] !! first a = Some tr ∧
                  getTraj ti' (nbFrames (TrajIndex_new 2)) (second a) = Some tr) ∧
    (∀ p p' tr, getTraj ti' (nbFrames (TrajIndex_new 2)) p = Some tr →
                getTraj ti' (nbFrames (TrajIndex_new 2)) p' = Some tr → p = p').
Proof.
  apply (add_Frame_maximal_matching (TrajIndex_new 2) 3
           [1#10; 1#20; 1#5; 3#10]%Q [0; 0; 1; 1] [0; 1; 1; 0] [0; 1]).
  - split; simpl; try done; repeat constructor; lia.
  - apply (NoDup_seq 0 2).
Defined.

Lemma add_Frame_rejects_witness :
  add_Frame (TrajIndex_new 2) 3 [1%Q] [0] [5]
  = Throws (invalid_argument msg_largest) (TrajIndex_new 2).
Proof.
  apply (proj1 (proj2 (add_Frame_rejects (TrajIndex_new 2) 3 [1%Q] [0] [5])));
    [done|done|].
  exists 5. split; [left|lia].
Defined.

End TrajInvariants.

(** ** Reconstructor: outcomes of [push_back], where the detections go *)

Module ReconOutcomes.
Import Recon Traj TrajFacts ReconFacts TrajInvariants.

(** *** The enumeration of all pairs *)

Lemma lookup_rows {A B} (row : nat → A → list B) (n : nat) (l : list A) :
  (∀ f a, length (row f a) = n) →
  ∀ k f a t, l !! f = Some a → t < n →
    mjoin (imap (λ f a, row (k + f) a) l) !! (f * n + t) = row (k + f) a !! t.
Proof.
  intros Hn. induction l as [|x l IH]; intros k f a t Hf Ht; [done|].
  rewrite imap_cons. simpl. destruct f as [|f]; simpl in *.
  - injection Hf as ->. rewrite lookup_app_l by (by rewrite Hn).
    by rewrite Nat.add_0_r.
  - rewrite lookup_app_r by (rewrite Hn; lia). rewrite Hn.
    replace (n + f * n + t - n) with (f * n + t) by lia.
    replace (k + S f) with (S k + f) by lia.
    rewrite <- (IH (S k) f a t Hf Ht).
    f_equal. f_equal. apply imap_ext. intros i y _. simpl. f_equal. lia.
Qed.

Lemma length_rows {A B} (row : nat → A → list B) (n : nat) (l : list A) :
  (∀ f a, length (row f a) = n) →
  ∀ k, length (mjoin (imap (λ f a, row (k + f) a) l)) = length l * n.
Proof.
  intros Hn. induction l as [|x l IH]; intros k; [done|].
  rewrite imap_cons. simpl. rewrite length_app, Hn. f_equal.
  rewrite <- (IH (S k)). f_equal. f_equal.
  apply imap_ext. intros i y _. simpl. f_equal. lia.
Qed.

(** X5.  [links_by_brute_force] fills the three arrays with one entry per
    pair, [from]-major: entry [f * fr.size() + t] is the pair [(f, t)]
    with its squared planar distance. *)
Theorem links_by_brute_force_layout last_frame fr :
  length (links_by_brute_force last_frame fr) = length last_frame * length fr ∧
  ∀ f t cf ct, last_frame !! f = Some cf → fr !! t = Some ct →
    links_by_brute_force last_frame fr !! (f * length fr + t)
    = Some (mkLink f t (sqdist cf ct)).
Proof.
  unfold links_by_brute_force.
  pose (row := λ (f : nat) (cf : Center2D),
                 imap (λ t ct, mkLink f t (sqdist cf ct)) fr).
  assert (Hn : ∀ f a, length (row f a) = length fr)
    by (intros; apply length_imap).
  split.
  - apply (length_rows row (length fr) last_frame Hn 0).
  - intros f t cf ct Hf Ht.
    etrans; [apply (lookup_rows row (length fr) last_frame Hn 0 f cf t Hf)|].
    + by eapply lookup_lt_Some.
    + unfold row. simpl. by rewrite list_lookup_imap, Ht.
Qed.

(** *** The tree search, for tolerances up to 1 *)



(** *** The outcomes of [push_back] *)

Lemma links_in_frames last_frame fr tolerance l :
  l ∈ links_by_RStarTree last_frame fr tolerance →
  first l < length last_frame ∧ second l < length fr.
Proof.
  intros H. apply elem_of_links_by_RStarTree in H
    as (p & c & t & c' & Hp & Ht & -> & _).
  simpl. split; by eapply lookup_lt_Some.
Qed.

Lemma push_back_no_throw r fr tolerance e r' :
  push_back r fr tolerance ≠ Throws e r'.
Proof.
  unfold push_back. destruct (empty r); [done|].
  destruct (trajectories r) as [ti|]; [|done].
  destruct (add_Frame ti _ _ _ _) as [ti'|e' ti'|] eqn:Ha; [|..|done].
  { by destruct (cluster_loop ti' _ _ _ _ _). }
  intros _. apply add_Frame_throws in Ha as [_ [[_ Hs]|(_ & _ & _ & m & Hm & Hle)]].
  - apply Hs. by rewrite !length_fmap.
  - apply max_element_spec in Hm as [Hm _].
    apply list_elem_of_fmap in Hm as (l & -> & Hl).
    apply links_in_frames in Hl as [_ Hl]. lia.
Qed.

Lemma push_back_links frames r ti prev fr tolerance :
  recon_inv frames r ti prev →
  links_by_RStarTree (last_frame r) fr tolerance ≠ [] →
  ∃ r', push_back r fr tolerance = Done r'.
Proof.
  intros Inv Hne.
  set (links := links_by_RStarTree (last_frame r) fr tolerance) in *.
  assert (V : valid_call ti (length fr) (distance <$> links) (first <$> links)
                         (second <$> links) prev).
  { split.
    - by rewrite !length_fmap.
    - by rewrite !length_fmap.
    - intros E. apply fmap_nil_inv in E. done.
    - apply Forall_fmap, Forall_forall. intros l Hl.
      by apply links_in_frames in Hl as [_ Hl].
    - apply (ri_wf _ _ _ _ Inv).
    - apply Forall_fmap, Forall_forall. intros l Hl.
      apply links_in_frames in Hl as [Hl _]. simpl.
      by rewrite (ri_frame _ _ _ _ Inv).
    - apply wf_bound, (ri_wf _ _ _ _ Inv). }
  destruct (add_Frame_done _ _ _ _ _ _ V) as (st1 & _ & Ha).
  destruct (add_Frame_wf _ _ _ _ _ _ _ (ri_wf _ _ _ _ Inv) Ha)
    as (C & E & Hlen & _).
  unfold push_back, empty, Recon.size. rewrite (ri_traj _ _ _ _ Inv).
  fold links. rewrite Ha.
  assert (frame_C : ∀ q, getTraj {| tr2pos := trajs (start_loop (nbFrames ti) st1);
                                    pos2tr := pos2tr ti ++ [cur (start_loop (nbFrames ti) st1)] |}
                                 (nbFrames ti) q = C !! q).
  { intros q. rewrite E. apply getTraj_new_frame. }
  destruct (cluster_loop_spec _ (nbFrames ti) (size ti) C fr frame_C Hlen
              fr 0 (clusters r)) as (cls' & -> & _); [done| |eauto].
  by rewrite (ri_size _ _ _ _ Inv).
Qed.

(** X7.  [push_back] never throws.  On a reconstructor that holds frames it
    fails, with undefined behaviour, exactly when the tree search finds
    no candidate link; otherwise it returns, having stored the frame,
    and [size()] counts the frames pushed. *)
Theorem push_back_outcome frames r fr tolerance :
  reachable frames r →
  (∀ e r', push_back r fr tolerance ≠ Throws e r') ∧
  (push_back r fr tolerance = Undefined ↔
   frames ≠ [] ∧ links_by_RStarTree (last_frame r) fr tolerance = []) ∧
  Recon.size r = length frames ∧
  (∀ r', push_back r fr tolerance = Done r' →
     last_frame r' = fr ∧ Recon.size r' = S (length frames)).
Proof.
  intros Hr. split; [intros e r'; apply push_back_no_throw|].
  destruct (reachable_inv frames r Hr) as [(Hn & Hc & ->)|(ti & prev & Inv)].
  - destruct (push_back_first r fr tolerance Hn Hc) as (r1 & H1 & Inv1).
    rewrite H1. split; [|split].
    + split; [done|]. intros [? _]. done.
    + unfold Recon.size. by rewrite Hn.
    + intros r' [= <-]. unfold push_back, empty in H1. rewrite Hn in H1.
      injection H1 as <-. unfold Recon.size. simpl. done.
  - pose proof (ri_frames _ _ _ _ Inv) as Hnf.
    assert (frames ≠ []) as Hfr.
    { intros ->. pose proof (wf_last _ _ (ri_wf _ _ _ _ Inv)) as Hl.
      unfold nbFrames in Hnf. simpl in Hnf.
      destruct (pos2tr ti); [done|]. done. }
    split; [|split].
    + split.
      * intros Hu. split; [done|].
        destruct (links_by_RStarTree (last_frame r) fr tolerance) eqn:E; [done|].
        destruct (push_back_links frames r ti prev fr tolerance Inv) as [r' Hd];
          [by rewrite E|]. congruence.
      * intros [_ Hl]. unfold push_back, empty. rewrite (ri_traj _ _ _ _ Inv), Hl.
        change (add_Frame ti (length fr) (distance <$> []) (first <$> []) (second <$> []))
          with (add_Frame ti (length fr) [] [] []).
        by rewrite add_Frame_nil.
    + unfold Recon.size. by rewrite (ri_traj _ _ _ _ Inv).
    + intros r' Hd.
      destruct (push_back_next frames r ti prev fr tolerance r' Inv Hd)
        as (ti' & C & Inv').
      split.
      * unfold push_back, empty in Hd. rewrite (ri_traj _ _ _ _ Inv) in Hd.
        destruct (add_Frame ti _ _ _ _) as [ti1| |]; [|done..].
        destruct (cluster_loop ti1 _ _ _ _ _); [|done]. by injection Hd as <-.
      * unfold Recon.size. rewrite (ri_traj _ _ _ _ Inv'), (ri_frames _ _ _ _ Inv').
        rewrite length_app. simpl. lia.
Qed.

Lemma push_back_outcome_witness :
  (∀ e r', push_back recon_a frame_b 1 ≠ Throws e r') ∧
  (push_back recon_a frame_b 1 = Undefined ↔
   [frame_a] ≠ [] ∧ links_by_RStarTree (last_frame recon_a) frame_b 1 = []) ∧
  Recon.size recon_a = length [frame_a] ∧
  (∀ r', push_back recon_a frame_b 1 = Done r' →
     last_frame r' = frame_b ∧ Recon.size r' = S (length [frame_a])).
Proof. apply push_back_outcome, reachable_a. Defined.

(** *** Where the detections go *)

(** The index of a reconstructor is built by the constructor and
    [add_Frame], and has one row per frame pushed, as long as the
    frame. *)
Lemma reachable_built frames r :
  reachable frames r →
  ∀ ti, trajectories r = Some ti →
    built ti ∧ length <$> pos2tr ti = length <$> frames.
Proof.
  induction 1 as [|frames r _ _|frames r fr tol r' Hr IH H|frames r fr tol e r' Hr IH H];
    intros ti' Hti; [done..| |].
  - unfold push_back, empty in H.
    destruct (trajectories r) as [ti|] eqn:Ht.
    + destruct (IH ti eq_refl) as [B Hrows].
      destruct (add_Frame ti _ _ _ _) as [ti1| |] eqn:Ha; [|done..].
      destruct (cluster_loop ti1 _ _ _ _ _); [|done].
      injection H as <-. simpl in Hti. injection Hti as <-.
      split; [by eapply built_add|].
      destruct (dual_wf _ (built_dual ti B)) as [prev W].
      destruct (add_Frame_wf _ _ _ _ _ _ _ W Ha) as (C & -> & Hlen & _).
      simpl. rewrite !fmap_app, Hrows. simpl. by rewrite Hlen.
    + injection H as <-. simpl in Hti. injection Hti as <-.
      split; [apply built_new|].
      destruct (reachable_inv frames r Hr) as [(_ & _ & ->)|(ti & prev & Inv)].
      * simpl. by rewrite length_seq.
      * rewrite (ri_traj _ _ _ _ Inv) in Ht. done.
  - by destruct (push_back_no_throw r fr tol e r').
Qed.

(** X8.  Every detection of every frame pushed is kept: the centre at
    position [p] of frame [t] is in the cluster of the trajectory of
    [(t, p)], at the rank of frame [t] in that trajectory, with height
    [t]. *)
Theorem detections_in_clusters frames r ti t fr p c :
  reachable frames r → trajectories r = Some ti →
  frames !! t = Some fr → fr !! p = Some c →
  ∃ tr traj cl,
    getTraj ti t p = Some tr ∧ tr2pos ti !! tr = Some traj ∧ start traj ≤ t ∧
    clusters r !! tr = Some cl ∧
    cl !! (t - start traj) = Some (Center3D_of c t).
Proof.
  intros Hr Hti Hfr Hp.
  destruct (reachable_built frames r Hr ti Hti) as [B Hrows].
  destruct (reachable_inv frames r Hr) as [(Hn & _)|(ti0 & prev & Inv)];
    [congruence|].
  rewrite (ri_traj _ _ _ _ Inv) in Hti. injection Hti as ->.
  assert (∃ tr, getTraj ti t p = Some tr) as [tr Htr].
  { unfold getTraj.
    assert (length <$> pos2tr ti !! t = Some (length fr)) as Hrow.
    { rewrite <- list_lookup_fmap, Hrows, list_lookup_fmap, Hfr. done. }
    apply fmap_Some in Hrow as (row & -> & Hlen). simpl.
    apply lookup_lt_is_Some_2. rewrite <- Hlen. by eapply lookup_lt_Some. }
  destruct (proj1 (dual_maps _ (built_dual ti B) t p tr) Htr)
    as (traj & Ht & Hs & Hk).
  destruct (lookup_lt_is_Some_2 (clusters r) tr) as [cl Hcl].
  { rewrite (ri_size _ _ _ _ Inv). by eapply lookup_lt_Some. }
  exists tr, traj, cl. do 4 (split; [done|]).
  destruct (ri_follows _ _ _ _ Inv tr traj cl Ht Hcl) as [_ Hf].
  destruct (Hf _ _ Hk) as (fr' & c' & H1 & H2 & H3).
  replace (start traj + (t - start traj)) with t in * by lia.
  rewrite Hfr in H1. injection H1 as <-.
  rewrite Hp in H2. injection H2 as <-. done.
Qed.

Lemma detections_in_clusters_witness :
  ∃ tr traj cl,
    getTraj {| tr2pos := [mkTraj 0 [0; 1]; mkTraj 0 [1; 0]; mkTraj 1 [2]];
               pos2tr := [[0; 1]; [1; 0; 2]] |} 1 0 = Some tr ∧
    [mkTraj 0 [0; 1]; mkTraj 0 [1; 0]; mkTraj 1 [2]] !! tr = Some traj ∧
    start traj ≤ 1 ∧
    clusters recon_ab !! tr = Some cl ∧
    cl !! (1 - start traj) = Some (Center3D_of (mkCenter2D 10 (1#2) 1 1) 1).
Proof.
  apply (detections_in_clusters [frame_a; frame_b] recon_ab
           {| tr2pos := [mkTraj 0 [0; 1]; mkTraj 0 [1; 0]; mkTraj 1 [2]];
              pos2tr := [[0; 1]; [1; 0; 2]] |}
           1 frame_b 0 (mkCenter2D 10 (1#2) 1 1)).
  - apply (reach_push [frame_a] recon_a frame_b 1 recon_ab reachable_a push_back_ab).
  - reflexivity.
  - reflexivity.
  - reflexivity.
Defined.

(** *** No detection is lost or repeated *)

Lemma sum_list_insert_snoc {A} (cls : list (list A)) tr cl x :
  cls !! tr = Some cl →
  sum_list (length <$> <[tr := cl ++ [x]]> cls) = S (sum_list (length <$> cls)).
Proof.
  revert tr. induction cls as [|y cls IH]; intros [|tr] H; csimpl in *; try done.
  - injection H as ->. rewrite length_app. simpl. lia.
  - rewrite (IH tr H). lia.
Qed.

Lemma sum_list_snoc (l : list nat) x : sum_list (l ++ [x]) = sum_list l + x.
Proof. induction l as [|y l IH]; simpl; [lia|]. rewrite IH. lia. Qed.

Lemma cluster_loop_count ti t old fr : ∀ cls p cls',
  cluster_loop ti t old cls p fr = Some cls' →
  sum_list (length <$> cls') = sum_list (length <$> cls) + length fr.
Proof.
  induction fr as [|c fr IH]; intros cls p cls' H; simpl in H.
  { injection H as <-. simpl. lia. }
  destruct (cluster_step ti t old cls p c) as [cls1|] eqn:E; simpl in H; [|done].
  rewrite (IH _ _ _ H).
  unfold cluster_step in E.
  destruct (getTraj ti t p) as [tr|]; simpl in E; [|done].
  destruct (tr <? old).
  - destruct (cls !! tr) as [cl|] eqn:Hcl; simpl in E; [|done].
    injection E as <-. rewrite (sum_list_insert_snoc cls tr cl _ Hcl).
    simpl. lia.
  - injection E as <-. rewrite fmap_app.
    change (length <$> [[Center3D_of c t]]) with [1].
    rewrite sum_list_snoc. simpl. lia.
Qed.

(** X9.  The clusters hold as many centres as the frames pushed held
    detections. *)
Theorem clusters_count frames r :
  reachable frames r →
  sum_list (length <$> clusters r) = sum_list (length <$> frames).
Proof.
  induction 1 as [|frames r _ _|frames r fr tol r' Hr IH H|frames r fr tol e r' Hr IH H];
    [done..| |].
  - rewrite fmap_app. change (length <$> [fr]) with [length fr].
    rewrite sum_list_snoc.
    unfold push_back, empty in H.
    destruct (trajectories r) as [ti|] eqn:Ht.
    + destruct (add_Frame ti _ _ _ _) as [ti1| |]; [|done..].
      destruct (cluster_loop ti1 _ _ _ _ _) as [cls|] eqn:Hc; [|done].
      injection H as <-. simpl.
      by rewrite (cluster_loop_count _ _ _ _ _ _ _ Hc), IH.
    + injection H as <-. simpl.
      rewrite fmap_app, <- list_fmap_compose.
      destruct (reachable_inv frames r Hr) as [(_ & Hcl & ->)|(ti & prev & Inv)].
      * rewrite Hcl. simpl. clear. induction fr as [|c fr IHf]; [done|].
        csimpl. by rewrite IHf.
      * rewrite (ri_traj _ _ _ _ Inv) in Ht. done.
  - by destruct (push_back_no_throw r fr tol e r').
Qed.

Lemma clusters_count_witness :
  sum_list (length <$> clusters recon_ab) = sum_list (length <$> [frame_a; frame_b]).
Proof.
  apply clusters_count.
  apply (reach_push [frame_a] recon_a frame_b 1 recon_ab reachable_a push_back_ab).
Defined.

Lemma links_by_brute_force_layout_witness :
  links_by_brute_force frame_a frame_b !! (1 * length frame_b + 2)
  = Some (mkLink 1 2 (sqdist (mkCenter2D 10 0 1 1) (mkCenter2D 20 0 1 1))).
Proof.
  apply (proj2 (links_by_brute_force_layout frame_a frame_b)); reflexivity.
Defined.

End ReconOutcomes.

(** ** Particles: more spatial queries *)

Module PartsQueries.
Import Parts Binary64 B64Facts PartsFacts.

(** No other particle of [l] is found by the query around the particle
    [i] at [c]. *)
Definition alone (sep : float) (l : list Coord) (i : nat) (c : Coord) : Prop :=
  ∀ j q, j ≠ i → l !! j = Some q → found sep q c = false.

Section queries.
Variable getEnclosed : SpatialIndex → BoundingBox → list nat.
Hypothesis getEnclosed_spec : ∀ idx b, getEnclosed idx b ≡ₚ enclosed_ids idx b.
Variable default_radius : float.

(** *** [removeShortRange] *)

Lemma neighbours_at_nil ps p c sep :
  index_ok ps → coords ps !! p = Some c →
  ∃ ngb, getEuclidianNeighbours_at getEnclosed ps p sep = Ret ngb ∧
         (ngb = [] ↔ alone sep (coords ps) p c).
Proof.
  intros Hok Hc.
  destruct (neighbours_spec getEnclosed getEnclosed_spec ps c sep (λ q, q =? p) Hok)
    as (ngb & Hl & _ & Hiff).
  exists ngb. unfold getEuclidianNeighbours_at, at_. rewrite Hc. simpl.
  split; [exact Hl|]. split.
  - intros -> j q Hne Hq. apply not_true_iff_false. intros Hw.
    assert (j ∈ []) as Hin; [|by apply elem_of_nil in Hin].
    apply Hiff. split; [by apply Nat.eqb_neq|]. eauto.
  - intros Ha. destruct ngb as [|j ngb]; [done|]. exfalso.
    destruct (proj1 (Hiff j)) as (Hne & q & Hq & Hw); [left|].
    apply Nat.eqb_neq in Hne. by rewrite (Ha j q Hne Hq) in Hw.
Qed.

Lemma short_range_loop_spec ps sep (l : list Coord) : ∀ p out,
  index_ok ps → drop p (coords ps) = l → index out = None →
  ∃ out' ks,
    short_range_loop getEnclosed ps out sep p l = Ret out' ∧
    index out' = None ∧ bb out' = bb out ∧
    Forall2 (λ k c, coords ps !! k = Some c) ks
            (drop (length (coords out)) (coords out')) ∧
    take (length (coords out)) (coords out') = coords out ∧
    StronglySorted lt ks ∧
    ∀ i, i ∈ ks ↔ p ≤ i ∧ ∃ c, coords ps !! i = Some c ∧ alone sep (coords ps) i c.
Proof.
  induction l as [|c l IH]; intros p out Hok Hd Hi; simpl.
  { exists out, []. split; [done|]. split; [done|]. split; [done|].
    rewrite drop_all, take_ge by done. split; [constructor|]. split; [done|].
    split; [constructor|]. intros i. split.
    - intros H. by apply elem_of_nil in H.
    - intros (Hp & c & Hc & _). apply lookup_lt_Some in Hc.
      assert (length (drop p (coords ps)) = 0) as Hl by (by rewrite Hd).
      rewrite length_drop in Hl. lia. }
  assert (coords ps !! p = Some c) as Hc.
  { rewrite <- (Nat.add_0_r p), <- lookup_drop, Hd. done. }
  assert (drop (S p) (coords ps) = l) as Hd'.
  { replace (S p) with (p + 1) by lia.
    rewrite <- (drop_drop (coords ps) 1 p), Hd. done. }
  destruct (neighbours_at_nil ps p c sep Hok Hc) as (ngb & -> & Hnil). simpl.
  destruct ngb as [|j ngb].
  - destruct (IH (S p) (push_back out c) Hok Hd') as (out' & ks & -> & Hi' & Hbb & Hf & Ht & Hs & Hks).
    { unfold push_back. simpl. by rewrite Hi. }
    simpl in *. rewrite length_app in Hf, Ht. simpl in Hf, Ht.
    assert (coords out' = coords out ++ c :: drop (length (coords out) + 1) (coords out'))
      as Hout.
    { rewrite <- (take_drop (length (coords out) + 1) (coords out')) at 1.
      rewrite Ht, <- app_assoc. done. }
    exists out', (p :: ks). split; [done|]. split; [done|]. split; [done|].
    split; [|split; [|split]].
    + rewrite Hout at 1. rewrite drop_app_length. by constructor.
    + rewrite Hout, take_app_length. done.
    + constructor; [done|]. apply Forall_forall. intros i Hin.
      apply Hks in Hin as [Hp _]. lia.
    + intros i. rewrite elem_of_cons, Hks. split.
      * intros [->|(Hp & H)]; [|split; [lia|done]].
        split; [done|]. exists c. split; [done|]. by apply Hnil.
      * intros (Hp & H). destruct (decide (i = p)) as [->|Hne]; [by left|].
        right. split; [lia|done].
  - destruct (IH (S p) out Hok Hd' Hi) as (out' & ks & -> & Hi' & Hbb & Hf & Ht & Hs & Hks).
    exists out', ks. do 6 (split; [done|]).
    intros i. rewrite Hks. split.
    + intros (Hp & H). split; [lia|done].
    + intros (Hp & c' & Hc' & Ha). destruct (decide (i = p)) as [->|Hne].
      * rewrite Hc in Hc'. injection Hc' as <-.
        by apply Hnil in Ha.
      * split; [lia|]. eauto.
Qed.

(** X10.  [removeShortRange] needs an index.  On a set whose index
    holds the current positions it returns, in their order, exactly
    the particles around which the query finds no other particle (two
    particles too close are both dropped), in a set without index; no
    two of them find each other.  For a [sep] that is not negative,
    found means passing the test [dot(diff, diff) < sep * sep] in
    binary64. *)
Theorem removeShortRange_alone ps sep :
  (index ps = None →
   removeShortRange getEnclosed default_radius ps sep
   = Raise (logic_error msg_no_index)) ∧
  (index_ok ps →
   ∃ out ks,
     removeShortRange getEnclosed default_radius ps sep = Ret out ∧
     index out = None ∧ bb out = bb ps ∧
     Forall2 (λ k c, coords ps !! k = Some c) ks (coords out) ∧
     StronglySorted lt ks ∧
     (∀ i, i ∈ ks ↔ ∃ c, coords ps !! i = Some c ∧ alone sep (coords ps) i c) ∧
     (∀ i j p q, i ≠ j → coords out !! i = Some p → coords out !! j = Some q →
                 found sep p q = false) ∧
     ((sep <? 0)%float = false → ∀ p q, found sep p q = closer sep p q)).
Proof.
  split.
  { intros H. unfold removeShortRange. by rewrite H. }
  intros Hok. unfold removeShortRange.
  destruct Hok as (idx & Hidx & Hperm). rewrite Hidx.
  destruct (short_range_loop_spec ps sep (coords ps) 0
              {| coords := []; radius := default_radius; bb := bb ps;
                 index := None; neighboursList := None |})
    as (out & ks & -> & Hi & Hbb & Hf & _ & Hs & Hks); [by exists idx|done..|].
  simpl in *. rewrite drop_0 in Hf.
  exists out, ks. do 5 (split; [done|]). split; [|split].
  - intros i. rewrite Hks. split; [tauto|]. intros H. split; [lia|done].
  - intros i j p q Hne Hp Hq.
    destruct (Forall2_lookup_r _ _ _ _ _ Hf Hp) as (a & Ha & Hca).
    destruct (Forall2_lookup_r _ _ _ _ _ Hf Hq) as (b & Hb & Hcb).
    assert (a ∈ ks) as Hin by (by eapply list_elem_of_lookup_2).
    apply Hks in Hin as (_ & c & Hc & Hal).
    rewrite Hca in Hc. injection Hc as <-.
    rewrite found_sym. apply (Hal b q); [|done].
    intros E. subst b. apply Hne.
    apply (NoDup_lookup ks i j a); [|done..].
    by apply sorted_lt_NoDup.
  - intros Hs' p q. by apply found_nonneg.
Qed.

(** *** [getEuclidianNeighboursBySqDist] *)

Definition key_le (a b : float * nat) : Prop := (a.1 <=? b.1)%float = true.

Lemma multimap_insert_perm x m : multimap_insert x m ≡ₚ x :: m.
Proof.
  induction m as [|y m IH]; simpl; [done|].
  destruct (x.1 <? y.1)%float; [done|]. rewrite IH. apply Permutation_swap.
Qed.

Lemma multimap_insert_sorted x m :
  xv x.1 ≠ XNaN → Forall (λ y, xv y.1 ≠ XNaN) m →
  StronglySorted key_le m → StronglySorted key_le (multimap_insert x m).
Proof.
  intros Hx Hv. induction 1 as [|y m Hm IH Hy]; simpl.
  - repeat constructor.
  - apply Forall_cons in Hv as [Hvy Hv].
    destruct (x.1 <? y.1)%float eqn:E.
    + constructor; [by constructor|].
      constructor; [unfold key_le; by apply ltb_leb|].
      eapply Forall_impl; [exact Hy|]. unfold key_le. intros z Hz.
      eapply leb_trans; [|exact Hz]. by apply ltb_leb.
    + constructor; [by apply IH|].
      rewrite multimap_insert_perm. constructor; [|done].
      unfold key_le. by apply ltb_ge.
Qed.

(** What the loop adds for the candidates [NormOne]. *)
Definition in_range_of (ps : Particles) (center : Coord) (rSq : float) (i : nat)
    : option (float * nat) :=
  p ← coords ps !! i;
  if (sqdist p center <? rSq)%float then Some (sqdist p center, i) else None.

Lemma BySqDist_loop_spec ps center rSq NormOne : ∀ acc,
  (∀ i, i ∈ NormOne → is_Some (coords ps !! i)) →
  Forall (λ y, xv y.1 ≠ XNaN) acc →
  StronglySorted key_le acc →
  ∃ m, BySqDist_loop ps center rSq NormOne acc = Ret m ∧
       StronglySorted key_le m ∧
       m ≡ₚ acc ++ omap (in_range_of ps center rSq) NormOne.
Proof.
  induction NormOne as [|i rest IH]; intros acc Hin Hv Hs; simpl.
  { exists acc. by rewrite app_nil_r. }
  destruct (Hin i) as [p Hp]; [left|].
  unfold getDiff, at_. rewrite Hp. simpl. fold (sqdist p center).
  unfold in_range_of at 1. rewrite Hp. simpl.
  destruct (sqdist p center <? rSq)%float eqn:E.
  - apply ltb_valid in E as [E _].
    destruct (IH (multimap_insert (sqdist p center, i) acc))
      as (m & -> & Hm & Hperm).
    + intros j Hj. apply Hin. by right.
    + rewrite multimap_insert_perm. by constructor.
    + by apply multimap_insert_sorted.
    + exists m. split; [done|]. split; [done|].
      rewrite Hperm, multimap_insert_perm.
      by rewrite <- Permutation_middle.
  - destruct (IH acc) as (m & -> & Hm & Hperm); [|done|done|by exists m].
    intros j Hj. apply Hin. by right.
Qed.

(** X12.  On a set whose index holds the current positions the query
    returns the particles it finds around the centre, each once and
    with its computed squared distance, in ascending order of that
    distance: the first entry is a nearest one of them.  For a range
    that is not negative these are the particles that pass the test
    in binary64. *)
Theorem neighbours_by_distance ps center range :
  index_ok ps →
  ∃ m, getEuclidianNeighboursBySqDist getEnclosed ps center range = Ret m ∧
       StronglySorted key_le m ∧ NoDup (snd <$> m) ∧
       (∀ d i, (d, i) ∈ m ↔
               ∃ p, coords ps !! i = Some p ∧ d = sqdist p center ∧
                    found range p center = true) ∧
       ((range <? 0)%float = false →
        ∀ d i, (d, i) ∈ m ↔
               ∃ p, coords ps !! i = Some p ∧ d = sqdist p center ∧
                    closer range p center = true).
Proof.
  intros Hok. unfold getEuclidianNeighboursBySqDist.
  destruct (selectEnclosed_spec getEnclosed getEnclosed_spec ps
              (bounds center range) Hok) as (l1 & -> & Hnd & H1).
  simpl.
  destruct (BySqDist_loop_spec ps center (range * range) l1 [])
    as (m & -> & Hs & Hperm).
  { intros i Hi. apply H1 in Hi as (p & -> & _). eauto. }
  { constructor. }
  { constructor. }
  simpl in Hperm.
  assert (Hmem : ∀ d i, (d, i) ∈ m ↔
            ∃ p, coords ps !! i = Some p ∧ d = sqdist p center ∧
                 found range p center = true).
  { intros d i. rewrite Hperm, list_elem_of_omap. split.
    - intros (j & Hj & Hdi). unfold in_range_of in Hdi.
      destruct (coords ps !! j) as [p|] eqn:Hp; simpl in Hdi; [|done].
      destruct (sqdist p center <? range * range)%float eqn:E; [|done].
      injection Hdi as <- <-.
      exists p. split; [done|]. split; [done|].
      apply H1 in Hj as (p' & Hp' & He).
      rewrite Hp in Hp'. injection Hp' as <-.
      unfold found, boxed, closer. unfold encloses in He. by rewrite He, E.
    - intros (p & Hp & -> & [Hb Hw]%andb_true_iff). exists i. split.
      + apply H1. exists p. done.
      + unfold in_range_of. rewrite Hp. simpl.
        unfold closer in Hw. by rewrite Hw. }
  exists m. split; [done|]. split; [done|]. split; [|split; [exact Hmem|]].
  - rewrite Hperm.
    eapply sublist_NoDup; [exact Hnd|]. clear.
    induction l1 as [|i l1 IH]; simpl; [done|].
    unfold in_range_of at 1. destruct (coords ps !! i) as [p|]; simpl.
    + destruct (_ <? _)%float; simpl; [by apply sublist_skip|by apply sublist_cons].
    + by apply sublist_cons.
  - intros Hr d i. rewrite Hmem. split.
    + intros (p & Hp & Hd & Hf). exists p. by rewrite <- found_nonneg.
    + intros (p & Hp & Hd & Hf). exists p. by rewrite found_nonneg.
Qed.

(** *** [getNearestNeighbour] *)

Lemma point_query ps c rg :
  index_ok ps →
  ∃ l, getEuclidianNeighbours getEnclosed ps c rg = Ret l ∧
       ∀ i, i ∈ l ↔ ∃ p, coords ps !! i = Some p ∧ found rg p c = true.
Proof.
  intros Hok.
  destruct (neighbours_spec getEnclosed getEnclosed_spec ps c rg (λ _, false) Hok)
    as (l & Hl & _ & Hiff).
  exists l. split; [exact Hl|]. intros i. rewrite Hiff. split; [tauto|done].
Qed.

(** The ranges tried by the loop. *)
Fixpoint grow (k : nat) (rg : float) : float :=
  match k with
  | 0 => rg
  | S k' => grow k' (rg * growth)
  end.

Lemma growth_value : ∃ g, xv growth = XFin g ∧ (0 < g)%Z.
Proof. eexists. split; [vm_compute; reflexivity|done]. Qed.

Lemma growth_nonneg rg : (rg <? 0)%float = false → (rg * growth <? 0)%float = false.
Proof.
  destruct growth_value as (g & Hg & Hpos).
  rewrite !ltb_xv, xv_mul, xv_zero, Hg.
  destruct (xv rg) as [|[]|z]; try done.
  - intros _. simpl. destruct (Z.eqb_spec g 0) as [|_]; [lia|].
    destruct (Z.ltb_spec g 0); [lia|done].
  - intros Hz. apply xltb_nonneg_0. simpl.
    apply xrnd_nonneg, div_unit_nonneg.
    destruct (Z.lt_ge_cases z 0) as [Hlt|]; [|nia].
    apply xltb_fin in Hlt. congruence.
Qed.

Lemma grow_nonneg k : ∀ rg, (rg <? 0)%float = false → (grow k rg <? 0)%float = false.
Proof.
  induction k as [|k IH]; intros rg H; simpl; [done|]. by apply IH, growth_nonneg.
Qed.

Lemma seek_range_spec ps c fuel : ∀ rg x,
  index_ok ps → seek_range getEnclosed ps c rg fuel = Some x →
  ∃ k ngb, k ≤ fuel ∧ x = Ret (grow k rg, ngb) ∧ ngb ≠ [] ∧
    ∀ i, i ∈ ngb ↔ ∃ p, coords ps !! i = Some p ∧ found (grow k rg) p c = true.
Proof.
  induction fuel as [|fuel IH]; intros rg x Hok H; simpl in H;
    destruct (point_query ps c rg Hok) as (l & Hl & Hiff); rewrite Hl in H;
    (destruct l as [|i l]; [|injection H as <-; exists 0, (i :: l); split; [lia|done]]).
  - done.
  - destruct (IH _ _ Hok H) as (k & ngb & Hk & -> & Hne & Hiff').
    exists (S k), ngb. split; [lia|done].
Qed.

Lemma seek_range_finds ps c k : ∀ rg fuel,
  index_ok ps → k ≤ fuel →
  (∃ i p, coords ps !! i = Some p ∧ found (grow k rg) p c = true) →
  ∃ x, seek_range getEnclosed ps c rg fuel = Some x.
Proof.
  induction k as [|k IH]; intros rg fuel Hok Hk (i & p & Hp & Hw).
  - destruct fuel as [|fuel]; simpl;
      destruct (point_query ps c rg Hok) as (l & -> & Hiff);
      (destruct l as [|j l]; [|eauto]);
      (assert (i ∈ []) as Hin by (apply Hiff; eauto); by apply elem_of_nil in Hin).
  - destruct fuel as [|fuel]; [lia|]. simpl.
    destruct (point_query ps c rg Hok) as (l & -> & Hiff).
    destruct l as [|j l]; [|eauto].
    apply IH; [done|lia|eauto].
Qed.

Lemma nearest_loop_spec ps c ngb : ∀ mindist nN,
  (∀ i, i ∈ ngb → ∃ p, coords ps !! i = Some p ∧ xv (sqdist p c) ≠ XNaN) →
  xv mindist ≠ XNaN →
  ∃ r, nearest_loop ps c ngb mindist nN = Ret r ∧
    ((r = nN ∧ ∀ i p, i ∈ ngb → coords ps !! i = Some p →
                      (mindist <=? sqdist p c)%float = true) ∨
     (∃ p, r ∈ ngb ∧ coords ps !! r = Some p ∧
           (sqdist p c <? mindist)%float = true ∧
           ∀ i q, i ∈ ngb → coords ps !! i = Some q →
                  (sqdist p c <=? sqdist q c)%float = true)).
Proof.
  induction ngb as [|j ngb IH]; intros mindist nN Hin Hm; simpl.
  { exists nN. split; [done|]. left. split; [done|].
    intros i p Hi. by apply elem_of_nil in Hi. }
  destruct (Hin j) as (pj & Hpj & Hvj); [left|].
  unfold getDiff, at_. rewrite Hpj. simpl. fold (sqdist pj c).
  assert (Hin' : ∀ i, i ∈ ngb →
            ∃ p, coords ps !! i = Some p ∧ xv (sqdist p c) ≠ XNaN)
    by (intros i Hi; apply Hin; by right).
  destruct (sqdist pj c <? mindist)%float eqn:E.
  - destruct (IH (sqdist pj c) j Hin' Hvj)
      as (r & -> & [[-> Hmin]|(p & Hr & Hp & Hlt & Hmin)]);
      eexists; (split; [done|]); right.
    + exists pj. split; [left|]. split; [done|]. split; [done|].
      intros i q Hi Hq. apply elem_of_cons in Hi as [->|Hi].
      * rewrite Hpj in Hq. injection Hq as <-. by apply leb_refl.
      * by apply (Hmin i q).
    + exists p. split; [by right|]. split; [done|].
      split; [by eapply ltb_trans|].
      intros i q Hi Hq. apply elem_of_cons in Hi as [->|Hi].
      * rewrite Hpj in Hq. injection Hq as <-. by apply ltb_leb.
      * by apply (Hmin i q).
  - destruct (IH mindist nN Hin' Hm)
      as (r & -> & [[-> Hmin]|(p & Hr & Hp & Hlt & Hmin)]);
      eexists; (split; [done|]).
    + left. split; [done|]. intros i q Hi Hq.
      apply elem_of_cons in Hi as [->|Hi].
      * rewrite Hpj in Hq. injection Hq as <-. by apply ltb_ge.
      * by apply (Hmin i q).
    + right. exists p. split; [by right|]. split; [done|]. split; [done|].
      intros i q Hi Hq. apply elem_of_cons in Hi as [->|Hi].
      * rewrite Hpj in Hq. injection Hq as <-.
        apply ltb_leb. eapply ltb_leb_trans; [exact Hlt|]. by apply ltb_ge.
      * by apply (Hmin i q).
Qed.

Lemma nearest_returned ps c range fuel x :
  index_ok ps → (range <? 0)%float = false →
  getNearestNeighbour getEnclosed ps c range fuel = Some x →
  ∃ i p, x = Ret i ∧ coords ps !! i = Some p ∧
         ∀ j q, coords ps !! j = Some q → (sqdist q c <? sqdist p c)%float = false.
Proof.
  intros Hok Hr H. unfold getNearestNeighbour in H.
  destruct (seek_range getEnclosed ps c range fuel) as [y|] eqn:Hs; [|done].
  destruct (seek_range_spec ps c fuel range y Hok Hs)
    as (k & ngb & _ & -> & Hne & Hiff).
  pose proof (grow_nonneg k range Hr) as Hrg. set (rg := grow k range) in *.
  injection H as <-.
  assert (Hin : ∀ i, i ∈ ngb ↔ ∃ p, coords ps !! i = Some p ∧ closer rg p c = true).
  { intros i. rewrite Hiff. split; intros (p & Hp & Hf); exists p.
    - by rewrite <- found_nonneg.
    - by rewrite found_nonneg. }
  assert (Hfar : ∀ i p j q, i ∈ ngb → coords ps !! i = Some p →
            coords ps !! j = Some q → j ∉ ngb →
            (sqdist q c <? sqdist p c)%float = false).
  { intros i p j q Hi Hp Hq Hj. apply Hin in Hi as (p' & Hp' & Hd).
    rewrite Hp in Hp'. injection Hp' as <-.
    apply not_true_iff_false. intros Hlt. destruct Hj. apply Hin.
    exists q. split; [done|]. unfold closer in *. by eapply ltb_trans. }
  assert (Hval : ∀ i, i ∈ ngb →
            ∃ p, coords ps !! i = Some p ∧ xv (sqdist p c) ≠ XNaN).
  { intros i Hi. apply Hin in Hi as (p & Hp & Hd). exists p. split; [done|].
    unfold closer in Hd. by apply ltb_valid in Hd as [? _]. }
  destruct ngb as [|i [|i' ngb]]; [done| |].
  - destruct (Hval i) as (p & Hp & Hv); [left|].
    exists i, p. split; [done|]. split; [done|]. intros j q Hq.
    destruct (decide (j = i)) as [->|Hji].
    + rewrite Hp in Hq. injection Hq as <-.
      apply leb_not_ltb. by apply leb_refl.
    + apply (Hfar i p j q); [left|done..|].
      intros Hj. by apply list_elem_of_singleton in Hj.
  - set (l := i :: i' :: ngb) in *.
    assert (xv (rg * rg) ≠ XNaN) as Hsq.
    { destruct (proj1 (Hin i)) as (p & _ & Hd); [left|].
      unfold closer in Hd. by apply ltb_valid in Hd as [_ ?]. }
    destruct (nearest_loop_spec ps c l (rg * rg) (size ps) Hval Hsq)
      as (r & -> & [[-> Hmin]|(p & Hr' & Hp & Hlt & Hmin)]).
    + exfalso. destruct (proj1 (Hin i)) as (p & Hp & Hd); [left|].
      specialize (Hmin i p). unfold closer in Hd.
      rewrite leb_not_ltb in Hd; [done|]. apply Hmin; [left|done].
    + exists r, p. split; [done|]. split; [done|]. intros j q Hq.
      destruct (decide (j ∈ l)) as [Hj|Hj].
      * apply leb_not_ltb. by apply (Hmin j q).
      * by apply (Hfar r p j q).
Qed.

(** X13.  On a set whose index holds the current positions and for a
    guessed range that is not negative: when some particle passes the
    test for the range enlarged [k] times, the search ends after [k]
    enlargements at most, and no particle of the set has a computed
    squared distance to the centre below that of the particle
    returned. *)
Theorem nearest_neighbour_found ps c range k i0 p0 :
  index_ok ps → (range <? 0)%float = false →
  coords ps !! i0 = Some p0 → closer (grow k range) p0 c = true →
  ∀ fuel, k ≤ fuel →
    ∃ i p, getNearestNeighbour getEnclosed ps c range fuel = Some (Ret i) ∧
           coords ps !! i = Some p ∧
           ∀ j q, coords ps !! j = Some q →
                  (sqdist q c <? sqdist p c)%float = false.
Proof.
  intros Hok Hr Hp0 Hc fuel Hf.
  destruct (seek_range_finds ps c k range fuel Hok Hf) as [y Hy].
  { exists i0, p0. split; [done|]. by rewrite found_nonneg by by apply grow_nonneg. }
  assert (∃ x, getNearestNeighbour getEnclosed ps c range fuel = Some x) as [x Hx].
  { unfold getNearestNeighbour. rewrite Hy.
    destruct (seek_range_spec ps c fuel range y Hok Hy) as (k' & ngb & _ & -> & _).
    eauto. }
  destruct (nearest_returned ps c range fuel x Hok Hr Hx) as (i & p & -> & Hp & Hmin).
  exists i, p. done.
Qed.

(** The particle [p] holds, on every axis, the value of [c]. *)
Definition same (a b : float) : bool := ((a <=? b) && (b <=? a))%float.

Definition at_point (p c : Coord) : bool :=
  same (cx c) (cx p) && same (cy c) (cy p) && same (cz c) (cz p).

(** With a negative range a query finds nothing but particles sitting
    at the centre. *)
Lemma found_negative range p c :
  (range <? 0)%float = true → found range p c = true → at_point p c = true.
Proof.
  intros Hr. unfold found. rewrite andb_true_iff.
  intros [Hb (Hx & Hy & Hz)%closer_axes].
  revert Hb. unfold boxed, enclosesb, bounds. simpl.
  rewrite !andb_true_iff. intros [[[[[Hx1 Hx2] Hy1] Hy2] Hz1] Hz2].
  destruct (axis_pinned _ _ _ Hr Hx Hx1 Hx2) as [Hx3 Hx4].
  destruct (axis_pinned _ _ _ Hr Hy Hy1 Hy2) as [Hy3 Hy4].
  destruct (axis_pinned _ _ _ Hr Hz Hz1 Hz2) as [Hz3 Hz4].
  unfold at_point, same. by rewrite Hx3, Hx4, Hy3, Hy4, Hz3, Hz4.
Qed.

Lemma grow_negative k : ∀ rg, (rg <? 0)%float = true → (grow k rg <? 0)%float = true.
Proof.
  induction k as [|k IH]; intros rg H; simpl; [done|].
  apply IH, mul_negative; [done|reflexivity].
Qed.

Lemma seek_range_none ps c fuel : ∀ rg,
  (∀ k, k ≤ fuel → getEuclidianNeighbours getEnclosed ps c (grow k rg) = Ret []) →
  seek_range getEnclosed ps c rg fuel = None.
Proof.
  induction fuel as [|fuel IH]; intros rg H; simpl;
    rewrite (H 0 ltac:(lia) : getEuclidianNeighbours _ _ _ rg = _); [done|].
  apply IH. intros k Hk. apply (H (S k)). lia.
Qed.

(** X14.  The loop that enlarges the range never ends on an empty set;
    nor for a guess that the multiplication by 1.1 leaves as it is and
    whose square is zero or not a number: 0, -0, NaN, and the smallest
    denormal, whose product with 1.1 rounds back to itself; nor for a
    negative guess when no particle sits at the centre. *)
Theorem nearest_neighbour_diverges ps c range fuel :
  index_ok ps →
  coords ps = [] ∨
  ((range * growth)%float = range ∧
   (xv (range * range) = XFin 0 ∨ xv (range * range) = XNaN)) ∨
  ((range <? 0)%float = true ∧ ∀ p, p ∈ coords ps → at_point p c = false) →
  getNearestNeighbour getEnclosed ps c range fuel = None.
Proof.
  intros Hok Hcase. unfold getNearestNeighbour.
  enough (seek_range getEnclosed ps c range fuel = None) as -> by done.
  apply seek_range_none. intros k _.
  destruct (point_query ps c (grow k range) Hok) as (l & -> & Hiff).
  destruct l as [|i l]; [done|]. exfalso.
  destruct (proj1 (Hiff i)) as (p & Hp & Hf); [left|].
  destruct Hcase as [He|[[Hfix Hsq]|[Hneg Hno]]].
  - by rewrite He in Hp.
  - assert (grow k range = range) as Hg.
    { clear -Hfix. induction k as [|k IH]; simpl; [done|]. by rewrite Hfix. }
    rewrite Hg in Hf.
    apply andb_true_iff in Hf as [_ Hf]. unfold closer in Hf.
    destruct Hsq as [Hsq|Hsq].
    + rewrite ltb_nonneg_0 in Hf; [done| |done].
      unfold sqdist, dot. repeat apply nonneg_add; apply nonneg_mul_self.
    + rewrite ltb_xv, Hsq in Hf.
      by destruct (xv (sqdist p c)) as [|[]|].
  - apply (found_negative (grow k range)) in Hf; [|by apply grow_negative].
    rewrite Hno in Hf; [done|]. by eapply list_elem_of_lookup_2.
Qed.

(** *** [selectInside_noindex] *)

(** [m] is the least value of [f] over [l]; [m] is the greatest value
    of [f] over [l] and the number 0. *)
Definition least (f : Coord → float) (l : list Coord) (m : float) : Prop :=
  (∃ p, p ∈ l ∧ f p = m) ∧ ∀ p, p ∈ l → (m <=? f p)%float = true.

Definition greatest0 (f : Coord → float) (l : list Coord) (m : float) : Prop :=
  (m = 0%float ∨ ∃ p, p ∈ l ∧ f p = m) ∧ (0 <=? m)%float = true ∧
  ∀ p, p ∈ l → (f p <=? m)%float = true.

(** No coordinate is a NaN or an infinity. *)
Definition Coord_finite (p : Coord) : Prop :=
  finite (cx p) = true ∧ finite (cy p) = true ∧ finite (cz p) = true.

Lemma finite_valid x : finite x = true → xv x ≠ XNaN.
Proof. intros [z Hz]%finite_xv. by rewrite Hz. Qed.

Lemma fmin_spec a b :
  xv a ≠ XNaN → xv b ≠ XNaN →
  (fmin a b = a ∨ fmin a b = b) ∧
  ((fmin a b <=? a)%float = true ∧ (fmin a b <=? b)%float = true).
Proof.
  intros Ha Hb. unfold fmin. destruct (b <? a)%float eqn:E.
  - split; [by right|]. split; [by apply ltb_leb|by apply leb_refl].
  - split; [by left|]. split; [by apply leb_refl|by apply ltb_ge].
Qed.

Lemma fmax_spec a b :
  xv a ≠ XNaN → xv b ≠ XNaN →
  (fmax a b = a ∨ fmax a b = b) ∧
  ((a <=? fmax a b)%float = true ∧ (b <=? fmax a b)%float = true).
Proof.
  intros Ha Hb. unfold fmax. destruct (a <? b)%float eqn:E.
  - split; [by right|]. split; [by apply ltb_leb|by apply leb_refl].
  - split; [by left|]. split; [by apply leb_refl|by apply ltb_ge].
Qed.

Lemma foldl_fmin_spec (f : Coord → float) (step : Coord → Coord → Coord) l :
  (∀ a p, f (step a p) = fmin (f a) (f p)) →
  Forall (λ p, xv (f p) ≠ XNaN) l →
  ∀ a, xv (f a) ≠ XNaN →
       (f (foldl step a l) = f a ∨ ∃ p, p ∈ l ∧ f p = f (foldl step a l)) ∧
       (f (foldl step a l) <=? f a)%float = true ∧
       ∀ p, p ∈ l → (f (foldl step a l) <=? f p)%float = true.
Proof.
  intros Hstep. induction l as [|x l IH]; intros Hv a Ha; simpl.
  { split; [by left|]. split; [by apply leb_refl|].
    intros p Hp. by apply elem_of_nil in Hp. }
  apply Forall_cons in Hv as [Hx Hv].
  destruct (fmin_spec (f a) (f x) Ha Hx) as [Hm [Hma Hmx]].
  destruct (IH Hv (step a x)) as (H1 & H2 & H3).
  { rewrite Hstep. by destruct Hm as [->| ->]. }
  rewrite Hstep in H1, H2.
  split; [|split].
  - destruct H1 as [H1|(p & Hp & H1)].
    + destruct Hm as [Hm|Hm]; rewrite Hm in H1; [by left|].
      right. exists x. split; [left|done].
    + right. exists p. split; [by right|done].
  - by eapply leb_trans.
  - intros p Hp. apply elem_of_cons in Hp as [->|Hp]; [|by apply H3].
    by eapply leb_trans.
Qed.

Lemma foldl_fmax_spec (f : Coord → float) (step : Coord → Coord → Coord) l :
  (∀ a p, f (step a p) = fmax (f a) (f p)) →
  Forall (λ p, xv (f p) ≠ XNaN) l →
  ∀ a, xv (f a) ≠ XNaN →
       (f (foldl step a l) = f a ∨ ∃ p, p ∈ l ∧ f p = f (foldl step a l)) ∧
       (f a <=? f (foldl step a l))%float = true ∧
       ∀ p, p ∈ l → (f p <=? f (foldl step a l))%float = true.
Proof.
  intros Hstep. induction l as [|x l IH]; intros Hv a Ha; simpl.
  { split; [by left|]. split; [by apply leb_refl|].
    intros p Hp. by apply elem_of_nil in Hp. }
  apply Forall_cons in Hv as [Hx Hv].
  destruct (fmax_spec (f a) (f x) Ha Hx) as [Hm [Hma Hmx]].
  destruct (IH Hv (step a x)) as (H1 & H2 & H3).
  { rewrite Hstep. by destruct Hm as [->| ->]. }
  rewrite Hstep in H1, H2.
  split; [|split].
  - destruct H1 as [H1|(p & Hp & H1)].
    + destruct Hm as [Hm|Hm]; rewrite Hm in H1; [by left|].
      right. exists x. split; [left|done].
    + right. exists p. split; [by right|done].
  - by eapply leb_trans.
  - intros p Hp. apply elem_of_cons in Hp as [->|Hp]; [|by apply H3].
    by eapply leb_trans.
Qed.

Lemma lower_least (f : Coord → float) c0 l :
  (∀ a p, f (Coord_min a p) = fmin (f a) (f p)) →
  Forall (λ p, xv (f p) ≠ XNaN) (c0 :: l) →
  least f (c0 :: l) (f (foldl Coord_min c0 (c0 :: l))).
Proof.
  intros Hstep Hv.
  destruct (foldl_fmin_spec f Coord_min (c0 :: l) Hstep Hv c0) as (H1 & H2 & H3).
  { by apply Forall_cons in Hv as [? _]. }
  split; [|done]. destruct H1 as [H1|H1]; [|done].
  exists c0. split; [left|done].
Qed.

Lemma upper_greatest0 (f : Coord → float) l :
  (∀ a p, f (Coord_max a p) = fmax (f a) (f p)) → f (mkCoord 0 0 0) = 0%float →
  Forall (λ p, xv (f p) ≠ XNaN) l →
  greatest0 f l (f (foldl Coord_max (mkCoord 0 0 0) l)).
Proof.
  intros Hstep H0 Hv.
  destruct (foldl_fmax_spec f Coord_max l Hstep Hv (mkCoord 0 0 0)) as (H1 & H2 & H3).
  { by rewrite H0. }
  rewrite H0 in H1, H2. split; [|done]. destruct H1 as [H1|H1]; [by left|by right].
Qed.

Lemma inside_loop_spec upper lower l : ∀ p,
  StronglySorted lt (inside_loop upper lower p l) ∧
  ∀ i, i ∈ inside_loop upper lower p l ↔
       p ≤ i ∧ ∃ c, l !! (i - p) = Some c ∧
                    Coord_leb c upper = true ∧ Coord_leb lower c = true.
Proof.
  induction l as [|c l IH]; intros p; simpl.
  { split; [constructor|]. intros i. split.
    - intros H. by apply elem_of_nil in H.
    - intros (_ & c & H & _). done. }
  destruct (IH (S p)) as [Hs Hiff].
  assert (Hrest : ∀ i, i ∈ inside_loop upper lower (S p) l →
            p ≤ i ∧ ∃ c', (c :: l) !! (i - p) = Some c' ∧
              Coord_leb c' upper = true ∧ Coord_leb lower c' = true).
  { intros i Hi. apply Hiff in Hi as (Hp & c' & Hc' & H).
    split; [lia|]. exists c'. split; [|done].
    replace (i - p) with (S (i - S p)) by lia. done. }
  assert (Hback : ∀ i c', p < i → (c :: l) !! (i - p) = Some c' →
            Coord_leb c' upper = true ∧ Coord_leb lower c' = true →
            i ∈ inside_loop upper lower (S p) l).
  { intros i c' Hp Hc' H. apply Hiff. split; [lia|]. exists c'. split; [|done].
    replace (i - p) with (S (i - S p)) in Hc' by lia. done. }
  destruct (Coord_leb c upper && Coord_leb lower c) eqn:E.
  - apply andb_true_iff in E. split.
    + constructor; [done|]. apply Forall_forall. intros i Hi.
      apply Hiff in Hi as [Hp _]. lia.
    + intros i. rewrite elem_of_cons. split.
      * intros [->|Hi]; [|by apply Hrest].
        split; [done|]. exists c. by rewrite Nat.sub_diag.
      * intros (Hp & c' & Hc' & H). destruct (decide (i = p)) as [->|Hne]; [by left|].
        right. apply (Hback i c'); [lia|done..].
  - split; [done|]. intros i. split; [by apply Hrest|].
    intros (Hp & c' & Hc' & H). destruct (decide (i = p)) as [->|Hne].
    + rewrite Nat.sub_diag in Hc'. injection Hc' as <-.
      destruct H as [H1 H2]. by rewrite H1, H2 in E.
    + apply (Hback i c'); [lia|done..].
Qed.

(** The comparisons of the last loop, axis by axis; with [noZ] the
    third axis is compared with the bounds themselves. *)
Definition inside (lo hi : Coord) (margin : float) (noZ : bool) (c : Coord) : Prop :=
  (cx lo + margin <=? cx c)%float = true ∧ (cx c <=? cx hi - margin)%float = true ∧
  (cy lo + margin <=? cy c)%float = true ∧ (cy c <=? cy hi - margin)%float = true ∧
  ((if noZ then cz lo else cz lo + margin) <=? cz c)%float = true ∧
  (cz c <=? (if noZ then cz hi else cz hi - margin))%float = true.

(** X15.  [selectInside_noindex] is undefined on an empty set.
    Otherwise it returns, in ascending order, the particles that lie,
    on each axis, between [lo + margin] and [hi - margin] as computed
    in binary64, where [lo] and [hi] are the corners reached by the
    first loop; with [noZ] no margin applies to the third axis.  When
    no coordinate is a NaN or an infinity, [lo] holds the least
    coordinates, [hi] the greatest coordinates or 0, whichever is
    larger, and with a margin that is not positive every particle is
    returned. *)
Theorem selectInside_noindex_spec ps margin noZ :
  (coords ps = [] → selectInside_noindex ps margin noZ = Undef) ∧
  (coords ps ≠ [] →
   ∃ ret lo hi,
     selectInside_noindex ps margin noZ = Ret ret ∧
     StronglySorted lt ret ∧
     (∀ i, i ∈ ret ↔ ∃ c, coords ps !! i = Some c ∧ inside lo hi margin noZ c) ∧
     (Forall Coord_finite (coords ps) →
      least cx (coords ps) (cx lo) ∧ least cy (coords ps) (cy lo) ∧
      least cz (coords ps) (cz lo) ∧
      greatest0 cx (coords ps) (cx hi) ∧ greatest0 cy (coords ps) (cy hi) ∧
      greatest0 cz (coords ps) (cz hi) ∧
      ((margin <=? 0)%float = true → ret = seq 0 (size ps)))).
Proof.
  split.
  { intros H. unfold selectInside_noindex. by rewrite H. }
  intros Hne. unfold selectInside_noindex.
  destruct (coords ps) as [|c0 l] eqn:Ec; [done|].
  set (hi := foldl Coord_max (mkCoord 0 0 0) (c0 :: l)).
  set (lo := foldl Coord_min c0 (c0 :: l)).
  match goal with |- context [inside_loop ?u ?w 0 ?k] =>
    destruct (inside_loop_spec u w k 0) as [Hs Hiff];
    set (ret := inside_loop u w 0 k) in *
  end.
  assert (Hmem : ∀ i, i ∈ ret ↔
            ∃ c, (c0 :: l) !! i = Some c ∧ inside lo hi margin noZ c).
  { intros i. rewrite Hiff, Nat.sub_0_r. unfold inside, Coord_leb. simpl.
    split.
    - intros (_ & c & Hc & H1 & H2). exists c. split; [done|].
      apply andb_true_iff in H1 as [[H1 H3]%andb_true_iff H5].
      apply andb_true_iff in H2 as [[H2 H4]%andb_true_iff H6].
      destruct noZ; done.
    - intros (c & Hc & H1 & H2 & H3 & H4 & H5 & H6). split; [lia|].
      exists c. split; [done|]. rewrite !andb_true_iff.
      destruct noZ; done. }
  exists ret, lo, hi. do 2 (split; [done|]). split; [exact Hmem|].
  intros Hfin.
  assert (Hvx : Forall (λ p, xv (cx p) ≠ XNaN) (c0 :: l)).
  { eapply Forall_impl; [exact Hfin|]. intros p (H & _ & _). by apply finite_valid. }
  assert (Hvy : Forall (λ p, xv (cy p) ≠ XNaN) (c0 :: l)).
  { eapply Forall_impl; [exact Hfin|]. intros p (_ & H & _). by apply finite_valid. }
  assert (Hvz : Forall (λ p, xv (cz p) ≠ XNaN) (c0 :: l)).
  { eapply Forall_impl; [exact Hfin|]. intros p (_ & _ & H). by apply finite_valid. }
  pose proof (lower_least cx c0 l (λ _ _, eq_refl) Hvx) as Lx.
  pose proof (lower_least cy c0 l (λ _ _, eq_refl) Hvy) as Ly.
  pose proof (lower_least cz c0 l (λ _ _, eq_refl) Hvz) as Lz.
  pose proof (upper_greatest0 cx (c0 :: l) (λ _ _, eq_refl) eq_refl Hvx) as Ux.
  pose proof (upper_greatest0 cy (c0 :: l) (λ _ _, eq_refl) eq_refl Hvy) as Uy.
  pose proof (upper_greatest0 cz (c0 :: l) (λ _ _, eq_refl) eq_refl Hvz) as Uz.
  fold lo in Lx, Ly, Lz. fold hi in Ux, Uy, Uz.
  do 6 (split; [done|]).
  intros Hm. apply sorted_lt_unique; [done|apply sorted_lt_seq|].
  assert (Hlo : ∀ f, least f (c0 :: l) (f lo) →
            (∀ p, p ∈ c0 :: l → finite (f p) = true) →
            ∀ c, c ∈ c0 :: l → (f lo + margin <=? f c)%float = true
                            ∧ (f lo <=? f c)%float = true).
  { intros f [(p & Hp & E) Hle] Hf c Hc. split; [|by apply Hle].
    eapply leb_trans; [|by apply Hle].
    apply add_nonpos_le; [|done]. rewrite <- E. by apply Hf. }
  assert (Hhi : ∀ f, greatest0 f (c0 :: l) (f hi) →
            (∀ p, p ∈ c0 :: l → finite (f p) = true) →
            ∀ c, c ∈ c0 :: l → (f c <=? f hi - margin)%float = true
                            ∧ (f c <=? f hi)%float = true).
  { intros f ([E|(p & Hp & E)] & _ & Hle) Hf c Hc; (split; [|by apply Hle]);
      (eapply leb_trans; [by apply Hle|]); (apply sub_nonpos_ge; [|done]).
    - by rewrite E.
    - rewrite <- E. by apply Hf. }
  rewrite Forall_forall in Hfin.
  intros i. rewrite elem_of_seq, Hmem. unfold size. rewrite Ec. split.
  - intros (c & Hc & _). apply lookup_lt_Some in Hc. lia.
  - intros [_ Hi]. destruct (lookup_lt_is_Some_2 (c0 :: l) i) as [c Hc]; [lia|].
    exists c. split; [done|].
    assert (c ∈ c0 :: l) as Hin by (by eapply list_elem_of_lookup_2).
    destruct (Hlo cx Lx (λ p Hp, proj1 (Hfin p Hp)) c Hin) as [? ?].
    destruct (Hlo cy Ly (λ p Hp, proj1 (proj2 (Hfin p Hp))) c Hin) as [? ?].
    destruct (Hlo cz Lz (λ p Hp, proj2 (proj2 (Hfin p Hp))) c Hin) as [? ?].
    destruct (Hhi cx Ux (λ p Hp, proj1 (Hfin p Hp)) c Hin) as [? ?].
    destruct (Hhi cy Uy (λ p Hp, proj1 (proj2 (Hfin p Hp))) c Hin) as [? ?].
    destruct (Hhi cz Uz (λ p Hp, proj2 (proj2 (Hfin p Hp))) c Hin) as [? ?].
    unfold inside. destruct noZ; done.
Qed.

(** *** Scaling and insertion against the neighbour queries *)

(** X17.  [operator*=] does not touch the index: until the index is made
    again, a query selects the candidates by the boxes of the positions
    before the scaling, and keeps those whose scaled position passes
    the test. *)
Theorem scaling_keeps_old_index ps mul c range :
  index_ok ps →
  index (times ps mul) = index ps ∧
  ∃ l, getEuclidianNeighbours getEnclosed (times ps mul) c range = Ret l ∧
       ∀ i, i ∈ l ↔
            ∃ p, coords ps !! i = Some p ∧
                 boxed range p c = true ∧
                 closer range (Coord_times p (mkCoord mul mul mul)) c = true.
Proof.
  intros Hok. split; [done|].
  destruct (selectEnclosed_spec getEnclosed getEnclosed_spec ps
              (bounds c range) Hok) as (l1 & Hl1 & Hnd & H1).
  unfold getEuclidianNeighbours.
  change (selectEnclosed getEnclosed (times ps mul) (bounds c range))
    with (selectEnclosed getEnclosed ps (bounds c range)).
  rewrite Hl1. simpl.
  destruct (NormTwo_spec (times ps mul) c (range * range) (λ _, false) l1)
    as (l & -> & _ & H2).
  { intros i Hi. apply H1 in Hi as (p & Hp & _). simpl.
    rewrite list_lookup_fmap, Hp. eauto. }
  exists l. split; [done|]. intros i. rewrite H2, H1. simpl. split.
  - intros ((p & Hp & He) & _ & q & Hq & Hd).
    rewrite list_lookup_fmap, Hp in Hq. injection Hq as <-. eauto.
  - intros (p & Hp & He & Hd). split; [eauto|]. split; [done|].
    eexists. rewrite list_lookup_fmap, Hp. done.
Qed.

(** X19.  A particle pushed onto a set whose index holds the current
    positions is found by the queries that follow: a query returns what
    it returned before, and the new particle, number [size()], when the
    query finds it; for a range that is not negative, when it passes
    the test in binary64. *)
Theorem push_back_then_query ps p c range :
  index_ok ps →
  ∃ l l',
    getEuclidianNeighbours getEnclosed ps c range = Ret l ∧
    getEuclidianNeighbours getEnclosed (push_back ps p) c range = Ret l' ∧
    (∀ i, i ∈ l' ↔ i ∈ l ∨ (i = size ps ∧ found range p c = true)) ∧
    ((range <? 0)%float = false →
     ∀ i, i ∈ l' ↔ i ∈ l ∨ (i = size ps ∧ closer range p c = true)).
Proof.
  intros Hok.
  destruct (point_query ps c range Hok) as (l & Hl & Hiff).
  destruct (point_query (push_back ps p) c range (push_back_ok ps p Hok))
    as (l' & Hl' & Hiff').
  exists l, l'. split; [done|]. split; [done|].
  assert (Hmem : ∀ i, i ∈ l' ↔ i ∈ l ∨ (i = size ps ∧ found range p c = true)).
  { intros i. rewrite Hiff, Hiff'. simpl. split.
    - intros (q & Hq & Hw). apply lookup_app_Some in Hq as [Hq|[Hi Hq]].
      + left. eauto.
      + apply list_lookup_singleton_Some in Hq as [Hs <-].
        right. split; [unfold size; lia|done].
    - intros [(q & Hq & Hw)|[-> Hw]].
      + exists q. split; [by apply lookup_app_l_Some|done].
      + exists p. split; [|done].
        rewrite lookup_app_r by done. unfold size. by rewrite Nat.sub_diag. }
  split; [exact Hmem|]. intros Hr i. by rewrite Hmem, found_nonneg.
Qed.

(** *** [removeShortRange] against [cut] *)

Lemma first_served_incl near l : ∀ kept (c : Coord),
  c ∈ kept → c ∈ first_served near kept l.
Proof.
  induction l as [|x l IH]; intros kept c Hc; simpl; [done|].
  apply IH. destruct (existsb _ kept); [done|]. apply elem_of_app. by left.
Qed.

Lemma first_served_keeps near l : ∀ kept i c,
  l !! i = Some c →
  (∀ q, q ∈ kept → near q c = false) →
  (∀ j q, j ≠ i → l !! j = Some q → near q c = false) →
  c ∈ first_served near kept l.
Proof.
  induction l as [|x l IH]; intros kept i c Hi Hk Hal; [done|]. simpl.
  destruct i as [|i]; simpl in Hi.
  - injection Hi as ->. apply first_served_incl.
    destruct (existsb _ kept) eqn:E.
    + apply existsb_exists in E as (q & Hq & Hw).
      apply list_elem_of_In in Hq. by rewrite (Hk q Hq) in Hw.
    + apply elem_of_app. right. left.
  - apply (IH _ i c Hi).
    + intros q Hq. destruct (existsb _ kept); [by apply Hk|].
      apply elem_of_app in Hq as [Hq|Hq]; [by apply Hk|].
      apply list_elem_of_singleton in Hq as ->.
      by apply (Hal 0 x).
    + intros j q Hne Hq. apply (Hal (S j) q); [lia|done].
Qed.

(** X11.  Whatever [removeShortRange] keeps, [cut] keeps too. *)
Theorem removeShortRange_within_cut ps sep :
  index_ok ps →
  ∃ out out',
    removeShortRange getEnclosed default_radius ps sep = Ret out ∧
    cut getEnclosed default_radius ps sep = Ret out' ∧
    ∀ c, c ∈ coords out → c ∈ coords out'.
Proof.
  intros Hok. unfold removeShortRange, cut.
  destruct Hok as (idx & Hidx & Hperm). rewrite Hidx.
  destruct (short_range_loop_spec ps sep (coords ps) 0
              {| coords := []; radius := default_radius; bb := bb ps;
                 index := None; neighboursList := None |})
    as (out & ks & -> & _ & _ & Hf & _ & _ & Hks); [by exists idx|done..|].
  destruct (cut_loop_spec getEnclosed getEnclosed_spec sep (coords ps)
              {| coords := []; radius := default_radius; bb := bb ps;
                 index := Some []; neighboursList := None |})
    as (out' & -> & Hc & _); [by exists []|].
  simpl in *. rewrite drop_0 in Hf.
  exists out, out'. split; [done|]. split; [done|].
  intros c Hin. apply list_elem_of_lookup_1 in Hin as [n Hn].
  destruct (Forall2_lookup_r _ _ _ _ _ Hf Hn) as (k & Hk & Hck).
  assert (k ∈ ks) as Hkin by (by eapply list_elem_of_lookup_2).
  apply Hks in Hkin as (_ & c' & Hc' & Hal).
  rewrite Hck in Hc'. injection Hc' as <-.
  rewrite Hc. apply (first_served_keeps (found sep) (coords ps) [] k c Hck); [|done].
  intros q Hq. by apply elem_of_nil in Hq.
Qed.

(** *** Failures of the neighbour lists *)

Lemma bonds_loop_Undef bonds : ∀ ngb,
  Exists (λ b, length ngb ≤ low b ∨ length ngb ≤ high b) bonds →
  Parts.bonds_loop ngb bonds = Undef.
Proof.
  induction bonds as [|b bonds IH]; intros ngb H; [by apply Exists_nil in H|].
  simpl. unfold append_ngb at 2.
  destruct (ngb !! low b) as [l|] eqn:El; [|done]. simpl.
  unfold append_ngb at 1. pose proof (lookup_lt_Some _ _ _ El) as Hlo.
  destruct (decide (low b = high b)) as [E|Hne].
  - rewrite <- E, list_lookup_insert_eq by done. simpl. apply IH.
    apply Exists_cons in H as [[H|H]|H]; [lia|lia|].
    by rewrite !length_insert.
  - rewrite list_lookup_insert_ne by done.
    destruct (ngb !! high b) as [l'|] eqn:Eh; [|done]. simpl. apply IH.
    apply lookup_lt_Some in Eh.
    apply Exists_cons in H as [[H|H]|H]; [lia|lia|].
    by rewrite !length_insert.
Qed.

(** X20.  Without an index [makeNgbList(bondLength)] throws a logic error,
    unless the set is empty and there is nothing to query.  A bond that
    names a particle the set does not have makes [makeNgbList(bonds)]
    write past the end of the list: undefined behaviour, no exception. *)
Theorem makeNgbList_failures ps bondLength bonds :
  (index ps = None → coords ps ≠ [] →
   makeNgbList getEnclosed ps bondLength = Raise (logic_error msg_no_index)) ∧
  (coords ps = [] →
   makeNgbList getEnclosed ps bondLength = Ret (with_ngb ps [])) ∧
  (Exists (λ b, size ps ≤ high b) bonds → makeNgbList_bonds ps bonds = Undef).
Proof.
  split; [|split].
  - intros Hi Hne. unfold makeNgbList, size.
    destruct (coords ps) as [|c l] eqn:Ec; [done|]. simpl.
    unfold getEuclidianNeighbours_at, at_. rewrite Ec. simpl.
    unfold selectEnclosed. by rewrite Hi.
  - intros He. unfold makeNgbList, size. by rewrite He.
  - intros H. unfold makeNgbList_bonds. rewrite bonds_loop_Undef; [done|].
    rewrite length_replicate. eapply Exists_impl; [exact H|]. simpl. auto.
Qed.

End queries.

(** *** On concrete particle sets *)

Lemma removeShortRange_alone_witness :
  ∃ out ks,
    removeShortRange enclosed_ids 1 twins 2 = Ret out ∧
    index out = None ∧ bb out = bb twins ∧
    Forall2 (λ k c, coords twins !! k = Some c) ks (coords out) ∧
    StronglySorted lt ks ∧
    (∀ i, i ∈ ks ↔ ∃ c, coords twins !! i = Some c ∧ alone 2 (coords twins) i c) ∧
    (∀ i j p q, i ≠ j → coords out !! i = Some p → coords out !! j = Some q →
                found 2 p q = false) ∧
    ((2 <? 0)%float = false → ∀ p q, found 2 p q = closer 2 p q).
Proof.
  apply (removeShortRange_alone enclosed_ids (λ idx b, reflexivity _) 1 twins 2).
  apply makeRTreeIndex_ok.
Defined.

Lemma removeShortRange_within_cut_witness :
  ∃ out out',
    removeShortRange enclosed_ids 1 twins 2 = Ret out ∧
    cut enclosed_ids 1 twins 2 = Ret out' ∧
    ∀ c, c ∈ coords out → c ∈ coords out'.
Proof.
  apply (removeShortRange_within_cut enclosed_ids (λ idx b, reflexivity _)).
  apply makeRTreeIndex_ok.
Defined.

Lemma neighbours_by_distance_witness :
  ∃ m, getEuclidianNeighboursBySqDist enclosed_ids twins (mkCoord 1 0 0) 3 = Ret m ∧
       StronglySorted key_le m ∧ NoDup (snd <$> m) ∧
       (∀ d i, (d, i) ∈ m ↔
               ∃ p, coords twins !! i = Some p ∧ d = sqdist p (mkCoord 1 0 0) ∧
                    found 3 p (mkCoord 1 0 0) = true) ∧
       ((3 <? 0)%float = false →
        ∀ d i, (d, i) ∈ m ↔
               ∃ p, coords twins !! i = Some p ∧ d = sqdist p (mkCoord 1 0 0) ∧
                    closer 3 p (mkCoord 1 0 0) = true).
Proof.
  apply (neighbours_by_distance enclosed_ids (λ idx b, reflexivity _)).
  apply makeRTreeIndex_ok.
Defined.

(** Around (2,0,0) the guess 0.5 is enlarged eight times before the
    particles at distance 1 pass the test. *)
Lemma nearest_neighbour_found_witness :
  ∃ i p, getNearestNeighbour enclosed_ids twins (mkCoord 2 0 0) 0.5 10
         = Some (Ret i) ∧
         coords twins !! i = Some p ∧
         ∀ j q, coords twins !! j = Some q →
                (sqdist q (mkCoord 2 0 0) <? sqdist p (mkCoord 2 0 0))%float = false.
Proof.
  apply (nearest_neighbour_found enclosed_ids (λ idx b, reflexivity _)
           twins (mkCoord 2 0 0) 0.5 8 2 (mkCoord 3 0 0)).
  - apply makeRTreeIndex_ok.
  - reflexivity.
  - reflexivity.
  - vm_compute. reflexivity.
  - lia.
Defined.

(** The smallest denormal is a guess the loop never leaves. *)
Lemma nearest_neighbour_diverges_witness :
  getNearestNeighbour enclosed_ids twins (mkCoord 2 0 0) 0x1p-1074 100 = None.
Proof.
  apply (nearest_neighbour_diverges enclosed_ids (λ idx b, reflexivity _)).
  - apply makeRTreeIndex_ok.
  - right. left. split; [reflexivity|]. left. reflexivity.
Defined.

(** Neither does it leave a negative guess with no particle at the
    centre. *)
Example negative_range_spins :
  getNearestNeighbour enclosed_ids twins (mkCoord 2 0 0) (-1) 100 = None.
Proof. vm_compute. reflexivity. Qed.

(** A negative guess does not always make the loop spin: around a
    centre of magnitude 1 the box of half-width [-2^-400] collapses to
    the centre itself, and a particle sitting there is found at
    once. *)
Example negative_range_found :
  getNearestNeighbour enclosed_ids
    (makeRTreeIndex (particles_of [mkCoord 1 1 1])) (mkCoord 1 1 1) (-0x1p-400) 0
  = Some (Ret 0).
Proof. vm_compute. reflexivity. Qed.

Lemma scaling_keeps_old_index_witness :
  index (times twins 3) = index twins ∧
  ∃ l, getEuclidianNeighbours enclosed_ids (times twins 3) (mkCoord 9 0 0) 1 = Ret l ∧
       ∀ i, i ∈ l ↔
            ∃ p, coords twins !! i = Some p ∧
                 boxed 1 p (mkCoord 9 0 0) = true ∧
                 closer 1 (Coord_times p (mkCoord 3 3 3)) (mkCoord 9 0 0) = true.
Proof.
  apply (scaling_keeps_old_index enclosed_ids (λ idx b, reflexivity _)).
  apply makeRTreeIndex_ok.
Defined.

Lemma push_back_then_query_witness :
  ∃ l l',
    getEuclidianNeighbours enclosed_ids twins (mkCoord 3 0 0) 2 = Ret l ∧
    getEuclidianNeighbours enclosed_ids (push_back twins (mkCoord 4 0 0))
      (mkCoord 3 0 0) 2 = Ret l' ∧
    (∀ i, i ∈ l' ↔
          i ∈ l ∨ (i = size twins ∧ found 2 (mkCoord 4 0 0) (mkCoord 3 0 0) = true)) ∧
    ((2 <? 0)%float = false →
     ∀ i, i ∈ l' ↔
          i ∈ l ∨ (i = size twins ∧ closer 2 (mkCoord 4 0 0) (mkCoord 3 0 0) = true)).
Proof.
  apply (push_back_then_query enclosed_ids (λ idx b, reflexivity _)).
  apply makeRTreeIndex_ok.
Defined.

(** The scaled set of the example above, queried without a new index:
    particle 2, now at [(9, 0, 0)], is not found at its own place. *)
Example stale_index_query :
  getEuclidianNeighbours enclosed_ids (times twins 3) (mkCoord 9 0 0) 1 = Ret [].
Proof. vm_compute. reflexivity. Qed.

(** Scaling is not exact in binary64, and the bond network may change
    with the unit of length: the particles of [near_unit] are no
    neighbours for a bond length of half a diameter (the computed
    squared distance is 1, not below 1), and they are once every
    length has been multiplied by 7, with a fresh index. *)
Example scaling_changes_bonds :
  makeNgbList enclosed_ids near_unit 0.5 = Ret (with_ngb near_unit [[]; []]) ∧
  makeNgbList enclosed_ids (makeRTreeIndex (times near_unit 7)) 0.5
  = Ret (with_ngb (makeRTreeIndex (times near_unit 7)) [[1]; [0]]).
Proof. split; vm_compute; reflexivity. Qed.

Lemma selectInside_noindex_spec_witness :
  ∃ ret lo hi,
    selectInside_noindex twins 1 false = Ret ret ∧
    StronglySorted lt ret ∧
    (∀ i, i ∈ ret ↔ ∃ c, coords twins !! i = Some c ∧ inside lo hi 1 false c) ∧
    least cx (coords twins) (cx lo) ∧ greatest0 cx (coords twins) (cx hi).
Proof.
  destruct (proj2 (selectInside_noindex_spec twins 1 false))
    as (ret & lo & hi & H1 & H2 & H3 & H4); [done|].
  destruct H4 as (H4 & _ & _ & H5 & _).
  { repeat constructor. }
  by exists ret, lo, hi.
Defined.

Lemma makeNgbList_failures_witness :
  makeNgbList_bonds pair [mkBond 0 2] = Undef.
Proof.
  apply (proj2 (proj2 (makeNgbList_failures enclosed_ids pair 1 [mkBond 0 2]))).
  apply Exists_cons. left. vm_compute. lia.
Defined.

End PartsQueries.

(** ** Topology: second shell, 2331 pairs, SP5c clusters, bonds *)

Module TopoShells.
Import Parts Topo PartsFacts TopoFacts.

(** *** Sorting, [unique], [set_difference] *)

Lemma insert_sorted_perm x l : insert_sorted x l ≡ₚ x :: l.
Proof.
  induction l as [|y l IH]; simpl; [done|].
  destruct (y <? x); [|done]. rewrite IH. apply Permutation_swap.
Qed.

Lemma list_sort_perm l : list_sort l ≡ₚ l.
Proof.
  induction l as [|x l IH]; simpl; [done|].
  rewrite insert_sorted_perm. by f_equiv.
Qed.

Lemma insert_sorted_sorted x l :
  StronglySorted le l → StronglySorted le (insert_sorted x l).
Proof.
  induction 1 as [|y l Hl IH Hy]; simpl.
  - repeat constructor.
  - destruct (y <? x) eqn:E.
    + apply Nat.ltb_lt in E. constructor; [done|].
      rewrite insert_sorted_perm. constructor; [lia|done].
    + apply Nat.ltb_ge in E. constructor; [by constructor|].
      constructor; [done|]. eapply Forall_impl; [exact Hy|]. simpl. lia.
Qed.

Lemma list_sort_sorted l : StronglySorted le (list_sort l).
Proof.
  induction l as [|x l IH]; simpl; [constructor|]. by apply insert_sorted_sorted.
Qed.

Lemma unique_spec l :
  StronglySorted le l →
  StronglySorted lt (unique l) ∧ ∀ x, x ∈ unique l ↔ x ∈ l.
Proof.
  induction 1 as [|x l Hl [IHs IHm] Hx]; [by split; [constructor|]|].
  rewrite Forall_forall in Hx.
  destruct l as [|y l]; [simpl; split; [repeat constructor|done]|].
  change (unique (x :: y :: l))
    with (if x =? y then unique (y :: l) else x :: unique (y :: l)).
  destruct (x =? y) eqn:E.
  - apply Nat.eqb_eq in E as ->. split; [done|].
    intros z. rewrite IHm, !elem_of_cons. tauto.
  - apply Nat.eqb_neq in E. split.
    + constructor; [done|]. apply Forall_forall. intros z Hz.
      apply IHm in Hz. pose proof (Hx y (list_elem_of_here _ _)).
      apply elem_of_cons in Hz as [->|Hz]; [lia|].
      apply StronglySorted_inv in Hl as [_ Hy]. rewrite Forall_forall in Hy.
      apply Hy in Hz. lia.
    + intros z. rewrite (elem_of_cons (unique _)), IHm, !elem_of_cons. tauto.
Qed.

Lemma set_difference_nil_r a : set_difference a [] = a.
Proof. by destruct a. Qed.

Lemma set_difference_cons x a y b :
  set_difference (x :: a) (y :: b) =
  if x <? y then x :: set_difference a (y :: b)
  else if y <? x then set_difference (x :: a) b
  else set_difference a b.
Proof. reflexivity. Qed.

(** On ascending lists the merge computes the elements of the first
    that are not in the second. *)
Lemma set_difference_spec a : ∀ b,
  StronglySorted lt a → StronglySorted lt b →
  set_difference a b = filter (λ x, x ∉ b) a.
Proof.
  induction a as [|x a IHa]; intros b Ha Hb; [done|].
  apply StronglySorted_inv in Ha as [Ha Hx]. rewrite Forall_forall in Hx.
  induction b as [|y b IHb].
  { rewrite set_difference_nil_r. symmetry.
    rewrite (filter_ext_in _ (λ _, True)).
    - induction (x :: a) as [|z l IH]; [done|].
      rewrite filter_cons. destruct (decide True); [by f_equal|done].
    - intros z _. split; [done|]. intros _ H. by apply elem_of_nil in H. }
  pose proof Hb as Hb0.
  apply StronglySorted_inv in Hb as [Hb Hy]. rewrite Forall_forall in Hy.
  rewrite set_difference_cons.
  destruct (x <? y) eqn:E1; [|destruct (y <? x) eqn:E2].
  - apply Nat.ltb_lt in E1. rewrite (IHa (y :: b) Ha Hb0).
    rewrite (filter_cons _ x), decide_True; [done|].
    intros Hin. apply elem_of_cons in Hin as [->|Hin]; [lia|].
    apply Hy in Hin. lia.
  - apply Nat.ltb_lt in E2. rewrite (IHb Hb).
    apply filter_ext_in. intros z Hz. rewrite elem_of_cons.
    split; [|tauto]. intros H [->|H']; [|done].
    apply elem_of_cons in Hz as [->|Hz]; [lia|]. apply Hx in Hz. lia.
  - apply Nat.ltb_ge in E1, E2. assert (x = y) as <- by lia.
    rewrite (filter_cons _ x), decide_False by (intros H; apply H; left).
    rewrite (IHa b Ha Hb).
    apply filter_ext_in. intros z Hz. rewrite elem_of_cons.
    split; [|tauto]. intros H [->|H']; [|done]. apply Hx in Hz. lia.
Qed.

(** *** The second shell *)

(** Every entry of the neighbour list is the number of a row. *)
Definition in_range_ngb (ngb : NgbList) : Prop :=
  ∀ i l, ngb !! i = Some l → Forall (λ j, j < length ngb) l.

(** [q] is a neighbour of a neighbour of the particle whose neighbours
    are [lp]. *)
Definition second_neighbour (ngb : NgbList) (lp : list nat) (q : nat) : Prop :=
  ∃ c lc, c ∈ lp ∧ ngb !! c = Some lc ∧ q ∈ lc.

Lemma shell_loop_spec ngb cs : ∀ acc,
  Forall (λ c, c < length ngb) cs →
  ∃ l, shell_loop ngb cs acc = Some l ∧
       ∀ q, q ∈ l ↔ q ∈ acc ∨ second_neighbour ngb cs q.
Proof.
  induction cs as [|c cs IH]; intros acc Hr; simpl.
  { exists acc. split; [done|]. intros q. split; [by left|].
    intros [H|(c & lc & Hc & _)]; [done|]. by apply elem_of_nil in Hc. }
  apply Forall_cons in Hr as [Hc Hr].
  destruct (lookup_lt_is_Some_2 ngb c Hc) as [lc Hlc]. rewrite Hlc. simpl.
  destruct (IH (acc ++ lc) Hr) as (l & -> & Hiff).
  exists l. split; [done|]. intros q. rewrite Hiff, elem_of_app. split.
  - intros [[H|H]|(c' & lc' & Hc' & Hlc' & Hq)].
    + by left.
    + right. exists c, lc. split; [left|done].
    + right. exists c', lc'. split; [by right|done].
  - intros [H|(c' & lc' & Hc' & Hlc' & Hq)]; [by left; left|].
    apply elem_of_cons in Hc' as [->|Hc'].
    + rewrite Hlc in Hlc'. injection Hlc' as <-. left. by right.
    + right. by exists c', lc'.
Qed.

Lemma second_shell_spec ngb lp :
  Forall (λ c, c < length ngb) lp →
  ∃ l, second_shell ngb lp = Some l ∧ StronglySorted lt l ∧
       ∀ q, q ∈ l ↔ second_neighbour ngb lp q.
Proof.
  intros Hr. unfold second_shell.
  destruct (shell_loop_spec ngb lp [] Hr) as (l & -> & Hiff). simpl.
  destruct (unique_spec (list_sort l) (list_sort_sorted l)) as [Hs Hm].
  eexists. split; [done|]. split; [done|].
  intros q. rewrite Hm, list_sort_perm, Hiff. split; [|by right].
  intros [H|H]; [by apply elem_of_nil in H|done].
Qed.

Lemma insert_bonds_spec p qs : ∀ ret,
  NoDup ret →
  NoDup (foldl (λ ret q, BondSet_insert ret (Bond_of p q)) ret qs) ∧
  ∀ b, b ∈ foldl (λ ret q, BondSet_insert ret (Bond_of p q)) ret qs ↔
       b ∈ ret ∨ ∃ q, q ∈ qs ∧ b = Bond_of p q.
Proof.
  induction qs as [|q qs IH]; intros ret Hnd; simpl.
  { split; [done|]. intros b. split; [by left|].
    intros [H|(q & Hq & _)]; [done|]. by apply elem_of_nil in Hq. }
  destruct (IH (BondSet_insert ret (Bond_of p q))) as [Hnd' Hiff];
    [by apply NoDup_BondSet_insert|].
  split; [done|]. intros b. rewrite Hiff, elem_of_BondSet_insert. split.
  - intros [[H| ->]|(q' & Hq' & ->)]; [by left| |].
    + right. exists q. split; [left|done].
    + right. exists q'. split; [by right|done].
  - intros [H|(q' & Hq' & ->)]; [by left; left|].
    apply elem_of_cons in Hq' as [->|Hq']; [by left; right|].
    right. eauto.
Qed.

Lemma shell_bonds_loop_spec ngb rows : ∀ p ret,
  in_range_ngb ngb → (∀ k, rows !! k = ngb !! (p + k)) → NoDup ret →
  ∃ ret', shell_bonds_loop ngb p rows ret = Some ret' ∧ NoDup ret' ∧
    ∀ b, b ∈ ret' ↔
         b ∈ ret ∨ ∃ p' q lp, p ≤ p' ∧ b = mkBond p' q ∧ p' < q ∧
                              ngb !! p' = Some lp ∧ second_neighbour ngb lp q.
Proof.
  induction rows as [|lp rows IH]; intros p ret Hr Hrows Hnd; simpl.
  { exists ret. split; [done|]. split; [done|]. intros b. split; [by left|].
    intros [H|(p' & q & lp & Hp' & _ & _ & Hlp & _)]; [done|].
    specialize (Hrows (p' - p)). replace (p + (p' - p)) with p' in Hrows by lia.
    rewrite Hlp in Hrows. done. }
  assert (ngb !! p = Some lp) as Hlp.
  { specialize (Hrows 0). rewrite Nat.add_0_r in Hrows. done. }
  destruct (second_shell_spec ngb lp (Hr p lp Hlp)) as (l & -> & Hs & Hl). simpl.
  destruct (insert_bonds_spec p (lower_bound l (p + 1)) ret Hnd) as [Hnd1 H1].
  destruct (IH (S p) (foldl (λ ret q, BondSet_insert ret (Bond_of p q)) ret
                            (lower_bound l (p + 1))) Hr)
    as (ret' & -> & Hnd' & H2); [|done|].
  { intros k. specialize (Hrows (S k)). simpl in Hrows.
    by replace (S p + k) with (p + S k) by lia. }
  exists ret'. split; [done|]. split; [done|]. intros b. rewrite H2, H1.
  split.
  - intros [[H|(q & Hq & ->)]|(p' & q & lp' & Hp' & H)].
    + by left.
    + apply (elem_of_lower_bound _ _ _ Hs) in Hq as [Hq Hle].
      right. exists p, q, lp. split; [done|].
      split; [apply Bond_of_ordered; lia|]. split; [lia|]. split; [done|].
      by apply Hl.
    + right. exists p', q, lp'. split; [lia|done].
  - intros [H|(p' & q & lp' & Hp' & -> & Hpq & Hlp' & Hq)]; [by left; left|].
    destruct (decide (p' = p)) as [->|Hne].
    + rewrite Hlp in Hlp'. injection Hlp' as <-.
      left. right. exists q. split; [|by rewrite Bond_of_ordered].
      apply (elem_of_lower_bound _ _ _ Hs). split; [by apply Hl|lia].
    + right. exists p', q, lp'. split; [lia|done].
Qed.

(** X21.  [getSecondShell] returns, once each, the bonds [(p, q)] with
    [p < q] and [q] a neighbour of a neighbour of [p]; the rows need
    not be sorted. *)
Theorem getSecondShell_spec ngb :
  in_range_ngb ngb →
  ∃ ret, getSecondShell ngb = Some ret ∧ NoDup ret ∧
    ∀ p q, mkBond p q ∈ ret ↔
           p < q ∧ ∃ lp, ngb !! p = Some lp ∧ second_neighbour ngb lp q.
Proof.
  intros Hr. unfold getSecondShell.
  destruct (shell_bonds_loop_spec ngb ngb 0 [] Hr) as (ret & -> & Hnd & Hiff);
    [done|constructor|].
  exists ret. split; [done|]. split; [done|]. intros p q. rewrite Hiff. split.
  - intros [H|(p' & q' & lp & _ & [= <- <-] & H)]; [by apply elem_of_nil in H|].
    destruct H as (Hpq & Hlp & Hq). eauto.
  - intros (Hpq & lp & Hlp & Hq). right. exists p, q, lp. split; [lia|done].
Qed.

Lemma getSecondShell_spec_witness :
  ∃ ret, getSecondShell bipyramid = Some ret ∧ NoDup ret ∧
    ∀ p q, mkBond p q ∈ ret ↔
           p < q ∧ ∃ lp, bipyramid !! p = Some lp ∧ second_neighbour bipyramid lp q.
Proof.
  apply getSecondShell_spec.
  intros i l H.
  do 7 (destruct i as [|i];
        [injection H as <-; repeat (constructor; simpl; [lia|]); constructor|]).
  done.
Defined.

(** *** 2331 pairs and SP5c clusters *)

(** [p] and [q] are not bonded, [q] is in the second shell of [p],
    and their common neighbours are three and form a ring. *)
Definition is_2331 (ngb : NgbList) (p q : nat) : Prop :=
  ∃ lp lq, ngb !! p = Some lp ∧ ngb !! q = Some lq ∧
           p < q ∧ (q ∉ lp) ∧ second_neighbour ngb lp q ∧
           length (common_neighbours lp lq) = 3 ∧
           forms_ring ngb (common_neighbours lp lq).

(** The cluster [getSP5c] stores for the bond [(p, q)]. *)
Definition is_SP5c (ngb : NgbList) (cl : list nat) : Prop :=
  ∃ p q lp lq, ngb !! p = Some lp ∧ ngb !! q = Some lq ∧
               p < q ∧ q ∈ lp ∧
               length (common_neighbours lp lq) = 5 ∧
               cl = p :: q :: common_neighbours lp lq.

Section sorted.
Variable ngb : NgbList.
Hypothesis ngb_sorted : sorted_ngb ngb.

Lemma sorted_in_range : in_range_ngb ngb.
Proof. intros i l H. by destruct (ngb_sorted i l H). Qed.

Lemma pairs2331_of_spec p lp (good : nat → Prop) :
  ngb !! p = Some lp →
  ∀ qs ret, Forall (λ q, q < length ngb ∧ p < q ∧ good q) qs → NoDup ret →
  ∃ ret', pairs2331_of ngb p lp qs ret = Some ret' ∧ NoDup ret' ∧
    ∀ b, b ∈ ret' ↔
         b ∈ ret ∨
         ∃ q lq, q ∈ qs ∧ b = mkBond p q ∧ ngb !! q = Some lq ∧
                 length (common_neighbours lp lq) = 3 ∧
                 forms_ring ngb (common_neighbours lp lq).
Proof.
  intros Hlp. destruct (ngb_sorted p lp Hlp) as [Hsp Hrp].
  rewrite Forall_forall in Hrp.
  induction qs as [|q qs IH]; intros ret Hqs Hnd; simpl.
  { exists ret. split; [done|]. split; [done|]. intros b. split; [by left|].
    intros [H|(q & lq & Hq & _)]; [done|]. by apply elem_of_nil in Hq. }
  apply Forall_cons in Hqs as [(Hq & Hpq & _) Hqs].
  destruct (lookup_lt_is_Some_2 ngb q Hq) as [lq Hlq]. rewrite Hlq. simpl.
  destruct (ngb_sorted q lq Hlq) as [Hsq _].
  rewrite (set_intersection_spec lp lq Hsp Hsq).
  assert (Hkeep :
    ¬ (length (common_neighbours lp lq) = 3 ∧
       forms_ring ngb (common_neighbours lp lq)) →
    ∃ ret', pairs2331_of ngb p lp qs ret = Some ret' ∧ NoDup ret' ∧
      ∀ b, b ∈ ret' ↔
           b ∈ ret ∨
           ∃ q' lq', q' ∈ q :: qs ∧ b = mkBond p q' ∧ ngb !! q' = Some lq' ∧
                     length (common_neighbours lp lq') = 3 ∧
                     forms_ring ngb (common_neighbours lp lq')).
  { intros Hno. destruct (IH ret Hqs Hnd) as (ret' & -> & Hnd' & Hiff).
    exists ret'. split; [done|]. split; [done|]. intros b. rewrite Hiff.
    split; intros [H|(q' & lq' & Hq' & Hb & Hlq' & H3 & Hring)]; try (by left).
    - right. exists q', lq'. split; [by right|done].
    - apply elem_of_cons in Hq' as [->|Hq'].
      + rewrite Hlq in Hlq'. injection Hlq' as <-. by destruct Hno.
      + right. exists q', lq'. done. }
  destruct (length (common_neighbours lp lq) =? 3) eqn:E3; simpl.
  2:{ apply Nat.eqb_neq in E3. apply Hkeep. by intros [? _]. }
  apply Nat.eqb_eq in E3.
  destruct (is_ring_spec ngb ngb_sorted (common_neighbours lp lq)) as (r & -> & Hr).
  { by apply common_neighbours_sorted. }
  { apply Forall_forall. intros c Hc.
    apply list_elem_of_filter in Hc as [_ Hc]. by apply Hrp. }
  simpl. destruct r; simpl.
  2:{ apply Hkeep. intros [_ Hring]. apply Hr in Hring. done. }
  assert (forms_ring ngb (common_neighbours lp lq)) as Hring by (by apply Hr).
  destruct (IH (BondSet_insert ret (Bond_of p q)) Hqs)
    as (ret' & -> & Hnd' & Hiff); [by apply NoDup_BondSet_insert|].
  exists ret'. split; [done|]. split; [done|]. intros b.
  rewrite Hiff, elem_of_BondSet_insert, Bond_of_ordered by done.
  split.
  - intros [[H| ->]|(q' & lq' & Hq' & H)].
    + by left.
    + right. exists q, lq. split; [left|done].
    + right. exists q', lq'. split; [by right|done].
  - intros [H|(q' & lq' & Hq' & Hb & H)]; [by left; left|].
    apply elem_of_cons in Hq' as [->|Hq']; [by left; right|].
    right. exists q', lq'. done.
Qed.

Lemma pairs2331_loop_spec rows : ∀ p ret,
  (∀ k, rows !! k = ngb !! (p + k)) → NoDup ret →
  ∃ ret', pairs2331_loop ngb p rows ret = Some ret' ∧ NoDup ret' ∧
    ∀ b, b ∈ ret' ↔
         b ∈ ret ∨ ∃ p' q, p ≤ p' ∧ b = mkBond p' q ∧ is_2331 ngb p' q.
Proof.
  induction rows as [|lp rows IH]; intros p ret Hrows Hnd; simpl.
  { exists ret. split; [done|]. split; [done|]. intros b. split; [by left|].
    intros [H|(p' & q & Hp' & _ & (lp & _ & Hlp & _))]; [done|].
    specialize (Hrows (p' - p)). replace (p + (p' - p)) with p' in Hrows by lia.
    rewrite Hlp in Hrows. done. }
  assert (ngb !! p = Some lp) as Hlp.
  { specialize (Hrows 0). rewrite Nat.add_0_r in Hrows. done. }
  destruct (ngb_sorted p lp Hlp) as [Hsp Hrp].
  destruct (second_shell_spec ngb lp Hrp) as (l & -> & Hs & Hl). simpl.
  rewrite (set_difference_spec l lp Hs Hsp).
  assert (Hsf : StronglySorted lt (filter (λ x, x ∉ lp) l)).
  { clear -Hs. induction Hs as [|x l Hl IH Hx]; [constructor|].
    rewrite filter_cons. destruct (decide (x ∉ lp)); [|done].
    constructor; [done|]. apply Forall_forall. intros z Hz.
    apply list_elem_of_filter in Hz as [_ Hz].
    rewrite Forall_forall in Hx. by apply Hx. }
  destruct (pairs2331_of_spec p lp (λ q, (q ∉ lp) ∧ second_neighbour ngb lp q) Hlp
              (lower_bound (filter (λ x, x ∉ lp) l) (p + 1)) ret)
    as (ret1 & -> & Hnd1 & H1); [|done|].
  { apply Forall_forall. intros q Hq.
    apply (elem_of_lower_bound _ _ _ Hsf) in Hq as [Hq Hle].
    apply list_elem_of_filter in Hq as [Hq1 Hq2]. apply Hl in Hq2.
    split; [|split; [lia|done]].
    destruct Hq2 as (c & lc & _ & Hlc & Hq2).
    destruct (ngb_sorted c lc Hlc) as [_ Hrc].
    rewrite Forall_forall in Hrc. by apply Hrc. }
  simpl.
  destruct (IH (S p) ret1) as (ret' & -> & Hnd' & H2); [|done|].
  { intros k. specialize (Hrows (S k)). simpl in Hrows.
    by replace (S p + k) with (p + S k) by lia. }
  exists ret'. split; [done|]. split; [done|]. intros b. rewrite H2, H1.
  split.
  - intros [[H|(q & lq & Hq & Hb & Hlq & H3 & Hring)]|(p' & q & Hp' & Hb & H)].
    + by left.
    + apply (elem_of_lower_bound _ _ _ Hsf) in Hq as [Hq Hle].
      apply list_elem_of_filter in Hq as [Hq1 Hq2]. apply Hl in Hq2.
      right. exists p, q. split; [done|]. split; [done|].
      exists lp, lq. repeat split; try done. lia.
    + right. exists p', q. split; [lia|done].
  - intros [H|(p' & q & Hp' & Hb & H)]; [by left; left|].
    destruct (decide (p' = p)) as [->|Hne].
    + left. right.
      destruct H as (lp' & lq & Hlp' & Hlq & Hpq & Hnot & Hsec & H3 & Hring).
      rewrite Hlp in Hlp'. injection Hlp' as <-.
      exists q, lq. split; [|done].
      apply (elem_of_lower_bound _ _ _ Hsf). split; [|lia].
      apply list_elem_of_filter. split; [done|]. by apply Hl.
    + right. exists p', q. split; [lia|done].
Qed.

(** X22.  On a sorted neighbour list [get2331pairs] returns, once each,
    exactly the pairs [(p, q)] with [p < q] that are not bonded, have
    [q] in the second shell of [p], and whose common neighbours are
    three and form a ring. *)
Theorem get2331pairs_spec :
  ∃ ret, get2331pairs ngb = Some ret ∧ NoDup ret ∧
         ∀ p q, mkBond p q ∈ ret ↔ is_2331 ngb p q.
Proof.
  unfold get2331pairs.
  destruct (pairs2331_loop_spec ngb 0 []) as (ret & -> & Hnd & Hiff);
    [done|constructor|].
  exists ret. split; [done|]. split; [done|]. intros p q. rewrite Hiff. split.
  - intros [H|(p' & q' & _ & [= <- <-] & H)]; [by apply elem_of_nil in H|done].
  - intros H. right. exists p, q. split; [lia|done].
Qed.

Lemma sp5c_of_spec p lp :
  ngb !! p = Some lp →
  ∀ qs SP5c, Forall (λ q, q ∈ lp ∧ p < q) qs →
  ∃ sp, sp5c_of ngb p lp qs SP5c = Some sp ∧ SP5c `prefix_of` sp ∧
    ∀ cl, cl ∈ sp ↔
          cl ∈ SP5c ∨
          ∃ q lq, q ∈ qs ∧ ngb !! q = Some lq ∧
                  length (common_neighbours lp lq) = 5 ∧
                  cl = p :: q :: common_neighbours lp lq.
Proof.
  intros Hlp. destruct (ngb_sorted p lp Hlp) as [Hsp Hrp].
  rewrite Forall_forall in Hrp.
  induction qs as [|q qs IH]; intros SP5c Hqs; simpl.
  { exists SP5c. split; [done|]. split; [done|]. intros cl. split; [by left|].
    intros [H|(q & lq & Hq & _)]; [done|]. by apply elem_of_nil in Hq. }
  apply Forall_cons in Hqs as [[Hq Hpq] Hqs].
  destruct (lookup_lt_is_Some_2 ngb q (Hrp q Hq)) as [lq Hlq]. rewrite Hlq. simpl.
  destruct (ngb_sorted q lq Hlq) as [Hsq _].
  rewrite (set_intersection_spec lp lq Hsp Hsq).
  destruct (length (common_neighbours lp lq) =? 5) eqn:E5.
  - apply Nat.eqb_eq in E5.
    destruct (IH (SP5c ++ [p :: q :: common_neighbours lp lq]) Hqs)
      as (sp & -> & Hpre & Hiff).
    exists sp. split; [done|]. split.
    { etrans; [|exact Hpre]. by apply prefix_app_r. }
    intros cl. rewrite Hiff, elem_of_app, list_elem_of_singleton. split.
    + intros [[H| ->]|(q' & lq' & Hq' & H)].
      * by left.
      * right. exists q, lq. split; [left|done].
      * right. exists q', lq'. split; [by right|done].
    + intros [H|(q' & lq' & Hq' & Hlq' & H5 & ->)]; [by left; left|].
      apply elem_of_cons in Hq' as [->|Hq'].
      * rewrite Hlq in Hlq'. injection Hlq' as <-. left. by right.
      * right. exists q', lq'. done.
  - apply Nat.eqb_neq in E5.
    destruct (IH SP5c Hqs) as (sp & -> & Hpre & Hiff).
    exists sp. split; [done|]. split; [done|].
    intros cl. rewrite Hiff. split.
    + intros [H|(q' & lq' & Hq' & H)]; [by left|].
      right. exists q', lq'. split; [by right|done].
    + intros [H|(q' & lq' & Hq' & Hlq' & H5 & ->)]; [by left|].
      apply elem_of_cons in Hq' as [->|Hq'].
      * rewrite Hlq in Hlq'. injection Hlq' as <-. done.
      * right. exists q', lq'. done.
Qed.

Lemma sp5c_loop_spec rows : ∀ p SP5c,
  (∀ k, rows !! k = ngb !! (p + k)) →
  ∃ sp, sp5c_loop ngb p rows SP5c = Some sp ∧ SP5c `prefix_of` sp ∧
    ∀ cl, cl ∈ sp ↔
          cl ∈ SP5c ∨
          ∃ p' q lp lq, p ≤ p' ∧ ngb !! p' = Some lp ∧ ngb !! q = Some lq ∧
                        p' < q ∧ q ∈ lp ∧
                        length (common_neighbours lp lq) = 5 ∧
                        cl = p' :: q :: common_neighbours lp lq.
Proof.
  induction rows as [|lp rows IH]; intros p SP5c Hrows; simpl.
  { exists SP5c. split; [done|]. split; [done|]. intros cl. split; [by left|].
    intros [H|(p' & q & lp & lq & Hp' & Hlp & _)]; [done|].
    specialize (Hrows (p' - p)). replace (p + (p' - p)) with p' in Hrows by lia.
    rewrite Hlp in Hrows. done. }
  assert (ngb !! p = Some lp) as Hlp.
  { specialize (Hrows 0). rewrite Nat.add_0_r in Hrows. done. }
  destruct (ngb_sorted p lp Hlp) as [Hsp _].
  destruct (sp5c_of_spec p lp Hlp (lower_bound lp (p + 1)) SP5c)
    as (sp1 & -> & Hpre1 & H1).
  { apply Forall_forall. intros q Hq.
    apply (elem_of_lower_bound _ _ _ Hsp) in Hq as [Hq Hle]. split; [done|lia]. }
  simpl.
  destruct (IH (S p) sp1) as (sp & -> & Hpre & H2).
  { intros k. specialize (Hrows (S k)). simpl in Hrows.
    by replace (S p + k) with (p + S k) by lia. }
  exists sp. split; [done|]. split; [by etrans|].
  intros cl. rewrite H2, H1. split.
  - intros [[H|(q & lq & Hq & Hlq & H5 & ->)]|(p' & q & lp' & lq & Hp' & H)].
    + by left.
    + apply (elem_of_lower_bound _ _ _ Hsp) in Hq as [Hq Hle].
      right. exists p, q, lp, lq. repeat split; try done. lia.
    + right. exists p', q, lp', lq. split; [lia|done].
  - intros [H|(p' & q & lp' & lq & Hp' & Hlp' & Hlq & Hpq & Hq & H5 & ->)];
      [by left; left|].
    destruct (decide (p' = p)) as [->|Hne].
    + rewrite Hlp in Hlp'. injection Hlp' as <-.
      left. right. exists q, lq. split; [|done].
      apply (elem_of_lower_bound _ _ _ Hsp). split; [done|lia].
    + right. exists p', q, lp', lq. split; [lia|done].
Qed.

(** X23.  On a sorted neighbour list [getSP5c] keeps the clusters it was
    given and adds, for every bond [(p, q)], [p < q], that has five
    common neighbours, the cluster [p, q, common neighbours]; every
    1551 pair is the axis of one of them. *)
Theorem getSP5c_spec SP5c :
  ∃ sp, getSP5c ngb SP5c = Some sp ∧ SP5c `prefix_of` sp ∧
    (∀ cl, cl ∈ sp ↔ cl ∈ SP5c ∨ is_SP5c ngb cl) ∧
    (∀ p q, is_1551 ngb p q → ∃ ring, length ring = 5 ∧ (p :: q :: ring) ∈ sp).
Proof.
  unfold getSP5c.
  destruct (sp5c_loop_spec ngb 0 SP5c) as (sp & -> & Hpre & Hiff); [done|].
  exists sp. split; [done|]. split; [done|].
  assert (Hall : ∀ cl, cl ∈ sp ↔ cl ∈ SP5c ∨ is_SP5c ngb cl).
  { intros cl. rewrite Hiff. unfold is_SP5c. split.
    - intros [H|(p & q & lp & lq & _ & H)]; [by left|]. right. by exists p, q, lp, lq.
    - intros [H|(p & q & lp & lq & H)]; [by left|].
      right. exists p, q, lp, lq. split; [lia|done]. }
  split; [done|].
  intros p q (lp & lq & Hlp & Hlq & Hpq & Hq & H5 & _).
  exists (common_neighbours lp lq). split; [done|].
  apply Hall. right. by exists p, q, lp, lq.
Qed.

End sorted.

(** *** From a neighbour list to its bonds, and back *)

Lemma ngb2bonds_loop_spec rows : ∀ p bonds,
  Forall (StronglySorted lt) rows → NoDup bonds →
  NoDup (ngb2bonds_loop p rows bonds) ∧
  ∀ b, b ∈ ngb2bonds_loop p rows bonds ↔
       b ∈ bonds ∨
       ∃ k lp q, rows !! k = Some lp ∧ q ∈ lp ∧ p + k < q ∧ b = mkBond (p + k) q.
Proof.
  induction rows as [|lp rows IH]; intros p bonds Hs Hnd; simpl.
  { split; [done|]. intros b. split; [by left|].
    intros [H|(k & lp & q & Hk & _)]; [done|]. done. }
  apply Forall_cons in Hs as [Hlp Hs].
  destruct (insert_bonds_spec p (lower_bound lp (p + 1)) bonds Hnd) as [Hnd1 H1].
  destruct (IH (S p) _ Hs Hnd1) as [Hnd2 H2].
  split; [done|]. intros b. rewrite H2, H1. split.
  - intros [[H|(q & Hq & ->)]|(k & lp' & q & Hk & Hq & Hlt & ->)].
    + by left.
    + apply (elem_of_lower_bound _ _ _ Hlp) in Hq as [Hq Hle].
      right. exists 0, lp, q. rewrite Nat.add_0_r.
      split; [done|]. split; [done|]. split; [lia|apply Bond_of_ordered; lia].
    + right. exists (S k), lp', q. split; [done|]. split; [done|].
      replace (p + S k) with (S p + k) by lia. done.
  - intros [H|(k & lp' & q & Hk & Hq & Hlt & ->)]; [by left; left|].
    destruct k as [|k]; simpl in Hk.
    + injection Hk as <-. rewrite Nat.add_0_r in *. left. right.
      exists q. split; [|by rewrite Bond_of_ordered].
      apply (elem_of_lower_bound _ _ _ Hlp). split; [done|lia].
    + right. exists k, lp', q. split; [done|]. split; [done|].
      replace (S p + k) with (p + S k) by lia. done.
Qed.

Lemma elem_of_ngb2bonds ngb :
  (∀ i l, ngb !! i = Some l → StronglySorted lt l) →
  NoDup (ngb2bonds ngb) ∧
  ∀ p q, mkBond p q ∈ ngb2bonds ngb ↔ p < q ∧ nb ngb p q.
Proof.
  intros Hs. unfold ngb2bonds.
  destruct (ngb2bonds_loop_spec ngb 0 []) as [Hnd Hiff]; [|constructor|].
  { apply Forall_forall. intros l Hl.
    apply list_elem_of_lookup_1 in Hl as [i Hi]. by eapply Hs. }
  split; [done|]. intros p q. rewrite Hiff. unfold nb. split.
  - intros [H|(k & lp & q' & Hk & Hq & Hlt & [= -> ->])]; [by apply elem_of_nil in H|].
    simpl in *. split; [done|]. eauto.
  - intros (Hpq & lp & Hlp & Hq). right. exists p, lp, q. done.
Qed.

(** X24.  With ascending rows, [ngb2bonds] returns each bond once: the pairs
    [(p, q)] with [p < q] and [q] a neighbour of [p]. *)
Theorem ngb2bonds_spec ngb :
  (∀ i l, ngb !! i = Some l → StronglySorted lt l) →
  NoDup (ngb2bonds ngb) ∧
  ∀ p q, mkBond p q ∈ ngb2bonds ngb ↔ p < q ∧ nb ngb p q.
Proof. apply elem_of_ngb2bonds. Qed.

Lemma bonds_loop_content bonds : ∀ ngb,
  Forall (λ b, low b < length ngb ∧ high b < length ngb) bonds →
  ∃ ngb', Parts.bonds_loop ngb bonds = Ret ngb' ∧ length ngb' = length ngb ∧
    ∀ i j, nb ngb' i j ↔
           nb ngb i j ∨
           ∃ b, b ∈ bonds ∧ ((i = low b ∧ j = high b) ∨ (i = high b ∧ j = low b)).
Proof.
  induction bonds as [|b bonds IH]; intros ngb Hr; simpl.
  { exists ngb. split; [done|]. split; [done|]. intros i j. split; [by left|].
    intros [H|(b & Hb & _)]; [done|]. by apply elem_of_nil in Hb. }
  apply Forall_cons in Hr as [[Hlo Hhi] Hr].
  destruct (append_ngb_spec ngb (low b) (high b) Hlo) as (ngb1 & -> & Hl1 & H1).
  simpl.
  destruct (append_ngb_spec ngb1 (high b) (low b)) as (ngb2 & -> & Hl2 & H2);
    [by rewrite Hl1|].
  simpl.
  destruct (IH ngb2) as (ngb' & -> & Hl' & H').
  { by rewrite Hl2, Hl1. }
  exists ngb'. split; [done|]. split; [by rewrite Hl', Hl2, Hl1|].
  intros i j. rewrite H', H2, H1. split.
  - intros [[[H|H]|H]|(b' & Hb' & H)].
    + by left.
    + right. exists b. split; [left|by left].
    + right. exists b. split; [left|by right].
    + right. exists b'. split; [by right|done].
  - intros [H|(b' & Hb' & H)]; [by left; left; left|].
    apply elem_of_cons in Hb' as [->|Hb'].
    + destruct H as [H|H]; [left; left; by right|left; by right].
    + right. eauto.
Qed.

(** X25.  A neighbour list that is sorted, symmetric and without
    self-neighbours is recovered from its own bonds: [makeNgbList(bonds)]
    on [ngb2bonds(ngb)], in whatever order the bonds are visited, gives
    every particle the neighbours it had. *)
Theorem ngb2bonds_round_trip ps ngb bonds :
  sorted_ngb ngb → size ps = length ngb →
  (∀ i j, nb ngb i j → nb ngb j i) → (∀ i, ¬ nb ngb i i) →
  bonds ≡ₚ ngb2bonds ngb →
  ∃ ngb', makeNgbList_bonds ps bonds = Ret (with_ngb ps ngb') ∧
          length ngb' = length ngb ∧
          ∀ i j, nb ngb' i j ↔ nb ngb i j.
Proof.
  intros Hs Hsz Hsym Hirr Hperm.
  destruct (elem_of_ngb2bonds ngb) as [_ Hb]; [intros i l H; by destruct (Hs i l H)|].
  assert (Hin : ∀ i j, nb ngb i j → i < length ngb ∧ j < length ngb).
  { intros i j (l & Hl & Hj). split; [by eapply lookup_lt_Some|].
    destruct (Hs i l Hl) as [_ Hr]. rewrite Forall_forall in Hr. by apply Hr. }
  unfold makeNgbList_bonds.
  destruct (bonds_loop_content bonds (replicate (size ps) []))
    as (ngb' & -> & Hlen & Hnb).
  { apply Forall_forall. intros [p q] Hpq. rewrite Hperm in Hpq.
    apply Hb in Hpq as [_ Hpq]. rewrite length_replicate, Hsz. simpl.
    by apply Hin. }
  exists ngb'. split; [done|]. split; [by rewrite Hlen, length_replicate|].
  intros i j. rewrite Hnb. split.
  - intros [(l & Hl & Hj)|([p q] & Hpq & H)].
    + apply lookup_replicate in Hl as [-> _]. by apply elem_of_nil in Hj.
    + rewrite Hperm in Hpq. apply Hb in Hpq as [_ Hpq]. simpl in H.
      destruct H as [[-> ->]|[-> ->]]; [done|by apply Hsym].
  - intros H. right. destruct (Nat.lt_trichotomy i j) as [Hlt|[->|Hgt]].
    + exists (mkBond i j). split; [|by left]. rewrite Hperm. by apply Hb.
    + by destruct (Hirr j).
    + exists (mkBond j i). split; [|by right]. rewrite Hperm.
      apply Hb. split; [done|]. by apply Hsym.
Qed.

(** *** On the pentagonal bipyramid *)

Lemma bipyramid_sorted : sorted_ngb bipyramid.
Proof.
  intros i l H.
  do 7 (destruct i as [|i];
        [injection H as <-; split; repeat (constructor; simpl); lia|]).
  done.
Qed.

Lemma get2331pairs_spec_witness :
  ∃ ret, get2331pairs bipyramid = Some ret ∧ NoDup ret ∧
         ∀ p q, mkBond p q ∈ ret ↔ is_2331 bipyramid p q.
Proof. apply get2331pairs_spec, bipyramid_sorted. Defined.

Lemma getSP5c_spec_witness :
  ∃ sp, getSP5c bipyramid [] = Some sp ∧ [] `prefix_of` sp ∧
    (∀ cl, cl ∈ sp ↔ cl ∈ [] ∨ is_SP5c bipyramid cl) ∧
    (∀ p q, is_1551 bipyramid p q →
            ∃ ring, length ring = 5 ∧ (p :: q :: ring) ∈ sp).
Proof. apply getSP5c_spec, bipyramid_sorted. Defined.

Lemma ngb2bonds_spec_witness :
  NoDup (ngb2bonds bipyramid) ∧
  ∀ p q, mkBond p q ∈ ngb2bonds bipyramid ↔ p < q ∧ nb bipyramid p q.
Proof.
  apply ngb2bonds_spec. intros i l H. by destruct (bipyramid_sorted i l H).
Defined.

Example bipyramid_SP5c : getSP5c bipyramid [] = Some [[0; 1; 2; 3; 4; 5; 6]].
Proof. vm_compute. reflexivity. Qed.

Lemma ngb2bonds_round_trip_witness :
  ∃ ngb', makeNgbList_bonds pair (ngb2bonds [[1]; [0]]) = Ret (with_ngb pair ngb') ∧
          length ngb' = length [[1]; [0]] ∧
          ∀ i j, nb ngb' i j ↔ nb [[1]; [0]] i j.
Proof.
  apply ngb2bonds_round_trip.
  - intros i l H.
    do 2 (destruct i as [|i];
          [injection H as <-; split; repeat (constructor; simpl); lia|]).
    done.
  - reflexivity.
  - intros i j (l & Hl & Hj).
    destruct i as [|[|i]]; simpl in Hl; try done; injection Hl as <-;
      apply list_elem_of_singleton in Hj as ->;
      eexists; (split; [reflexivity|left]).
  - intros i (l & Hl & Hj).
    destruct i as [|[|i]]; simpl in Hl; try done; injection Hl as <-;
      apply list_elem_of_singleton in Hj; done.
  - reflexivity.
Defined.

End TopoShells.

(** ** Bond-orientational order: selections and isolated particles *)

Module BooSelections.
Import Parts Topo Boo TopoFacts BooFacts TopoShells.

Section boo.
Variable sph : nat → nat → BooData.

(** *** [getBOOs(selection, BOO)] *)

Lemma length_resize n BOO : length (resize n BOO) = n.
Proof.
  unfold resize. rewrite length_app, length_take, length_replicate. lia.
Qed.

Lemma select_steps ngb size selection : ∀ acc,
  length acc = size →
  Forall (λ p, p < size ∧ p < length ngb) selection →
  ∃ out, foldl (select_step sph ngb) (Some acc) selection = Some out ∧
         length out = size ∧
         ∀ i, (i ∈ selection → out !! i = getBOO sph ngb i) ∧
              (i ∉ selection → out !! i = acc !! i).
Proof.
  induction selection as [|p rest IH]; intros acc Hlen Hsel; simpl.
  { exists acc. split; [done|]. split; [done|]. intros i. split; [|done].
    intros H. by apply elem_of_nil in H. }
  apply Forall_cons in Hsel as [[Hp Hpn] Hsel].
  destruct (lookup_lt_is_Some_2 ngb p Hpn) as [lp Hlp].
  assert (∃ b, getBOO sph ngb p = Some b) as [b Hb].
  { unfold getBOO. rewrite Hlp. simpl. destruct (0 <? length lp); eauto. }
  destruct (lookup_lt_is_Some_2 acc p) as [old Hold]; [lia|].
  rewrite Hb, Hold. simpl.
  destruct (IH (<[p := b]> acc)) as (out & -> & Hout & Hi);
    [by rewrite length_insert|done|].
  exists out. split; [done|]. split; [done|]. intros i. split.
  - intros Hin. destruct (decide (i ∈ rest)) as [Hr|Hr]; [by apply Hi|].
    apply elem_of_cons in Hin as [->|Hin]; [|done].
    rewrite (proj2 (Hi p) Hr), list_lookup_insert_eq by lia. done.
  - intros Hin. apply not_elem_of_cons in Hin as [Hne Hin].
    rewrite (proj2 (Hi i) Hin), list_lookup_insert_ne by done. done.
Qed.

(** X26.  [getBOOs(selection, BOO)] gives every selected particle the
    descriptor [getBOO] computes for it and leaves the others with what
    [BOO] held, or with zero where [BOO] was too short. *)
Theorem getBOOs_selection_spec size ngb selection BOO :
  Forall (λ p, p < size ∧ p < length ngb) selection →
  ∃ out, getBOOs_selection sph size ngb selection BOO = Some out ∧
         length out = size ∧
         ∀ i, (i ∈ selection → out !! i = getBOO sph ngb i) ∧
              (i ∉ selection → i < size →
               out !! i = Some (default BooData_zero (BOO !! i))).
Proof.
  intros Hsel. unfold getBOOs_selection.
  destruct (select_steps ngb size selection (resize size BOO)
              (length_resize size BOO) Hsel) as (out & -> & Hlen & Hi).
  exists out. split; [done|]. split; [done|]. intros i. split; [apply Hi|].
  intros Hin Hlt. rewrite (proj2 (Hi i) Hin). unfold resize.
  destruct (BOO !! i) as [b|] eqn:E; simpl.
  - apply lookup_app_l_Some. rewrite lookup_take_lt by done. done.
  - apply lookup_ge_None in E.
    rewrite lookup_app_r; rewrite length_take; [|lia].
    apply lookup_replicate_2. lia.
Qed.

(** *** [getSurfBOOs] on an isolated particle *)

Lemma set_intersection_sub a : ∀ b x, x ∈ set_intersection a b → x ∈ a.
Proof.
  induction a as [|y a IHa]; intros b x; [done|].
  induction b as [|z b IHb].
  { rewrite set_intersection_nil_r. intros H. by apply elem_of_nil in H. }
  rewrite set_intersection_cons.
  destruct (y <? z); [|destruct (z <? y)].
  - intros H. right. by eapply IHa.
  - done.
  - intros H. apply elem_of_cons in H as [->|H]; [left|right; by eapply IHa].
Qed.

Section isolated.
Variables (size i : nat).

Definition sized (acc : list BooData * list nat) : Prop :=
  length acc.1 = size ∧ length acc.2 = size.

Lemma accumulate_sized acc j s :
  sized acc → j < size →
  ∃ acc', accumulate acc j s = Some acc' ∧ sized acc' ∧
          (j ≠ i → untouched i acc → untouched i acc').
Proof.
  intros [H1 H2] Hj. unfold accumulate.
  destruct (lookup_lt_is_Some_2 acc.1 j) as [b Hb]; [lia|].
  destruct (lookup_lt_is_Some_2 acc.2 j) as [n Hn]; [lia|].
  rewrite Hb, Hn. simpl. eexists. split; [done|]. split.
  - split; simpl; by rewrite length_insert.
  - intros Hne [U1 U2]. split; simpl; by rewrite list_lookup_insert_ne.
Qed.

Lemma accumulate_all s cs : ∀ acc,
  sized acc → Forall (λ c, c < size) cs → i ∉ cs →
  ∃ acc', foldl (λ a c, a ≫= λ a', accumulate a' c s) (Some acc) cs = Some acc' ∧
          sized acc' ∧ (untouched i acc → untouched i acc').
Proof.
  induction cs as [|c cs IH]; intros acc Hs Hr Hi; simpl.
  { by exists acc. }
  apply Forall_cons in Hr as [Hc Hr]. apply not_elem_of_cons in Hi as [Hne Hi].
  destruct (accumulate_sized acc c s Hs Hc) as (acc1 & -> & Hs1 & Hu1). simpl.
  destruct (IH acc1 Hs1 Hr Hi) as (acc' & -> & Hs' & Hu').
  exists acc'. split; [done|]. split; [done|]. intros Hu. apply Hu', Hu1; done.
Qed.

Variable ngb : NgbList.
Hypothesis ngb_range : in_range_ngb ngb.
Hypothesis ngb_size : length ngb ≤ size.
Hypothesis i_alone : ∀ p l, ngb !! p = Some l → i ∉ l.

Lemma surf_bonds_of_spec p lp qs : ∀ acc,
  ngb !! p = Some lp → p ≠ i ∨ qs = [] → (∀ q, q ∈ qs → q ∈ lp) → sized acc →
  ∃ acc', surf_bonds_of sph ngb p lp qs acc = Some acc' ∧ sized acc' ∧
          (untouched i acc → untouched i acc').
Proof.
  intros acc Hlp. revert acc.
  pose proof (ngb_range p lp Hlp) as Hrp. rewrite Forall_forall in Hrp.
  assert (Hpn : p < size).
  { apply lookup_lt_Some in Hlp. lia. }
  induction qs as [|q qs IH]; intros acc Hp Hqs Hs; simpl.
  { by exists acc. }
  destruct Hp as [Hp|Hp]; [|done].
  assert (q ∈ lp) as Hq by (apply Hqs; left).
  destruct (accumulate_sized acc p (sph p q) Hs Hpn) as (acc1 & -> & Hs1 & Hu1).
  simpl.
  destruct (accumulate_sized acc1 q (sph p q) Hs1) as (acc2 & -> & Hs2 & Hu2).
  { pose proof (Hrp q Hq). lia. }
  simpl.
  destruct (lookup_lt_is_Some_2 ngb q (Hrp q Hq)) as [lq Hlq]. rewrite Hlq. simpl.
  destruct (accumulate_all (sph p q) (set_intersection lp lq) acc2 Hs2)
    as (acc3 & -> & Hs3 & Hu3).
  { apply Forall_forall. intros c Hc. apply set_intersection_sub in Hc.
    pose proof (Hrp c Hc). lia. }
  { intros Hc. apply set_intersection_sub in Hc. by apply (i_alone p lp). }
  simpl.
  destruct (IH acc3) as (acc' & -> & Hs' & Hu'); [by left| |done|].
  { intros q' Hq'. apply Hqs. by right. }
  exists acc'. split; [done|]. split; [done|]. intros Hu.
  apply Hu', Hu3, Hu2, Hu1; try done.
  intros ->. by apply (i_alone p lp).
Qed.

Lemma surf_bonds_loop_spec rows : ∀ p acc,
  (∀ k, rows !! k = ngb !! (p + k)) → ngb !! i = Some [] → sized acc →
  ∃ acc', surf_bonds_loop sph ngb p rows acc = Some acc' ∧ sized acc' ∧
          (untouched i acc → untouched i acc').
Proof.
  induction rows as [|lp rows IH]; intros p acc Hrows Hi Hs; simpl.
  { by exists acc. }
  assert (ngb !! p = Some lp) as Hlp.
  { specialize (Hrows 0). rewrite Nat.add_0_r in Hrows. done. }
  destruct (surf_bonds_of_spec p lp (lower_bound lp (p + 1)) acc Hlp)
    as (acc1 & -> & Hs1 & Hu1); [| |done|].
  { destruct (decide (p = i)) as [->|Hne]; [|by left].
    right. rewrite Hi in Hlp. by injection Hlp as <-. }
  { intros q. apply lower_bound_sub. }
  simpl.
  destruct (IH (S p) acc1) as (acc' & -> & Hs' & Hu'); [|done..|].
  { intros k. specialize (Hrows (S k)). simpl in Hrows.
    by replace (S p + k) with (p + S k) by lia. }
  exists acc'. split; [done|]. split; [done|]. intros Hu. by apply Hu', Hu1.
Qed.

(** X27.  [getSurfBOOs] guards its division: a particle that has no
    neighbour and is nobody's neighbour keeps the zero descriptor, and
    the function returns whenever the neighbour list names existing
    particles only. *)
Theorem getSurfBOOs_isolated :
  i < size → ngb !! i = Some [] →
  ∃ BOO, getSurfBOOs sph size ngb [] = Some BOO ∧ length BOO = size ∧
         BOO !! i = Some BooData_zero.
Proof.
  intros Hlt Hi. unfold getSurfBOOs.
  destruct (surf_bonds_loop_spec ngb 0 (resize size [], replicate size 0))
    as (acc & -> & [Hs1 Hs2] & Hu); [done|done| |].
  { split; simpl; [apply length_resize|apply length_replicate]. }
  simpl. eexists. split; [done|]. split.
  - rewrite length_zip_with. lia.
  - destruct Hu as [U1 U2].
    { split; simpl.
      - unfold resize. simpl. rewrite take_nil. simpl.
        rewrite Nat.sub_0_r. by apply lookup_replicate_2.
      - by apply lookup_replicate_2. }
    rewrite lookup_zip_with, U1. simpl. rewrite U2. done.
Qed.

End isolated.

End boo.

Lemma getBOOs_selection_spec_witness :
  ∃ out, getBOOs_selection (λ _ _, BooData_zero) 3 lonely [0; 2] [] = Some out ∧
         length out = 3 ∧
         ∀ i, (i ∈ [0; 2] → out !! i = getBOO (λ _ _, BooData_zero) lonely i) ∧
              (i ∉ [0; 2] → i < 3 →
               out !! i = Some (default BooData_zero ([] !! i))).
Proof.
  apply getBOOs_selection_spec.
  repeat constructor; simpl; lia.
Defined.

Lemma getSurfBOOs_isolated_witness :
  ∃ BOO, getSurfBOOs (λ _ _, BooData_zero) 3 lonely [] = Some BOO ∧
         length BOO = 3 ∧ BOO !! 2 = Some BooData_zero.
Proof.
  apply getSurfBOOs_isolated.
  - intros p l H.
    do 3 (destruct p as [|p];
          [injection H as <-; repeat (constructor; simpl; [lia|]); constructor|]).
    done.
  - simpl. lia.
  - intros p l H Hin.
    do 3 (destruct p as [|p];
          [injection H as <-;
           repeat (apply elem_of_cons in Hin as [Hin|Hin]; [done|]);
           by apply elem_of_nil in Hin|]).
    done.
  - lia.
  - reflexivity.
Defined.

End BooSelections.

(** ** The programs [linkboo] and [boo] *)

Module MainsFacts.

(** *** linkboo: the first minimum of the radial distribution *)
Import Mains.









(** A distribution that falls to zero after its peak: the loop spins. *)
Example first_minimum_spins : first_minimum [0; 3; 1; 0; 2]%Q 1000 = None.
Proof. vm_compute. reflexivity. Qed.

Example first_minimum_example : first_minimum [0; 3; 1; 2]%Q 0 = Some 2.
Proof. vm_compute. reflexivity. Qed.

(** *** boo: the three files of invariants *)

Lemma export_cloud_lines exp qlm : ∀ out,
  is_open out = true →
  is_open (export_cloud exp out qlm) = true ∧
  lines (export_cloud exp out qlm) = lines out ++ (exp <$> qlm).
Proof.
  unfold export_cloud.
  induction qlm as [|boo qlm IH]; intros out Ho; simpl.
  { by rewrite app_nil_r. }
  destruct (IH (put_line out (exp boo))) as [H1 H2].
  { unfold put_line. by rewrite Ho. }
  split; [done|]. rewrite H2. unfold put_line. rewrite Ho. simpl.
  by rewrite <- app_assoc.
Qed.

(** X29.  At the end of [boo], the file of invariants and the file of
    coarse-grained invariants receive the header line and then one line
    per descriptor.  The file of the invariants with surface bonds
    receives no header: its header is sent to the stream of the second
    file, which is closed by then; it holds the lines of the descriptors
    only, and the second file is not changed by that write. *)
Theorem surf_cloud_without_header exp qlm qlm_cg qlm_sf :
  let '(cloudFile, cloud_cgFile, cloud_sfFile) :=
    export_clouds exp qlm qlm_cg qlm_sf in
  lines cloudFile = header :: (exp <$> qlm) ∧
  lines cloud_cgFile = header :: (exp <$> qlm_cg) ∧
  lines cloud_sfFile = exp <$> qlm_sf ∧
  length (lines cloud_sfFile) = length qlm_sf.
Proof.
  unfold export_clouds. simpl.
  destruct (export_cloud_lines exp qlm (put_line ofstream_new header) eq_refl)
    as [_ H1].
  destruct (export_cloud_lines exp qlm_cg (put_line ofstream_new header) eq_refl)
    as [_ H2].
  destruct (export_cloud_lines exp qlm_sf ofstream_new eq_refl) as [_ H3].
  rewrite H1, H2, H3. simpl. by rewrite length_fmap.
Qed.

End MainsFacts.

